(** * p-graph: the flat-buffer adjacency list

    A shallow embedding of [AdjacencyList], [SharedTypeMap], [NodeTypeMap] and
    [EdgeTypeMap] (src/AdjacencyList.ts) and of [hash32shift] (src/share.ts),
    followed by the properties of the specification that are checked against
    them.

    Numbers are modelled by [Z].  A typed array is a list of words together
    with its element kind; a store wraps modulo the element width, a store
    outside the array is dropped and a load outside the array is [None]
    (JavaScript's [undefined]).  A JavaScript exception is a [Throw]
    completion; the receiver keeps whatever was written before the throw. *)

From Stdlib Require Import ZArith List Lia Bool QArith Qround Qminmax FinFun Lqa.

Import ListNotations.
Open Scope Z_scope.

(** ** Completions *)

Inductive Error :=
| UnsupportedEdgeType
| NodeCapacityOverflow
| EdgeCapacityOverflow
| EdgeMismatch
| InvalidNodeId
| InvalidEdgeHash
| DataCorrupt
| SmallerCapacity
| UnexpectedNull
| DuplicateNode
| RangeError.

(** [Diverge] stands for a loop of the source that does not terminate (a
    bucket chain that runs into a cycle). *)
Inductive Completion (A : Type) :=
| Return (a : A)
| Throw (e : Error)
| Diverge.
Arguments Return {A} a.
Arguments Throw {A} e.
Arguments Diverge {A}.

Definition bindC {A B} (c : Completion A) (k : A -> Completion B) : Completion B :=
  match c with
  | Return a => k a
  | Throw e => Throw e
  | Diverge => Diverge
  end.

Notation "x <- c ;; k" := (bindC c (fun x => k))
  (at level 61, c at next level, right associativity).

(** ** Typed arrays *)

Inductive TypedArrayConstructor := Uint8Array | Uint16Array | Uint32Array.

Definition BYTES_PER_ELEMENT (c : TypedArrayConstructor) : Z :=
  match c with Uint8Array => 1 | Uint16Array => 2 | Uint32Array => 4 end.

Definition modulus (c : TypedArrayConstructor) : Z := 2 ^ (8 * BYTES_PER_ELEMENT c).

Record TypedArray := mkTypedArray {
  kind : TypedArrayConstructor;
  elems : list Z
}.

Fixpoint upd (l : list Z) (n : nat) (v : Z) : list Z :=
  match l, n with
  | [], _ => []
  | _ :: l', O => v :: l'
  | x :: l', S n' => x :: upd l' n' v
  end.

Module TA.

Definition length (a : TypedArray) : Z := Z.of_nat (List.length (elems a)).

Definition byteLength (a : TypedArray) : Z := length a * BYTES_PER_ELEMENT (kind a).

(** [a[i]] *)
Definition get (a : TypedArray) (i : Z) : option Z :=
  if i <? 0 then None else nth_error (elems a) (Z.to_nat i).

(** [a[i] = v] *)
Definition set (a : TypedArray) (i v : Z) : TypedArray :=
  if i <? 0 then a
  else mkTypedArray (kind a) (upd (elems a) (Z.to_nat i) (v mod modulus (kind a))).

(** [a[i] += d]; on [undefined] the sum is [NaN] and the store is dropped
    with it. *)
Definition add (a : TypedArray) (i d : Z) : TypedArray :=
  match get a i with
  | Some v => set a i (v + d)
  | None => a
  end.

(** [new typedArray(new SharedBuffer(n * BYTES_PER_ELEMENT))]. *)
Definition zeros (c : TypedArrayConstructor) (n : Z) : TypedArray :=
  mkTypedArray c (repeat 0 (Z.to_nat n)).

(** [a.subarray(b, e)] read as a list; both ends are clamped to the array. *)
Definition slice (a : TypedArray) (b e : Z) : list Z :=
  let b := Z.min (Z.max 0 b) (length a) in
  let e := Z.min (Z.max 0 e) (length a) in
  firstn (Z.to_nat (e - b)) (skipn (Z.to_nat b) (elems a)).

Fixpoint blit (a : TypedArray) (off : Z) (src : list Z) : TypedArray :=
  match src with
  | [] => a
  | v :: src' => blit (set a off v) (off + 1) src'
  end.

End TA.

(** Modelled from the spec: [SharedBuffer] (src/SharedBuffer.ts is not part of
    the sources read here); the backing buffer is a zero-filled buffer of the
    requested byte length, shared between workers when the platform allows it.
    A negative length is a [RangeError]. *)
Definition newTypedArray (c : TypedArrayConstructor) (n : Z) : Completion TypedArray :=
  if n <? 0 then Throw RangeError else Return (TA.zeros c n).

(** [x || null] *)
Definition orNull (x : option Z) : option Z :=
  match x with
  | Some v => if v =? 0 then None else Some v
  | None => None
  end.

(** [x || 0] and [x ?? 0] agree on numbers. *)
Definition orZero (x : option Z) : Z :=
  match x with Some v => v | None => 0 end.

(** [x === y] for a load [x] and a number [y]. *)
Definition strictEq (x : option Z) (y : Z) : bool :=
  match x with Some v => v =? y | None => false end.

(** [x === y] for two nullable addresses. *)
Definition sameAddress (x y : option Z) : bool :=
  match x, y with
  | Some a, Some b => a =? b
  | None, None => true
  | _, _ => false
  end.

(** ** share.ts *)

(** [ToInt32]: the operand of a bitwise operator is reduced modulo 2^32 into
    the signed range. *)
Definition toInt32 (z : Z) : Z := (z + 2 ^ 31) mod 2 ^ 32 - 2 ^ 31.

Definition js_not (k : Z) : Z := - toInt32 k - 1.
Definition js_shl (k n : Z) : Z := toInt32 (Z.shiftl (toInt32 k) n).
Definition js_sar (k n : Z) : Z := Z.shiftr (toInt32 k) n.
Definition js_xor (a b : Z) : Z := Z.lxor (toInt32 a) (toInt32 b).

(** The additions and the multiplication are on doubles; every intermediate
    value stays below 2^53 in magnitude, so they are exact. *)
Definition hash32shift (key : Z) : Z :=
  let key := js_not key + js_shl key 15 in
  let key := js_xor key (js_sar key 12) in
  let key := key + js_shl key 2 in
  let key := js_xor key (js_sar key 4) in
  let key := key * 2057 in
  let key := js_xor key (js_sar key 16) in
  key.

(** ** Loads

    A load is a quotient of two non-negative integers computed in double
    precision and only ever compared with 0.7 or 0.3.  For operands below
    2^50 a quotient that differs from 7/10 (or 3/10) differs from it by far
    more than one unit in the last place, and a quotient equal to it rounds
    to the same double as the literal, so the comparisons are decided by the
    exact rationals. *)
Inductive Load :=
| NaN
| Infinity
| Frac (n d : Z).

(** [n / d] for [0 <= n] and [0 <= d]. *)
Definition js_div (n d : Z) : Load :=
  if d =? 0 then (if n =? 0 then NaN else Infinity) else Frac n d.

(** [Math.max(a, b)] *)
Definition load_max (a b : Load) : Load :=
  match a, b with
  | NaN, _ | _, NaN => NaN
  | Infinity, _ | _, Infinity => Infinity
  | Frac n d, Frac n' d' => if n * d' <? n' * d then Frac n' d' else Frac n d
  end.

(** [l > p / q], [l >= p / q], [l < p / q] *)
Definition load_gt (l : Load) (p q : Z) : bool :=
  match l with NaN => false | Infinity => true | Frac n d => p * d <? n * q end.
Definition load_ge (l : Load) (p q : Z) : bool :=
  match l with NaN => false | Infinity => true | Frac n d => p * d <=? n * q end.
Definition load_lt (l : Load) (p q : Z) : bool :=
  match l with NaN => false | Infinity => false | Frac n d => n * q <? p * d end.

(** [Math.round]: the nearest integer, ties towards +infinity. *)
Definition Math_round (q : Q) : Z := Qfloor (q + (1 # 2))%Q.

(** ** SharedTypeMap

    A map object only wraps its [data] array, so a map is its array.  The
    header and item sizes are the getters that the two subclasses override. *)

Record Layout := mkLayout { HEADER_SIZE : Z; ITEM_SIZE : Z }.

Module SharedTypeMap.

Definition _CAPACITY : Z := 0.
Definition _COUNT : Z := 1.
Definition _NEXT : Z := 0.
Definition _TYPE : Z := 1.
Definition BUCKET_SIZE : Z := 2.

Section Methods.

Variable L : Layout.

Definition capacity (this : TypedArray) : Z := orZero (TA.get this _CAPACITY).

Definition count (this : TypedArray) : Z := orZero (TA.get this _COUNT).

Definition getLength (capacity : Z) : Z :=
  capacity + HEADER_SIZE L + ITEM_SIZE L * BUCKET_SIZE * capacity.

Definition length (this : TypedArray) : Z := getLength (capacity this).

Definition addressableLimit (this : TypedArray) : Z := HEADER_SIZE L + capacity this.

Definition getLoad (this : TypedArray) (count : Z) : Load :=
  js_div count (capacity this * BUCKET_SIZE).

Definition getNextAddress (this : TypedArray) : Z :=
  HEADER_SIZE L + capacity this + count this * ITEM_SIZE L.

Definition head (this : TypedArray) (hash : Z) : option Z :=
  orNull (TA.get this (HEADER_SIZE L + hash)).

Definition next (this : TypedArray) (item : Z) : option Z :=
  orNull (TA.get this (item + _NEXT)).

Definition typeOf (this : TypedArray) (item : Z) : Z :=
  orZero (TA.get this (item + _TYPE)).

(** [new SharedTypeMap(capacity, typedArray)] *)
Definition create (capacity : Z) (typedArray : TypedArrayConstructor)
  : Completion TypedArray :=
  data <- newTypedArray typedArray (getLength capacity) ;;
  Return (TA.set data _CAPACITY capacity).

(** [new SharedTypeMap(data)] *)
Definition ofData (data : TypedArray) : Completion TypedArray :=
  if length data =? TA.length data then Return data else Throw DataCorrupt.

(** The loops of [Symbol.iterator] and [forEach] advance [i] by
    [ITEM_SIZE] from [addressableLimit] while [i < length], that is at most
    [BUCKET_SIZE * capacity] times; [slots] counts the turns left. *)
Fixpoint scan (live : TypedArray -> Z -> bool) (slots : nat)
    (this : TypedArray) (i count max len : Z) : list Z :=
  match slots with
  | O => []
  | S slots' =>
      if (i <? len) && (count <? max) then
        if live this i
        then i :: scan live slots' this (i + ITEM_SIZE L) (count + 1) max len
        else scan live slots' this (i + ITEM_SIZE L) count max len
      else []
  end.

(** [this.data.subarray(i, i + ITEM_SIZE).some(Boolean)] *)
Definition someWord (this : TypedArray) (i : Z) : bool :=
  existsb (fun v => negb (v =? 0)) (TA.slice this i (i + ITEM_SIZE L)).

Definition iterator (this : TypedArray) : list Z :=
  scan someWord (Z.to_nat (BUCKET_SIZE * capacity this)) this
    (addressableLimit this) 0 (count this) (length this).

(** [forEach(cb)]: the items handed to [cb], in order. *)
Definition forEach (this : TypedArray) : list Z :=
  scan (fun m i => negb (typeOf m i =? 0)) (Z.to_nat (BUCKET_SIZE * capacity this)) this
    (addressableLimit this) 0 (count this) (length this).

(** [view.set(src)] for [view = this.data.subarray(off)] of [len] words. *)
Definition viewSet (this : TypedArray) (off len : Z) (src : list Z)
  : Completion TypedArray :=
  if len <? Z.of_nat (List.length src) then Throw RangeError
  else Return (TA.blit this off src).

(** [for (i = 0; i < max; i += step) if (view[i]) view[i] += delta] *)
Fixpoint rebase (turns : nat) (this : TypedArray) (i step delta : Z) : TypedArray :=
  match turns with
  | O => this
  | S turns' =>
      let this := match orNull (TA.get this i) with
                  | Some _ => TA.add this i delta
                  | None => this
                  end in
      rebase turns' this (i + step) step delta
  end.

(** [set(data)]; the receiver keeps what was copied before a throw. *)
Definition set (this : TypedArray) (data : TypedArray) : TypedArray * Completion unit :=
  match TA.get data _CAPACITY with
  | None => (this, Throw SmallerCapacity)
  | Some dataCapacity =>
      let delta := capacity this - dataCapacity in
      if negb (delta >=? 0) then (this, Throw SmallerCapacity) else
      (* Copy the header. *)
      match viewSet this _COUNT (TA.length this - _COUNT)
              (TA.slice data _COUNT (HEADER_SIZE L)) with
      | Throw e => (this, Throw e)
      | Diverge => (this, Diverge)
      | Return this =>
      (* Copy the hash table. *)
      let tableLength :=
        Z.of_nat (List.length (TA.slice this (HEADER_SIZE L) (HEADER_SIZE L + capacity this))) in
      match viewSet this (HEADER_SIZE L) tableLength
              (TA.slice data (HEADER_SIZE L) (HEADER_SIZE L + dataCapacity)) with
      | Throw e => (this, Throw e)
      | Diverge => (this, Diverge)
      | Return this =>
      (* Offset first links to account for the change in table capacity. *)
      let this := rebase (Z.to_nat tableLength) this (HEADER_SIZE L) 1 delta in
      (* Copy the items. *)
      let itemsLength :=
        Z.of_nat (List.length (TA.slice this (HEADER_SIZE L + capacity this) (TA.length this))) in
      match viewSet this (HEADER_SIZE L + capacity this) itemsLength
              (TA.slice data (HEADER_SIZE L + dataCapacity) (TA.length data)) with
      | Throw e => (this, Throw e)
      | Diverge => (this, Diverge)
      | Return this =>
      (* Offset next links to account for the change in table capacity. *)
      (rebase (Z.to_nat ((itemsLength + ITEM_SIZE L - 1) / ITEM_SIZE L)) this
         (HEADER_SIZE L + capacity this + _NEXT) (ITEM_SIZE L) delta, Return tt)
      end end end
  end.

(** The chain walks follow [next] links; a chain without a cycle visits
    each word of the array at most once, so [fuel] larger than the array
    only runs out on a cycle, where the source loops forever. *)
Definition fuel (this : TypedArray) : nat := S (List.length (elems this)).

(** [while (next !== null) { prev = next; next = this.next(next); }] *)
Fixpoint lastOf (fuel : nat) (this : TypedArray) (prev : Z) : Completion Z :=
  match next this prev with
  | None => Return prev
  | Some nxt =>
      match fuel with
      | O => Diverge
      | S fuel' => lastOf fuel' this nxt
      end
  end.

Definition link (this : TypedArray) (hash item type : Z) : Completion TypedArray :=
  let this := TA.set this (item + _TYPE) type in
  match head this hash with
  | Some prev =>
      prev <- lastOf (fuel this) this prev ;;
      let this := TA.set this (prev + _NEXT) item in
      Return (TA.add this _COUNT 1)
  | None =>
      (* This is the first item in the bucket! *)
      let this := TA.set this (HEADER_SIZE L + hash) item in
      Return (TA.add this _COUNT 1)
  end.

(** [while (candidate !== null && candidate !== item)
      { prev = candidate; candidate = this.next(candidate); }]; the value
    of [prev] when the loop ends. *)
Fixpoint predOf (fuel : nat) (this : TypedArray) (prev candidate : option Z) (item : Z)
  : Completion (option Z) :=
  match candidate with
  | None => Return prev
  | Some c =>
      if c =? item then Return prev else
      match fuel with
      | O => Diverge
      | S fuel' => predOf fuel' this (Some c) (next this c) item
      end
  end.

Definition unlink (this : TypedArray) (hash item : Z) : Completion TypedArray :=
  let this := TA.set this (item + _TYPE) 0 in
  match head this hash with
  | None => Return this (* No bucket to unlink from. *)
  | Some hd =>
      let nxt := next this item in
      prev <- predOf (fuel this) this None (Some hd) item ;;
      let this :=
        match prev, nxt with
        | Some p, Some n => TA.set this (p + _NEXT) n
        | Some p, None => TA.set this (p + _NEXT) 0
        | None, Some n => TA.set this (HEADER_SIZE L + hash) n
        | None, None => TA.set this (HEADER_SIZE L + hash) 0
        end in
      let this := TA.set this (item + _NEXT) 0 in
      Return (TA.add this _COUNT (-1))
  end.

End Methods.

End SharedTypeMap.

(** ** NodeTypeMap *)

Module NodeTypeMap.

Definition layout : Layout := mkLayout 3 6.
Definition _NEXT_ID : Z := 2.
Definition _FIRST_IN : Z := 2.
Definition _FIRST_OUT : Z := 3.
Definition _LAST_IN : Z := 4.
Definition _LAST_OUT : Z := 5.

Definition MIN_CAPACITY : Z := 2.
(** [Math.floor((2 ** 31 - 1 - 3) / 6 / 2)] *)
Definition MAX_CAPACITY : Z := (2 ^ 31 - 1 - HEADER_SIZE layout) / (ITEM_SIZE layout * SharedTypeMap.BUCKET_SIZE).

Definition capacity := SharedTypeMap.capacity.
Definition count := SharedTypeMap.count.
Definition head := SharedTypeMap.head layout.
Definition next := SharedTypeMap.next.
Definition typeOf := SharedTypeMap.typeOf.

(** The header is inside the array of every map that passed the
    constructor, so [this.data[_NEXT_ID]!] is a number. *)
Definition nextId (this : TypedArray) : Z := orZero (TA.get this _NEXT_ID).

Definition set_nextId (this : TypedArray) (nextId : Z) : TypedArray :=
  TA.set this _NEXT_ID nextId.

(** [return this.data[_NEXT_ID]++] *)
Definition getId (this : TypedArray) : TypedArray * Z :=
  (TA.add this _NEXT_ID 1, nextId this).

Definition getLoad (this : TypedArray) (count : Z) : Load :=
  load_max (js_div (nextId this) (capacity this)) (SharedTypeMap.getLoad this count).

Definition load (this : TypedArray) : Load := getLoad this (count this).

Definition add (this : TypedArray) (node type : Z) : Completion (TypedArray * Z) :=
  if negb ((node >=? 0) && (node <? nextId this)) then Throw InvalidNodeId else
  let address := SharedTypeMap.getNextAddress layout this in
  this <- SharedTypeMap.link layout this node address type ;;
  Return (this, address).

Fixpoint addressOfFrom (fuel : nat) (this : TypedArray) (address : option Z) (type : Z)
  : Completion (option Z) :=
  match address with
  | None => Return None
  | Some a =>
      if typeOf this a =? type then Return (Some a) else
      match fuel with
      | O => Diverge
      | S fuel' => addressOfFrom fuel' this (next this a) type
      end
  end.

Definition addressOf (this : TypedArray) (node type : Z) : Completion (option Z) :=
  addressOfFrom (SharedTypeMap.fuel this) this (head this node) type.

Definition firstIn (this : TypedArray) (node : Z) : option Z :=
  orNull (TA.get this (node + _FIRST_IN)).
Definition firstOut (this : TypedArray) (node : Z) : option Z :=
  orNull (TA.get this (node + _FIRST_OUT)).
Definition lastIn (this : TypedArray) (node : Z) : option Z :=
  orNull (TA.get this (node + _LAST_IN)).
Definition lastOut (this : TypedArray) (node : Z) : option Z :=
  orNull (TA.get this (node + _LAST_OUT)).

Definition linkIn (this : TypedArray) (node edge : Z) : TypedArray * option Z :=
  let first := firstIn this node in
  let last := lastIn this node in
  let this := match first with
              | None => TA.set this (node + _FIRST_IN) edge
              | Some _ => this
              end in
  let this := TA.set this (node + _LAST_IN) edge in
  (this, last).

Definition unlinkIn (this : TypedArray) (node edge : Z) (prev next : option Z) : TypedArray :=
  let first := firstIn this node in
  let last := lastIn this node in
  let this := if sameAddress last (Some edge)
              then TA.set this (node + _LAST_IN) (orZero prev) else this in
  if sameAddress first (Some edge)
  then TA.set this (node + _FIRST_IN) (orZero next) else this.

Definition linkOut (this : TypedArray) (node edge : Z) : TypedArray * option Z :=
  let first := firstOut this node in
  let last := lastOut this node in
  let this := match first with
              | None => TA.set this (node + _FIRST_OUT) edge
              | Some _ => this
              end in
  let this := TA.set this (node + _LAST_OUT) edge in
  (this, last).

Definition unlinkOut (this : TypedArray) (node edge : Z) (prev next : option Z) : TypedArray :=
  let first := firstOut this node in
  let last := lastOut this node in
  let this := if sameAddress last (Some edge)
              then TA.set this (node + _LAST_OUT) (orZero prev) else this in
  if sameAddress first (Some edge)
  then TA.set this (node + _FIRST_OUT) (orZero next) else this.

End NodeTypeMap.

(** ** EdgeTypeMap *)

Module EdgeTypeMap.

Definition layout : Layout := mkLayout 3 8.
Definition _DELETES : Z := 2.
Definition _FROM : Z := 2.
Definition _TO : Z := 3.
Definition _NEXT_IN : Z := 4.
Definition _PREV_IN : Z := 5.
Definition _NEXT_OUT : Z := 6.
Definition _PREV_OUT : Z := 7.

Definition MIN_CAPACITY : Z := 2.
(** [Math.floor((2 ** 31 - 1 - 3) / 8 / 2)] *)
Definition MAX_CAPACITY : Z := (2 ^ 31 - 1 - HEADER_SIZE layout) / (ITEM_SIZE layout * SharedTypeMap.BUCKET_SIZE).
Definition PEAK_CAPACITY : Z := 2 ^ 18.

Definition capacity := SharedTypeMap.capacity.
Definition count := SharedTypeMap.count.
Definition head := SharedTypeMap.head layout.
Definition next := SharedTypeMap.next.
Definition typeOf := SharedTypeMap.typeOf.
Definition getLoad := SharedTypeMap.getLoad.

Definition deletes (this : TypedArray) : Z := orZero (TA.get this _DELETES).

Definition getNextAddress (this : TypedArray) : Z :=
  SharedTypeMap.addressableLimit layout this + (count this + deletes this) * ITEM_SIZE layout.

(** [None] is [NaN], the remainder by a zero capacity. *)
Definition hash (this : TypedArray) (from to type : Z) : option Z :=
  let hash := 17 in
  let hash := hash * 37 + hash32shift from in
  let hash := hash * 37 + hash32shift to in
  let hash := hash * 37 + hash32shift type in
  if capacity this =? 0 then None else Some (Z.rem hash (capacity this)).

Definition add (this : TypedArray) (hash : option Z) (from to type : Z)
  : Completion (TypedArray * Z) :=
  match hash with
  | None => Throw InvalidEdgeHash
  | Some hash =>
      if negb ((hash >=? 0) && (hash <? capacity this)) then Throw InvalidEdgeHash else
      let edge := getNextAddress this in
      this <- SharedTypeMap.link layout this hash edge type ;;
      let this := TA.set this (edge + _FROM) from in
      let this := TA.set this (edge + _TO) to in
      Return (this, edge)
  end.

Definition delete (this : TypedArray) (edge : Z) : TypedArray :=
  let this := TA.set this (edge + _FROM) 0 in
  let this := TA.set this (edge + _TO) 0 in
  TA.add this _DELETES 1.

Definition from (this : TypedArray) (edge : Z) : option Z := TA.get this (edge + _FROM).
Definition to (this : TypedArray) (edge : Z) : option Z := TA.get this (edge + _TO).

Fixpoint addressOfFrom (fuel : nat) (this : TypedArray) (address : option Z)
    (from_ to_ type : Z) : Completion (option Z) :=
  match address with
  | None => Return None
  | Some a =>
      if (typeOf this a =? type) && strictEq (from this a) from_ && strictEq (to this a) to_
      then Return (Some a) else
      match fuel with
      | O => Diverge
      | S fuel' => addressOfFrom fuel' this (next this a) from_ to_ type
      end
  end.

(** [head(NaN)] loads [data[NaN]], which is [undefined]. *)
Definition addressOf (this : TypedArray) (hash : option Z) (from to type : Z)
  : Completion (option Z) :=
  match hash with
  | None => Return None
  | Some hash =>
      addressOfFrom (SharedTypeMap.fuel this) this (head this hash) from to type
  end.

Definition nextIn (this : TypedArray) (edge : Z) : option Z :=
  orNull (TA.get this (edge + _NEXT_IN)).
Definition prevIn (this : TypedArray) (edge : Z) : option Z :=
  orNull (TA.get this (edge + _PREV_IN)).
Definition nextOut (this : TypedArray) (edge : Z) : option Z :=
  orNull (TA.get this (edge + _NEXT_OUT)).
Definition prevOut (this : TypedArray) (edge : Z) : option Z :=
  orNull (TA.get this (edge + _PREV_OUT)).

Definition linkIn (this : TypedArray) (edge next : Z) : TypedArray :=
  let this := TA.set this (edge + _NEXT_IN) next in
  TA.set this (next + _PREV_IN) edge.

Definition unlinkIn (this : TypedArray) (edge : Z) : TypedArray :=
  let next := nextIn this edge in
  let prev := prevIn this edge in
  let this := TA.set this (edge + _NEXT_IN) 0 in
  let this := TA.set this (edge + _PREV_IN) 0 in
  match next, prev with
  | Some n, Some p =>
      let this := TA.set this (p + _NEXT_IN) n in
      TA.set this (n + _PREV_IN) p
  | Some n, None => TA.set this (n + _PREV_IN) 0
  | None, Some p => TA.set this (p + _NEXT_IN) 0
  | None, None => this
  end.

Definition linkOut (this : TypedArray) (edge next : Z) : TypedArray :=
  let this := TA.set this (edge + _NEXT_OUT) next in
  TA.set this (next + _PREV_OUT) edge.

Definition unlinkOut (this : TypedArray) (edge : Z) : TypedArray :=
  let next := nextOut this edge in
  let prev := prevOut this edge in
  let this := TA.set this (edge + _NEXT_OUT) 0 in
  let this := TA.set this (edge + _PREV_OUT) 0 in
  match next, prev with
  | Some n, Some p =>
      let this := TA.set this (p + _NEXT_OUT) n in
      TA.set this (n + _PREV_OUT) p
  | Some n, None => TA.set this (n + _PREV_OUT) 0
  | None, Some p => TA.set this (p + _NEXT_OUT) 0
  | None, None => this
  end.

End EdgeTypeMap.

(** ** AdjacencyList *)

Record AdjacencyList := mkAdjacencyList {
  _nodes : TypedArray;
  _edges : TypedArray;
  _typedArray : TypedArrayConstructor
}.

(** The argument of the constructor: [AdjacencyListOptions] or
    [SerializedAdjacencyList]; an absent field is [None]. *)
Inductive Options :=
| AdjacencyListOptions (nodeCapacity edgeCapacity : option Z)
    (typedArray : option TypedArrayConstructor)
| SerializedAdjacencyList (nodes edges : TypedArray)
    (typedArray : option TypedArrayConstructor).

Record Edge := mkEdge { from : Z; to : Z; type : Z }.

(** The [type] argument of the queries: a number ([AllEdgeTypes] is -1) or
    an array of numbers. *)
Inductive EdgeTypes :=
| OneType (type : Z)
| TypeArray (types : list Z).

Definition NullEdgeType : Z := 1.
Definition AllEdgeTypes : Z := -1.

(** The receiver of a method and the completion of the call. *)
Definition M (A : Type) : Type := AdjacencyList -> AdjacencyList * Completion A.

Definition ret {A} (a : A) : M A := fun this => (this, Return a).

Definition bindM {A B} (c : M A) (k : A -> M B) : M B :=
  fun this =>
    match c this with
    | (this', Return a) => k a this'
    | (this', Throw e) => (this', Throw e)
    | (this', Diverge) => (this', Diverge)
    end.

Notation "x <~ c ;; k" := (bindM c (fun x => k))
  (at level 61, c at next level, right associativity).
Notation "c ;;; k" := (bindM c (fun _ => k))
  (at level 61, right associativity).

(** A completion computed without touching the receiver. *)
Definition liftC {A} (c : Completion A) : M A := fun this => (this, c).

Definition nodesOf : M TypedArray := fun this => (this, Return (_nodes this)).
Definition edgesOf : M TypedArray := fun this => (this, Return (_edges this)).

Definition setNodes (nodes : TypedArray) : M unit :=
  fun this => (mkAdjacencyList nodes (_edges this) (_typedArray this), Return tt).
Definition setEdges (edges : TypedArray) : M unit :=
  fun this => (mkAdjacencyList (_nodes this) edges (_typedArray this), Return tt).

(** A method of [this._nodes] (of [this._edges]) that throws before its first
    store or else returns. *)
Definition onNodes {A} (f : TypedArray -> Completion (TypedArray * A)) : M A :=
  nodes <~ nodesOf ;; r <~ liftC (f nodes) ;; setNodes (fst r) ;;; ret (snd r).
Definition onEdges {A} (f : TypedArray -> Completion (TypedArray * A)) : M A :=
  edges <~ edgesOf ;; r <~ liftC (f edges) ;; setEdges (fst r) ;;; ret (snd r).

Module AdjacencyList.

(** The upper bound above which capacity should be increased: 0.7. *)
Definition above_LOAD_FACTOR (l : Load) : bool := load_gt l 7 10.
Definition atleast_LOAD_FACTOR (l : Load) : bool := load_ge l 7 10.
(** The lower bound below which capacity should be decreased: 0.3. *)
Definition above_UNLOAD_FACTOR (l : Load) : bool := load_gt l 3 10.
Definition below_UNLOAD_FACTOR (l : Load) : bool := load_lt l 3 10.
Definition MAX_GROW_FACTOR : Q := 8.
Definition MIN_GROW_FACTOR : Q := 2.
Definition SHRINK_FACTOR : Q := 1 # 2.

(** The products below have at most 39 significant bits (the capacity is
    below 2^18 whenever the factor is not 2), so the doubles are exact. *)
Definition interpolate (x y t : Q) : Q := (x + (y - x) * Qmin 1 (Qmax 0 t))%Q.

Definition increaseNodeCapacity (nodeCapacity : Z) : Completion Z :=
  let newCapacity := Math_round (inject_Z nodeCapacity * MIN_GROW_FACTOR) in
  if negb (newCapacity <=? NodeTypeMap.MAX_CAPACITY) then Throw NodeCapacityOverflow
  else Return (Z.max NodeTypeMap.MIN_CAPACITY newCapacity).

Definition getNextEdgeCapacity (capacity count : Z) (load : Load) : Completion Z :=
  let newCapacity :=
    if above_LOAD_FACTOR load then
      let pct := (inject_Z capacity / inject_Z EdgeTypeMap.PEAK_CAPACITY)%Q in
      let growFactor := interpolate MAX_GROW_FACTOR MIN_GROW_FACTOR pct in
      Math_round (inject_Z capacity * growFactor)
    else if below_UNLOAD_FACTOR load then
      Math_round (inject_Z capacity * SHRINK_FACTOR)
    else capacity in
  if negb (newCapacity <=? EdgeTypeMap.MAX_CAPACITY) then Throw EdgeCapacityOverflow
  else Return (Z.max EdgeTypeMap.MIN_CAPACITY newCapacity).

(** [new AdjacencyList(opts)] *)
Definition create (opts : Options) : Completion AdjacencyList :=
  match opts with
  | SerializedAdjacencyList nodes edges typedArray =>
      let typedArray := match typedArray with Some c => c | None => Uint32Array end in
      nodes <- SharedTypeMap.ofData NodeTypeMap.layout nodes ;;
      edges <- SharedTypeMap.ofData EdgeTypeMap.layout edges ;;
      Return (mkAdjacencyList nodes edges typedArray)
  | AdjacencyListOptions nodeCapacity edgeCapacity typedArray =>
      let typedArray := match typedArray with Some c => c | None => Uint32Array end in
      let nodeCapacity :=
        match nodeCapacity with Some c => c | None => NodeTypeMap.MIN_CAPACITY end in
      let edgeCapacity :=
        match edgeCapacity with Some c => c | None => EdgeTypeMap.MIN_CAPACITY end in
      if negb (nodeCapacity <=? NodeTypeMap.MAX_CAPACITY) then Throw NodeCapacityOverflow else
      if negb (edgeCapacity <=? EdgeTypeMap.MAX_CAPACITY) then Throw EdgeCapacityOverflow else
      nodes <- SharedTypeMap.create NodeTypeMap.layout nodeCapacity typedArray ;;
      edges <- SharedTypeMap.create EdgeTypeMap.layout edgeCapacity typedArray ;;
      Return (mkAdjacencyList nodes edges typedArray)
  end.

Definition deserialize (opts : Options) : Completion AdjacencyList := create opts.

Definition serialize (this : AdjacencyList) : Options :=
  SerializedAdjacencyList (_nodes this) (_edges this) None.

(** [this._nodes = new NodeTypeMap(size); this._nodes.set(nodes.data)]: the
    new map is built without the [typedArray] of the list, so it is a
    [Uint32Array]. *)
Definition resizeNodes (size : Z) : M unit :=
  nodes <~ nodesOf ;;
  fresh <~ liftC (SharedTypeMap.create NodeTypeMap.layout size Uint32Array) ;;
  let r := SharedTypeMap.set NodeTypeMap.layout fresh nodes in
  setNodes (fst r) ;;;
  liftC (snd r).

(** The entry of a live edge record as [forEach] and the iterator hand it
    on; the record of an item they visit lies inside the array of every map
    that passed the constructor, so the loads are numbers. *)
Definition edgeAt (edges : TypedArray) (edge : Z) : Edge :=
  mkEdge (orZero (EdgeTypeMap.from edges edge)) (orZero (EdgeTypeMap.to edges edge))
    (EdgeTypeMap.typeOf edges edge).

Fixpoint addAll (addEdge : Z -> Z -> Z -> M bool) (l : list Edge) : M unit :=
  match l with
  | [] => ret tt
  | e :: l' => addEdge (from e) (to e) (type e) ;;; addAll addEdge l'
  end.

(** [resizeEdges], with the [addEdge] that it calls on the copy. *)
Definition resizeEdgesWith (addEdge : Z -> Z -> Z -> M bool) (size : Z) : M bool :=
  fun this =>
    (* Allocate the required space for new `nodes` and `edges` maps. *)
    match create (AdjacencyListOptions (Some (NodeTypeMap.capacity (_nodes this)))
                    (Some size) (Some (_typedArray this))) with
    | Throw e => (this, Throw e)
    | Diverge => (this, Diverge)
    | Return copy =>
        (* Copy the existing edges into the new array. *)
        let copy := mkAdjacencyList
                      (NodeTypeMap.set_nextId (_nodes copy) (NodeTypeMap.nextId (_nodes this)))
                      (_edges copy) (_typedArray copy) in
        let live := map (edgeAt (_edges this))
                      (SharedTypeMap.forEach EdgeTypeMap.layout (_edges this)) in
        match addAll addEdge live copy with
        | (_, Throw e) => (this, Throw e)
        | (_, Diverge) => (this, Diverge)
        | (copy, Return _) =>
            (* We expect to preserve the same number of edges. *)
            if negb (EdgeTypeMap.count (_edges this) =? EdgeTypeMap.count (_edges copy))
            then (this, Throw EdgeMismatch)
            else
              (* Finally, copy the new data arrays over to this graph. *)
              (mkAdjacencyList (_nodes copy) (_edges copy) (_typedArray this), Return true)
        end
    end.

Definition addNode : M Z :=
  id <~ onNodes (fun nodes => Return (NodeTypeMap.getId nodes)) ;;
  nodes <~ nodesOf ;;
  (* If we're in danger of overflowing the `nodes` array, resize it. *)
  (if above_LOAD_FACTOR (NodeTypeMap.load nodes) then
     size <~ liftC (increaseNodeCapacity (NodeTypeMap.capacity nodes)) ;;
     resizeNodes size
   else ret tt) ;;;
  ret id.

Definition isNull (a : option Z) : bool :=
  match a with None => true | Some _ => false end.

(** [addEdge], with the [resizeEdges] that it calls on the receiver. *)
Definition addEdgeWith (resizeEdges : Z -> M bool) (from to type : Z) : M bool :=
  if negb (type >? 0) then liftC (Throw UnsupportedEdgeType) else
  edges <~ edgesOf ;;
  let hash := EdgeTypeMap.hash edges from to type in
  edge <~ liftC (EdgeTypeMap.addressOf edges hash from to type) ;;
  (* The edge is already in the graph; do nothing. *)
  if negb (isNull edge) then ret false else
  let capacity := EdgeTypeMap.capacity edges in
  (* We add 1 to account for the edge we are adding. *)
  let count := EdgeTypeMap.count edges + 1 in
  let deletes := EdgeTypeMap.deletes edges in
  let total := count + deletes in
  hash <~ (if above_LOAD_FACTOR (EdgeTypeMap.getLoad edges total) then
             (if above_UNLOAD_FACTOR (EdgeTypeMap.getLoad edges deletes) then
                size <~ liftC (getNextEdgeCapacity capacity count
                                 (EdgeTypeMap.getLoad edges count)) ;;
                resizeEdges size
              else
                size <~ liftC (getNextEdgeCapacity capacity total
                                 (EdgeTypeMap.getLoad edges total)) ;;
                resizeEdges size) ;;;
             (* We must rehash because the capacity has changed. *)
             edges <~ edgesOf ;;
             ret (EdgeTypeMap.hash edges from to type)
           else ret hash) ;;
  nodes <~ nodesOf ;;
  toNode <~ liftC (NodeTypeMap.addressOf nodes to type) ;;
  fromNode <~ liftC (NodeTypeMap.addressOf nodes from type) ;;
  found <~ (if isNull toNode || isNull fromNode then
              (* If we're in danger of overflowing the `nodes` array, resize it. *)
              if atleast_LOAD_FACTOR (NodeTypeMap.load nodes) then
                size <~ liftC (increaseNodeCapacity (NodeTypeMap.capacity nodes)) ;;
                resizeNodes size ;;;
                (* We need to update our indices since the `nodes` array has changed. *)
                nodes <~ nodesOf ;;
                toNode <~ liftC (NodeTypeMap.addressOf nodes to type) ;;
                fromNode <~ liftC (NodeTypeMap.addressOf nodes from type) ;;
                ret (toNode, fromNode)
              else ret (toNode, fromNode)
            else ret (toNode, fromNode)) ;;
  toNode <~ match fst found with
            | None => onNodes (fun nodes => NodeTypeMap.add nodes to type)
            | Some a => ret a
            end ;;
  fromNode <~ match snd found with
              | None => onNodes (fun nodes => NodeTypeMap.add nodes from type)
              | Some a => ret a
              end ;;
  (* Add our new edge to its hash bucket. *)
  edge <~ onEdges (fun edges => EdgeTypeMap.add edges hash from to type) ;;
  (* Link this edge to the node's list of incoming edges. *)
  prevIn <~ onNodes (fun nodes => Return (NodeTypeMap.linkIn nodes toNode edge)) ;;
  match prevIn with
  | Some prevIn => onEdges (fun edges => Return (EdgeTypeMap.linkIn edges prevIn edge, tt))
  | None => ret tt
  end ;;;
  (* Link this edge to the node's list of outgoing edges. *)
  prevOut <~ onNodes (fun nodes => Return (NodeTypeMap.linkOut nodes fromNode edge)) ;;
  match prevOut with
  | Some prevOut => onEdges (fun edges => Return (EdgeTypeMap.linkOut edges prevOut edge, tt))
  | None => ret tt
  end ;;;
  ret true.

(** [resizeEdges] replays the live edges through [addEdge] on a copy, and
    that [addEdge] may resize the copy in turn; each nesting works on a list
    with fewer edges than its caller, and [n] bounds the nesting. *)
Fixpoint addEdgeN (n : nat) : Z -> Z -> Z -> M bool :=
  match n with
  | O => fun _ _ _ => liftC Diverge
  | S n' => addEdgeWith (resizeEdgesWith (addEdgeN n'))
  end.

Definition resizeEdges (size : Z) : M bool :=
  fun this =>
    resizeEdgesWith (addEdgeN (Z.to_nat (EdgeTypeMap.count (_edges this)))) size this.

Definition addEdge (from to type : Z) : M bool :=
  fun this =>
    addEdgeN (S (Z.to_nat (EdgeTypeMap.count (_edges this)))) from to type this.

Definition getAllEdges (this : AdjacencyList) : list Edge :=
  map (edgeAt (_edges this)) (SharedTypeMap.iterator EdgeTypeMap.layout (_edges this)).

Fixpoint some (f : Z -> Completion bool) (l : list Z) : Completion bool :=
  match l with
  | [] => Return false
  | x :: l' => b <- f x ;; if b then Return true else some f l'
  end.

Definition hasEdge (this : AdjacencyList) (from to : Z) (type : EdgeTypes) : Completion bool :=
  let hasEdge := fun type =>
    let hash := EdgeTypeMap.hash (_edges this) from to type in
    a <- EdgeTypeMap.addressOf (_edges this) hash from to type ;;
    Return (negb (isNull a)) in
  match type with
  | TypeArray types => some hasEdge types
  | OneType type => hasEdge type
  end.

(** [nullthrows] *)
Definition nullthrows (x : option Z) : Completion Z :=
  match x with Some a => Return a | None => Throw UnexpectedNull end.

Definition removeEdge (from to type : Z) : M bool :=
  edges <~ edgesOf ;;
  let hash := EdgeTypeMap.hash edges from to type in
  edge <~ liftC (EdgeTypeMap.addressOf edges hash from to type) ;;
  (* The edge is not in the graph; do nothing. *)
  match edge, hash with
  | None, _ => ret false
  | Some _, None => ret false (* no address is found under a NaN hash *)
  | Some edge, Some hash =>
      nodes <~ nodesOf ;;
      toNode <~ liftC (a <- NodeTypeMap.addressOf nodes to type ;; nullthrows a) ;;
      fromNode <~ liftC (a <- NodeTypeMap.addressOf nodes from type ;; nullthrows a) ;;
      (* Update the terminating node's first and last incoming edges. *)
      setNodes (NodeTypeMap.unlinkIn nodes toNode edge
                  (EdgeTypeMap.prevIn edges edge) (EdgeTypeMap.nextIn edges edge)) ;;;
      (* Update the originating node's first and last outgoing edges. *)
      nodes <~ nodesOf ;;
      setNodes (NodeTypeMap.unlinkOut nodes fromNode edge
                  (EdgeTypeMap.prevOut edges edge) (EdgeTypeMap.nextOut edges edge)) ;;;
      (* Splice the removed edge out of the linked list of edges in the bucket. *)
      edges <~ liftC (SharedTypeMap.unlink EdgeTypeMap.layout edges hash edge) ;;
      (* Splice the removed edge out of the linked list of incoming edges. *)
      let edges := EdgeTypeMap.unlinkIn edges edge in
      (* Splice the removed edge out of the linked list of outgoing edges. *)
      let edges := EdgeTypeMap.unlinkOut edges edge in
      (* Finally, delete the edge. *)
      setEdges (EdgeTypeMap.delete edges edge) ;;;
      ret true
  end.

Definition hasInboundEdges (this : AdjacencyList) (to : Z) : Completion bool :=
  (fix loop (fuel : nat) (node : option Z) : Completion bool :=
     match node with
     | None => Return false
     | Some n =>
         if negb (isNull (NodeTypeMap.firstIn (_nodes this) n)) then Return true else
         match fuel with
         | O => Diverge
         | S fuel' => loop fuel' (NodeTypeMap.next (_nodes this) n)
         end
     end) (SharedTypeMap.fuel (_nodes this)) (NodeTypeMap.head (_nodes this) to).

(** [type === AllEdgeTypes || (Array.isArray(type) ?
      type.includes(this._nodes.typeOf(node)) : type === this._nodes.typeOf(node))] *)
Definition matches (this : AdjacencyList) (type : EdgeTypes) (node : Z) : bool :=
  match type with
  | OneType t => (t =? AllEdgeTypes) || (t =? NodeTypeMap.typeOf (_nodes this) node)
  | TypeArray ts => existsb (Z.eqb (NodeTypeMap.typeOf (_nodes this) node)) ts
  end.

(** The inner loop of the neighbourhood queries: [nodes] holds the ids
    pushed so far, which are also the members of [seen]. *)
Fixpoint collect (field : TypedArray -> Z -> option Z) (step : TypedArray -> Z -> option Z)
    (fuel : nat) (edges : TypedArray) (edge : option Z) (nodes : list Z)
  : Completion (list Z) :=
  match edge with
  | None => Return nodes
  | Some e =>
      match fuel with
      | O => Diverge
      | S fuel' =>
          let id := orZero (field edges e) in
          let nodes := if existsb (Z.eqb id) nodes then nodes else nodes ++ [id] in
          collect field step fuel' edges (step edges e) nodes
      end
  end.

Fixpoint connected (first : TypedArray -> Z -> option Z)
    (field : TypedArray -> Z -> option Z) (step : TypedArray -> Z -> option Z)
    (this : AdjacencyList) (type : EdgeTypes)
    (fuel : nat) (node : option Z) (nodes : list Z) : Completion (list Z) :=
  match node with
  | None => Return nodes
  | Some n =>
      match fuel with
      | O => Diverge
      | S fuel' =>
          nodes <- (if matches this type n
                    then collect field step (SharedTypeMap.fuel (_edges this)) (_edges this)
                           (first (_nodes this) n) nodes
                    else Return nodes) ;;
          connected first field step this type fuel' (NodeTypeMap.next (_nodes this) n) nodes
      end
  end.

(** Get the list of nodes connected from this node. *)
Definition getNodeIdsConnectedFrom (this : AdjacencyList) (from : Z) (type : EdgeTypes)
  : Completion (list Z) :=
  connected NodeTypeMap.firstOut EdgeTypeMap.to EdgeTypeMap.nextOut this type
    (SharedTypeMap.fuel (_nodes this)) (NodeTypeMap.head (_nodes this) from) [].

(** Get the list of nodes connected to this node. *)
Definition getNodeIdsConnectedTo (this : AdjacencyList) (to : Z) (type : EdgeTypes)
  : Completion (list Z) :=
  connected NodeTypeMap.firstIn EdgeTypeMap.from EdgeTypeMap.nextIn this type
    (SharedTypeMap.fuel (_nodes this)) (NodeTypeMap.head (_nodes this) to) [].

(** The integers that [stats] reports or formats: the header fields, the
    byte lengths behind [nodeBufferSize] and [edgeBufferSize], and the
    bucket statistics; [buckets] and [distribution] are the operands of the
    quotients [avgCollisions] and [uniformity]. *)
Record Stats := mkStats {
  nodes : Z;
  nodeEdgeTypes : Z;
  nodeCapacity : Z;
  nodeByteLength : Z;
  edges : Z;
  deleted : Z;
  edgeCapacity : Z;
  edgeByteLength : Z;
  collisions : Z;
  maxCollisions : Z;
  buckets : Z;
  distribution : Z
}.

Definition sameKey (a b : Edge) : bool :=
  (from a =? from b) && (to a =? to b) && (type a =? type b).

Definition sameHash (a b : option Z) : bool :=
  match a, b with
  | Some x, Some y => x =? y
  | None, None => true (* a Map finds the key NaN again *)
  | _, _ => false
  end.

(** [buckets.set(hash, bucket.add(key))] *)
Fixpoint bucketAdd (bs : list (option Z * list Edge)) (hash : option Z) (e : Edge)
  : Completion (list (option Z * list Edge)) :=
  match bs with
  | [] => Return [(hash, [e])]
  | (h, b) :: bs' =>
      if sameHash h hash then
        if existsb (sameKey e) b then Throw DuplicateNode
        else Return ((h, b ++ [e]) :: bs')
      else bs'' <- bucketAdd bs' hash e ;; Return ((h, b) :: bs'')
  end.

Fixpoint bucketsOf (edges : TypedArray) (l : list Edge) (bs : list (option Z * list Edge))
  : Completion (list (option Z * list Edge)) :=
  match l with
  | [] => Return bs
  | e :: l' =>
      bs <- bucketAdd bs (EdgeTypeMap.hash edges (from e) (to e) (type e)) e ;;
      bucketsOf edges l' bs
  end.

Definition stats (this : AdjacencyList) : Completion Stats :=
  bs <- bucketsOf (_edges this) (getAllEdges this) [] ;;
  let sizes := map (fun b => Z.of_nat (List.length (snd b))) bs in
  Return (mkStats
    (NodeTypeMap.nextId (_nodes this))
    (NodeTypeMap.count (_nodes this))
    (NodeTypeMap.capacity (_nodes this))
    (TA.byteLength (_nodes this))
    (EdgeTypeMap.count (_edges this))
    (EdgeTypeMap.deletes (_edges this))
    (EdgeTypeMap.capacity (_edges this))
    (TA.byteLength (_edges this))
    (fold_left (fun acc size => acc + (size - 1)) sizes 0)
    (fold_left (fun acc size => Z.max acc (size - 1)) sizes 0)
    (Z.of_nat (List.length bs))
    (fold_left (fun acc size => acc + size * (size + 1) / 2) sizes 0)).

End AdjacencyList.

#[global] Arguments Z.add _ _ : simpl never.
#[global] Arguments Z.sub _ _ : simpl never.
#[global] Arguments Z.mul _ _ : simpl never.
#[global] Arguments Z.opp _ : simpl never.
#[global] Arguments Z.div _ _ : simpl never.
#[global] Arguments Z.modulo _ _ : simpl never.
#[global] Arguments Z.rem _ _ : simpl never.
#[global] Arguments Z.pow _ _ : simpl never.
#[global] Arguments Z.eqb _ _ : simpl never.
#[global] Arguments Z.ltb _ _ : simpl never.
#[global] Arguments Z.leb _ _ : simpl never.

(** * Words of a typed array *)

(** The word at index [i]; 0 outside the array. *)
Definition W (d : TypedArray) (i : Z) : Z := orZero (TA.get d i).

Definition inb (d : TypedArray) (i : Z) : Prop := 0 <= i < TA.length d.

Lemma nth_error_upd_eq l n v :
  (n < length l)%nat -> nth_error (upd l n v) n = Some v.
Proof.
  revert n; induction l as [|x l IH]; intros [|n] H; simpl in *; try lia; auto.
  apply IH; lia.
Qed.

Lemma nth_error_upd_ne l n m v :
  n <> m -> nth_error (upd l n v) m = nth_error l m.
Proof.
  revert n m; induction l as [|x l IH]; intros [|n] [|m] H; simpl; auto; try congruence.
Qed.

Lemma length_upd l n v : length (upd l n v) = length l.
Proof. revert n; induction l as [|x l IH]; intros [|n]; simpl; auto. Qed.

Lemma upd_oob l n v : (length l <= n)%nat -> upd l n v = l.
Proof.
  revert n; induction l as [|x l IH]; intros [|n] H; simpl in *; auto; try lia.
  f_equal; apply IH; lia.
Qed.

Lemma TA_length_set d i v : TA.length (TA.set d i v) = TA.length d.
Proof.
  unfold TA.set, TA.length. destruct (i <? 0); simpl; auto. now rewrite length_upd.
Qed.

Lemma TA_kind_set d i v : kind (TA.set d i v) = kind d.
Proof. unfold TA.set. now destruct (i <? 0). Qed.

Lemma TA_get_inb d i : inb d i -> TA.get d i = Some (W d i).
Proof.
  unfold inb, W, TA.get, TA.length. intros H.
  destruct (i <? 0) eqn:E; [lia|].
  destruct (nth_error (elems d) (Z.to_nat i)) eqn:N; auto.
  apply nth_error_None in N. lia.
Qed.

Lemma TA_get_oob d i : ~ inb d i -> TA.get d i = None.
Proof.
  unfold inb, TA.get, TA.length. intros H.
  destruct (i <? 0) eqn:E; auto.
  apply nth_error_None. lia.
Qed.

Lemma W_oob d i : ~ inb d i -> W d i = 0.
Proof. intros H. unfold W. now rewrite TA_get_oob. Qed.

Lemma TA_set_oob d i v : ~ inb d i -> TA.set d i v = d.
Proof.
  unfold inb, TA.set, TA.length. intros H.
  destruct (i <? 0) eqn:E; auto.
  rewrite upd_oob by lia. now destruct d.
Qed.

Lemma inb_set d i v j : inb (TA.set d i v) j <-> inb d j.
Proof. unfold inb. now rewrite TA_length_set. Qed.

Lemma W_set_eq d i v : inb d i -> W (TA.set d i v) i = v mod modulus (kind d).
Proof.
  unfold inb, W, TA.set, TA.get, TA.length. intros H.
  destruct (i <? 0) eqn:E; [lia|]. simpl.
  rewrite nth_error_upd_eq by lia. reflexivity.
Qed.

Lemma W_set_ne d i v j : i <> j -> W (TA.set d i v) j = W d j.
Proof.
  unfold W, TA.set, TA.get. intros H.
  destruct (i <? 0) eqn:E; auto. simpl.
  destruct (j <? 0) eqn:F; auto.
  rewrite nth_error_upd_ne; auto. lia.
Qed.

Lemma orNull_get d i :
  orNull (TA.get d i) = if W d i =? 0 then None else Some (W d i).
Proof. unfold W. destruct (TA.get d i); reflexivity. Qed.

Lemma modulus_u32 : modulus Uint32Array = 2 ^ 32.
Proof. reflexivity. Qed.

(** * The edge hash is a bucket index *)

Lemma toInt32_range z : - 2 ^ 31 <= toInt32 z < 2 ^ 31.
Proof.
  unfold toInt32. change (2 ^ 31) with 2147483648. change (2 ^ 32) with 4294967296.
  pose proof (Z.mod_pos_bound (z + 2147483648) 4294967296). lia.
Qed.

Lemma toInt32_small z : - 2 ^ 31 <= z < 2 ^ 31 -> toInt32 z = z.
Proof.
  unfold toInt32. change (2 ^ 31) with 2147483648. change (2 ^ 32) with 4294967296.
  intros H. rewrite Z.mod_small by lia. lia.
Qed.

Lemma shiftr_range k n : 0 <= n -> - 2 ^ 31 <= k < 2 ^ 31 -> - 2 ^ 31 <= Z.shiftr k n < 2 ^ 31.
Proof.
  intros Hn Hk. rewrite Z.shiftr_div_pow2 by lia.
  assert (0 < 2 ^ n) by (apply Z.pow_pos_nonneg; lia).
  generalize dependent (2 ^ n). intros p Hp.
  change (2 ^ 31) with 2147483648 in *.
  split.
  - apply Z.div_le_lower_bound; [lia|]. nia.
  - apply Z.div_lt_upper_bound; [lia|]. nia.
Qed.

(** The last step of the mix xors a signed word with its arithmetic shift,
    which clears the sign bit. *)
Lemma hash32shift_nonneg key : 0 <= hash32shift key.
Proof.
  unfold hash32shift. cbv zeta. unfold js_xor at 1.
  match goal with |- 0 <= Z.lxor (toInt32 ?a) (toInt32 (js_sar ?b 16)) =>
    generalize a; intros K end.
  unfold js_sar.
  pose proof (toInt32_range K) as HK.
  rewrite (toInt32_small (Z.shiftr _ _)) by (apply shiftr_range; [discriminate|]; exact HK).
  apply Z.lxor_nonneg. rewrite Z.shiftr_nonneg. tauto.
Qed.

Lemma hash_bucket this f t ty h :
  EdgeTypeMap.hash this f t ty = Some h ->
  0 < EdgeTypeMap.capacity this -> 0 <= h < EdgeTypeMap.capacity this.
Proof.
  unfold EdgeTypeMap.hash. cbv zeta.
  pose proof (hash32shift_nonneg f) as Hf. pose proof (hash32shift_nonneg t) as Ht.
  pose proof (hash32shift_nonneg ty) as Hty.
  revert Hf Ht Hty.
  generalize (hash32shift f) (hash32shift t) (hash32shift ty) (EdgeTypeMap.capacity this).
  intros a b c cap Ha Hb Hc.
  assert (Hx : 0 <= ((17 * 37 + a) * 37 + b) * 37 + c) by lia.
  revert Hx. generalize (((17 * 37 + a) * 37 + b) * 37 + c). intros x Hx H Hcap.
  destruct (cap =? 0) eqn:E; [discriminate|].
  assert (h = Z.rem x cap) by congruence. subst h.
  rewrite Z.rem_mod_nonneg by lia.
  apply Z.mod_pos_bound; lia.
Qed.

(** * Scenarios *)

(** [new AdjacencyList({typedArray})], every other option left out. *)
Definition fresh (typedArray : option TypedArrayConstructor) : Completion AdjacencyList :=
  AdjacencyList.create (AdjacencyListOptions None None typedArray).

(** The list after a method call, when the call returns. *)
Definition after {A} (c : Completion AdjacencyList) (m : M A) : Completion AdjacencyList :=
  this <- c ;;
  match m this with
  | (this', Return _) => Return this'
  | (_, Throw e) => Throw e
  | (_, Diverge) => Diverge
  end.

(** A read of the receiver inside a sequence of calls. *)
Definition peek {A} (f : AdjacencyList -> A) : M A := fun this => (this, Return (f this)).

Definition serializedNodes (s : Options) : option TypedArray :=
  match s with SerializedAdjacencyList nodes _ _ => Some nodes | _ => None end.
Definition serializedEdges (s : Options) : option TypedArray :=
  match s with SerializedAdjacencyList _ edges _ => Some edges | _ => None end.

Definition byteLengthOf (a : option TypedArray) : Z :=
  match a with Some a => TA.byteLength a | None => 0 end.

(** The test "resize triggers": the byte length of the edges before the
    three edges are added, and the byte lengths of the edges and of the nodes
    after. *)
Definition resizeTriggers : M (Z * Z * Z) :=
  a <~ AdjacencyList.addNode ;;
  b <~ AdjacencyList.addNode ;;
  initial <~ peek (fun this => byteLengthOf (serializedEdges (AdjacencyList.serialize this))) ;;
  AdjacencyList.addEdge a b 1 ;;;
  AdjacencyList.addEdge a b 2 ;;;
  AdjacencyList.addEdge a b 3 ;;;
  peek (fun this =>
    (initial,
     byteLengthOf (serializedEdges (AdjacencyList.serialize this)),
     byteLengthOf (serializedNodes (AdjacencyList.serialize this)))).

(** The result of a sequence of calls on a list under construction. *)
Definition resultOf {A} (c : Completion AdjacencyList) (m : M A) : Completion A :=
  this <- c ;; snd (m this).

(** The test "wildcard queries" on a list with the four nodes 0..3. *)
Definition fourNodes : Completion AdjacencyList :=
  after (after (after (after (fresh None) AdjacencyList.addNode) AdjacencyList.addNode)
    AdjacencyList.addNode) AdjacencyList.addNode.

Definition wildcard (a b c d : Z) : Completion AdjacencyList :=
  after (after (after fourNodes (AdjacencyList.addEdge a b 1))
    (AdjacencyList.addEdge a c 2)) (AdjacencyList.addEdge a d 1).

Definition connectedFrom (g : Completion AdjacencyList) (from type : Z) : Completion (list Z) :=
  this <- g ;; AdjacencyList.getNodeIdsConnectedFrom this from (OneType type).

Definition eqList (x y : list Z) : bool :=
  if list_eq_dec Z.eq_dec x y then true else false.

Definition returnsList (c : Completion (list Z)) (l : list Z) : bool :=
  match c with Return x => eqList x l | _ => false end.

Definition distinct4 (a b c d : Z) : bool :=
  negb (a =? b) && negb (a =? c) && negb (a =? d) &&
  negb (b =? c) && negb (b =? d) && negb (c =? d).

Definition wildcardOK (a b c d : Z) : bool :=
  implb (distinct4 a b c d)
    (let g := wildcard a b c d in
     returnsList (connectedFrom g a 1) [b; d] &&
     returnsList (connectedFrom g a 2) [c] &&
     returnsList (connectedFrom g a AllEdgeTypes) [b; d; c]).

Definition ids4 : list Z := [0; 1; 2; 3].

(** Two lists that no read operation tells apart. *)
Definition sameReads (G' G : AdjacencyList) : Prop :=
  (forall from to type,
     AdjacencyList.hasEdge G' from to type = AdjacencyList.hasEdge G from to type) /\
  AdjacencyList.getAllEdges G' = AdjacencyList.getAllEdges G /\
  (forall to type,
     AdjacencyList.getNodeIdsConnectedTo G' to type
     = AdjacencyList.getNodeIdsConnectedTo G to type) /\
  (forall from type,
     AdjacencyList.getNodeIdsConnectedFrom G' from type
     = AdjacencyList.getNodeIdsConnectedFrom G from type) /\
  (forall to, AdjacencyList.hasInboundEdges G' to = AdjacencyList.hasInboundEdges G to) /\
  AdjacencyList.stats G' = AdjacencyList.stats G.

(** A map whose array has the length that its capacity word calls for. *)
Definition wellSized (L : Layout) (data : TypedArray) : Prop :=
  SharedTypeMap.length L data = TA.length data.


(** [n] times [addEdge(0, 1, 1); removeEdge(0, 1, 1)]. *)
Fixpoint addRemove (n : nat) (c : Completion AdjacencyList) : Completion AdjacencyList :=
  match n with
  | O => c
  | S n =>
      addRemove n (after (after c (AdjacencyList.addEdge 0 1 1)) (AdjacencyList.removeEdge 0 1 1))
  end.

(** [new AdjacencyList({edgeCapacity: 512})] with two nodes, after the edge
    (0, 1, 1) was added and removed 716 times: no edge and 716 deleted
    records. *)
Definition deleted716 : Completion AdjacencyList :=
  addRemove 716
    (after (after (AdjacencyList.create (AdjacencyListOptions None (Some 512) None))
       AdjacencyList.addNode) AdjacencyList.addNode).

(** [AdjacencyList.deserialize({...G.serialize(), typedArray})] *)
Definition reopen (typedArray : TypedArrayConstructor) (c : Completion AdjacencyList)
    : Completion AdjacencyList :=
  G <- c ;;
  match AdjacencyList.serialize G with
  | SerializedAdjacencyList nodes edges _ =>
      AdjacencyList.deserialize (SerializedAdjacencyList nodes edges (Some typedArray))
  | opts => AdjacencyList.deserialize opts
  end.

(** * Bucket chains *)

(** A nullable address as the source reads it: [word || null]. *)
Definition oaddr (z : Z) : option Z := if z =? 0 then None else Some z.

Lemma head_oaddr L d h : SharedTypeMap.head L d h = oaddr (W d (HEADER_SIZE L + h)).
Proof. unfold SharedTypeMap.head. now rewrite orNull_get. Qed.

Lemma next_oaddr d a : SharedTypeMap.next d a = oaddr (W d a).
Proof.
  unfold SharedTypeMap.next, SharedTypeMap._NEXT. rewrite Z.add_0_r. now rewrite orNull_get.
Qed.

Lemma W_set d i v j :
  W (TA.set d i v) j =
  if (i =? j) && (0 <=? i) && (i <? TA.length d) then v mod modulus (kind d) else W d j.
Proof.
  destruct (Z.eq_dec i j) as [->|Hne].
  - rewrite Z.eqb_refl. simpl.
    destruct (0 <=? j) eqn:E1; simpl.
    + destruct (j <? TA.length d) eqn:E2.
      * apply W_set_eq. unfold inb. lia.
      * rewrite TA_set_oob; auto. unfold inb. lia.
    + rewrite TA_set_oob; auto. unfold inb. lia.
  - rewrite W_set_ne by auto.
    destruct (i =? j) eqn:E; [lia|reflexivity].
Qed.

Lemma W_set_same d i v j : i <> j -> W (TA.set d i v) j = W d j.
Proof. apply W_set_ne. Qed.

Lemma W_set_in d i v :
  0 <= i < TA.length d -> kind d = Uint32Array -> 0 <= v < 4294967296 ->
  W (TA.set d i v) i = v.
Proof.
  intros Hi Hk Hv. rewrite W_set_eq by exact Hi. rewrite Hk.
  change (modulus Uint32Array) with 4294967296. apply Z.mod_small; lia.
Qed.

Lemma TA_add_set d i x : 0 <= i < TA.length d -> TA.add d i x = TA.set d i (W d i + x).
Proof. intros H. unfold TA.add. now rewrite TA_get_inb. Qed.

(** [chain d a l]: following the [next] links from the nullable address [a]
    visits exactly the items [l] and then reaches null. *)
Inductive chain (d : TypedArray) : Z -> list Z -> Prop :=
| chain_nil : chain d 0 []
| chain_cons a l : a <> 0 -> chain d (W d a) l -> chain d a (a :: l).

Lemma chain_zero d l : chain d 0 l -> l = [].
Proof. inversion 1; auto. congruence. Qed.

Lemma chain_fun d a l l' : chain d a l -> chain d a l' -> l = l'.
Proof.
  intros H; revert l'. induction H; intros l' H'; inversion H'; subst; auto; try congruence.
  f_equal; auto.
Qed.

Lemma chain_frame d d' a l :
  (forall x, In x l -> W d' x = W d x) -> chain d a l -> chain d' a l.
Proof.
  intros Hf H. induction H; constructor; auto.
  rewrite Hf by (left; auto). apply IHchain. intros x Hx. apply Hf. right; auto.
Qed.

Lemma chain_head d a l : chain d a l -> l = [] /\ a = 0 \/ exists l', l = a :: l' /\ a <> 0.
Proof. inversion 1; subst; eauto. Qed.

Lemma chain_nonzero d a l x : chain d a l -> In x l -> x <> 0.
Proof. induction 1; simpl; [tauto|]; intros [->|H']; auto. Qed.

Lemma chain_split d a l1 b l2 :
  chain d a (l1 ++ b :: l2) -> chain d b (b :: l2).
Proof.
  revert a; induction l1 as [|x l1 IH]; simpl; intros a H.
  - inversion H; subst; auto.
  - inversion H; subst. eauto.
Qed.

(** Appending an item whose [next] is null behind the last item. *)
Lemma chain_snoc d d' a l b :
  chain d a l -> l <> [] -> b <> 0 -> ~ In b l ->
  W d' b = 0 -> W d' (last l 0) = b ->
  (forall x, In x l -> x <> last l 0 -> W d' x = W d x) ->
  NoDup l ->
  chain d' a (l ++ [b]).
Proof.
  intros H. induction H as [|a l Ha H IH]; [congruence|].
  intros _ Hb Hnin Hb0 Hlast Hf Hnd.
  apply NoDup_cons_iff in Hnd as [Hal Hnd'].
  destruct l as [|y l].
  - simpl in *. constructor; auto. rewrite Hlast. constructor; auto.
    rewrite Hb0. constructor.
  - change ((a :: y :: l) ++ [b]) with (a :: (y :: l) ++ [b]).
    constructor; auto.
    assert (Hla : last (a :: y :: l) 0 = last (y :: l) 0) by reflexivity.
    rewrite Hla in *.
    assert (Hne : a <> last (y :: l) 0).
    { intros E. apply Hal. rewrite E.
      destruct (@exists_last _ (y :: l)) as [l0 [z Hz]]; [discriminate|].
      rewrite Hz. rewrite last_last. apply in_or_app; right; left; auto. }
    rewrite Hf by (simpl; auto).
    apply IH; auto; try discriminate.
    + intros Hin. apply Hnin. right; auto.
    + intros x Hx Hxl. apply Hf; auto. right; auto.
Qed.

(** Splicing an item out of a chain. *)
Lemma chain_remove_head d d' b l :
  chain d b (b :: l) -> ~ In b l ->
  (forall x, In x l -> W d' x = W d x) ->
  chain d' (W d b) l.
Proof.
  intros H Hnin Hf. inversion H; subst. eapply chain_frame; eauto.
Qed.

Lemma chain_remove d d' a l1 p b l2 :
  chain d a (l1 ++ p :: b :: l2) -> NoDup (l1 ++ p :: b :: l2) ->
  W d' p = W d b ->
  (forall x, In x (l1 ++ p :: b :: l2) -> x <> p -> x <> b -> W d' x = W d x) ->
  chain d' a (l1 ++ p :: l2).
Proof.
  revert a; induction l1 as [|x l1 IH]; simpl; intros a H Hnd Hp Hf.
  - inversion H as [|? ? Hp0 H1]; subst. inversion H1 as [|? ? Hb0 H2]; subst.
    inversion Hnd as [|? ? Hpn Hnd1]; subst. inversion Hnd1 as [|? ? Hbn Hnd2]; subst.
    constructor; auto. rewrite Hp.
    eapply chain_frame; [|exact H2].
    intros y Hy. apply Hf; auto.
    + intros ->. apply Hpn. right; auto.
    + intros ->. auto.
  - inversion H as [|? ? Hx0 H1]; subst.
    inversion Hnd as [|? ? Hxn Hnd1]; subst.
    constructor; auto.
    rewrite Hf; auto.
    + intros ->. apply Hxn. apply in_or_app; right; left; auto.
    + intros ->. apply Hxn. apply in_or_app; right; right; left; auto.
Qed.

(** ** The chain walks of the source *)

Lemma lastOf_chain d a l fuel :
  chain d a l -> l <> [] -> (length l <= S fuel)%nat ->
  SharedTypeMap.lastOf fuel d a = Return (last l 0).
Proof.
  intros H; revert fuel. induction H as [|a l Ha H IH]; [congruence|].
  intros fuel _ Hlen.
  destruct l as [|y l].
  - inversion H as [E|]; subst.
    destruct fuel; simpl; rewrite next_oaddr; unfold oaddr; rewrite <- E; reflexivity.
  - inversion H; subst.
    destruct fuel as [|fuel]; [simpl in Hlen; lia|].
    simpl SharedTypeMap.lastOf. rewrite next_oaddr. unfold oaddr.
    destruct (W d a =? 0) eqn:E; [lia|].
    rewrite IH; auto; try discriminate. simpl in *; lia.
Qed.

Lemma predOf_chain d l1 b l2 fuel prev a :
  chain d a (l1 ++ b :: l2) -> ~ In b l1 -> (length l1 <= fuel)%nat ->
  SharedTypeMap.predOf fuel d prev (oaddr a) b =
  Return (match l1 with [] => prev | _ => Some (last l1 0) end).
Proof.
  revert a prev fuel. induction l1 as [|x l1 IH]; simpl; intros a prev fuel H Hnin Hlen.
  - inversion H; subst. unfold oaddr. destruct (b =? 0) eqn:E; [lia|].
    destruct fuel; simpl; rewrite Z.eqb_refl; reflexivity.
  - inversion H; subst. unfold oaddr at 1. destruct (x =? 0) eqn:E; [lia|].
    destruct fuel as [|fuel]; [lia|]. simpl.
    destruct (x =? b) eqn:E2; [exfalso; apply Hnin; left; lia|].
    rewrite next_oaddr. rewrite (IH _ (Some x) fuel); auto; try lia.
    destruct l1; reflexivity.
Qed.

(** A chain of pairwise distinct items inside the array is no longer than the
    array. *)
Lemma NoDup_bounded_length (l : list Z) (n : nat) :
  NoDup l -> (forall x, In x l -> 0 <= x < Z.of_nat n) -> (length l <= n)%nat.
Proof.
  intros Hnd Hb.
  assert (H : incl (map Z.to_nat l) (seq 0 n)).
  { intros k Hk. apply in_map_iff in Hk as [x [<- Hx]]. apply in_seq.
    specialize (Hb x Hx). lia. }
  apply NoDup_incl_length in H.
  - now rewrite length_map, length_seq in H.
  - apply Injective_map_NoDup_in; auto.
    intros x y Hx Hy E. pose proof (Hb x Hx). pose proof (Hb y Hy). lia.
Qed.

(** * Stores into a 32-bit array *)

Lemma W_set32 d i v j :
  kind d = Uint32Array -> 0 <= i < TA.length d -> 0 <= v < 4294967296 ->
  W (TA.set d i v) j = if j =? i then v else W d j.
Proof.
  intros Hk Hi Hv. destruct (Z.eqb_spec j i) as [->|Hne].
  - now apply W_set_in.
  - apply W_set_ne. lia.
Qed.

Ltac zeqs :=
  repeat match goal with
  | |- context [Z.eqb ?a ?b] => destruct (Z.eqb_spec a b); try lia
  | H : context [Z.eqb ?a ?b] |- _ => destruct (Z.eqb_spec a b); try lia
  end.

Ltac zdone := zeqs; try reflexivity; try lia; auto.

(** Case analysis on the tests of a nested conditional, in order; decided
    branches are reduced before the next test is looked at. *)
Ltac ifs :=
  repeat (match goal with
  | |- context [Z.eqb ?a ?b] => destruct (Z.eqb_spec a b)
  | |- context [Z.leb ?a ?b] => destruct (Z.leb_spec a b)
  | |- context [Z.ltb ?a ?b] => destruct (Z.ltb_spec a b)
  end; cbn [andb negb orb]; cbv iota; try lia); try reflexivity.

Ltac Wset :=
  rewrite W_set32 by (rewrite ?TA_kind_set, ?TA_length_set; auto; lia).

(** * A table of bucket chains *)

Definition cap (d : TypedArray) : Z := W d 0.
Definition cnt (d : TypedArray) : Z := W d 1.

(** Every bucket of the table heads a chain without repetition, and the
    items on the chain of bucket [h] are the members owned by [h]. *)
Definition Chains (d : TypedArray) (member : Z -> Prop) (owner : Z -> Z) : Prop :=
  forall h, 0 <= h < cap d ->
    exists l, chain d (W d (3 + h)) l /\ NoDup l /\
              forall a, In a l <-> (member a /\ owner a = h).

Lemma Chains_ext d d' m m' o o' :
  Chains d m o ->
  cap d' = cap d ->
  (forall h, 0 <= h < cap d -> W d' (3 + h) = W d (3 + h)) ->
  (forall a, m a -> W d' a = W d a) ->
  (forall a, m' a <-> m a) ->
  (forall a, m a -> o' a = o a) ->
  Chains d' m' o'.
Proof.
  intros H Hc Ht Hn Hm Ho h Hh. rewrite Hc in Hh.
  destruct (H h Hh) as [l [Hl [Hnd Hin]]].
  exists l. split; [|split]; auto.
  - rewrite Ht by auto. eapply chain_frame; [|exact Hl].
    intros x Hx. apply Hn. apply Hin in Hx. tauto.
  - intros a. rewrite Hin, Hm. split; intros [Ha Hb]; split; auto.
    + rewrite Ho; auto.
    + rewrite <- Ho; auto.
Qed.

Lemma last_in (l : list Z) : l <> [] -> In (last l 0) l.
Proof.
  intros H. destruct (@exists_last _ l H) as [l0 [z ->]].
  rewrite last_last. apply in_or_app; right; left; auto.
Qed.

Lemma chain_last_null d a l : chain d a l -> l <> [] -> W d (last l 0) = 0.
Proof.
  intros H Hne. destruct (@exists_last _ l Hne) as [l0 [z ->]].
  rewrite last_last. apply chain_split in H. inversion H as [|? ? ? Hz]; subst.
  inversion Hz; auto.
Qed.

Lemma chain_fuel d d' l member :
  NoDup l -> (forall a, In a l -> member a) ->
  (forall a, member a -> 0 <= a < TA.length d) ->
  TA.length d' = TA.length d ->
  (S (length l) <= SharedTypeMap.fuel d')%nat.
Proof.
  intros Hnd Hin Hmem Hlen'.
  unfold SharedTypeMap.fuel.
  assert (length l <= length (elems d'))%nat; [|lia].
  apply NoDup_bounded_length; auto.
  intros x Hx. apply Hin in Hx. apply Hmem in Hx.
  unfold TA.length in *. lia.
Qed.

(** The place that [link] stores the new item into: the bucket or the [next]
    word of the last item of its chain. *)
Definition linkPlace (d : TypedArray) (h : Z) (l : list Z) : Z :=
  match l with [] => 3 + h | _ => last l 0 end.

Section Link.

Variable L : Layout.
Hypothesis HS : HEADER_SIZE L = 3.

Variable d : TypedArray.
Hypothesis Hkind : kind d = Uint32Array.
Hypothesis Hlen : TA.length d <= 4294967296.
Hypothesis Hcap : 0 <= cap d.
Hypothesis Hcnt : 0 <= cnt d < 4294967295.

(** [link(hash, item, type)] of a fresh item: the stores it makes. *)
Lemma link_stores h item type l :
  0 <= h < cap d ->
  chain d (W d (3 + h)) l -> NoDup l ->
  (forall a, In a l -> 3 + cap d <= a < TA.length d /\ a <> item + 1) ->
  3 + cap d <= item -> item + 1 < TA.length d ->
  0 <= type < 4294967296 ->
  exists d',
    SharedTypeMap.link L d h item type = Return d' /\
    kind d' = kind d /\ TA.length d' = TA.length d /\
    (forall j, W d' j =
       if j =? 1 then cnt d + 1
       else if j =? linkPlace d h l then item
       else if j =? item + 1 then type
       else W d j).
Proof.
  intros Hh Hl Hnd Hmem Hit1 Hit2 Hty.
  unfold SharedTypeMap.link, SharedTypeMap._TYPE, SharedTypeMap._NEXT, SharedTypeMap._COUNT.
  set (d1 := TA.set d (item + 1) type).
  assert (Hk1 : kind d1 = Uint32Array) by (unfold d1; now rewrite TA_kind_set).
  assert (Hl1 : TA.length d1 = TA.length d) by (unfold d1; now rewrite TA_length_set).
  assert (HW1 : forall j, W d1 j = if j =? item + 1 then type else W d j).
  { intros j. unfold d1. now Wset. }
  rewrite head_oaddr, HS, HW1.
  destruct (Z.eqb_spec (3 + h) (item + 1)); [lia|].
  assert (Hl' : chain d1 (W d (3 + h)) l).
  { eapply chain_frame; [|exact Hl]. intros x Hx. rewrite HW1.
    destruct (Hmem x Hx). zeqs; reflexivity. }
  assert (Hfin : forall p, 0 <= p < TA.length d -> p <> 1 -> p <> item + 1 ->
    exists d', Return (TA.add (TA.set d1 p item) 1 1) = Return d' /\
      kind d' = kind d /\ TA.length d' = TA.length d /\
      (forall j, W d' j =
         if j =? 1 then cnt d + 1
         else if j =? p then item
         else if j =? item + 1 then type
         else W d j)).
  { intros p Hp Hp1 Hp2. eexists; split; [reflexivity|].
    rewrite TA_add_set by (rewrite TA_length_set; lia).
    rewrite !TA_kind_set, !TA_length_set.
    split; [congruence|]. split; [exact Hl1|].
    intros j.
    assert (E1 : W (TA.set d1 p item) 1 = cnt d).
    { Wset. rewrite HW1. zeqs; reflexivity. }
    rewrite E1. Wset. Wset. rewrite HW1. reflexivity. }
  destruct (chain_head _ _ _ Hl) as [[-> E0]|[l' [-> Hnz]]].
  - (* This is the first item in the bucket! *)
    rewrite E0. unfold oaddr, linkPlace. rewrite Z.eqb_refl. apply Hfin; lia.
  - unfold oaddr. destruct (Z.eqb_spec (W d (3 + h)) 0); [lia|].
    rewrite (lastOf_chain d1 _ (W d (3 + h) :: l')); auto; try discriminate.
    2:{ assert (S (length (W d (3 + h) :: l')) <= SharedTypeMap.fuel d1)%nat; [|lia].
        eapply chain_fuel with (member := fun a => In a (W d (3 + h) :: l')); eauto.
        intros a Ha. apply Hmem in Ha. lia. }
    unfold bindC, linkPlace. rewrite Z.add_0_r.
    assert (Hin : In (last (W d (3 + h) :: l') 0) (W d (3 + h) :: l'))
      by (apply last_in; discriminate).
    destruct (Hmem _ Hin).
    apply Hfin; lia.
Qed.

End Link.

(** The place whose word [unlink] replaces by the successor of the item. *)
Definition unlinkPlace (h : Z) (l1 : list Z) : Z :=
  match l1 with [] => 3 + h | _ => last l1 0 end.

Section Unlink.

Variable L : Layout.
Hypothesis HS : HEADER_SIZE L = 3.

Variable d : TypedArray.
Hypothesis Hkind : kind d = Uint32Array.
Hypothesis Hlen : TA.length d <= 4294967296.
Hypothesis Hcap : 0 <= cap d.
Hypothesis Hcnt : 0 < cnt d < 4294967296.

(** [unlink(hash, item)] of an item on the chain of its bucket: the stores
    it makes. *)
Lemma unlink_stores h item l1 l2 :
  0 <= h < cap d ->
  chain d (W d (3 + h)) (l1 ++ item :: l2) -> NoDup (l1 ++ item :: l2) ->
  (forall a, In a (l1 ++ item :: l2) ->
     3 + cap d <= a /\ a + 1 < TA.length d /\ 0 <= W d a < 4294967296 /\
     forall b, In b (l1 ++ item :: l2) -> a <> b + 1) ->
  exists d',
    SharedTypeMap.unlink L d h item = Return d' /\
    kind d' = kind d /\ TA.length d' = TA.length d /\
    (forall j, W d' j =
       if j =? 1 then cnt d - 1
       else if j =? item then 0
       else if j =? item + 1 then 0
       else if j =? unlinkPlace h l1 then W d item
       else W d j).
Proof.
  intros Hh Hl Hnd Hmem.
  unfold SharedTypeMap.unlink, SharedTypeMap._TYPE, SharedTypeMap._NEXT, SharedTypeMap._COUNT.
  assert (Hitem : In item (l1 ++ item :: l2)) by (apply in_or_app; right; left; auto).
  destruct (Hmem _ Hitem) as [Hi1 [Hi2 [Hi3 Hi4]]].
  set (d1 := TA.set d (item + 1) 0).
  assert (Hk1 : kind d1 = Uint32Array) by (unfold d1; now rewrite TA_kind_set).
  assert (Hl1 : TA.length d1 = TA.length d) by (unfold d1; now rewrite TA_length_set).
  assert (HW1 : forall j, W d1 j = if j =? item + 1 then 0 else W d j).
  { intros j. unfold d1. now Wset. }
  rewrite head_oaddr, HS, HW1.
  destruct (Z.eqb_spec (3 + h) (item + 1)); [lia|].
  assert (Hl' : chain d1 (W d (3 + h)) (l1 ++ item :: l2)).
  { eapply chain_frame; [|exact Hl]. intros x Hx. rewrite HW1.
    destruct (Hmem x Hx) as [? [? [? Hd]]]. specialize (Hd item Hitem). zeqs; reflexivity. }
  assert (Hhd : W d (3 + h) <> 0).
  { destruct (chain_head _ _ _ Hl) as [[E _]|[l' [_ Hnz]]]; auto.
    destruct l1; discriminate. }
  unfold oaddr at 1. destruct (Z.eqb_spec (W d (3 + h)) 0); [lia|].
  assert (Hni : ~ In item l1).
  { apply NoDup_remove_2 in Hnd. intros Hi. apply Hnd. apply in_or_app; auto. }
  change (Some (W d (3 + h))) with (if false then None else Some (W d (3 + h))).
  assert (Ehd : (if false then None else Some (W d (3 + h))) = oaddr (W d (3 + h))).
  { unfold oaddr. destruct (Z.eqb_spec (W d (3 + h)) 0); [lia|reflexivity]. }
  rewrite Ehd.
  rewrite (predOf_chain d1 l1 item l2); auto.
  2:{ assert (S (length (l1 ++ item :: l2)) <= SharedTypeMap.fuel d1)%nat.
      { eapply chain_fuel with (member := fun a => In a (l1 ++ item :: l2)); eauto.
        intros a Ha. apply Hmem in Ha. lia. }
      rewrite length_app in H. simpl in H. unfold SharedTypeMap.fuel in *. lia. }
  unfold bindC. rewrite next_oaddr, HW1.
  destruct (Z.eqb_spec item (item + 1)); [lia|].
  assert (Hpl : 0 <= unlinkPlace h l1 < TA.length d /\ unlinkPlace h l1 <> item
                /\ unlinkPlace h l1 <> item + 1 /\ unlinkPlace h l1 <> 1).
  { unfold unlinkPlace. destruct l1 as [|x l1]; [lia|].
    assert (Hla : In (last (x :: l1) 0) (x :: l1)) by (apply last_in; discriminate).
    assert (Hla' : In (last (x :: l1) 0) ((x :: l1) ++ item :: l2)) by (apply in_or_app; auto).
    destruct (Hmem _ Hla') as [? [? [? Hd]]]. specialize (Hd item Hitem).
    repeat split; try lia. intros E. apply Hni. now rewrite <- E. }
  destruct Hpl as [Hp1 [Hp2 [Hp3 Hp4]]].
  set (v := W d item) in *.
  assert (Hgen : exists d',
     Return (TA.add (TA.set (TA.set d1 (unlinkPlace h l1) v) (item + 0) 0) 1 (-1)) = Return d' /\
     kind d' = kind d /\ TA.length d' = TA.length d /\
     (forall j, W d' j =
       if j =? 1 then cnt d - 1
       else if j =? item then 0
       else if j =? item + 1 then 0
       else if j =? unlinkPlace h l1 then v
       else W d j)).
  { eexists; split; [reflexivity|].
    rewrite TA_add_set by (rewrite !TA_length_set; lia).
    rewrite !TA_kind_set, !TA_length_set.
    split; [congruence|]. split; [exact Hl1|].
    intros j. rewrite Z.add_0_r.
    assert (E1 : W (TA.set (TA.set d1 (unlinkPlace h l1) v) item 0) 1 = cnt d).
    { Wset. Wset. rewrite HW1. zeqs; reflexivity. }
    rewrite E1. Wset. Wset. Wset. rewrite HW1. zeqs; try reflexivity; lia. }
  destruct Hgen as [d' [Hd' Hrest]]. exists d'. split; [|exact Hrest].
  rewrite <- Hd'.
  unfold oaddr. destruct (Z.eqb_spec v 0) as [Ev|Ev].
  - rewrite Ev. destruct l1; unfold unlinkPlace; rewrite ?Z.add_0_r; reflexivity.
  - destruct l1; unfold unlinkPlace; rewrite ?Z.add_0_r; reflexivity.
Qed.

End Unlink.

(** ** What the stores of [link] and [unlink] do to the chains *)

Lemma Chains_link d d' (m : Z -> Prop) o h item l (m' : Z -> Prop) o' :
  Chains d m o -> 0 <= h < cap d ->
  chain d (W d (3 + h)) l -> NoDup l -> (forall a, In a l <-> (m a /\ o a = h)) ->
  (forall a, m a -> 3 + cap d <= a /\ a <> item) ->
  3 + cap d <= item -> W d' item = 0 -> cap d' = cap d ->
  W d' (linkPlace d h l) = item ->
  (forall j, j <> linkPlace d h l -> (3 <= j < 3 + cap d \/ m j) -> W d' j = W d j) ->
  (forall a, m' a <-> (m a \/ a = item)) -> o' item = h -> (forall a, m a -> o' a = o a) ->
  Chains d' m' o'.
Proof.
  intros Hch Hh Hl Hnd Hin Hmem Hit Hnext Hcap Hplace Hframe Hm' Hoi Ho h' Hh'.
  rewrite Hcap in Hh'.
  assert (Hnm : ~ m item) by (intros Hm; destruct (Hmem _ Hm); lia).
  destruct (Z.eq_dec h' h) as [->|Hne].
  - exists (l ++ [item]). split; [|split].
    + destruct l as [|x l].
      * unfold linkPlace in *. cbn [app]. rewrite Hplace. constructor; [lia|]. rewrite Hnext. constructor.
      * assert (Hla : In (last (x :: l) 0) (x :: l)) by (apply last_in; discriminate).
        assert (Hlm : m (last (x :: l) 0)) by (apply Hin in Hla; tauto).
        destruct (Hmem _ Hlm).
        rewrite Hframe by (unfold linkPlace; lia).
        eapply chain_snoc; eauto; try discriminate; try lia.
        -- intros Hi. apply Hnm. apply Hin in Hi. tauto.
        -- intros y Hy Hyl. apply Hframe; auto. right. apply Hin in Hy. tauto.
    + apply NoDup_app; auto.
      * constructor; [simpl; tauto|constructor].
      * intros a Ha [<-|F]; [|destruct F]. apply Hnm. apply Hin in Ha. tauto.
    + intros a. rewrite in_app_iff, Hin, Hm'. simpl. split.
      * intros [[Ha Hb]|[<-|F]]; auto; [|destruct F]. split; auto. rewrite Ho; auto.
      * intros [[Ha| ->] Hb]; auto. left. split; auto. rewrite <- Ho; auto.
  - destruct (Hch h' Hh') as [l2 [Hl2 [Hnd2 Hin2]]].
    exists l2. split; [|split]; auto.
    + assert (Hpl : forall j, (j = 3 + h' \/ In j l2) -> j <> linkPlace d h l).
      { intros j Hj. unfold linkPlace. destruct l as [|x l].
        - destruct Hj as [->|Hj]; [lia|]. apply Hin2 in Hj as [Hj _].
          destruct (Hmem _ Hj). lia.
        - assert (Hla : In (last (x :: l) 0) (x :: l)) by (apply last_in; discriminate).
          apply Hin in Hla as [Hla1 Hla2]. destruct (Hmem _ Hla1).
          destruct Hj as [->|Hj]; [lia|]. apply Hin2 in Hj as [Hj Hj2].
          intros E. rewrite E in Hj2. congruence. }
      rewrite Hframe by (auto; left; lia).
      eapply chain_frame; [|exact Hl2]. intros x Hx. apply Hframe; auto.
      right. apply Hin2 in Hx. tauto.
    + intros a. rewrite Hin2, Hm'. split.
      * intros [Ha Hb]. split; auto. rewrite Ho; auto.
      * intros [[Ha| ->] Hb]; [split; auto; rewrite <- Ho; auto|]. congruence.
Qed.

Lemma Chains_unlink d d' (m : Z -> Prop) o h item l1 l2 (m' : Z -> Prop) o' :
  Chains d m o -> 0 <= h < cap d ->
  chain d (W d (3 + h)) (l1 ++ item :: l2) -> NoDup (l1 ++ item :: l2) ->
  (forall a, In a (l1 ++ item :: l2) <-> (m a /\ o a = h)) ->
  (forall a, m a -> 3 + cap d <= a) ->
  cap d' = cap d ->
  W d' (unlinkPlace h l1) = W d item ->
  (forall j, j <> unlinkPlace h l1 -> j <> item -> (3 <= j < 3 + cap d \/ m j) ->
             W d' j = W d j) ->
  (forall a, m' a <-> (m a /\ a <> item)) -> (forall a, m' a -> o' a = o a) ->
  Chains d' m' o'.
Proof.
  intros Hch Hh Hl Hnd Hin Hmem Hcap Hplace Hframe Hm' Ho h' Hh'.
  rewrite Hcap in Hh'.
  assert (Hitem : In item (l1 ++ item :: l2)) by (apply in_or_app; right; left; auto).
  assert (Hmi : m item /\ o item = h) by (apply Hin; auto).
  assert (Hni1 : ~ In item l1).
  { apply NoDup_remove_2 in Hnd. intros Hi. apply Hnd. apply in_or_app; auto. }
  assert (Hni2 : ~ In item l2).
  { apply NoDup_remove_2 in Hnd. intros Hi. apply Hnd. apply in_or_app; auto. }
  destruct (Z.eq_dec h' h) as [->|Hne].
  - exists (l1 ++ l2). split; [|split].
    + destruct l1 as [|x l1].
      * unfold unlinkPlace in *. cbn [app] in *. rewrite Hplace. inversion Hl as [|? ? Hnz Hl2]; subst.
        eapply chain_frame; [|exact Hl2]. intros y Hy. apply Hframe.
        -- assert (Hmy : m y) by (apply Hin; right; auto). specialize (Hmem y Hmy). lia.
        -- intros ->. auto.
        -- right. apply Hin; right; auto.
      * destruct (@exists_last _ (x :: l1)) as [l0 [p Hp]]; [discriminate|].
        assert (Hpl : unlinkPlace h (x :: l1) = p).
        { unfold unlinkPlace. rewrite Hp. apply last_last. }
        rewrite Hpl in *. rewrite Hp in *.
        rewrite <- app_assoc in *. cbn [app] in *.
        assert (Hpm : m p) by (apply Hin; apply in_or_app; right; left; auto).
        pose proof (Hmem p Hpm).
        assert (Hpi : p <> item).
        { intros ->. apply Hni1. apply in_or_app; right; left; auto. }
        pose proof (Hmem _ (proj1 Hmi)).
        rewrite (Hframe (3 + h)) by (try lia; left; lia).
        eapply chain_remove; eauto.
        intros y Hy Hyp Hyi. apply Hframe; auto. right. apply Hin; auto.
    + apply NoDup_remove_1 in Hnd. exact Hnd.
    + intros a. rewrite Hm'. split.
      * intros Ha. assert (Ha' : In a (l1 ++ item :: l2)).
        { apply in_app_iff in Ha as [Ha|Ha]; apply in_or_app; auto. right; right; auto. }
        apply Hin in Ha' as [Ha1 Ha2].
        assert (a <> item).
        { intros ->. apply in_app_iff in Ha as [Ha|Ha]; auto. }
        split; auto. rewrite Ho; auto. apply Hm'; auto.
      * intros [[Ha Hai] Hb]. rewrite Ho in Hb by (apply Hm'; auto).
        assert (Ha' : In a (l1 ++ item :: l2)) by (apply Hin; auto).
        apply in_app_iff in Ha' as [Ha'|[Ha'|Ha']]; apply in_or_app; auto. congruence.
  - destruct (Hch h' Hh') as [l3 [Hl3 [Hnd3 Hin3]]].
    exists l3. split; [|split]; auto.
    + assert (Hpl : forall j, (j = 3 + h' \/ In j l3) -> j <> unlinkPlace h l1 /\ j <> item).
      { intros j Hj.
        assert (Hj' : j = 3 + h' \/ (m j /\ o j = h')).
        { destruct Hj; auto. right. apply Hin3; auto. }
        split.
        - unfold unlinkPlace. destruct l1 as [|x l1].
          + destruct Hj' as [->|[Hj' _]]; [lia|]. specialize (Hmem _ Hj'). lia.
          + assert (Hla : In (last (x :: l1) 0) ((x :: l1) ++ item :: l2)).
            { apply in_or_app; left. apply last_in; discriminate. }
            apply Hin in Hla as [Hla1 Hla2]. specialize (Hmem _ Hla1).
            destruct Hj' as [->|[Hj1 Hj2]]; [lia|]. intros E. rewrite E in Hj2. congruence.
        - destruct Hj' as [->|[Hj1 Hj2]].
          + specialize (Hmem _ (proj1 Hmi)). lia.
          + intros E. rewrite E in Hj2. destruct Hmi. congruence. }
      destruct (Hpl (3 + h') (or_introl eq_refl)).
      rewrite Hframe by (auto; left; lia).
      eapply chain_frame; [|exact Hl3]. intros x Hx.
      destruct (Hpl x (or_intror Hx)). apply Hframe; auto.
      right. apply Hin3 in Hx. tauto.
    + intros a. rewrite Hin3, Hm'. split.
      * intros [Ha Hb]. assert (a <> item) by (intros ->; destruct Hmi; congruence).
        split; auto. rewrite Ho; auto. apply Hm'; auto.
      * intros [[Ha Hai] Hb]. split; auto. rewrite <- Ho; auto. apply Hm'; auto.
Qed.

(** * The edge map *)

Definition del (d : TypedArray) : Z := W d 2.

(** The item addresses [base + size * k] for [k < n], in order. *)
Definition slotsOf (base size n : Z) : list Z :=
  map (fun k => base + size * Z.of_nat k) (seq 0 (Z.to_nat n)).

Definition eaddr (d : TypedArray) (k : Z) : Z := 3 + cap d + 8 * k.

(** The records handed out so far, live or deleted. *)
Definition eslots (d : TypedArray) : list Z := slotsOf (3 + cap d) 8 (cnt d + del d).

Definition liveb (d : TypedArray) (a : Z) : bool := negb (W d (a + 1) =? 0).

(** The addresses of the live edge records, in buffer order. *)
Definition elive (d : TypedArray) : list Z := filter (liveb d) (eslots d).

(** The live edges, in buffer order. *)
Definition liveEdges (d : TypedArray) : list Edge := map (AdjacencyList.edgeAt d) (elive d).

Definition rawhash (e : Edge) : Z :=
  ((17 * 37 + hash32shift (from e)) * 37 + hash32shift (to e)) * 37 + hash32shift (type e).

Definition bucketOf (d : TypedArray) (a : Z) : Z :=
  rawhash (AdjacencyList.edgeAt d a) mod cap d.

Definition EMAX : Z := 134217727.

Record EdgesOK (d : TypedArray) : Prop := {
  eo_kind : kind d = Uint32Array;
  eo_cap : 2 <= cap d <= EMAX;
  eo_len : TA.length d = 3 + 17 * cap d;
  eo_words : forall i, 0 <= W d i < 4294967296;
  eo_used : cnt d + del d <= 2 * cap d;
  eo_zero : forall k f, 0 <= k < 2 * cap d -> 0 <= f < 8 ->
            (cnt d + del d <= k \/ W d (eaddr d k + 1) = 0) -> W d (eaddr d k + f) = 0;
  eo_count : cnt d = Z.of_nat (length (elive d));
  eo_chains : Chains d (fun a => In a (elive d)) (bucketOf d);
  eo_uniq : NoDup (liveEdges d)
}.

Lemma EMAX_eq : EdgeTypeMap.MAX_CAPACITY = EMAX.
Proof. reflexivity. Qed.

Lemma in_slotsOf base size n a :
  In a (slotsOf base size n) <-> exists k, 0 <= k < n /\ a = base + size * k.
Proof.
  unfold slotsOf. rewrite in_map_iff. split.
  - intros [k [<- Hk]]. apply in_seq in Hk. exists (Z.of_nat k). split; auto. lia.
  - intros [k [Hk ->]]. exists (Z.to_nat k). split.
    + rewrite Z2Nat.id by lia. reflexivity.
    + apply in_seq. lia.
Qed.

Lemma NoDup_slotsOf base size n : 0 < size -> NoDup (slotsOf base size n).
Proof.
  intros Hs. unfold slotsOf. apply Injective_map_NoDup_in.
  - intros x y _ _ E. nia.
  - apply seq_NoDup.
Qed.

Lemma slotsOf_snoc base size n :
  0 <= n -> slotsOf base size (n + 1) = slotsOf base size n ++ [base + size * n].
Proof.
  intros Hn. unfold slotsOf.
  replace (Z.to_nat (n + 1)) with (Z.to_nat n + 1)%nat by lia.
  rewrite seq_app, map_app. simpl. rewrite Z2Nat.id by lia. reflexivity.
Qed.

Lemma in_eslots d a :
  In a (eslots d) <-> exists k, 0 <= k < cnt d + del d /\ a = eaddr d k.
Proof. apply in_slotsOf. Qed.

Lemma in_elive d a :
  In a (elive d) <-> (exists k, 0 <= k < cnt d + del d /\ a = eaddr d k) /\ W d (a + 1) <> 0.
Proof.
  unfold elive. rewrite filter_In, in_eslots. unfold liveb.
  destruct (Z.eqb_spec (W d (a + 1)) 0); simpl; intuition congruence.
Qed.

Lemma NoDup_elive d : NoDup (elive d).
Proof. apply NoDup_filter. apply NoDup_slotsOf. lia. Qed.

Lemma in_liveEdges d e :
  In e (liveEdges d) <-> exists a, In a (elive d) /\ AdjacencyList.edgeAt d a = e.
Proof.
  unfold liveEdges. rewrite in_map_iff. split; intros [a [H1 H2]]; exists a; auto.
Qed.

Lemma edgeAt_W d a :
  AdjacencyList.edgeAt d a = mkEdge (W d (a + 2)) (W d (a + 3)) (W d (a + 1)).
Proof. reflexivity. Qed.

(** Equal live records hold different edges. *)
Lemma edgeAt_inj d a b :
  NoDup (liveEdges d) -> In a (elive d) -> In b (elive d) ->
  AdjacencyList.edgeAt d a = AdjacencyList.edgeAt d b -> a = b.
Proof.
  unfold liveEdges. intros Hnd Ha Hb E.
  generalize (NoDup_elive d). revert Hnd Ha Hb. generalize (elive d) as l.
  induction l as [|x l IH]; simpl; [tauto|].
  intros Hnd Ha Hb Hl. inversion Hnd as [|? ? Hx Hnd']; subst.
  inversion Hl; subst.
  destruct Ha as [->|Ha], Hb as [->|Hb]; auto.
  - exfalso. apply Hx. rewrite E. now apply in_map.
  - exfalso. apply Hx. rewrite <- E. now apply in_map.
Qed.

Section EdgeFacts.

Variable d : TypedArray.
Hypothesis OK : EdgesOK d.

Lemma elive_bounds a :
  In a (elive d) -> 3 + cap d <= a /\ a + 8 <= TA.length d /\ (a - 3 - cap d) mod 8 = 0.
Proof.
  intros H. apply in_elive in H as [[k [Hk ->]] _].
  pose proof (eo_cap d OK). pose proof (eo_used d OK). rewrite (eo_len d OK).
  unfold eaddr. replace (3 + cap d + 8 * k - 3 - cap d) with (k * 8) by lia.
  rewrite Z.mod_mul by lia. lia.
Qed.

Lemma elive_apart a b f g :
  In a (elive d) -> In b (elive d) -> 0 <= f < 8 -> 0 <= g < 8 ->
  a + f = b + g -> a = b /\ f = g.
Proof.
  intros Ha Hb Hf Hg E.
  apply in_elive in Ha as [[k [Hk ->]] _]. apply in_elive in Hb as [[k' [Hk' ->]] _].
  unfold eaddr in *. lia.
Qed.

Lemma hash_some f t ty :
  EdgeTypeMap.hash d f t ty = Some (rawhash (mkEdge f t ty) mod cap d).
Proof.
  pose proof (eo_cap d OK) as Hc.
  unfold EdgeTypeMap.hash, rawhash. cbv zeta. cbn [from to type].
  pose proof (hash32shift_nonneg f) as Hf. pose proof (hash32shift_nonneg t) as Ht.
  pose proof (hash32shift_nonneg ty) as Hty.
  revert Hf Ht Hty. change (EdgeTypeMap.capacity d) with (cap d).
  generalize (hash32shift f) (hash32shift t) (hash32shift ty). intros x y z Hx Hy Hz.
  destruct (Z.eqb_spec (cap d) 0); [lia|].
  rewrite Z.rem_mod_nonneg by lia. reflexivity.
Qed.

Lemma bucket_range e : 0 <= rawhash e mod cap d < cap d.
Proof. pose proof (eo_cap d OK). apply Z.mod_pos_bound. lia. Qed.

Lemma sameKey_spec a b : AdjacencyList.sameKey a b = true <-> a = b.
Proof.
  unfold AdjacencyList.sameKey. destruct a, b; simpl.
  rewrite !andb_true_iff, !Z.eqb_eq. split; [intros [[-> ->] ->]; auto|].
  intros E; injection E; auto.
Qed.

(** The walk of [addressOf] along a chain of live records. *)
Lemma addressOfFrom_chain a l f t ty fuel :
  chain d a l -> (forall x, In x l -> In x (elive d)) -> (length l <= fuel)%nat ->
  EdgeTypeMap.addressOfFrom fuel d (oaddr a) f t ty =
  Return (find (fun x => AdjacencyList.sameKey (AdjacencyList.edgeAt d x) (mkEdge f t ty)) l).
Proof.
  intros H; revert fuel. induction H as [|a l Ha H IH]; intros fuel Hin Hlen.
  - destruct fuel; reflexivity.
  - unfold oaddr. destruct (Z.eqb_spec a 0); [lia|].
    assert (Hlive : In a (elive d)) by (apply Hin; left; auto).
    destruct (elive_bounds a Hlive) as [Hb1 [Hb2 _]]. pose proof (eo_cap d OK).
    assert (E : (EdgeTypeMap.typeOf d a =? ty) && strictEq (EdgeTypeMap.from d a) f
                && strictEq (EdgeTypeMap.to d a) t
                = AdjacencyList.sameKey (AdjacencyList.edgeAt d a) (mkEdge f t ty)).
    { unfold EdgeTypeMap.from, EdgeTypeMap.to, EdgeTypeMap._FROM, EdgeTypeMap._TO.
      rewrite !TA_get_inb by (unfold inb; lia).
      unfold AdjacencyList.sameKey, strictEq. rewrite edgeAt_W. cbn [from to type].
      change (EdgeTypeMap.typeOf d a) with (W d (a + 1)).
      destruct (W d (a + 1) =? ty), (W d (a + 2) =? f), (W d (a + 3) =? t); reflexivity. }
    cbn [find]. rewrite <- E.
    destruct fuel as [|fuel]; [simpl in Hlen; lia|].
    + simpl. destruct (_ && _ && _); auto.
      change (EdgeTypeMap.next d a) with (SharedTypeMap.next d a). rewrite next_oaddr.
      apply IH; [intros; apply Hin; right; auto|simpl in Hlen; lia].
Qed.

(** [addressOf] finds the live record of an edge, if there is one. *)
Lemma edge_addressOf f t ty :
  exists r, EdgeTypeMap.addressOf d (EdgeTypeMap.hash d f t ty) f t ty = Return r /\
    match r with
    | Some a => In a (elive d) /\ AdjacencyList.edgeAt d a = mkEdge f t ty
    | None => ~ In (mkEdge f t ty) (liveEdges d)
    end.
Proof.
  rewrite hash_some. unfold EdgeTypeMap.addressOf.
  set (h := rawhash (mkEdge f t ty) mod cap d).
  destruct (eo_chains d OK h (bucket_range _)) as [l [Hl [Hnd Hin]]].
  change (EdgeTypeMap.head d h) with (SharedTypeMap.head EdgeTypeMap.layout d h).
  rewrite head_oaddr. change (HEADER_SIZE EdgeTypeMap.layout) with 3.
  rewrite (addressOfFrom_chain _ l).
  - eexists; split; [reflexivity|].
    destruct (find _ l) as [a|] eqn:F.
    + apply find_some in F as [Ha E]. apply sameKey_spec in E.
      split; auto. apply Hin in Ha. tauto.
    + intros Hin'. apply in_liveEdges in Hin' as [a [Ha E]].
      assert (Hal : In a l).
      { apply Hin. split; auto. unfold bucketOf. rewrite E. reflexivity. }
      apply (find_none _ _ F) in Hal. rewrite E in Hal.
      assert (AdjacencyList.sameKey (mkEdge f t ty) (mkEdge f t ty) = true)
        by (now apply sameKey_spec).
      congruence.
  - exact Hl.
  - intros x Hx. apply Hin in Hx. tauto.
  - assert (S (length l) <= SharedTypeMap.fuel d)%nat; [|lia].
    eapply chain_fuel with (member := fun a => In a (elive d)); eauto.
    + intros a Ha. apply Hin in Ha. tauto.
    + intros a Ha. apply elive_bounds in Ha. pose proof (eo_cap d OK). lia.
Qed.

End EdgeFacts.

(** ** Adding an edge record *)

Lemma filter_ext_in' {A} (f g : A -> bool) l :
  (forall x, In x l -> f x = g x) -> filter f l = filter g l.
Proof.
  induction l as [|x l IH]; simpl; intros H; auto.
  rewrite (H x) by auto. rewrite IH by auto. reflexivity.
Qed.

Section EdgeAdd.

Variable d : TypedArray.
Hypothesis OK : EdgesOK d.
Variables f t ty : Z.
Hypothesis Hroom : cnt d + del d < 2 * cap d.
Hypothesis Hf : 0 <= f < 4294967296.
Hypothesis Ht : 0 <= t < 4294967296.
Hypothesis Hty : 0 < ty < 4294967296.
Hypothesis Hnew : ~ In (mkEdge f t ty) (liveEdges d).

Let e := eaddr d (cnt d + del d).
Let h := rawhash (mkEdge f t ty) mod cap d.

(** The word that receives the address of the new record: a bucket or the
    [next] word of a live record. *)
Definition isPlace (p : Z) : Prop :=
  0 <= h < cap d /\ (p = 3 + h \/ (In p (elive d) /\ bucketOf d p = h)) /\ W d p = 0.

Lemma edges_add_stores :
  exists d' place,
    EdgeTypeMap.add d (EdgeTypeMap.hash d f t ty) f t ty = Return (d', e) /\
    kind d' = kind d /\ TA.length d' = TA.length d /\ isPlace place /\
    (forall j, W d' j =
       if j =? 1 then cnt d + 1
       else if j =? place then e
       else if j =? e + 1 then ty
       else if j =? e + 2 then f
       else if j =? e + 3 then t
       else W d j) /\
    Chains d' (fun a => In a (elive d) \/ a = e)
      (fun a => if a =? e then h else bucketOf d a).
Proof.
  pose proof (eo_cap d OK) as Hc. pose proof (eo_len d OK) as Hlen.
  pose proof (eo_kind d OK) as Hk. pose proof (eo_words d OK) as Hw.
  pose proof (eo_used d OK) as Hu. unfold EMAX in Hc.
  assert (Hcnt0 : 0 <= cnt d) by apply Hw. assert (Hdel0 : 0 <= del d) by apply Hw.
  rewrite (hash_some d OK). fold h.
  assert (Hh : 0 <= h < cap d) by apply (bucket_range d OK).
  unfold EdgeTypeMap.add.
  change (EdgeTypeMap.capacity d) with (cap d).
  destruct (Z.geb_spec h 0); [|lia]. destruct (Z.ltb_spec h (cap d)); [|lia].
  cbn [andb negb].
  assert (Ee : EdgeTypeMap.getNextAddress d = e).
  { change (EdgeTypeMap.getNextAddress d) with (3 + cap d + (cnt d + del d) * 8).
    unfold e, eaddr. lia. }
  rewrite Ee.
  destruct (eo_chains d OK h Hh) as [l [Hl [Hnd Hin]]].
  assert (He1 : 3 + cap d <= e) by (unfold e, eaddr; lia).
  assert (He2 : e + 8 <= TA.length d) by (unfold e, eaddr; lia).
  assert (Hne : ~ In e (elive d)).
  { intros Hie. apply in_elive in Hie as [[k [Hk' E]] _]. unfold e, eaddr in E. lia. }
  destruct (link_stores EdgeTypeMap.layout eq_refl d Hk ltac:(lia) ltac:(lia) ltac:(unfold cnt in *; lia)
              h e ty l Hh Hl Hnd) as [d1 [Hd1 [Hk1 [Hl1 HW1]]]]; try lia.
  { intros a Ha. apply Hin in Ha as [Ha _]. pose proof (elive_bounds d OK a Ha).
    apply in_elive in Ha as [[k [Hk' E]] _]. unfold e, eaddr in *. lia. }
  rewrite Hd1. unfold bindC.
  assert (Hk1' : kind d1 = Uint32Array) by congruence.
  unfold EdgeTypeMap._FROM, EdgeTypeMap._TO.
  set (place := linkPlace d h l) in *.
  assert (Hpl : isPlace place).
  { split; auto. unfold place, linkPlace. destruct l as [|x l].
    - split; [left; reflexivity|].
      inversion Hl as [E0|]; auto.
    - assert (Hla : In (last (x :: l) 0) (x :: l)) by (apply last_in; discriminate).
      split; [right; apply Hin; auto|].
      eapply chain_last_null; eauto. discriminate. }
  assert (Hpr : 3 <= place < TA.length d /\ forall g, 1 <= g < 8 -> place <> e + g).
  { destruct Hpl as [_ [[->|[Hp _]] _]]; [split; [lia|intros; lia]|].
    pose proof (elive_bounds d OK _ Hp).
    apply in_elive in Hp as [[k [Hk' ->]] _]. unfold e, eaddr in *.
    split; [lia|intros; lia]. }
  destruct Hpr as [Hpr1 Hpr2].
  assert (Hpe : place <> e).
  { destruct Hpl as [_ [[->|[Hp _]] _]]; [lia|]. intros ->. auto. }
  pose proof (Hpr2 1 ltac:(lia)). pose proof (Hpr2 2 ltac:(lia)). pose proof (Hpr2 3 ltac:(lia)).
  assert (HW : forall j, W (TA.set (TA.set d1 (e + 2) f) (e + 3) t) j =
       if j =? 1 then cnt d + 1
       else if j =? place then e
       else if j =? e + 1 then ty
       else if j =? e + 2 then f
       else if j =? e + 3 then t
       else W d j).
  { intros j. Wset. Wset. rewrite HW1. zdone. }
  eexists _, place. split; [reflexivity|].
  rewrite !TA_kind_set, !TA_length_set.
  split; [congruence|]. split; [congruence|]. split; [exact Hpl|]. split; [exact HW|].
  refine (Chains_link d _ (fun a => In a (elive d)) (bucketOf d) h e l _ _
            (eo_chains d OK) Hh Hl Hnd Hin _ He1 _ _ _ _ _ _ _).
  - intros a Ha. pose proof (elive_bounds d OK a Ha). split; [lia|]. intros ->. auto.
  - rewrite HW. zeqs. replace e with (e + 0) by lia. apply (eo_zero d OK (cnt d + del d) 0); lia.
  - unfold cap. rewrite HW. zdone.
  - fold place. rewrite HW. zdone.
  - fold place. intros j Hj Hj'. rewrite HW.
    assert (Hjr : j <> 1 /\ j <> e + 1 /\ j <> e + 2 /\ j <> e + 3).
    { destruct Hj' as [Hj'|Hj']; [lia|].
      apply in_elive in Hj' as [[k [Hk' ->]] _]. unfold e, eaddr. lia. }
    zdone.
  - intros a. simpl. tauto.
  - simpl. now rewrite Z.eqb_refl.
  - intros a Ha. simpl. destruct (Z.eqb_spec a e); [subst; tauto|reflexivity].
Qed.

End EdgeAdd.

(** The links between live edge records: the neighbours of a live record on
    its inbound and outbound lists are live, point back at it, lie behind it
    in the buffer and share its end node and type. *)
Record EdgesLinked (d : TypedArray) : Prop := {
  el_in : forall a, In a (elive d) -> W d (a + 4) <> 0 ->
     In (W d (a + 4)) (elive d) /\ W d (W d (a + 4) + 5) = a /\ a < W d (a + 4) /\
     W d (W d (a + 4) + 3) = W d (a + 3) /\ W d (W d (a + 4) + 1) = W d (a + 1);
  el_in' : forall a, In a (elive d) -> W d (a + 5) <> 0 ->
     In (W d (a + 5)) (elive d) /\ W d (W d (a + 5) + 4) = a;
  el_out : forall a, In a (elive d) -> W d (a + 6) <> 0 ->
     In (W d (a + 6)) (elive d) /\ W d (W d (a + 6) + 7) = a /\ a < W d (a + 6) /\
     W d (W d (a + 6) + 2) = W d (a + 2) /\ W d (W d (a + 6) + 1) = W d (a + 1);
  el_out' : forall a, In a (elive d) -> W d (a + 7) <> 0 ->
     In (W d (a + 7)) (elive d) /\ W d (W d (a + 7) + 6) = a
}.

(** ** The inbound and outbound lists

    Both lists are doubly linked through a pair of fields ([N] for the next
    record, [P] for the previous one) and group the records by an end node
    (field [K]) and a type.  A new record [e] is appended behind the record
    [pz] ([0] when the list was empty). *)
Section ListAdd.

Variables live live' : Z -> Prop.
Variables w w' : Z -> Z.
Variables e pz N P K : Z.

Hypothesis HN : forall a, live a -> w (a + N) <> 0 ->
  live (w (a + N)) /\ w (w (a + N) + P) = a /\ a < w (a + N) /\
  w (w (a + N) + K) = w (a + K) /\ w (w (a + N) + 1) = w (a + 1).
Hypothesis HP : forall a, live a -> w (a + P) <> 0 ->
  live (w (a + P)) /\ w (w (a + P) + N) = a.
Hypothesis Hlive' : forall a, live' a <-> live a \/ a = e.
Hypothesis Hord : forall a, live a -> a < e.
Hypothesis Hpos : forall a, live a -> a <> 0.
Hypothesis Hp : pz = 0 \/
  (live pz /\ w (pz + N) = 0 /\ w (pz + K) = w' (e + K) /\ w (pz + 1) = w' (e + 1)).
Hypothesis HwN : forall a, live a -> w' (a + N) = if a =? pz then e else w (a + N).
Hypothesis HwP : forall a, live a -> w' (a + P) = w (a + P).
Hypothesis HwK : forall a, live a -> w' (a + K) = w (a + K).
Hypothesis Hw1 : forall a, live a -> w' (a + 1) = w (a + 1).
Hypothesis HeN : w' (e + N) = 0.
Hypothesis HeP : w' (e + P) = pz.

Lemma list_add_next : forall a, live' a -> w' (a + N) <> 0 ->
  live' (w' (a + N)) /\ w' (w' (a + N) + P) = a /\ a < w' (a + N) /\
  w' (w' (a + N) + K) = w' (a + K) /\ w' (w' (a + N) + 1) = w' (a + 1).
Proof.
  intros a Ha Hnz. apply Hlive' in Ha as [Ha| ->]; [|congruence].
  rewrite HwN in * by auto. rewrite (HwK a), (Hw1 a) by auto.
  destruct (Z.eqb_spec a pz) as [Eap|Eap].
  - destruct Hp as [Hp0|[P1 [P2 [P3 P4]]]]; [apply Hpos in Ha; congruence|].
    split; [apply Hlive'; auto|]. subst a. repeat split; auto; congruence.
  - destruct (HN a Ha Hnz) as [N1 [N2 [N3 [N4 N5]]]].
    split; [apply Hlive'; auto|].
    rewrite HwP, HwK, Hw1 by auto. auto.
Qed.

Lemma list_add_prev : forall a, live' a -> w' (a + P) <> 0 ->
  live' (w' (a + P)) /\ w' (w' (a + P) + N) = a.
Proof.
  intros a Ha Hnz. apply Hlive' in Ha as [Ha| ->].
  - rewrite HwP in * by auto.
    destruct (HP a Ha Hnz) as [P1 P2].
    split; [apply Hlive'; auto|].
    rewrite HwN by auto.
    destruct (Z.eqb_spec (w (a + P)) pz) as [E|E]; [|auto].
    exfalso. destruct Hp as [Hp0|[_ [Hz _]]].
    + apply Hpos in P1. congruence.
    + rewrite <- E in Hz. apply Hpos in Ha. congruence.
  - rewrite HeP in *. destruct Hp as [Hp0|[P1 _]]; [congruence|].
    split; [apply Hlive'; auto|]. rewrite HwN by auto. now rewrite Z.eqb_refl.
Qed.

End ListAdd.

Section EdgeAddOK.

Variable d : TypedArray.
Hypothesis OK : EdgesOK d.
Variables f t ty : Z.
Hypothesis Hroom : cnt d + del d < 2 * cap d.
Hypothesis Hf : 0 <= f < 4294967296.
Hypothesis Ht : 0 <= t < 4294967296.
Hypothesis Hty : 0 < ty < 4294967296.
Hypothesis Hnew : ~ In (mkEdge f t ty) (liveEdges d).

Let e := eaddr d (cnt d + del d).
Let h := rawhash (mkEdge f t ty) mod cap d.

Variable d' : TypedArray.
Variable place : Z.
Hypothesis Hk' : kind d' = kind d.
Hypothesis Hl' : TA.length d' = TA.length d.
Hypothesis Hpl : isPlace d f t ty place.
(** The stores of [add], and any stores into the link fields of live
    records and of the new record. *)
Hypothesis HW : forall j,
  (forall a g, (In a (elive d) \/ a = e) -> 4 <= g < 8 -> j <> a + g) ->
  W d' j =
    if j =? 1 then cnt d + 1
    else if j =? place then e
    else if j =? e + 1 then ty
    else if j =? e + 2 then f
    else if j =? e + 3 then t
    else W d j.
Hypothesis Hwords : forall i, 0 <= W d' i < 4294967296.
Hypothesis Hch : Chains d' (fun a => In a (elive d) \/ a = e)
                   (fun a => if a =? e then h else bucketOf d a).

Lemma place_facts :
  3 <= place /\ place <> e /\
  forall a g, (In a (eslots d) \/ a = e) -> 1 <= g < 8 -> place <> a + g.
Proof.
  pose proof (eo_cap d OK) as Hc. pose proof (eo_words d OK) as Hw.
  assert (Hcnt0 : 0 <= cnt d) by apply Hw. assert (Hdel0 : 0 <= del d) by apply Hw.
  destruct Hpl as [Hh [[->|[Hp _]] _]].
  - split; [lia|]. split; [unfold e, eaddr; lia|].
    intros a g [Ha| ->] Hg; [apply in_eslots in Ha as [k [Hk ->]]|]; unfold e, eaddr; lia.
  - pose proof (elive_bounds d OK _ Hp).
    apply in_elive in Hp as [[k [Hk ->]] _]. unfold e, eaddr in *.
    split; [lia|]. split; [lia|].
    intros a g [Ha| ->] Hg; [apply in_eslots in Ha as [k' [Hk'' ->]]|]; unfold eaddr; lia.
Qed.

Lemma add_frame_hdr : cap d' = cap d /\ cnt d' = cnt d + 1 /\ del d' = del d.
Proof.
  pose proof (eo_cap d OK) as Hc. pose proof (eo_words d OK) as Hw.
  assert (Hcnt0 : 0 <= cnt d) by apply Hw. assert (Hdel0 : 0 <= del d) by apply Hw.
  destruct place_facts as [Hp1 [Hp2 Hp3]].
  assert (He : 3 + cap d <= e) by (unfold e, eaddr; lia).
  assert (Hfar : forall j, 0 <= j < 3 ->
            forall a g, In a (elive d) \/ a = e -> 4 <= g < 8 -> j <> a + g).
  { intros j Hj a g [Ha| ->] Hg; [apply elive_bounds in Ha; auto|]; lia. }
  unfold cap, cnt, del. rewrite !HW by (apply Hfar; lia). repeat split; zdone.
Qed.

Lemma add_frame_slot a g :
  In a (eslots d) -> 1 <= g < 4 -> W d' (a + g) = W d (a + g).
Proof.
  intros Ha Hg. pose proof (eo_cap d OK) as Hc.
  destruct place_facts as [Hp1 [Hp2 Hp3]].
  pose proof (Hp3 a g (or_introl Ha) ltac:(lia)).
  apply in_eslots in Ha as [k [Hk ->]].
  rewrite HW.
  - unfold e, eaddr in *. zdone.
  - intros a' g' [Ha'| ->] Hg'; [apply in_elive in Ha' as [[k' [Hk'' ->]] _]|];
      unfold e, eaddr; lia.
Qed.

Lemma add_frame_new :
  W d' (e + 1) = ty /\ W d' (e + 2) = f /\ W d' (e + 3) = t.
Proof.
  pose proof (eo_cap d OK) as Hc. pose proof (eo_words d OK) as Hw.
  assert (Hcnt0 : 0 <= cnt d) by apply Hw. assert (Hdel0 : 0 <= del d) by apply Hw.
  destruct place_facts as [Hp1 [Hp2 Hp3]].
  pose proof (Hp3 e 1 (or_intror eq_refl) ltac:(lia)).
  pose proof (Hp3 e 2 (or_intror eq_refl) ltac:(lia)).
  pose proof (Hp3 e 3 (or_intror eq_refl) ltac:(lia)).
  assert (He : 3 + cap d <= e) by (unfold e, eaddr; lia).
  assert (Hfar : forall g0, 1 <= g0 < 4 ->
            forall a g, In a (elive d) \/ a = e -> 4 <= g < 8 -> e + g0 <> a + g).
  { intros g0 Hg0 a g [Ha| ->] Hg; [|lia].
    apply in_elive in Ha as [[k' [Hk'' ->]] _]. unfold e, eaddr. lia. }
  rewrite !HW by (apply Hfar; lia). repeat split; zdone.
Qed.

Lemma add_eslots : eslots d' = eslots d ++ [e].
Proof.
  destruct add_frame_hdr as [E1 [E2 E3]]. pose proof (eo_words d OK) as Hw.
  assert (Hcnt0 : 0 <= cnt d) by apply Hw. assert (Hdel0 : 0 <= del d) by apply Hw.
  unfold eslots. rewrite E1, E2, E3.
  replace (cnt d + 1 + del d) with (cnt d + del d + 1) by lia.
  rewrite slotsOf_snoc by lia. reflexivity.
Qed.

Lemma add_elive : elive d' = elive d ++ [e].
Proof.
  unfold elive. rewrite add_eslots, filter_app.
  destruct add_frame_new as [E1 _].
  cbn [filter]. unfold liveb at 2. rewrite E1.
  destruct (Z.eqb_spec ty 0); [lia|]. cbn [negb]. f_equal.
  apply filter_ext_in'. intros a Ha. unfold liveb.
  rewrite add_frame_slot by (auto; lia). reflexivity.
Qed.

Lemma add_edgeAt a : In a (eslots d) -> AdjacencyList.edgeAt d' a = AdjacencyList.edgeAt d a.
Proof.
  intros Ha. rewrite !edgeAt_W.
  rewrite !add_frame_slot by (auto; lia). reflexivity.
Qed.

Lemma add_liveEdges : liveEdges d' = liveEdges d ++ [mkEdge f t ty].
Proof.
  unfold liveEdges. rewrite add_elive, map_app. cbn [map].
  destruct add_frame_new as [E1 [E2 E3]].
  rewrite (edgeAt_W d' e), E1, E2, E3. f_equal.
  apply map_ext_in. intros a Ha. apply add_edgeAt.
  unfold elive in Ha. apply filter_In in Ha. tauto.
Qed.

Lemma edges_add_ok : EdgesOK d'.
Proof.
  pose proof (eo_cap d OK) as Hc. pose proof (eo_words d OK) as Hw.
  assert (Hcnt0 : 0 <= cnt d) by apply Hw. assert (Hdel0 : 0 <= del d) by apply Hw.
  destruct add_frame_hdr as [E1 [E2 E3]].
  destruct place_facts as [Hp1 [Hp2 Hp3]].
  constructor.
  - rewrite Hk'. apply (eo_kind d OK).
  - now rewrite E1.
  - rewrite Hl', E1. apply (eo_len d OK).
  - exact Hwords.
  - rewrite E1, E2, E3. lia.
  - intros k g Hk Hg Hz. rewrite E1, E2, E3 in *.
    assert (Ea : eaddr d' k = eaddr d k) by (unfold eaddr; now rewrite E1).
    rewrite Ea in *.
    assert (Hke : k <> cnt d + del d).
    { intros ->. destruct Hz as [Hz|Hz]; [lia|].
      destruct add_frame_new as [E _]. fold e in Hz. lia. }
    assert (Hz' : cnt d + del d <= k \/ W d (eaddr d k + 1) = 0).
    { destruct Hz as [Hz|Hz]; [left; lia|].
      destruct (Z_lt_le_dec k (cnt d + del d)); [|left; lia].
      right. rewrite <- Hz. symmetry. apply add_frame_slot; [|lia].
      apply in_eslots. exists k. split; auto. lia. }
    pose proof (eo_zero d OK k) as Hzero.
    rewrite HW.
    + assert (Hpk : place <> eaddr d k + g).
      { destruct (Z.eq_dec g 0) as [->|Hg0].
        - destruct Hpl as [Hh [[->|[Hp _]] _]]; [unfold eaddr; lia|].
          intros E. rewrite Z.add_0_r in E. subst place.
          apply in_elive in Hp as [_ Hp]. apply Hp.
          destruct Hz' as [Hz'|Hz']; auto. apply (Hzero 1); auto; lia.
        - destruct (Z_lt_le_dec k (cnt d + del d)).
          + apply Hp3; [|lia]. left. apply in_eslots. exists k. split; auto. lia.
          + destruct Hpl as [Hh [[->|[Hp _]] _]]; [unfold eaddr; lia|].
            apply in_elive in Hp as [[k' [Hk'' ->]] _]. unfold eaddr. lia. }
      unfold e, eaddr in *. zeqs. apply Hzero; auto.
    + intros a g' [Ha| ->] Hg' E.
      * apply in_elive in Ha as [[k' [Hk'' ->]] Ha].
        assert (k' = k) by (unfold eaddr in E; lia). subst k'.
        apply Ha. destruct Hz' as [Hz'|Hz']; auto; lia.
      * unfold e, eaddr in E. lia.
  - rewrite E2, add_elive, length_app, (eo_count d OK). simpl. lia.
  - eapply Chains_ext; [exact Hch|reflexivity|reflexivity|reflexivity| |].
    + intros a. rewrite add_elive, in_app_iff. simpl. intuition (subst; auto).
    + intros a Ha. unfold bucketOf. rewrite E1.
      destruct (Z.eqb_spec a e) as [->|Hae].
      * rewrite edgeAt_W. destruct add_frame_new as [-> [-> ->]]. reflexivity.
      * destruct Ha as [Ha|Ha]; [|congruence].
        rewrite add_edgeAt; auto. unfold elive in Ha. apply filter_In in Ha. tauto.
  - rewrite add_liveEdges. apply NoDup_app; [apply (eo_uniq d OK)| |].
    + constructor; [simpl; tauto|constructor].
    + intros x Hx [<-|F]; [auto|destruct F].
Qed.

(** The links of the new record: the last records [pz] and [qz] of the
    inbound and of the outbound list it joins ([0] for an empty list). *)
Hypothesis LK : EdgesLinked d.
Variables pz qz : Z.
Hypothesis Hpz : pz = 0 \/
  (In pz (elive d) /\ W d (pz + 4) = 0 /\ W d (pz + 3) = t /\ W d (pz + 1) = ty).
Hypothesis Hqz : qz = 0 \/
  (In qz (elive d) /\ W d (qz + 6) = 0 /\ W d (qz + 2) = f /\ W d (qz + 1) = ty).
Hypothesis HL4 : forall a, In a (elive d) -> W d' (a + 4) = if a =? pz then e else W d (a + 4).
Hypothesis HL5 : forall a, In a (elive d) -> W d' (a + 5) = W d (a + 5).
Hypothesis HL6 : forall a, In a (elive d) -> W d' (a + 6) = if a =? qz then e else W d (a + 6).
Hypothesis HL7 : forall a, In a (elive d) -> W d' (a + 7) = W d (a + 7).
Hypothesis HLe : W d' (e + 4) = 0 /\ W d' (e + 5) = pz /\ W d' (e + 6) = 0 /\ W d' (e + 7) = qz.

Lemma in_add_elive a : In a (elive d') <-> In a (elive d) \/ a = e.
Proof.
  rewrite add_elive, in_app_iff. simpl. intuition congruence.
Qed.

Lemma live_before a : In a (elive d) -> a < e.
Proof.
  intros Ha. apply in_elive in Ha as [[k [Hk ->]] _]. unfold e, eaddr. lia.
Qed.

Lemma live_pos a : In a (elive d) -> a <> 0.
Proof. intros Ha. apply elive_bounds in Ha; auto. pose proof (eo_cap d OK). lia. Qed.

Lemma edges_add_linked : EdgesLinked d'.
Proof.
  destruct add_frame_new as [E1 [E2 E3]]. destruct HLe as [L4 [L5 [L6 L7]]].
  assert (F : forall g, 1 <= g < 4 -> forall a, In a (elive d) -> W d' (a + g) = W d (a + g)).
  { intros g Hg a Ha. apply add_frame_slot; auto.
    unfold elive in Ha. apply filter_In in Ha. tauto. }
  assert (Hp : pz = 0 \/ (In pz (elive d) /\ W d (pz + 4) = 0 /\
                          W d (pz + 3) = W d' (e + 3) /\ W d (pz + 1) = W d' (e + 1))).
  { rewrite E1, E3. exact Hpz. }
  assert (Hq : qz = 0 \/ (In qz (elive d) /\ W d (qz + 6) = 0 /\
                          W d (qz + 2) = W d' (e + 2) /\ W d (qz + 1) = W d' (e + 1))).
  { rewrite E1, E2. exact Hqz. }
  constructor.
  - exact (list_add_next (fun a => In a (elive d)) _ (W d) (W d') e pz 4 5 3
             (el_in d LK) in_add_elive live_before live_pos Hp HL4 HL5
             (F 3 ltac:(lia)) (F 1 ltac:(lia)) L4 L5).
  - exact (list_add_prev (fun a => In a (elive d)) _ (W d) (W d') e pz 4 5 3
             (el_in' d LK) in_add_elive live_pos Hp HL4 HL5 L5).
  - exact (list_add_next (fun a => In a (elive d)) _ (W d) (W d') e qz 6 7 2
             (el_out d LK) in_add_elive live_before live_pos Hq HL6 HL7
             (F 2 ltac:(lia)) (F 1 ltac:(lia)) L6 L7).
  - exact (list_add_prev (fun a => In a (elive d)) _ (W d) (W d') e qz 6 7 2
             (el_out' d LK) in_add_elive live_pos Hq HL6 HL7 L7).
Qed.

End EdgeAddOK.

(** * Removing an edge record *)

Ltac bool_lia :=
  repeat match goal with
  | |- context [Z.eqb ?a ?b] => destruct (Z.eqb_spec a b)
  | |- context [Z.leb ?a ?b] => destruct (Z.leb_spec a b)
  | |- context [Z.ltb ?a ?b] => destruct (Z.ltb_spec a b)
  end; cbn [andb negb orb]; try reflexivity; try lia.

(** The stores of [unlinkIn] and [unlinkOut]. *)
Lemma unlinkIn_stores d e :
  kind d = Uint32Array -> (forall i, 0 <= W d i < 4294967296) ->
  0 <= e -> e + 8 <= TA.length d ->
  (W d (e + 4) = 0 \/ (W d (e + 4) + 8 <= TA.length d /\
                        W d (e + 4) + 5 <> e + 4 /\ W d (e + 4) + 5 <> e + 5)) ->
  (W d (e + 5) = 0 \/ (W d (e + 5) + 8 <= TA.length d /\
                        W d (e + 5) + 4 <> e + 4 /\ W d (e + 5) + 4 <> e + 5)) ->
  W d (e + 5) + 4 <> W d (e + 4) + 5 ->
  forall j, W (EdgeTypeMap.unlinkIn d e) j =
    if j =? e + 4 then 0 else if j =? e + 5 then 0
    else if negb (W d (e + 5) =? 0) && (j =? W d (e + 5) + 4) then W d (e + 4)
    else if negb (W d (e + 4) =? 0) && (j =? W d (e + 4) + 5) then W d (e + 5)
    else W d j.
Proof.
  intros Hk Hw He1 He2 Hn Hp Hnp j.
  unfold EdgeTypeMap.unlinkIn, EdgeTypeMap.nextIn, EdgeTypeMap.prevIn,
    EdgeTypeMap._NEXT_IN, EdgeTypeMap._PREV_IN.
  rewrite !orNull_get.
  pose proof (Hw (e + 4)). pose proof (Hw (e + 5)).
  destruct (Z.eqb_spec (W d (e + 4)) 0) as [E4|E4];
  destruct (Z.eqb_spec (W d (e + 5)) 0) as [E5|E5]; cbn [negb andb];
  repeat Wset; ifs.
Qed.

Lemma unlinkOut_stores d e :
  kind d = Uint32Array -> (forall i, 0 <= W d i < 4294967296) ->
  0 <= e -> e + 8 <= TA.length d ->
  (W d (e + 6) = 0 \/ (W d (e + 6) + 8 <= TA.length d /\
                        W d (e + 6) + 7 <> e + 6 /\ W d (e + 6) + 7 <> e + 7)) ->
  (W d (e + 7) = 0 \/ (W d (e + 7) + 8 <= TA.length d /\
                        W d (e + 7) + 6 <> e + 6 /\ W d (e + 7) + 6 <> e + 7)) ->
  W d (e + 7) + 6 <> W d (e + 6) + 7 ->
  forall j, W (EdgeTypeMap.unlinkOut d e) j =
    if j =? e + 6 then 0 else if j =? e + 7 then 0
    else if negb (W d (e + 7) =? 0) && (j =? W d (e + 7) + 6) then W d (e + 6)
    else if negb (W d (e + 6) =? 0) && (j =? W d (e + 6) + 7) then W d (e + 7)
    else W d j.
Proof.
  intros Hk Hw He1 He2 Hn Hp Hnp j.
  unfold EdgeTypeMap.unlinkOut, EdgeTypeMap.nextOut, EdgeTypeMap.prevOut,
    EdgeTypeMap._NEXT_OUT, EdgeTypeMap._PREV_OUT.
  rewrite !orNull_get.
  pose proof (Hw (e + 6)). pose proof (Hw (e + 7)).
  destruct (Z.eqb_spec (W d (e + 6)) 0) as [E6|E6];
  destruct (Z.eqb_spec (W d (e + 7)) 0) as [E7|E7]; cbn [negb andb];
  repeat Wset; ifs.
Qed.

Lemma words_set d i v :
  (forall j, 0 <= W d j < 4294967296) -> kind d = Uint32Array ->
  forall j, 0 <= W (TA.set d i v) j < 4294967296.
Proof.
  intros Hw Hk j. rewrite W_set. destruct (_ && _ && _); auto.
  rewrite Hk. change (modulus Uint32Array) with 4294967296.
  apply Z.mod_pos_bound. lia.
Qed.

Lemma words_unlinkIn d e :
  (forall j, 0 <= W d j < 4294967296) -> kind d = Uint32Array ->
  (forall j, 0 <= W (EdgeTypeMap.unlinkIn d e) j < 4294967296) /\
  kind (EdgeTypeMap.unlinkIn d e) = kind d /\
  TA.length (EdgeTypeMap.unlinkIn d e) = TA.length d.
Proof.
  intros Hw Hk. unfold EdgeTypeMap.unlinkIn.
  destruct (EdgeTypeMap.nextIn d e), (EdgeTypeMap.prevIn d e);
    rewrite ?TA_kind_set, ?TA_length_set; (split; [|auto]);
    repeat (apply words_set; rewrite ?TA_kind_set; auto).
Qed.

Lemma words_unlinkOut d e :
  (forall j, 0 <= W d j < 4294967296) -> kind d = Uint32Array ->
  (forall j, 0 <= W (EdgeTypeMap.unlinkOut d e) j < 4294967296) /\
  kind (EdgeTypeMap.unlinkOut d e) = kind d /\
  TA.length (EdgeTypeMap.unlinkOut d e) = TA.length d.
Proof.
  intros Hw Hk. unfold EdgeTypeMap.unlinkOut.
  destruct (EdgeTypeMap.nextOut d e), (EdgeTypeMap.prevOut d e);
    rewrite ?TA_kind_set, ?TA_length_set; (split; [|auto]);
    repeat (apply words_set; rewrite ?TA_kind_set; auto).
Qed.

Lemma delete_stores d e :
  kind d = Uint32Array -> (forall i, 0 <= W d i) -> del d < 4294967295 ->
  5 <= e -> e + 8 <= TA.length d ->
  forall j, W (EdgeTypeMap.delete d e) j =
    if j =? 2 then del d + 1 else if j =? e + 2 then 0 else if j =? e + 3 then 0 else W d j.
Proof.
  intros Hk Hw Hd He1 He2 j.
  unfold EdgeTypeMap.delete, EdgeTypeMap._FROM, EdgeTypeMap._TO, EdgeTypeMap._DELETES.
  rewrite TA_add_set by (rewrite !TA_length_set; lia).
  assert (E : W (TA.set (TA.set d (e + 2) 0) (e + 3) 0) 2 = del d).
  { repeat Wset. ifs. }
  rewrite E. pose proof (Hw 2). unfold del in *. repeat Wset. ifs.
Qed.

(** The test of [unlinkIn] and [unlinkOut] for a store next to a neighbour,
    on a word of a slot and on a word before the slots. *)
Lemma guard_slot c x kx a k r off :
  2 <= c -> a = 3 + c + 8 * k -> 0 <= k -> (x = 0 \/ x = 3 + c + 8 * kx) ->
  0 <= r < 8 -> 0 <= off < 8 ->
  negb (x =? 0) && (a + r =? x + off) = (r =? off) && (a =? x).
Proof.
  intros Hc -> Hk [-> | ->] Hr Hoff; ifs.
Qed.

Lemma guard_table c x kx j off :
  2 <= c -> j < 3 + c -> (x = 0 \/ (x = 3 + c + 8 * kx /\ 0 <= kx)) -> 0 <= off ->
  negb (x =? 0) && (j =? x + off) = false.
Proof.
  intros Hc Hj [-> | [-> Hk]] Hoff; ifs.
Qed.

(** The words of a slot after the four groups of stores of a removal. *)
Definition removedSlot (f : Z -> Z) (e place a r : Z) : Z :=
  if a =? e then 0
  else if r =? 0 then (if a =? place then f e else f a)
  else if r =? 4 then (if a =? f (e + 5) then f (e + 4) else f (a + r))
  else if r =? 5 then (if a =? f (e + 4) then f (e + 5) else f (a + r))
  else if r =? 6 then (if a =? f (e + 7) then f (e + 6) else f (a + r))
  else if r =? 7 then (if a =? f (e + 6) then f (e + 7) else f (a + r))
  else f (a + r).

Lemma remove_slot_words (f : Z -> Z) (c cn dl e ke place kp x4 x5 x6 x7 k4 k5 k6 k7 a k r : Z) :
  2 <= c -> 0 <= ke -> e = 3 + c + 8 * ke ->
  0 <= k -> a = 3 + c + 8 * k -> 0 <= r < 8 ->
  (x4 = 0 \/ x4 = 3 + c + 8 * k4) -> (x5 = 0 \/ x5 = 3 + c + 8 * k5) ->
  (x6 = 0 \/ x6 = 3 + c + 8 * k6) -> (x7 = 0 \/ x7 = 3 + c + 8 * k7) ->
  (3 <= place < 3 + c \/ (place = 3 + c + 8 * kp /\ 0 <= kp)) ->
  forall j, j = a + r ->
  (if j =? 2 then dl + 1 else if j =? e + 2 then 0 else if j =? e + 3 then 0
   else if j =? e + 6 then 0 else if j =? e + 7 then 0
   else if negb (x7 =? 0) && (j =? x7 + 6) then x6
   else if negb (x6 =? 0) && (j =? x6 + 7) then x7
   else if j =? e + 4 then 0 else if j =? e + 5 then 0
   else if negb (x5 =? 0) && (j =? x5 + 4) then x4
   else if negb (x4 =? 0) && (j =? x4 + 5) then x5
   else if j =? 1 then cn - 1
   else if j =? e then 0
   else if j =? e + 1 then 0
   else if j =? place then f e
   else f j)
  = (if a =? e then 0
     else if r =? 0 then (if a =? place then f e else f a)
     else if r =? 4 then (if a =? x5 then x4 else f (a + r))
     else if r =? 5 then (if a =? x4 then x5 else f (a + r))
     else if r =? 6 then (if a =? x7 then x6 else f (a + r))
     else if r =? 7 then (if a =? x6 then x7 else f (a + r))
     else f (a + r)).
Proof.
  intros Hc Hke He Hk Ha Hr N4 N5 N6 N7 Npl j ->.
  rewrite (guard_slot c x7 k7 a k r 6), (guard_slot c x6 k6 a k r 7),
    (guard_slot c x5 k5 a k r 4), (guard_slot c x4 k4 a k r 5) by (assumption || lia).
  clear N4 N5 N6 N7.
  replace (f a) with (f (a + 0)) by (f_equal; lia).
  generalize (f e). intros fe.
  assert (Hae : a = e <-> k = ke) by lia.
  assert (Hx : forall g g', 0 <= g < 8 -> 0 <= g' < 8 -> a + g = e + g' <-> (k = ke /\ g = g'))
    by (intros; lia).
  destruct (Z.eqb_spec a e) as [Eae|Eae].
  - assert (r = 0 \/ r = 1 \/ r = 2 \/ r = 3 \/ r = 4 \/ r = 5 \/ r = 6 \/ r = 7)
      as [->|[->|[->|[->|[->|[->|[->| ->]]]]]]] by lia; clear Hr; subst a e;
      assert (k = ke) by lia; subst k; clear Hae Hx Eae;
      ifs.
  - assert (k <> ke) by lia. clear Hae Hx Eae.
    destruct Npl as [Hp|[-> Hp]];
    (assert (r = 0 \/ r = 1 \/ r = 2 \/ r = 3 \/ r = 4 \/ r = 5 \/ r = 6 \/ r = 7)
      as [->|[->|[->|[->|[->|[->|[->| ->]]]]]]] by lia); clear Hr; subst a e;
      ifs.
Qed.

Lemma remove_table_words (f : Z -> Z) (c cn e ke place x4 x5 x6 x7 k4 k5 k6 k7 j : Z) :
  2 <= c -> 0 <= ke -> e = 3 + c + 8 * ke -> j < 3 + c ->
  (x4 = 0 \/ (x4 = 3 + c + 8 * k4 /\ 0 <= k4)) -> (x5 = 0 \/ (x5 = 3 + c + 8 * k5 /\ 0 <= k5)) ->
  (x6 = 0 \/ (x6 = 3 + c + 8 * k6 /\ 0 <= k6)) -> (x7 = 0 \/ (x7 = 3 + c + 8 * k7 /\ 0 <= k7)) ->
  (if j =? e + 6 then 0 else if j =? e + 7 then 0
   else if negb (x7 =? 0) && (j =? x7 + 6) then x6
   else if negb (x6 =? 0) && (j =? x6 + 7) then x7
   else if j =? e + 4 then 0 else if j =? e + 5 then 0
   else if negb (x5 =? 0) && (j =? x5 + 4) then x4
   else if negb (x4 =? 0) && (j =? x4 + 5) then x5
   else if j =? 1 then cn - 1
   else if j =? e then 0
   else if j =? e + 1 then 0
   else if j =? place then f e
   else f j)
  = (if j =? 1 then cn - 1 else if j =? place then f e else f j).
Proof.
  intros Hc Hke -> Hj N4 N5 N6 N7.
  rewrite (guard_table c x7 k7 j 6), (guard_table c x6 k6 j 7),
    (guard_table c x5 k5 j 4), (guard_table c x4 k4 j 5) by (assumption || lia).
  clear N4 N5 N6 N7. ifs.
Qed.

Section EdgeRemove.

Variable d : TypedArray.
Hypothesis OK : EdgesOK d.
Hypothesis LK : EdgesLinked d.
Variable e : Z.
Hypothesis He : In e (elive d).

Let h := bucketOf d e.

(** A neighbour of [e]: null or another live record. *)
Lemma neighbour g : 4 <= g < 8 ->
  W d (e + g) = 0 \/ (In (W d (e + g)) (elive d) /\ W d (e + g) <> e).
Proof.
  intros Hg. destruct (Z.eq_dec (W d (e + g)) 0) as [|Hnz]; auto. right.
  assert (g = 4 \/ g = 5 \/ g = 6 \/ g = 7) as [->|[->|[->| ->]]] by lia.
  - destruct (el_in d LK e He Hnz) as [H1 [H2 [H3 _]]]. split; auto; lia.
  - destruct (el_in' d LK e He Hnz) as [H1 H2]. split; auto.
    intros E. rewrite E in H2.
    destruct (Z.eq_dec (W d (e + 4)) 0) as [E0|E0]; [lia|].
    destruct (el_in d LK e He E0) as [_ [_ [H3 _]]]. lia.
  - destruct (el_out d LK e He Hnz) as [H1 [H2 [H3 _]]]. split; auto; lia.
  - destruct (el_out' d LK e He Hnz) as [H1 H2]. split; auto.
    intros E. rewrite E in H2.
    destruct (Z.eq_dec (W d (e + 6)) 0) as [E0|E0]; [lia|].
    destruct (el_out d LK e He E0) as [_ [_ [H3 _]]]. lia.
Qed.

Lemma edges_remove_stores :
  exists d' l1 l2,
    (d1 <- SharedTypeMap.unlink EdgeTypeMap.layout d h e ;;
     Return (EdgeTypeMap.delete (EdgeTypeMap.unlinkOut (EdgeTypeMap.unlinkIn d1 e) e) e))
      = Return d' /\
    kind d' = kind d /\ TA.length d' = TA.length d /\
    chain d (W d (3 + h)) (l1 ++ e :: l2) /\ NoDup (l1 ++ e :: l2) /\
    (forall a, In a (l1 ++ e :: l2) <-> In a (elive d) /\ bucketOf d a = h) /\
    (forall j, j < 3 + cap d ->
       W d' j = if j =? 1 then cnt d - 1 else if j =? 2 then del d + 1
                else if j =? unlinkPlace h l1 then W d e else W d j) /\
    (forall k r, 0 <= k -> 0 <= r < 8 ->
       W d' (eaddr d k + r) = removedSlot (W d) e (unlinkPlace h l1) (eaddr d k) r).
Proof.
  pose proof (eo_cap d OK) as Hc. pose proof (eo_len d OK) as Hlen.
  pose proof (eo_kind d OK) as Hk. pose proof (eo_words d OK) as Hw.
  pose proof (eo_used d OK) as Hu. unfold EMAX in Hc.
  assert (Hh : 0 <= h < cap d) by apply (bucket_range d OK).
  destruct (eo_chains d OK h Hh) as [l [Hl [Hnd Hin]]].
  assert (Hel : In e l) by (apply Hin; auto).
  apply in_split in Hel as [l1 [l2 ->]].
  assert (Hcnt : 0 < cnt d).
  { rewrite (eo_count d OK). destruct (elive d) as [|z l0]; [destruct He|]. cbn [length]. lia. }
  assert (A1 : TA.length d <= 4294967296) by lia.
  assert (A2 : 0 <= cap d) by lia.
  assert (A3 : 0 < cnt d < 4294967296) by (pose proof (Hw 1); unfold cnt in *; lia).
  destruct (unlink_stores EdgeTypeMap.layout eq_refl d Hk A2 A3
              h e l1 l2 Hh Hl Hnd) as [d1 [Hd1 [Hk1 [Hl1 HW1]]]].
  { intros a Ha. apply Hin in Ha as [Ha _]. pose proof (elive_bounds d OK a Ha).
    repeat split; try lia; try apply Hw.
    intros b Hb. apply Hin in Hb as [Hb _].
    apply in_elive in Ha as [[k [Hk' ->]] _]. apply in_elive in Hb as [[k' [Hk'' ->]] _].
    unfold eaddr. lia. }
  rewrite Hd1. unfold bindC.
  assert (Hk1' : kind d1 = Uint32Array) by congruence.
  pose proof (elive_bounds d OK e He) as Heb.
  set (place := unlinkPlace h l1) in *.
  assert (Hpl : (3 <= place < 3 + cap d) \/ (In place (elive d) /\ place <> e)).
  { unfold place, unlinkPlace. destruct l1 as [|x l1]; [left; lia|right].
    assert (Hla : In (last (x :: l1) 0) (x :: l1)) by (apply last_in; discriminate).
    split; [apply Hin; apply in_or_app; auto|].
    intros E. apply NoDup_remove_2 in Hnd. apply Hnd. apply in_or_app. left. now rewrite <- E. }
  assert (Hnb : forall g, 4 <= g < 8 ->
            W d (e + g) = 0 \/
            (exists k, 0 <= k < cnt d + del d /\ W d (e + g) = eaddr d k /\ eaddr d k <> e)).
  { intros g Hg. destruct (neighbour g Hg) as [|[H1 H2]]; auto. right.
    apply in_elive in H1 as [[k [Hk' E]] _]. exists k. rewrite <- E. auto. }
  assert (Hpl' : (3 <= place < 3 + cap d) \/
                 (exists k, 0 <= k < cnt d + del d /\ place = eaddr d k /\ place <> e)).
  { destruct Hpl as [|[H1 H2]]; auto. right.
    apply in_elive in H1 as [[k [Hk' E]] _]. exists k. auto. }
  assert (Eplace : place = unlinkPlace h l1) by reflexivity.
  clearbody place. clear Hpl.
  assert (Hek : exists k, 0 <= k < cnt d + del d /\ e = eaddr d k).
  { apply in_elive in He. tauto. }
  destruct Hek as [ke [Hke Eke]].
  assert (Hdel0 : 0 <= del d) by apply Hw.
  assert (Hw1 : forall i, 0 <= W d1 i < 4294967296).
  { intros i. rewrite HW1. pose proof (Hw i). pose proof (Hw e). ifs. }
  assert (Hsame1 : forall g, 2 <= g < 8 -> W d1 (e + g) = W d (e + g)).
  { intros g Hg. rewrite HW1.
    destruct Hpl' as [Hp|[kp [Hkp [Hp Hp']]]]; unfold eaddr in *; ifs. }
  assert (Hfar : forall g, 4 <= g < 8 ->
            W d (e + g) = 0 \/
            (W d (e + g) + 8 <= TA.length d /\ 3 + cap d <= W d (e + g) /\
             forall g1 g2, 0 <= g1 < 8 -> 0 <= g2 < 8 -> W d (e + g) + g1 <> e + g2)).
  { intros g Hg. destruct (Hnb g Hg) as [|[k [Hk' [E E']]]]; auto. right.
    rewrite E. unfold eaddr in *. repeat split; try lia; intros; lia. }
  pose proof (Hfar 4 ltac:(lia)) as F4. pose proof (Hfar 5 ltac:(lia)) as F5.
  pose proof (Hfar 6 ltac:(lia)) as F6. pose proof (Hfar 7 ltac:(lia)) as F7.
  assert (Hal : forall g g', 4 <= g < 8 -> 4 <= g' < 8 -> W d (e + g) <> 0 ->
            W d (e + g') <> 0 ->
            forall g1 g2, 0 <= g1 < 8 -> 0 <= g2 < 8 -> g1 <> g2 ->
            W d (e + g) + g1 <> W d (e + g') + g2).
  { intros g g' Hg Hg' Hz Hz' g1 g2 Hg1 Hg2 Hne.
    destruct (Hnb g Hg) as [|[k [Hk' [E _]]]]; [lia|].
    destruct (Hnb g' Hg') as [|[k' [Hk'' [E' _]]]]; [lia|].
    rewrite E, E'. unfold eaddr. lia. }
  pose proof (words_unlinkIn d1 e Hw1 Hk1') as [Hw2 [Hk2 Hl2]].
  pose proof (unlinkIn_stores d1 e Hk1' Hw1 ltac:(lia) ltac:(lia)) as HW2.
  rewrite !Hsame1 in HW2 by lia.
  specialize (HW2
    ltac:(destruct F4 as [|[? [? F]]]; [auto|right; repeat split;
            [lia|apply (F 5 4); lia|apply (F 5 5); lia]])
    ltac:(destruct F5 as [|[? [? F]]]; [auto|right; repeat split;
            [lia|apply (F 4 4); lia|apply (F 4 5); lia]])).
  assert (Hnp : W d (e + 5) + 4 <> W d (e + 4) + 5).
  { destruct (Z.eq_dec (W d (e + 4)) 0); [|destruct (Z.eq_dec (W d (e + 5)) 0)].
    - destruct F5 as [|[? [? F]]]; [lia|]. rewrite e0. specialize (F 4 0). lia.
    - destruct F4 as [|[? [? F]]]; [lia|]. rewrite e0. specialize (F 5 0). lia.
    - apply Hal; lia. }
  specialize (HW2 Hnp).
  set (d2 := EdgeTypeMap.unlinkIn d1 e) in *.
  assert (Hk2' : kind d2 = Uint32Array) by congruence.
  assert (Hsame2 : forall g, 6 <= g < 8 -> W d2 (e + g) = W d (e + g)).
  { intros g Hg. rewrite HW2, Hsame1 by lia.
    destruct F4 as [|[? [? G4]]]; destruct F5 as [|[? [? G5]]]; ifs;
      try (exfalso; eapply (G4 5 g); eauto; lia);
      try (exfalso; eapply (G5 4 g); eauto; lia). }
  pose proof (words_unlinkOut d2 e Hw2 Hk2') as [Hw3 [Hk3 Hl3]].
  pose proof (unlinkOut_stores d2 e Hk2' Hw2 ltac:(lia) ltac:(lia)) as HW3.
  rewrite !Hsame2 in HW3 by lia.
  specialize (HW3
    ltac:(destruct F6 as [|[? [? F]]]; [auto|right; repeat split;
            [lia|apply (F 7 6); lia|apply (F 7 7); lia]])
    ltac:(destruct F7 as [|[? [? F]]]; [auto|right; repeat split;
            [lia|apply (F 6 6); lia|apply (F 6 7); lia]])).
  assert (Hnp' : W d (e + 7) + 6 <> W d (e + 6) + 7).
  { destruct (Z.eq_dec (W d (e + 6)) 0); [|destruct (Z.eq_dec (W d (e + 7)) 0)].
    - destruct F7 as [|[? [? F]]]; [lia|]. rewrite e0. specialize (F 6 0). lia.
    - destruct F6 as [|[? [? F]]]; [lia|]. rewrite e0. specialize (F 7 0). lia.
    - apply Hal; lia. }
  specialize (HW3 Hnp').
  set (d3 := EdgeTypeMap.unlinkOut d2 e) in *.
  assert (Hk3' : kind d3 = Uint32Array) by congruence.
  assert (Nal : forall g, 4 <= g < 8 ->
            exists k, W d (e + g) = 0 \/ (W d (e + g) = 3 + cap d + 8 * k /\ 0 <= k)).
  { clear - Hnb. intros g Hg. destruct (Hnb g Hg) as [|[k [Hk' [E E']]]]; [exists 0; auto|].
    exists k. right. unfold eaddr in *. split; [assumption|lia]. }
  destruct (Nal 4 ltac:(lia)) as [k4 N4]. destruct (Nal 5 ltac:(lia)) as [k5 N5].
  destruct (Nal 6 ltac:(lia)) as [k6 N6]. destruct (Nal 7 ltac:(lia)) as [k7 N7].
  assert (Npl : exists kp, (3 <= place < 3 + cap d) \/ (place = 3 + cap d + 8 * kp /\ 0 <= kp)).
  { clear - Hpl'. destruct Hpl' as [|[k [Hk' [E E']]]]; [exists 0; auto|].
    exists k. right. unfold eaddr in *. split; [assumption|lia]. }
  destruct Npl as [kp Npl].
  assert (Hcap0 : 2 <= cap d) by (clear - Hc; lia).
  assert (Hke0 : 0 <= ke) by (clear - Hke; lia).
  assert (Hpl2 : place <> 2).
  { clear - Npl Hcap0. destruct Npl as [|[? ?]]; lia. }
  assert (HW' : forall j, j < 3 + cap d ->
            W d3 j = if j =? 1 then cnt d - 1 else if j =? place then W d e else W d j).
  { intros j Hj. rewrite HW3, HW2, HW1.
    exact (remove_table_words (W d) (cap d) (cnt d) e ke place _ _ _ _ k4 k5 k6 k7 j
             Hcap0 Hke0 Eke Hj N4 N5 N6 N7). }
  assert (Hdel3 : del d3 = del d).
  { unfold del. rewrite HW' by (clear - Hcap0; lia).
    destruct (Z.eqb_spec 2 1); [discriminate|].
    destruct (Z.eqb_spec 2 place); [congruence|reflexivity]. }
  pose proof (delete_stores d3 e Hk3' ltac:(intros i; apply Hw3)
                ltac:(rewrite Hdel3; clear - Hu Hc Hcnt; lia)
                ltac:(clear - Heb Hc; lia) ltac:(clear - Heb Hl1 Hl2 Hl3; lia)) as HW4.
  rewrite Hdel3 in HW4.
  exists (EdgeTypeMap.delete d3 e), l1, l2.
  split; [reflexivity|].
  split; [unfold EdgeTypeMap.delete; rewrite ?TA_kind_set; unfold TA.add;
          destruct (TA.get _ _); rewrite ?TA_kind_set; congruence|].
  split; [unfold EdgeTypeMap.delete, TA.add; destruct (TA.get _ _);
          rewrite ?TA_length_set; congruence|].
  split; [exact Hl|]. split; [exact Hnd|]. split; [exact Hin|].
  rewrite <- Eplace. split.
  - intros j Hj. rewrite HW4, (HW' j Hj). unfold eaddr in Eke. clear - Hj Hke0 Eke Hcap0. ifs.
  - intros k r Hk0 Hr. rewrite HW4, HW3, HW2, HW1. unfold removedSlot.
    assert (N4' : W d (e + 4) = 0 \/ W d (e + 4) = 3 + cap d + 8 * k4)
      by (clear - N4; tauto).
    assert (N5' : W d (e + 5) = 0 \/ W d (e + 5) = 3 + cap d + 8 * k5)
      by (clear - N5; tauto).
    assert (N6' : W d (e + 6) = 0 \/ W d (e + 6) = 3 + cap d + 8 * k6)
      by (clear - N6; tauto).
    assert (N7' : W d (e + 7) = 0 \/ W d (e + 7) = 3 + cap d + 8 * k7)
      by (clear - N7; tauto).
    exact (remove_slot_words (W d) (cap d) (cnt d) (del d) e ke place kp _ _ _ _ k4 k5 k6 k7
             (eaddr d k) k r Hcap0 Hke0 Eke Hk0 eq_refl Hr N4' N5' N6' N7' Npl _ eq_refl).
Qed.

End EdgeRemove.

(** * The edge map after a removal *)

Lemma removedSlot_0 f e p a :
  removedSlot f e p a 0 = if a =? e then 0 else if a =? p then f e else f a.
Proof. reflexivity. Qed.

Lemma removedSlot_123 f e p a r : 1 <= r < 4 ->
  removedSlot f e p a r = if a =? e then 0 else f (a + r).
Proof.
  intros Hr. assert (r = 1 \/ r = 2 \/ r = 3) as [->|[->| ->]] by lia; reflexivity.
Qed.

Lemma removedSlot_4 f e p a :
  removedSlot f e p a 4 =
  if a =? e then 0 else if a =? f (e + 5) then f (e + 4) else f (a + 4).
Proof. reflexivity. Qed.

Lemma removedSlot_5 f e p a :
  removedSlot f e p a 5 =
  if a =? e then 0 else if a =? f (e + 4) then f (e + 5) else f (a + 5).
Proof. reflexivity. Qed.

Lemma removedSlot_6 f e p a :
  removedSlot f e p a 6 =
  if a =? e then 0 else if a =? f (e + 7) then f (e + 6) else f (a + 6).
Proof. reflexivity. Qed.

Lemma removedSlot_7 f e p a :
  removedSlot f e p a 7 =
  if a =? e then 0 else if a =? f (e + 6) then f (e + 7) else f (a + 7).
Proof. reflexivity. Qed.

Lemma NoDup_map_filter {A B} (f : A -> B) (p : A -> bool) l :
  NoDup (map f l) -> NoDup (map f (filter p l)).
Proof.
  induction l as [|x l IH]; simpl; intros H; [constructor|].
  inversion H as [|? ? Hx Hnd]; subst.
  destruct (p x); simpl; auto. constructor; auto.
  intros Hi. apply Hx. apply in_map_iff in Hi as [y [E Hy]].
  apply filter_In in Hy as [Hy _]. rewrite <- E. now apply in_map.
Qed.

Lemma filter_and {A} (p q r : A -> bool) l :
  (forall a, In a l -> r a = p a && q a) -> filter r l = filter q (filter p l).
Proof.
  induction l as [|x l IH]; intros H; simpl; auto.
  rewrite (H x) by (left; auto). rewrite IH by (intros; apply H; right; auto).
  destruct (p x); simpl; auto.
Qed.

Lemma filter_length_remove (l : list Z) e :
  NoDup l -> In e l ->
  Z.of_nat (length (filter (fun a => negb (a =? e)) l)) = Z.of_nat (length l) - 1.
Proof.
  induction l as [|x l IH]; intros Hnd Hin; [destruct Hin|].
  inversion Hnd as [|? ? Hx Hnd']; subst.
  cbn [filter length]. rewrite Nat2Z.inj_succ.
  destruct (Z.eqb_spec x e) as [->|Hne]; cbn [negb].
  - assert (E : filter (fun a => negb (a =? e)) l = l).
    { clear - Hx. induction l as [|y l IH]; cbn [filter]; auto.
      destruct (Z.eqb_spec y e) as [->|]; cbn [negb].
      - exfalso. apply Hx. left; auto.
      - f_equal. apply IH. intros H. apply Hx. right; auto. }
    rewrite E. lia.
  - destruct Hin as [->|Hin]; [congruence|]. cbn [length]. rewrite Nat2Z.inj_succ.
    rewrite IH by auto. lia.
Qed.

Lemma slot_split c j : 3 + c <= j ->
  exists k r, j = 3 + c + 8 * k + r /\ 0 <= k /\ 0 <= r < 8.
Proof.
  intros Hj. exists ((j - 3 - c) / 8), ((j - 3 - c) mod 8).
  pose proof (Z.div_mod (j - 3 - c) 8 ltac:(lia)).
  pose proof (Z.mod_pos_bound (j - 3 - c) 8 ltac:(lia)).
  assert (0 <= (j - 3 - c) / 8) by (apply Z.div_pos; lia). lia.
Qed.

(** ** The inbound and outbound lists after a removal

    Both lists are doubly linked through a pair of fields ([N] for the next
    record, [P] for the previous one) and group the records by an end node
    (field [K]) and a type. *)
Section ListRemove.

Variables live live' : Z -> Prop.
Variables w w' : Z -> Z.
Variables e N P K : Z.

Hypothesis HN : forall a, live a -> w (a + N) <> 0 ->
  live (w (a + N)) /\ w (w (a + N) + P) = a /\ a < w (a + N) /\
  w (w (a + N) + K) = w (a + K) /\ w (w (a + N) + 1) = w (a + 1).
Hypothesis HP : forall a, live a -> w (a + P) <> 0 ->
  live (w (a + P)) /\ w (w (a + P) + N) = a.
Hypothesis He : live e.
Hypothesis Hlive' : forall a, live' a <-> live a /\ a <> e.
Hypothesis Hpos : forall a, live a -> a <> 0.
Hypothesis HwN : forall a, live a -> a <> e ->
  w' (a + N) = if a =? w (e + P) then w (e + N) else w (a + N).
Hypothesis HwP : forall a, live a -> a <> e ->
  w' (a + P) = if a =? w (e + N) then w (e + P) else w (a + P).
Hypothesis HwK : forall a, live a -> a <> e -> w' (a + K) = w (a + K).
Hypothesis Hw1 : forall a, live a -> a <> e -> w' (a + 1) = w (a + 1).

Lemma prev_before : w (e + P) <> 0 ->
  live (w (e + P)) /\ w (w (e + P) + N) = e /\ w (e + P) < e /\
  w (e + K) = w (w (e + P) + K) /\ w (e + 1) = w (w (e + P) + 1).
Proof.
  intros Hp. destruct (HP e He Hp) as [H1 H2].
  destruct (HN _ H1) as [_ [_ [H3 [H4 H5]]]]; [rewrite H2; auto|].
  rewrite H2 in *. auto.
Qed.

Lemma list_remove_next : forall a, live' a -> w' (a + N) <> 0 ->
  live' (w' (a + N)) /\ w' (w' (a + N) + P) = a /\ a < w' (a + N) /\
  w' (w' (a + N) + K) = w' (a + K) /\ w' (w' (a + N) + 1) = w' (a + 1).
Proof.
  intros a Ha Hnz. apply Hlive' in Ha as [Ha Hae].
  rewrite HwN in * by auto. rewrite (HwK a), (Hw1 a) by auto.
  destruct (Z.eqb_spec a (w (e + P))) as [Eap|Eap].
  - (* [a] was the record before [e] *)
    assert (Hp : w (e + P) <> 0) by (rewrite <- Eap; auto).
    destruct (prev_before Hp) as [P1 [P2 [P3 [P4 P5]]]].
    destruct (HN e He Hnz) as [N1 [N2 [N3 [N4 N5]]]].
    assert (Hne : w (e + N) <> e) by lia.
    split; [apply Hlive'; auto|].
    rewrite HwP, HwK, Hw1 by auto. rewrite Z.eqb_refl.
    repeat split; try congruence. lia.
  - destruct (HN a Ha Hnz) as [N1 [N2 [N3 [N4 N5]]]].
    assert (Hne : w (a + N) <> e).
    { intros E. rewrite E in N2. congruence. }
    split; [apply Hlive'; auto|].
    rewrite HwP, HwK, Hw1 by auto.
    destruct (Z.eqb_spec (w (a + N)) (w (e + N))) as [E|E]; [|auto].
    exfalso. assert (Hn : w (e + N) <> 0) by (rewrite <- E; auto).
    destruct (HN e He Hn) as [_ [N2' _]]. rewrite <- E in N2'. congruence.
Qed.

Lemma list_remove_prev : forall a, live' a -> w' (a + P) <> 0 ->
  live' (w' (a + P)) /\ w' (w' (a + P) + N) = a.
Proof.
  intros a Ha Hnz. apply Hlive' in Ha as [Ha Hae].
  rewrite HwP in * by auto.
  destruct (Z.eqb_spec a (w (e + N))) as [Ean|Ean].
  - destruct (prev_before Hnz) as [P1 [P2 [P3 _]]].
    assert (Hne : w (e + P) <> e) by lia.
    split; [apply Hlive'; auto|].
    rewrite HwN by auto. rewrite Z.eqb_refl. auto.
  - destruct (HP a Ha Hnz) as [P1 P2].
    assert (Hne : w (a + P) <> e).
    { intros E. rewrite E in P2. congruence. }
    split; [apply Hlive'; auto|].
    rewrite HwN by auto.
    destruct (Z.eqb_spec (w (a + P)) (w (e + P))) as [E|E]; [|auto].
    exfalso. assert (Hp : w (e + P) <> 0) by (rewrite <- E; auto).
    destruct (prev_before Hp) as [_ [P2' _]]. rewrite <- E in P2'. congruence.
Qed.

End ListRemove.

Section EdgeRemoveOK.

Variable d : TypedArray.
Hypothesis OK : EdgesOK d.
Hypothesis LK : EdgesLinked d.
Variable e : Z.
Hypothesis He : In e (elive d).
Variable d' : TypedArray.
Variables l1 l2 : list Z.

Let h := bucketOf d e.
Let place := unlinkPlace h l1.

Hypothesis Hk' : kind d' = kind d.
Hypothesis Hl' : TA.length d' = TA.length d.
Hypothesis Hl : chain d (W d (3 + h)) (l1 ++ e :: l2).
Hypothesis Hnd : NoDup (l1 ++ e :: l2).
Hypothesis Hin : forall a, In a (l1 ++ e :: l2) <-> In a (elive d) /\ bucketOf d a = h.
Hypothesis HT : forall j, j < 3 + cap d ->
  W d' j = if j =? 1 then cnt d - 1 else if j =? 2 then del d + 1
           else if j =? place then W d e else W d j.
Hypothesis HS : forall k r, 0 <= k -> 0 <= r < 8 ->
  W d' (eaddr d k + r) = removedSlot (W d) e place (eaddr d k) r.

Lemma rem_place :
  (3 <= place < 3 + cap d) \/ (In place (elive d) /\ place <> e).
Proof.
  assert (Hh : 0 <= h < cap d) by apply (bucket_range d OK).
  unfold place, unlinkPlace. destruct l1 as [|x l0]; [left; lia|right].
  assert (Hla : In (last (x :: l0) 0) (x :: l0)) by (apply last_in; discriminate).
  split; [apply Hin; apply in_or_app; auto|].
  intros E. apply NoDup_remove_2 in Hnd. apply Hnd. apply in_or_app. left. now rewrite <- E.
Qed.

Lemma rem_hdr : cap d' = cap d /\ cnt d' = cnt d - 1 /\ del d' = del d + 1.
Proof.
  pose proof (eo_cap d OK) as Hc.
  assert (Hp : 3 <= place).
  { destruct rem_place as [|[Hp _]]; [lia|]. apply (elive_bounds d OK) in Hp. lia. }
  unfold cap at 1, cnt at 1, del at 1. rewrite !HT by lia.
  clear - Hp. repeat split; ifs.
Qed.

Lemma rem_slot a r : In a (eslots d) -> 0 <= r < 8 ->
  W d' (a + r) = removedSlot (W d) e place a r.
Proof.
  intros Ha Hr. apply in_eslots in Ha as [k [Hk ->]]. apply HS; lia.
Qed.

Lemma live_slot a : In a (elive d) -> In a (eslots d).
Proof. unfold elive. intros H. apply filter_In in H. tauto. Qed.

(** The words of the other live records. *)
Lemma rem_next a : In a (elive d) -> a <> e ->
  W d' a = if a =? place then W d e else W d a.
Proof.
  intros Ha Hne. rewrite <- (Z.add_0_r a) at 1.
  rewrite rem_slot, removedSlot_0 by (auto using live_slot; lia).
  destruct (Z.eqb_spec a e); [contradiction|reflexivity].
Qed.

Lemma rem_field a r : In a (elive d) -> a <> e -> 1 <= r < 4 ->
  W d' (a + r) = W d (a + r).
Proof.
  intros Ha Hne Hr.
  rewrite rem_slot, removedSlot_123 by (auto using live_slot; lia).
  destruct (Z.eqb_spec a e); [contradiction|reflexivity].
Qed.

Lemma rem_self r : 0 <= r < 8 -> W d' (e + r) = 0.
Proof.
  intros Hr. rewrite rem_slot by (auto using live_slot).
  unfold removedSlot. rewrite Z.eqb_refl. reflexivity.
Qed.

Lemma rem_nextIn a : In a (elive d) -> a <> e ->
  W d' (a + 4) = if a =? W d (e + 5) then W d (e + 4) else W d (a + 4).
Proof.
  intros Ha Hne. rewrite rem_slot, removedSlot_4 by (auto using live_slot; lia).
  destruct (Z.eqb_spec a e); [contradiction|reflexivity].
Qed.

Lemma rem_prevIn a : In a (elive d) -> a <> e ->
  W d' (a + 5) = if a =? W d (e + 4) then W d (e + 5) else W d (a + 5).
Proof.
  intros Ha Hne. rewrite rem_slot, removedSlot_5 by (auto using live_slot; lia).
  destruct (Z.eqb_spec a e); [contradiction|reflexivity].
Qed.

Lemma rem_nextOut a : In a (elive d) -> a <> e ->
  W d' (a + 6) = if a =? W d (e + 7) then W d (e + 6) else W d (a + 6).
Proof.
  intros Ha Hne. rewrite rem_slot, removedSlot_6 by (auto using live_slot; lia).
  destruct (Z.eqb_spec a e); [contradiction|reflexivity].
Qed.

Lemma rem_prevOut a : In a (elive d) -> a <> e ->
  W d' (a + 7) = if a =? W d (e + 6) then W d (e + 7) else W d (a + 7).
Proof.
  intros Ha Hne. rewrite rem_slot, removedSlot_7 by (auto using live_slot; lia).
  destruct (Z.eqb_spec a e); [contradiction|reflexivity].
Qed.

Lemma rem_eslots : eslots d' = eslots d.
Proof.
  destruct rem_hdr as [E1 [E2 E3]]. unfold eslots. rewrite E1, E2, E3. f_equal. lia.
Qed.

Lemma rem_liveb a : In a (eslots d) -> liveb d' a = liveb d a && negb (a =? e).
Proof.
  intros Ha. unfold liveb. rewrite rem_slot, removedSlot_123 by (auto; lia).
  destruct (Z.eqb_spec a e); cbn [negb]; [rewrite andb_false_r|rewrite andb_true_r]; reflexivity.
Qed.

Lemma rem_elive : elive d' = filter (fun a => negb (a =? e)) (elive d).
Proof.
  unfold elive. rewrite rem_eslots. apply filter_and. intros a Ha. now apply rem_liveb.
Qed.

Lemma in_rem_elive a : In a (elive d') <-> In a (elive d) /\ a <> e.
Proof.
  rewrite rem_elive, filter_In. destruct (Z.eqb_spec a e); simpl; intuition congruence.
Qed.

Lemma rem_edgeAt a : In a (elive d) -> a <> e ->
  AdjacencyList.edgeAt d' a = AdjacencyList.edgeAt d a.
Proof.
  intros Ha Hne. rewrite !edgeAt_W, !rem_field by (auto; lia). reflexivity.
Qed.

Lemma rem_liveEdges :
  liveEdges d' = map (AdjacencyList.edgeAt d) (filter (fun a => negb (a =? e)) (elive d)).
Proof.
  unfold liveEdges. rewrite rem_elive. apply map_ext_in.
  intros a Ha. apply filter_In in Ha as [Ha Hne].
  apply rem_edgeAt; auto. destruct (Z.eqb_spec a e); [discriminate|auto].
Qed.

Lemma in_rem_liveEdges x :
  In x (liveEdges d') <-> In x (liveEdges d) /\ x <> AdjacencyList.edgeAt d e.
Proof.
  rewrite rem_liveEdges, in_map_iff. split.
  - intros [a [E Ha]]. apply filter_In in Ha as [Ha Hne].
    destruct (Z.eqb_spec a e); [discriminate|]. split.
    + apply in_liveEdges. eauto.
    + intros Ex. apply n. apply (edgeAt_inj d a e (eo_uniq d OK) Ha He). congruence.
  - intros [Hx Hne]. apply in_liveEdges in Hx as [a [Ha E]]. exists a. split; auto.
    apply filter_In. split; auto. destruct (Z.eqb_spec a e); [subst; congruence|reflexivity].
Qed.

Lemma rem_bucketOf a : In a (elive d) -> a <> e -> bucketOf d' a = bucketOf d a.
Proof.
  intros Ha Hne. unfold bucketOf. destruct rem_hdr as [E1 _].
  rewrite rem_edgeAt, E1 by auto. reflexivity.
Qed.

Lemma rem_words : forall i, 0 <= W d' i < 4294967296.
Proof.
  intros i. pose proof (eo_words d OK) as Hw. pose proof (eo_cap d OK) as Hc.
  assert (Hcnt : 0 < cnt d).
  { rewrite (eo_count d OK). destruct (elive d) as [|z l0]; [destruct He|]. cbn [length]. lia. }
  pose proof (eo_used d OK) as Hu. unfold EMAX in Hc.
  destruct (Z.ltb_spec i (3 + cap d)) as [Hi|Hi].
  - rewrite HT by auto. pose proof (Hw i). pose proof (Hw e). pose proof (Hw 1). pose proof (Hw 2).
    unfold cnt, del in *. clear - H H0 H1 H2 Hu Hc Hcnt. ifs.
  - destruct (slot_split (cap d) i Hi) as [k [r [-> [Hk Hr]]]].
    change (3 + cap d + 8 * k) with (eaddr d k). rewrite HS by auto.
    unfold removedSlot.
    pose proof (Hw (eaddr d k)). pose proof (Hw (eaddr d k + r)). pose proof (Hw e).
    pose proof (Hw (e + 4)). pose proof (Hw (e + 5)). pose proof (Hw (e + 6)).
    pose proof (Hw (e + 7)).
    repeat match goal with |- context [if ?b then _ else _] => destruct b end; lia.
Qed.

Lemma edges_remove_ok : EdgesOK d'.
Proof.
  pose proof (eo_cap d OK) as Hc. pose proof (eo_words d OK) as Hw.
  destruct rem_hdr as [E1 [E2 E3]].
  constructor.
  - rewrite Hk'. apply (eo_kind d OK).
  - now rewrite E1.
  - rewrite Hl', E1. apply (eo_len d OK).
  - apply rem_words.
  - rewrite E1, E2, E3. pose proof (eo_used d OK). lia.
  - intros k f Hk Hf Hz.
    assert (Ea : eaddr d' k = eaddr d k) by (unfold eaddr; rewrite E1; reflexivity).
    rewrite Ea, E1, E2, E3 in *.
    rewrite HS by lia.
    destruct (Z.eq_dec (eaddr d k) e) as [Ee|Ene].
    { unfold removedSlot. rewrite Ee, Z.eqb_refl. reflexivity. }
    assert (Hdead : cnt d + del d <= k \/ W d (eaddr d k + 1) = 0).
    { destruct Hz as [Hz|Hz]; [left; lia|right].
      rewrite HS, removedSlot_123 in Hz by lia.
      destruct (Z.eqb_spec (eaddr d k) e); [contradiction|exact Hz]. }
    assert (Hzero : forall g, 0 <= g < 8 -> W d (eaddr d k + g) = 0).
    { intros g Hg. apply (eo_zero d OK); auto. }
    assert (Hnl : ~ In (eaddr d k) (elive d)).
    { intros Hi. apply in_elive in Hi as [[k' [Hk2 E]] Hty].
      assert (k' = k) by (unfold eaddr in E; lia). subst k'.
      destruct Hdead; [lia|contradiction]. }
    assert (Hnb : forall g, 4 <= g < 8 -> eaddr d k <> W d (e + g)).
    { intros g Hg E. destruct (neighbour d LK e He g Hg) as [Hn|[Hn _]].
      - rewrite Hn in E. unfold eaddr in E. lia.
      - rewrite <- E in Hn. contradiction. }
    assert (Hnp : eaddr d k <> place).
    { intros E. destruct rem_place as [Hp|[Hp _]].
      - rewrite <- E in Hp. unfold eaddr in Hp. lia.
      - rewrite <- E in Hp. contradiction. }
    pose proof (Hzero 0 ltac:(lia)) as Hz0. rewrite Z.add_0_r in Hz0.
    unfold removedSlot. rewrite (Hzero f Hf), Hz0.
    destruct (Z.eqb_spec (eaddr d k) e); [reflexivity|].
    destruct (Z.eqb_spec (eaddr d k) place); [contradiction|].
    destruct (Z.eqb_spec (eaddr d k) (W d (e + 5))); [exfalso; apply (Hnb 5); [lia|auto]|].
    destruct (Z.eqb_spec (eaddr d k) (W d (e + 4))); [exfalso; apply (Hnb 4); [lia|auto]|].
    destruct (Z.eqb_spec (eaddr d k) (W d (e + 7))); [exfalso; apply (Hnb 7); [lia|auto]|].
    destruct (Z.eqb_spec (eaddr d k) (W d (e + 6))); [exfalso; apply (Hnb 6); [lia|auto]|].
    repeat match goal with |- context [if ?b then _ else _] => destruct b end; reflexivity.
  - rewrite E2, rem_elive, (eo_count d OK).
    rewrite filter_length_remove by (auto using NoDup_elive). reflexivity.
  - assert (Hh : 0 <= h < cap d) by apply (bucket_range d OK).
    refine (Chains_unlink d d' _ _ h e l1 l2 _ _ (eo_chains d OK) Hh Hl Hnd Hin _ E1 _ _ _ _).
    + intros a Ha. apply (elive_bounds d OK) in Ha. lia.
    + fold place. destruct rem_place as [Hp|[Hp Hpe]].
      * rewrite HT by lia. clear - Hp. ifs.
      * rewrite rem_next by auto. now rewrite Z.eqb_refl.
    + fold place. intros j Hj Hje [Ht|Hm].
      * rewrite HT by lia. clear - Ht Hj. ifs.
      * rewrite rem_next by auto. destruct (Z.eqb_spec j place); [contradiction|reflexivity].
    + intros a. apply in_rem_elive.
    + intros a Ha. apply in_rem_elive in Ha as [Ha Hne]. apply rem_bucketOf; auto.
  - rewrite rem_liveEdges. apply NoDup_map_filter. apply (eo_uniq d OK).
Qed.

Lemma live_nonzero a : In a (elive d) -> a <> 0.
Proof. intros Ha. apply (elive_bounds d OK) in Ha. pose proof (eo_cap d OK). lia. Qed.

Lemma edges_remove_linked : EdgesLinked d'.
Proof.
  pose proof (fun a H1 H2 => rem_field a 1 H1 H2 ltac:(lia)) as F1.
  pose proof (fun a H1 H2 => rem_field a 2 H1 H2 ltac:(lia)) as F2.
  pose proof (fun a H1 H2 => rem_field a 3 H1 H2 ltac:(lia)) as F3.
  constructor.
  - apply (list_remove_next (fun a => In a (elive d)) _ (W d) (W d') e 4 5 3
             (el_in d LK) (el_in' d LK) He in_rem_elive live_nonzero
             rem_nextIn rem_prevIn F3 F1).
  - apply (list_remove_prev (fun a => In a (elive d)) _ (W d) (W d') e 4 5 3
             (el_in d LK) (el_in' d LK) He in_rem_elive live_nonzero
             rem_nextIn rem_prevIn).
  - apply (list_remove_next (fun a => In a (elive d)) _ (W d) (W d') e 6 7 2
             (el_out d LK) (el_out' d LK) He in_rem_elive live_nonzero
             rem_nextOut rem_prevOut F2 F1).
  - apply (list_remove_prev (fun a => In a (elive d)) _ (W d) (W d') e 6 7 2
             (el_out d LK) (el_out' d LK) He in_rem_elive live_nonzero
             rem_nextOut rem_prevOut).
Qed.

End EdgeRemoveOK.

(** * Adding an edge record and linking it *)

(** [if (prevIn !== null) this._edges.linkIn(prevIn, edge)] and its
    outbound twin, on the word that the node map handed back. *)
Definition linkInOpt (d : TypedArray) (prev edge : Z) : TypedArray :=
  match oaddr prev with Some p => EdgeTypeMap.linkIn d p edge | None => d end.
Definition linkOutOpt (d : TypedArray) (prev edge : Z) : TypedArray :=
  match oaddr prev with Some p => EdgeTypeMap.linkOut d p edge | None => d end.

Lemma linkInOpt_stores d p e :
  kind d = Uint32Array -> 0 <= p < 4294967296 -> 0 <= e < 4294967296 ->
  (p = 0 \/ p + 4 < TA.length d) -> e + 5 < TA.length d ->
  kind (linkInOpt d p e) = kind d /\ TA.length (linkInOpt d p e) = TA.length d /\
  forall j, W (linkInOpt d p e) j =
    if negb (p =? 0) && (j =? e + 5) then p
    else if negb (p =? 0) && (j =? p + 4) then e else W d j.
Proof.
  intros Hk Hp He Hp' He'. unfold linkInOpt, oaddr, EdgeTypeMap.linkIn,
    EdgeTypeMap._NEXT_IN, EdgeTypeMap._PREV_IN.
  destruct (Z.eqb_spec p 0) as [->|Hnz]; cbn [negb andb]; [auto|].
  rewrite !TA_kind_set, !TA_length_set. repeat split; auto.
  intros j. repeat Wset. reflexivity.
Qed.

Lemma linkOutOpt_stores d p e :
  kind d = Uint32Array -> 0 <= p < 4294967296 -> 0 <= e < 4294967296 ->
  (p = 0 \/ p + 6 < TA.length d) -> e + 7 < TA.length d ->
  kind (linkOutOpt d p e) = kind d /\ TA.length (linkOutOpt d p e) = TA.length d /\
  forall j, W (linkOutOpt d p e) j =
    if negb (p =? 0) && (j =? e + 7) then p
    else if negb (p =? 0) && (j =? p + 6) then e else W d j.
Proof.
  intros Hk Hp He Hp' He'. unfold linkOutOpt, oaddr, EdgeTypeMap.linkOut,
    EdgeTypeMap._NEXT_OUT, EdgeTypeMap._PREV_OUT.
  destruct (Z.eqb_spec p 0) as [->|Hnz]; cbn [negb andb]; [auto|].
  rewrite !TA_kind_set, !TA_length_set. repeat split; auto.
  intros j. repeat Wset. reflexivity.
Qed.

(** The words of a slot after the stores of [add], [linkIn] and [linkOut];
    [f] stands for the words before, which are null in the new slot [e]. *)
Definition addedSlot (f : Z -> Z) (e place pz qz ty fr to a r : Z) : Z :=
  if a =? e then
    (if r =? 1 then ty else if r =? 2 then fr else if r =? 3 then to
     else if r =? 5 then pz else if r =? 7 then qz else 0)
  else if r =? 0 then (if a =? place then e else f a)
  else if r =? 4 then (if a =? pz then e else f (a + r))
  else if r =? 6 then (if a =? qz then e else f (a + r))
  else f (a + r).

Lemma add_slot_words (f : Z -> Z) (c cn e ke place kp pz qz kpz kqz ty fr to a k r : Z) :
  2 <= c -> 0 <= ke -> e = 3 + c + 8 * ke ->
  0 <= k -> a = 3 + c + 8 * k -> 0 <= r < 8 ->
  (pz = 0 \/ (pz = 3 + c + 8 * kpz /\ kpz <> ke)) ->
  (qz = 0 \/ (qz = 3 + c + 8 * kqz /\ kqz <> ke)) ->
  (3 <= place < 3 + c \/ (place = 3 + c + 8 * kp /\ 0 <= kp /\ kp <> ke)) ->
  (forall g, 0 <= g < 8 -> f (e + g) = 0) ->
  forall j, j = a + r ->
  (if negb (qz =? 0) && (j =? e + 7) then qz
   else if negb (qz =? 0) && (j =? qz + 6) then e
   else if negb (pz =? 0) && (j =? e + 5) then pz
   else if negb (pz =? 0) && (j =? pz + 4) then e
   else if j =? 1 then cn + 1
   else if j =? place then e
   else if j =? e + 1 then ty
   else if j =? e + 2 then fr
   else if j =? e + 3 then to
   else f j)
  = addedSlot f e place pz qz ty fr to a r.
Proof.
  intros Hc Hke He Hk Ha Hr Np Nq Npl Hz j ->. unfold addedSlot.
  assert (Np' : pz = 0 \/ pz = 3 + c + 8 * kpz) by (clear - Np; tauto).
  assert (Nq' : qz = 0 \/ qz = 3 + c + 8 * kqz) by (clear - Nq; tauto).
  rewrite (guard_slot c qz kqz a k r 6), (guard_slot c pz kpz a k r 4)
    by (assumption || lia).
  assert (Hpe : e <> pz) by (clear - Np He Hc Hke; lia).
  assert (Hqe : e <> qz) by (clear - Nq He Hc Hke; lia).
  clear Np Nq Np' Nq'.
  replace (f a) with (f (a + 0)) by (f_equal; lia).
  destruct (Z.eqb_spec a e) as [Eae|Eae].
  - rewrite Eae. clear Eae Ha k Hk.
    destruct Npl as [Hp|[-> [Hp Hp']]];
    (assert (r = 0 \/ r = 1 \/ r = 2 \/ r = 3 \/ r = 4 \/ r = 5 \/ r = 6 \/ r = 7)
      as [->|[->|[->|[->|[->|[->|[->| ->]]]]]]] by lia); clear Hr;
      rewrite ?(Hz 0), ?(Hz 4), ?(Hz 5), ?(Hz 6), ?(Hz 7) by lia; clear Hz;
      ifs.
  - assert (k <> ke) by lia. clear Eae Hz Hpe Hqe.
    destruct Npl as [Hp|[-> [Hp Hp']]];
    (assert (r = 0 \/ r = 1 \/ r = 2 \/ r = 3 \/ r = 4 \/ r = 5 \/ r = 6 \/ r = 7)
      as [->|[->|[->|[->|[->|[->|[->| ->]]]]]]] by lia); clear Hr;
      subst a e; ifs.
Qed.

Lemma add_table_words (f : Z -> Z) (c cn e ke place pz qz kpz kqz ty fr to j : Z) :
  2 <= c -> 0 <= ke -> e = 3 + c + 8 * ke -> j < 3 + c ->
  (pz = 0 \/ (pz = 3 + c + 8 * kpz /\ 0 <= kpz)) ->
  (qz = 0 \/ (qz = 3 + c + 8 * kqz /\ 0 <= kqz)) ->
  (if negb (qz =? 0) && (j =? e + 7) then qz
   else if negb (qz =? 0) && (j =? qz + 6) then e
   else if negb (pz =? 0) && (j =? e + 5) then pz
   else if negb (pz =? 0) && (j =? pz + 4) then e
   else if j =? 1 then cn + 1
   else if j =? place then e
   else if j =? e + 1 then ty
   else if j =? e + 2 then fr
   else if j =? e + 3 then to
   else f j)
  = (if j =? 1 then cn + 1 else if j =? place then e else f j).
Proof.
  intros Hc Hke -> Hj Np Nq.
  rewrite (guard_table c qz kqz j 6), (guard_table c pz kpz j 4) by (assumption || lia).
  clear Np Nq. ifs.
Qed.

Section EdgeLink.

Variable d : TypedArray.
Hypothesis OK : EdgesOK d.
Hypothesis LK : EdgesLinked d.
Variables f t ty : Z.
Hypothesis Hroom : cnt d + del d < 2 * cap d.
Hypothesis Hf : 0 <= f < 4294967296.
Hypothesis Ht : 0 <= t < 4294967296.
Hypothesis Hty : 0 < ty < 4294967296.
Hypothesis Hnew : ~ In (mkEdge f t ty) (liveEdges d).
Variables pz qz : Z.
Hypothesis Hpz : pz = 0 \/
  (In pz (elive d) /\ W d (pz + 4) = 0 /\ W d (pz + 3) = t /\ W d (pz + 1) = ty).
Hypothesis Hqz : qz = 0 \/
  (In qz (elive d) /\ W d (qz + 6) = 0 /\ W d (qz + 2) = f /\ W d (qz + 1) = ty).

Let e := eaddr d (cnt d + del d).

(** The edge map after the stores of [addEdge]. *)
Record Added (d3 : TypedArray) : Prop := {
  ad_ok : EdgesOK d3;
  ad_linked : EdgesLinked d3;
  ad_elive : elive d3 = elive d ++ [e];
  ad_liveEdges : liveEdges d3 = liveEdges d ++ [mkEdge f t ty];
  ad_hdr : cap d3 = cap d /\ cnt d3 = cnt d + 1 /\ del d3 = del d;
  ad_old : forall a r, In a (eslots d) -> 1 <= r < 4 -> W d3 (a + r) = W d (a + r);
  ad_nextIn : forall a, In a (elive d) ->
    W d3 (a + 4) = if a =? pz then e else W d (a + 4);
  ad_nextOut : forall a, In a (elive d) ->
    W d3 (a + 6) = if a =? qz then e else W d (a + 6);
  ad_new : W d3 (e + 1) = ty /\ W d3 (e + 2) = f /\ W d3 (e + 3) = t /\
           W d3 (e + 4) = 0 /\ W d3 (e + 6) = 0
}.

Lemma edges_link :
  exists d1,
    EdgeTypeMap.add d (EdgeTypeMap.hash d f t ty) f t ty = Return (d1, e) /\
    Added (linkOutOpt (linkInOpt d1 pz e) qz e).
Proof.
  pose proof (eo_cap d OK) as Hc. pose proof (eo_len d OK) as Hlen.
  pose proof (eo_kind d OK) as Hk. pose proof (eo_words d OK) as Hw.
  pose proof (eo_used d OK) as Hu. unfold EMAX in Hc.
  assert (Hcnt0 : 0 <= cnt d) by apply Hw. assert (Hdel0 : 0 <= del d) by apply Hw.
  destruct (edges_add_stores d OK f t ty Hroom Hf Ht Hty)
    as [d1 [place [Hadd [Hk1 [Hl1 [Hpl [HW1 Hch1]]]]]]].
  exists d1. split; [exact Hadd|].
  fold e in HW1, Hch1.
  assert (He : e = 3 + cap d + 8 * (cnt d + del d)) by reflexivity.
  assert (Heb : 3 + cap d <= e /\ e + 8 <= TA.length d /\ e < 4294967296).
  { clear - He Hc Hlen Hroom Hcnt0 Hdel0. lia. }
  assert (Np : exists kpz, pz = 0 \/
            (pz = 3 + cap d + 8 * kpz /\ 0 <= kpz < cnt d + del d)).
  { destruct Hpz as [|[Hp _]]; [exists 0; auto|].
    apply in_elive in Hp as [[k [Hk' E]] _]. exists k. right. auto. }
  assert (Nq : exists kqz, qz = 0 \/
            (qz = 3 + cap d + 8 * kqz /\ 0 <= kqz < cnt d + del d)).
  { destruct Hqz as [|[Hp _]]; [exists 0; auto|].
    apply in_elive in Hp as [[k [Hk' E]] _]. exists k. right. auto. }
  destruct Np as [kpz Np]. destruct Nq as [kqz Nq].
  assert (Hpr : 0 <= pz < 4294967296) by (clear - Np Hc Hu; destruct Np as [|[-> ?]]; lia).
  assert (Hqr : 0 <= qz < 4294967296) by (clear - Nq Hc Hu; destruct Nq as [|[-> ?]]; lia).
  assert (Npl : exists kp, 3 <= place < 3 + cap d \/
            (place = 3 + cap d + 8 * kp /\ 0 <= kp /\ kp <> cnt d + del d)).
  { destruct Hpl as [Hh [[->|[Hp _]] _]]; [exists 0; left; lia|].
    apply in_elive in Hp as [[k [Hk' E]] _]. exists k. right. unfold eaddr in E.
    repeat split; try lia; auto. }
  destruct Npl as [kp Npl].
  assert (Hw1 : forall i, 0 <= W d1 i < 4294967296).
  { intros i. rewrite HW1. pose proof (Hw i).
    clear - H Heb Hcnt0 Hdel0 Hu Hc Hf Ht Hty. ifs. }
  assert (Hk1' : kind d1 = Uint32Array) by congruence.
  destruct (linkInOpt_stores d1 pz e Hk1') as [Hk2 [Hl2 HW2]];
    [exact Hpr
    |clear - Heb Hc; lia
    |rewrite Hl1; clear - Np Hlen Hu; destruct Np as [|[-> ?]]; [auto|right; lia]
    |rewrite Hl1; clear - Heb Hc; lia|].
  set (d2 := linkInOpt d1 pz e) in *.
  assert (Hk2' : kind d2 = Uint32Array) by congruence.
  destruct (linkOutOpt_stores d2 qz e Hk2') as [Hk3 [Hl3 HW3]];
    [exact Hqr
    |clear - Heb Hc; lia
    |rewrite Hl2, Hl1; clear - Nq Hlen Hu; destruct Nq as [|[-> ?]]; [auto|right; lia]
    |rewrite Hl2, Hl1; clear - Heb Hc; lia|].
  set (d3 := linkOutOpt d2 qz e) in *.
  assert (Hcap0 : 2 <= cap d) by (clear - Hc; lia).
  assert (Hke0 : 0 <= cnt d + del d) by (clear - Hcnt0 Hdel0; lia).
  assert (Hzero : forall g, 0 <= g < 8 -> W d (e + g) = 0).
  { intros g Hg. apply (eo_zero d OK); auto; lia. }
  assert (HT : forall j, j < 3 + cap d ->
            W d3 j = if j =? 1 then cnt d + 1 else if j =? place then e else W d j).
  { intros j Hj. rewrite HW3, HW2, HW1.
    apply (add_table_words (W d) (cap d) (cnt d) e (cnt d + del d) place pz qz kpz kqz
             ty f t j Hcap0 Hke0 He Hj).
    - clear - Np. destruct Np as [|[? ?]]; [auto|right; split; [assumption|lia]].
    - clear - Nq. destruct Nq as [|[? ?]]; [auto|right; split; [assumption|lia]]. }
  assert (HS : forall k r, 0 <= k -> 0 <= r < 8 ->
            W d3 (eaddr d k + r) = addedSlot (W d) e place pz qz ty f t (eaddr d k) r).
  { intros k r Hk0 Hr. rewrite HW3, HW2, HW1.
    apply (add_slot_words (W d) (cap d) (cnt d) e (cnt d + del d) place kp pz qz kpz kqz
             ty f t (eaddr d k) k r Hcap0 Hke0 He Hk0 eq_refl Hr); auto.
    - clear - Np. destruct Np as [|[? ?]]; [auto|right; split; [assumption|lia]].
    - clear - Nq. destruct Nq as [|[? ?]]; [auto|right; split; [assumption|lia]]. }
  assert (Hk3' : kind d3 = kind d) by congruence.
  assert (Hl3' : TA.length d3 = TA.length d) by congruence.
  assert (Hold : forall a r, In a (eslots d) -> 1 <= r < 4 -> W d3 (a + r) = W d (a + r)).
  { intros a r Ha Hr. apply in_eslots in Ha as [k [Hk0 ->]].
    rewrite HS by lia. unfold addedSlot.
    destruct (Z.eqb_spec (eaddr d k) e) as [E|E]; [unfold e, eaddr in E; lia|].
    assert (r = 1 \/ r = 2 \/ r = 3) as [->|[->| ->]] by lia; reflexivity. }
  assert (Hlive : forall a, In a (elive d) -> exists k, 0 <= k /\ a = eaddr d k /\ a <> e).
  { intros a Ha. apply in_elive in Ha as [[k [Hk0 ->]] _]. exists k.
    repeat split; [lia|unfold e, eaddr; lia]. }
  assert (Hfield : forall a r, In a (elive d) -> 4 <= r < 8 ->
            W d3 (a + r) = addedSlot (W d) e place pz qz ty f t a r).
  { intros a r Ha Hr. destruct (Hlive a Ha) as [k [Hk0 [-> _]]]. apply HS; lia. }
  assert (Hnew3 : forall r, 0 <= r < 8 ->
            W d3 (e + r) = addedSlot (W d) e place pz qz ty f t e r).
  { intros r Hr. apply (HS (cnt d + del d) r); lia. }
  assert (HW : forall j,
            (forall a g, In a (elive d) \/ a = e -> 4 <= g < 8 -> j <> a + g) ->
            W d3 j = if j =? 1 then cnt d + 1 else if j =? place then e
                     else if j =? e + 1 then ty else if j =? e + 2 then f
                     else if j =? e + 3 then t else W d j).
  { intros j Hj. rewrite HW3, HW2.
    assert (G1 : negb (qz =? 0) && (j =? e + 7) = false).
    { destruct (Z.eqb_spec j (e + 7)) as [->|]; [|apply andb_false_r].
      exfalso. apply (Hj e 7); auto; lia. }
    assert (G2 : negb (qz =? 0) && (j =? qz + 6) = false).
    { destruct (Z.eqb_spec j (qz + 6)) as [->|]; [|apply andb_false_r].
      destruct Hqz as [->|[Hq _]]; [reflexivity|]. exfalso. apply (Hj qz 6); auto; lia. }
    assert (G3 : negb (pz =? 0) && (j =? e + 5) = false).
    { destruct (Z.eqb_spec j (e + 5)) as [->|]; [|apply andb_false_r].
      exfalso. apply (Hj e 5); auto; lia. }
    assert (G4 : negb (pz =? 0) && (j =? pz + 4) = false).
    { destruct (Z.eqb_spec j (pz + 4)) as [->|]; [|apply andb_false_r].
      destruct Hpz as [->|[Hq _]]; [reflexivity|]. exfalso. apply (Hj pz 4); auto; lia. }
    rewrite G1, G2, G3, G4. apply HW1. }
  assert (Hw3 : forall i, 0 <= W d3 i < 4294967296).
  { intros i. rewrite HW3, HW2. pose proof (Hw1 i).
    clear - H Hpr Hqr Heb Hc.
    repeat match goal with |- context [if ?b then _ else _] => destruct b end; lia. }
  assert (Hch3 : Chains d3 (fun a => In a (elive d) \/ a = e)
                   (fun a => if a =? e then rawhash (mkEdge f t ty) mod cap d
                             else bucketOf d a)).
  { assert (Hc1 : cap d1 = cap d).
    { unfold cap. rewrite HW1. clear - Npl Heb Hc He. ifs. }
    refine (Chains_ext d1 d3 _ _ _ _ Hch1 _ _ _ (fun a => iff_refl _) (fun a _ => eq_refl)).
    - unfold cap. rewrite HT, HW1 by lia.
      clear - Npl Heb Hc He. ifs.
    - rewrite Hc1. intros h Hh. rewrite HT, HW1 by lia.
      clear - Hh Heb Hc He. ifs.
    - intros a [Ha| ->].
      + destruct (Hlive a Ha) as [k [Hk0 [-> Hne]]].
        rewrite <- (Z.add_0_r (eaddr d k)) at 1. rewrite HS, HW1 by lia.
        unfold addedSlot.
        destruct (Z.eqb_spec (eaddr d k) e); [contradiction|].
        change (0 =? 0) with true. cbv iota.
        unfold eaddr in *. clear - Hk0 Hne He Hc. ifs.
      + assert (E3 : W d3 e = 0).
        { rewrite <- (Z.add_0_r e) at 1. rewrite Hnew3 by lia.
          unfold addedSlot. rewrite Z.eqb_refl. reflexivity. }
        assert (E1 : W d1 e = 0).
        { rewrite HW1. pose proof (Hzero 0 ltac:(lia)) as Hz0. rewrite Z.add_0_r in Hz0.
          rewrite Hz0. clear - Npl Heb Hc He. ifs. }
        congruence. }
  assert (HL4 : forall a, In a (elive d) -> W d3 (a + 4) = if a =? pz then e else W d (a + 4)).
  { intros a Ha. rewrite Hfield by (auto; lia). unfold addedSlot.
    destruct (Hlive a Ha) as [k [_ [_ Hne]]].
    destruct (Z.eqb_spec a e); [contradiction|reflexivity]. }
  assert (HL6 : forall a, In a (elive d) -> W d3 (a + 6) = if a =? qz then e else W d (a + 6)).
  { intros a Ha. rewrite Hfield by (auto; lia). unfold addedSlot.
    destruct (Hlive a Ha) as [k [_ [_ Hne]]].
    destruct (Z.eqb_spec a e); [contradiction|reflexivity]. }
  assert (HL5 : forall a, In a (elive d) -> W d3 (a + 5) = W d (a + 5)).
  { intros a Ha. rewrite Hfield by (auto; lia). unfold addedSlot.
    destruct (Hlive a Ha) as [k [_ [_ Hne]]].
    destruct (Z.eqb_spec a e); [contradiction|reflexivity]. }
  assert (HL7 : forall a, In a (elive d) -> W d3 (a + 7) = W d (a + 7)).
  { intros a Ha. rewrite Hfield by (auto; lia). unfold addedSlot.
    destruct (Hlive a Ha) as [k [_ [_ Hne]]].
    destruct (Z.eqb_spec a e); [contradiction|reflexivity]. }
  assert (HLe : W d3 (e + 4) = 0 /\ W d3 (e + 5) = pz /\ W d3 (e + 6) = 0 /\ W d3 (e + 7) = qz).
  { rewrite !Hnew3 by lia. unfold addedSlot. rewrite Z.eqb_refl. repeat split; reflexivity. }
  constructor.
  - exact (edges_add_ok d OK f t ty Hroom Hf Ht Hty Hnew d3 place Hk3' Hl3' Hpl HW Hw3 Hch3).
  - eapply edges_add_linked with (f := f) (t := t) (ty := ty) (place := place)
      (pz := pz) (qz := qz); eassumption.
  - eapply add_elive with (f := f) (t := t) (ty := ty) (place := place); eassumption.
  - eapply add_liveEdges with (f := f) (t := t) (ty := ty) (place := place); eassumption.
  - eapply add_frame_hdr with (f := f) (t := t) (ty := ty) (place := place); eassumption.
  - exact Hold.
  - exact HL4.
  - exact HL6.
  - destruct (add_frame_new d OK f t ty Hroom d3 place Hpl HW) as [E1 [E2 E3]].
    destruct HLe as [L4 [_ [L6 _]]]. auto.
Qed.

End EdgeLink.

(** * The node map *)

Definition nid (n : TypedArray) : Z := W n 2.

(** The address of the [k]-th node record. *)
Definition naddr (n : TypedArray) (k : Z) : Z := 3 + cap n + 6 * k.

(** The records in use. *)
Definition nslots (n : TypedArray) : list Z := slotsOf (3 + cap n) 6 (cnt n).

Definition NMAX : Z := 178956970.

Lemma NMAX_eq : NodeTypeMap.MAX_CAPACITY = NMAX.
Proof. reflexivity. Qed.

Record NodesOK (n : TypedArray) : Prop := {
  no_kind : kind n = Uint32Array;
  no_cap : 2 <= cap n <= NMAX;
  no_len : TA.length n = 3 + 13 * cap n;
  no_words : forall i, 0 <= W n i < 4294967296;
  no_used : cnt n <= 2 * cap n;
  no_ids : 10 * nid n <= 7 * cap n;
  no_zero : forall k f, cnt n <= k < 2 * cap n -> 0 <= f < 6 -> W n (naddr n k + f) = 0;
  no_chains : exists owner,
    Chains n (fun a => In a (nslots n)) owner /\
    forall a, In a (nslots n) -> 0 <= owner a < cap n
}.

(** The record that [addressOf(node, type)] finds: the first one of the
    type on the chain of the node. *)
Definition firstOfType (n : TypedArray) (ty : Z) (l : list Z) : option Z :=
  find (fun b => W n (b + 1) =? ty) l.

Definition primary (n : TypedArray) (v ty a : Z) : Prop :=
  exists l, chain n (W n (3 + v)) l /\ firstOfType n ty l = Some a.

(** The records that [addressOf] finds in [n] are the ones it finds in [n'],
    moved by the growth of the table. *)
Definition kept (n n' : TypedArray) : Prop :=
  cap n <= cap n' /\
  forall v ty a, 0 <= v < cap n -> primary n v ty a -> primary n' v ty (a + (cap n' - cap n)).

Lemma kept_refl n : kept n n.
Proof.
  split; [apply Z.le_refl|]. intros v ty a _ H. now rewrite Z.sub_diag, Z.add_0_r.
Qed.

Lemma kept_trans n1 n2 n3 : kept n1 n2 -> kept n2 n3 -> kept n1 n3.
Proof.
  intros [C1 H1] [C2 H2]. split; [lia|]. intros v ty a Hv Hp.
  replace (a + (cap n3 - cap n1)) with (a + (cap n2 - cap n1) + (cap n3 - cap n2)) by lia.
  apply H2; [lia|]. apply H1; auto.
Qed.

Lemma kept_same n n' :
  cap n' = cap n ->
  (forall v ty a, 0 <= v < cap n -> primary n v ty a -> primary n' v ty a) -> kept n n'.
Proof.
  intros C H. split; [lia|]. intros v ty a Hv Hp. rewrite C, Z.sub_diag, Z.add_0_r. auto.
Qed.

(** [a] is a record of node [v] and type [ty]: it is on the chain of the
    bucket of [v] and holds the type. *)
Definition keyed (n : TypedArray) (v ty a : Z) : Prop :=
  exists l, chain n (W n (3 + v)) l /\ In a l /\ W n (a + 1) = ty.

Lemma in_nslots n a : In a (nslots n) <-> exists k, 0 <= k < cnt n /\ a = naddr n k.
Proof. unfold nslots, naddr. apply in_slotsOf. Qed.

Lemma addressOfFrom_find n a l ty fuel :
  chain n a l -> (length l <= fuel)%nat ->
  NodeTypeMap.addressOfFrom fuel n (oaddr a) ty = Return (firstOfType n ty l).
Proof.
  intros H. revert fuel. induction H as [|a l Ha H IH]; intros fuel Hlen.
  - destruct fuel; reflexivity.
  - unfold oaddr. destruct (Z.eqb_spec a 0); [contradiction|].
    unfold firstOfType. cbn [find].
    assert (E : NodeTypeMap.typeOf n a = W n (a + 1)) by reflexivity.
    destruct fuel as [|fuel]; cbn [NodeTypeMap.addressOfFrom]; rewrite E;
      destruct (W n (a + 1) =? ty); try reflexivity.
    + simpl in Hlen. lia.
    + change (NodeTypeMap.next n a) with (SharedTypeMap.next n a).
      rewrite next_oaddr. apply IH. simpl in Hlen. lia.
Qed.

Section NodeFacts.

Variable n : TypedArray.
Hypothesis OK : NodesOK n.

Lemma nslots_bounds a :
  In a (nslots n) -> 3 + cap n <= a /\ a + 6 <= TA.length n.
Proof.
  intros H. apply in_nslots in H as [k [Hk ->]].
  pose proof (no_cap n OK). pose proof (no_used n OK). rewrite (no_len n OK).
  unfold naddr. lia.
Qed.

Lemma node_chain v : 0 <= v < cap n ->
  exists l, chain n (W n (3 + v)) l /\ NoDup l /\ (forall a, In a l -> In a (nslots n)) /\
            (length l < SharedTypeMap.fuel n)%nat.
Proof.
  intros Hv. destruct (no_chains n OK) as [owner [Hch Hown]].
  destruct (Hch v Hv) as [l [Hl [Hnd Hin]]].
  exists l. split; [auto|]. split; [auto|].
  assert (Hsub : forall a, In a l -> In a (nslots n)) by (intros a Ha; apply Hin in Ha; tauto).
  split; [auto|].
  assert (S (length l) <= SharedTypeMap.fuel n)%nat; [|lia].
  apply (chain_fuel n n l (fun a => In a (nslots n))); auto.
  intros a Ha. apply nslots_bounds in Ha. pose proof (no_cap n OK). lia.
Qed.

Lemma addressOf_spec v ty : 0 <= v < cap n ->
  exists l, chain n (W n (3 + v)) l /\ (forall a, In a l -> In a (nslots n)) /\
    NodeTypeMap.addressOf n v ty = Return (firstOfType n ty l).
Proof.
  intros Hv. destruct (node_chain v Hv) as [l [Hl [Hnd [Hsub Hfuel]]]].
  exists l. split; [auto|]. split; [auto|].
  unfold NodeTypeMap.addressOf.
  change (NodeTypeMap.head n v) with (SharedTypeMap.head NodeTypeMap.layout n v).
  rewrite head_oaddr. change (HEADER_SIZE NodeTypeMap.layout) with 3.
  apply addressOfFrom_find; auto. lia.
Qed.

Lemma addressOf_primary v ty a : 0 <= v < cap n ->
  NodeTypeMap.addressOf n v ty = Return (Some a) <-> primary n v ty a.
Proof.
  intros Hv. destruct (addressOf_spec v ty Hv) as [l [Hl [Hsub E]]]. rewrite E.
  split.
  - intros H. exists l. split; [auto|congruence].
  - intros [l' [Hl' H']]. rewrite (chain_fun _ _ _ _ Hl Hl'). congruence.
Qed.

Lemma addressOf_none v ty : 0 <= v < cap n ->
  NodeTypeMap.addressOf n v ty = Return None <-> (forall a, ~ primary n v ty a).
Proof.
  intros Hv. destruct (addressOf_spec v ty Hv) as [l [Hl [Hsub E]]]. rewrite E.
  split.
  - intros H a [l' [Hl' H']]. rewrite (chain_fun _ _ _ _ Hl' Hl) in H'. congruence.
  - intros H. destruct (firstOfType n ty l) as [a|] eqn:F; [|reflexivity].
    exfalso. apply (H a). exists l. auto.
Qed.

Lemma primary_fun v ty a b : primary n v ty a -> primary n v ty b -> a = b.
Proof.
  intros [l [Hl H]] [l' [Hl' H']]. rewrite (chain_fun _ _ _ _ Hl Hl') in H. congruence.
Qed.

Lemma primary_record v ty a : 0 <= v < cap n ->
  primary n v ty a -> In a (nslots n) /\ W n (a + 1) = ty.
Proof.
  intros Hv [l [Hl H]]. destruct (node_chain v Hv) as [l' [Hl' [_ [Hsub _]]]].
  rewrite (chain_fun _ _ _ _ Hl Hl') in H. unfold firstOfType in H.
  apply find_some in H as [H1 H2]. split; [auto|]. now apply Z.eqb_eq.
Qed.

Lemma primary_keyed v ty a : primary n v ty a -> keyed n v ty a.
Proof.
  intros [l [Hl H]]. unfold firstOfType in H. apply find_some in H as [H1 H2].
  exists l. split; [auto|]. split; [auto|]. now apply Z.eqb_eq.
Qed.

End NodeFacts.

(** ** Stores into the edge pointers of node records *)

(** [n'] differs from [n] in the pointer fields of records only. *)
Definition fieldsOnly (n n' : TypedArray) : Prop :=
  kind n' = kind n /\ TA.length n' = TA.length n /\
  (forall i, 0 <= W n' i < 4294967296) /\
  forall j, (forall a g, In a (nslots n) -> 2 <= g < 6 -> j <> a + g) -> W n' j = W n j.

Lemma firstOfType_frame n n' ty l :
  (forall a, In a l -> W n' (a + 1) = W n (a + 1)) ->
  firstOfType n' ty l = firstOfType n ty l.
Proof.
  unfold firstOfType. induction l as [|x l IH]; intros H; cbn [find]; auto.
  rewrite (H x) by (left; auto). destruct (W n (x + 1) =? ty); auto.
  apply IH. intros a Ha. apply H. right; auto.
Qed.

Section NodeFields.

Variables n n' : TypedArray.
Hypothesis OK : NodesOK n.
Hypothesis HF : fieldsOnly n n'.

Lemma fields_hdr : cap n' = cap n /\ cnt n' = cnt n /\ nid n' = nid n.
Proof.
  destruct HF as [_ [_ [_ Hfr]]]. pose proof (no_cap n OK) as Hc.
  unfold cap, cnt, nid. rewrite !Hfr; auto;
    intros a g Ha Hg; apply (nslots_bounds n OK) in Ha; lia.
Qed.

Lemma fields_table h : 0 <= h < cap n -> W n' (3 + h) = W n (3 + h).
Proof.
  intros Hh. destruct HF as [_ [_ [_ Hfr]]]. apply Hfr.
  intros a g Ha Hg. apply (nslots_bounds n OK) in Ha. lia.
Qed.

Lemma fields_record a r : In a (nslots n) -> 0 <= r < 2 -> W n' (a + r) = W n (a + r).
Proof.
  intros Ha Hr. destruct HF as [_ [_ [_ Hfr]]]. apply Hfr.
  intros b g Hb Hg. apply in_nslots in Ha as [k [Hk ->]]. apply in_nslots in Hb as [k' [Hk' ->]].
  unfold naddr. lia.
Qed.

Lemma fields_nslots : nslots n' = nslots n.
Proof. destruct fields_hdr as [E1 [E2 _]]. unfold nslots. now rewrite E1, E2. Qed.

Lemma fields_chain a l :
  (forall x, In x l -> In x (nslots n)) -> chain n a l -> chain n' a l.
Proof.
  intros Hsub. apply chain_frame. intros x Hx.
  rewrite <- (Z.add_0_r x). apply fields_record; auto. lia.
Qed.

Lemma fields_primary v ty a : 0 <= v < cap n -> primary n' v ty a <-> primary n v ty a.
Proof.
  intros Hv. destruct (node_chain n OK v Hv) as [l [Hl [_ [Hsub _]]]].
  assert (Hl' : chain n' (W n' (3 + v)) l).
  { rewrite fields_table by auto. apply fields_chain; auto. }
  assert (E : firstOfType n' ty l = firstOfType n ty l).
  { apply firstOfType_frame. intros x Hx. apply fields_record; auto. lia. }
  split; intros [l0 [Hl0 H0]].
  - rewrite (chain_fun _ _ _ _ Hl0 Hl') in H0. exists l. split; auto. congruence.
  - rewrite (chain_fun _ _ _ _ Hl0 Hl) in H0. exists l. split; auto. congruence.
Qed.


Lemma fields_ok : NodesOK n'.
Proof.
  destruct fields_hdr as [E1 [E2 E3]]. destruct HF as [Hk [Hl [Hw Hfr]]].
  pose proof (no_cap n OK) as Hc.
  constructor.
  - rewrite Hk. apply (no_kind n OK).
  - now rewrite E1.
  - rewrite Hl, E1. apply (no_len n OK).
  - exact Hw.
  - rewrite E1, E2. apply (no_used n OK).
  - rewrite E1, E3. apply (no_ids n OK).
  - intros k f Hk' Hf. rewrite E1, E2 in Hk'. unfold naddr. rewrite E1.
    rewrite Hfr.
    + apply (no_zero n OK); auto.
    + intros a g Ha Hg. apply in_nslots in Ha as [k' [Hk'' ->]]. unfold naddr. lia.
  - destruct (no_chains n OK) as [owner [Hch Hown]]. exists owner.
    rewrite fields_nslots. split; [|rewrite E1; exact Hown].
    apply (Chains_ext n n' _ _ owner owner Hch E1); auto.
    + intros h Hh. apply fields_table; auto.
    + intros a Ha. rewrite <- (Z.add_0_r a). apply fields_record; auto. lia.
    + intros a. reflexivity.
Qed.

End NodeFields.

(** The stores of [linkIn], [linkOut], [unlinkIn] and [unlinkOut]. *)
Section NodeLinks.

Variable n : TypedArray.
Hypothesis OK : NodesOK n.
Variable node : Z.
Hypothesis Hnode : In node (nslots n).
Variable e : Z.
Hypothesis He : 0 < e < 4294967296.

Lemma node_inb g : 0 <= g < 6 -> 0 <= node + g < TA.length n.
Proof. intros Hg. pose proof (nslots_bounds n OK node Hnode). pose proof (no_cap n OK). lia. Qed.

Lemma linkIn_stores :
  snd (NodeTypeMap.linkIn n node e) = oaddr (W n (node + 4)) /\
  kind (fst (NodeTypeMap.linkIn n node e)) = kind n /\
  TA.length (fst (NodeTypeMap.linkIn n node e)) = TA.length n /\
  forall j, W (fst (NodeTypeMap.linkIn n node e)) j =
    if j =? node + 4 then e
    else if (W n (node + 2) =? 0) && (j =? node + 2) then e else W n j.
Proof.
  pose proof (no_kind n OK) as Hk.
  pose proof (node_inb 2 ltac:(lia)). pose proof (node_inb 4 ltac:(lia)).
  unfold NodeTypeMap.linkIn, NodeTypeMap.firstIn, NodeTypeMap.lastIn,
    NodeTypeMap._FIRST_IN, NodeTypeMap._LAST_IN. rewrite !orNull_get. cbn [fst snd].
  split; [reflexivity|].
  destruct (Z.eqb_spec (W n (node + 2)) 0); cbn [andb];
    rewrite ?TA_kind_set, ?TA_length_set; repeat split; auto; intros j; repeat Wset; reflexivity.
Qed.

Lemma linkOut_stores :
  snd (NodeTypeMap.linkOut n node e) = oaddr (W n (node + 5)) /\
  kind (fst (NodeTypeMap.linkOut n node e)) = kind n /\
  TA.length (fst (NodeTypeMap.linkOut n node e)) = TA.length n /\
  forall j, W (fst (NodeTypeMap.linkOut n node e)) j =
    if j =? node + 5 then e
    else if (W n (node + 3) =? 0) && (j =? node + 3) then e else W n j.
Proof.
  pose proof (no_kind n OK) as Hk.
  pose proof (node_inb 3 ltac:(lia)). pose proof (node_inb 5 ltac:(lia)).
  unfold NodeTypeMap.linkOut, NodeTypeMap.firstOut, NodeTypeMap.lastOut,
    NodeTypeMap._FIRST_OUT, NodeTypeMap._LAST_OUT. rewrite !orNull_get. cbn [fst snd].
  split; [reflexivity|].
  destruct (Z.eqb_spec (W n (node + 3)) 0); cbn [andb];
    rewrite ?TA_kind_set, ?TA_length_set; repeat split; auto; intros j; repeat Wset; reflexivity.
Qed.

Lemma sameAddress_oaddr x : sameAddress (oaddr x) (Some e) = (x =? e).
Proof.
  unfold oaddr, sameAddress. destruct (Z.eqb_spec x 0) as [->|]; [|reflexivity].
  destruct (Z.eqb_spec 0 e); [lia|reflexivity].
Qed.

Lemma orZero_oaddr x : orZero (oaddr x) = x.
Proof. unfold oaddr. destruct (Z.eqb_spec x 0); simpl; auto. Qed.

Lemma unlinkIn_node_stores pv nx :
  0 <= pv < 4294967296 -> 0 <= nx < 4294967296 ->
  kind (NodeTypeMap.unlinkIn n node e (oaddr pv) (oaddr nx)) = kind n /\
  TA.length (NodeTypeMap.unlinkIn n node e (oaddr pv) (oaddr nx)) = TA.length n /\
  forall j, W (NodeTypeMap.unlinkIn n node e (oaddr pv) (oaddr nx)) j =
    if (W n (node + 2) =? e) && (j =? node + 2) then nx
    else if (W n (node + 4) =? e) && (j =? node + 4) then pv else W n j.
Proof.
  intros Hpv Hnx. pose proof (no_kind n OK) as Hk.
  pose proof (node_inb 2 ltac:(lia)). pose proof (node_inb 4 ltac:(lia)).
  unfold NodeTypeMap.unlinkIn, NodeTypeMap.firstIn, NodeTypeMap.lastIn,
    NodeTypeMap._FIRST_IN, NodeTypeMap._LAST_IN.
  rewrite !orNull_get. fold (oaddr (W n (node + 2))). fold (oaddr (W n (node + 4))).
  rewrite !sameAddress_oaddr, !orZero_oaddr.
  destruct (Z.eqb_spec (W n (node + 4)) e); destruct (Z.eqb_spec (W n (node + 2)) e);
    cbn [andb]; rewrite ?TA_kind_set, ?TA_length_set; repeat split; auto;
    intros j; repeat Wset; ifs.
Qed.

Lemma unlinkOut_node_stores pv nx :
  0 <= pv < 4294967296 -> 0 <= nx < 4294967296 ->
  kind (NodeTypeMap.unlinkOut n node e (oaddr pv) (oaddr nx)) = kind n /\
  TA.length (NodeTypeMap.unlinkOut n node e (oaddr pv) (oaddr nx)) = TA.length n /\
  forall j, W (NodeTypeMap.unlinkOut n node e (oaddr pv) (oaddr nx)) j =
    if (W n (node + 3) =? e) && (j =? node + 3) then nx
    else if (W n (node + 5) =? e) && (j =? node + 5) then pv else W n j.
Proof.
  intros Hpv Hnx. pose proof (no_kind n OK) as Hk.
  pose proof (node_inb 3 ltac:(lia)). pose proof (node_inb 5 ltac:(lia)).
  unfold NodeTypeMap.unlinkOut, NodeTypeMap.firstOut, NodeTypeMap.lastOut,
    NodeTypeMap._FIRST_OUT, NodeTypeMap._LAST_OUT.
  rewrite !orNull_get. fold (oaddr (W n (node + 3))). fold (oaddr (W n (node + 5))).
  rewrite !sameAddress_oaddr, !orZero_oaddr.
  destruct (Z.eqb_spec (W n (node + 5)) e); destruct (Z.eqb_spec (W n (node + 3)) e);
    cbn [andb]; rewrite ?TA_kind_set, ?TA_length_set; repeat split; auto;
    intros j; repeat Wset; ifs.
Qed.

End NodeLinks.

(** ** Adding a node record *)

Lemma find_snoc {A} (p : A -> bool) l x :
  find p (l ++ [x]) = match find p l with Some y => Some y | None => if p x then Some x else None end.
Proof.
  induction l as [|y l IH]; cbn [app find]; [reflexivity|].
  destruct (p y); auto.
Qed.

Section NodeAdd.

Variable n : TypedArray.
Hypothesis OK : NodesOK n.
Variables v ty : Z.
Hypothesis Hv : 0 <= v < nid n.
Hypothesis Hroom : cnt n < 2 * cap n.
Hypothesis Hty : 0 <= ty < 4294967296.

Let a := naddr n (cnt n).

(** The node map after [add]. *)
Record NodeAdded (n' : TypedArray) : Prop := {
  na_ok : NodesOK n';
  na_hdr : cap n' = cap n /\ cnt n' = cnt n + 1 /\ nid n' = nid n;
  na_nslots : nslots n' = nslots n ++ [a];
  na_old : forall b g, In b (nslots n) -> 1 <= g < 6 -> W n' (b + g) = W n (b + g);
  na_new : W n' (a + 1) = ty /\ forall g, 2 <= g < 6 -> W n' (a + g) = 0;
  na_keep : forall v' ty' b, 0 <= v' < cap n -> primary n v' ty' b -> primary n' v' ty' b;
  na_back : forall v' ty' b, 0 <= v' < cap n -> primary n' v' ty' b ->
            primary n v' ty' b \/ (b = a /\ v' = v /\ ty' = ty);
  na_first : (forall b, ~ primary n v ty b) -> primary n' v ty a;
  na_keyed : keyed n' v ty a;
  na_keyed_keep : forall v' ty' b, 0 <= v' < cap n -> keyed n v' ty' b -> keyed n' v' ty' b
}.

Lemma nodes_add : exists n', NodeTypeMap.add n v ty = Return (n', a) /\ NodeAdded n'.
Proof.
  pose proof (no_cap n OK) as Hc. pose proof (no_len n OK) as Hlen.
  pose proof (no_kind n OK) as Hk. pose proof (no_words n OK) as Hw.
  pose proof (no_ids n OK) as Hids. unfold NMAX in Hc.
  assert (Hcnt0 : 0 <= cnt n) by apply Hw.
  assert (Hvc : 0 <= v < cap n) by lia.
  destruct (no_chains n OK) as [owner [Hch Hown]].
  destruct (Hch v Hvc) as [l [Hl [Hnd Hin]]].
  assert (Ha : a = 3 + cap n + 6 * cnt n) by reflexivity.
  assert (Hmem : forall b, In b (nslots n) -> exists k, 0 <= k < cnt n /\ b = 3 + cap n + 6 * k).
  { intros b Hb. apply in_nslots in Hb. exact Hb. }
  destruct (link_stores NodeTypeMap.layout eq_refl n Hk ltac:(lia) ltac:(lia) ltac:(lia)
              v a ty l Hvc Hl Hnd) as [n' [Hlink [Hk' [Hl' HW]]]]; try lia.
  { intros b Hb. apply Hin in Hb as [Hb _]. destruct (Hmem b Hb) as [k [Hk0 ->]]. lia. }
  exists n'. split.
  { unfold NodeTypeMap.add. change (NodeTypeMap.nextId n) with (nid n).
    destruct (Z.geb_spec v 0); [|lia]. destruct (Z.ltb_spec v (nid n)); [|lia].
    cbn [andb negb]. cbv zeta.
    replace (SharedTypeMap.getNextAddress NodeTypeMap.layout n) with a
      by (unfold SharedTypeMap.getNextAddress; change (SharedTypeMap.capacity n) with (cap n);
          change (SharedTypeMap.count n) with (cnt n); cbn [HEADER_SIZE ITEM_SIZE NodeTypeMap.layout];
          lia).
    rewrite Hlink. reflexivity. }
  set (place := linkPlace n v l) in *.
  assert (Hpl : (place = 3 + v /\ l = []) \/
                (In place l /\ l <> [] /\ place = last l 0)).
  { unfold place, linkPlace. destruct l as [|x l0]; [left; auto|right].
    split; [apply last_in; discriminate|split; [discriminate|reflexivity]]. }
  assert (Hplk : (3 <= place < 3 + cap n) \/
                 (exists k, 0 <= k < cnt n /\ place = 3 + cap n + 6 * k)).
  { destruct Hpl as [[-> _]|[Hp _]]; [left; lia|right].
    apply Hin in Hp as [Hp _]. apply Hmem; auto. }
  assert (Hhdr : cap n' = cap n /\ cnt n' = cnt n + 1 /\ nid n' = nid n).
  { unfold cap, cnt, nid. rewrite !HW.
    clear - Hplk Ha Hc Hcnt0. destruct Hplk as [?|[k [? ?]]]; repeat split; ifs. }
  destruct Hhdr as [E1 [E2 E3]].
  assert (Hold : forall b g, In b (nslots n) -> 0 <= g < 6 -> b + g <> place ->
            W n' (b + g) = W n (b + g)).
  { intros b g Hb Hg Hne. rewrite HW. destruct (Hmem b Hb) as [k [Hk0 ->]].
    clear - Hne Hk0 Hg Ha Hc. ifs. }
  assert (Hold1 : forall b g, In b (nslots n) -> 1 <= g < 6 -> W n' (b + g) = W n (b + g)).
  { intros b g Hb Hg. apply Hold; auto; [lia|].
    destruct (Hmem b Hb) as [k [Hk0 ->]].
    clear - Hplk Hk0 Hg Hc. destruct Hplk as [?|[k' [? ->]]]; lia. }
  assert (Hzero : forall g, 0 <= g < 6 -> W n (a + g) = 0).
  { intros g Hg. apply (no_zero n OK); auto. lia. }
  assert (Hnew : W n' a = 0 /\ W n' (a + 1) = ty /\ forall g, 2 <= g < 6 -> W n' (a + g) = 0).
  { split; [|split].
    - pose proof (Hzero 0 ltac:(lia)) as Hz0. rewrite Z.add_0_r in Hz0. rewrite HW, Hz0.
      clear - Hplk Ha Hc Hcnt0. destruct Hplk as [?|[k [? ?]]]; ifs.
    - rewrite HW. clear - Hplk Ha Hc Hcnt0. destruct Hplk as [?|[k [? ?]]]; ifs.
    - intros g Hg. rewrite HW, Hzero by lia.
      clear - Hplk Ha Hc Hcnt0 Hg. destruct Hplk as [?|[k [? ?]]]; ifs. }
  destruct Hnew as [N0 [N1 N2]].
  assert (Hplace : W n' place = a).
  { rewrite HW. clear - Hplk Ha Hc Hcnt0. destruct Hplk as [?|[k [? ?]]]; ifs. }
  assert (Htab : forall h, 0 <= h < cap n -> 3 + h <> place -> W n' (3 + h) = W n (3 + h)).
  { intros h Hh Hne. rewrite HW. clear - Hh Hne Ha Hc Hcnt0. ifs. }
  assert (Hslots : nslots n' = nslots n ++ [a]).
  { unfold nslots. rewrite E1, E2. apply slotsOf_snoc. lia. }
  assert (Hnot : ~ In a (nslots n)).
  { intros Hi. destruct (Hmem a Hi) as [k [Hk0 E]]. lia. }
  assert (Hw' : forall i, 0 <= W n' i < 4294967296).
  { intros i. rewrite HW. pose proof (Hw i). clear - H Ha Hc Hcnt0 Hroom Hty. ifs. }
  (* the chain of the bucket of [v] *)
  assert (Hlv : chain n' (W n' (3 + v)) (l ++ [a])).
  { destruct Hpl as [[Ep ->]|[Hp [Hne Ep]]].
    - cbn [app]. rewrite <- Ep, Hplace. constructor; [lia|]. rewrite N0. constructor.
    - rewrite Htab by (auto; clear - Hplk Hp Hin Hmem Hvc;
                       apply Hin in Hp as [Hp _]; destruct (Hmem _ Hp) as [k [? ->]]; lia).
      apply (chain_snoc n n' _ l a Hl Hne); auto; try lia.
      + intros Hi. apply Hnot. apply Hin in Hi. tauto.
      + rewrite <- Ep. exact Hplace.
      + intros x Hx Hxl. rewrite <- (Z.add_0_r x).
        apply Hold; [apply Hin in Hx; tauto | lia | rewrite Z.add_0_r; congruence]. }
  assert (Hlo : forall v' l', 0 <= v' < cap n -> v' <> v ->
            chain n (W n (3 + v')) l' -> (forall x, In x l' -> In x (nslots n) /\ owner x = v') ->
            chain n' (W n' (3 + v')) l').
  { intros v' l' Hv' Hne Hl0 Hin0.
    assert (Hpn : forall x, In x l' -> x <> place).
    { intros x Hx E. destruct Hpl as [[Ep _]|[Hp _]].
      - destruct (Hin0 x Hx) as [Hx' _]. destruct (Hmem x Hx') as [k [? ->]]. lia.
      - destruct (Hin0 x Hx) as [_ Ho]. apply Hin in Hp as [_ Ho']. congruence. }
    rewrite Htab; auto.
    - apply (chain_frame n n'); auto. intros x Hx. rewrite <- (Z.add_0_r x).
      apply Hold; [apply Hin0; auto | lia | rewrite Z.add_0_r; auto].
    - destruct Hpl as [[Ep _]|[Hp _]]; [lia|].
      apply Hin in Hp as [Hp _]. destruct (Hmem _ Hp) as [k [? ->]]. lia. }
  assert (Hty' : forall ty' l', (forall x, In x l' -> In x (nslots n)) ->
            firstOfType n' ty' l' = firstOfType n ty' l').
  { intros ty' l' Hsub. apply firstOfType_frame. intros x Hx. apply Hold1; auto. lia. }
  assert (Hfv : forall ty', firstOfType n' ty' (l ++ [a]) =
            match firstOfType n ty' l with
            | Some y => Some y
            | None => if ty =? ty' then Some a else None
            end).
  { intros ty'. unfold firstOfType at 1. rewrite find_snoc. fold (firstOfType n' ty' l).
    rewrite Hty' by (intros x Hx; apply Hin in Hx; tauto). rewrite N1. reflexivity. }
  constructor.
  - (* NodesOK *)
    constructor.
    + congruence.
    + now rewrite E1.
    + rewrite Hl', E1. exact Hlen.
    + exact Hw'.
    + rewrite E1, E2. lia.
    + rewrite E1, E3. exact Hids.
    + intros k f Hk0 Hf. rewrite E1, E2 in Hk0. unfold naddr. rewrite E1.
      rewrite HW. pose proof (no_zero n OK k f ltac:(lia) Hf) as Hz. unfold naddr in Hz.
      rewrite Hz. clear - Hplk Hk0 Hf Ha Hc Hcnt0. destruct Hplk as [?|[k' [? ?]]]; ifs.
    + exists (fun x => if x =? a then v else owner x). rewrite Hslots. split.
      * refine (Chains_link n n' _ owner v a l _ _ Hch Hvc Hl Hnd Hin _ _ N0 E1 Hplace _ _ _ _).
        -- intros b Hb. destruct (Hmem b Hb) as [k [? ->]]. lia.
        -- lia.
        -- intros j Hj [Ht|Hm].
           ++ replace j with (3 + (j - 3)) by lia. apply Htab; lia.
           ++ rewrite <- (Z.add_0_r j). apply Hold; [auto | lia | now rewrite Z.add_0_r].
        -- intros b. rewrite in_app_iff. simpl. intuition congruence.
        -- now rewrite Z.eqb_refl.
        -- intros b Hb. destruct (Z.eqb_spec b a); [subst; contradiction|reflexivity].
      * intros b Hb. rewrite E1. apply in_app_iff in Hb as [Hb|[<-|[]]].
        -- destruct (Z.eqb_spec b a); [lia|auto].
        -- rewrite Z.eqb_refl. lia.
  - auto.
  - exact Hslots.
  - exact Hold1.
  - auto.
  - intros v' ty' b Hv' [l0 [Hl0 H0]].
    destruct (Z.eq_dec v' v) as [->|Hne].
    + rewrite (chain_fun _ _ _ _ Hl0 Hl) in H0. exists (l ++ [a]). split; [auto|].
      rewrite Hfv, H0. reflexivity.
    + destruct (Hch v' Hv') as [l' [Hl'0 [_ Hin']]].
      rewrite (chain_fun _ _ _ _ Hl0 Hl'0) in H0. exists l'. split.
      * apply Hlo; auto. intros x Hx. apply Hin'; auto.
      * rewrite Hty'; auto. intros x Hx. apply Hin' in Hx. tauto.
  - intros v' ty' b Hv' [l0 [Hl0 H0]].
    destruct (Z.eq_dec v' v) as [->|Hne].
    + rewrite (chain_fun _ _ _ _ Hl0 Hlv), Hfv in H0.
      destruct (firstOfType n ty' l) as [y|] eqn:F.
      * left. exists l. split; auto. congruence.
      * destruct (Z.eqb_spec ty ty'); [|discriminate]. right. split; [congruence|auto].
    + destruct (Hch v' Hv') as [l' [Hl'0 [_ Hin']]].
      assert (Hl'' : chain n' (W n' (3 + v')) l').
      { apply Hlo; auto. intros x Hx. apply Hin'; auto. }
      rewrite (chain_fun _ _ _ _ Hl0 Hl'') in H0. left. exists l'. split; auto.
      rewrite <- Hty'; auto. intros x Hx. apply Hin' in Hx. tauto.
  - intros Hnone. exists (l ++ [a]). split; [auto|]. rewrite Hfv.
    destruct (firstOfType n ty l) as [y|] eqn:F.
    + exfalso. apply (Hnone y). exists l. auto.
    + now rewrite Z.eqb_refl.
  - exists (l ++ [a]). split; [auto|]. split; [|exact N1].
    apply in_or_app. right. left. reflexivity.
  - intros v' ty' b Hv' [l0 [Hl0 [Hb Et]]].
    destruct (Z.eq_dec v' v) as [->|Hne].
    + rewrite (chain_fun _ _ _ _ Hl0 Hl) in Hb. exists (l ++ [a]). split; [auto|].
      split; [apply in_or_app; auto|]. rewrite Hold1; auto; [|lia].
      apply Hin in Hb. tauto.
    + destruct (Hch v' Hv') as [l' [Hl'0 [_ Hin']]].
      rewrite (chain_fun _ _ _ _ Hl0 Hl'0) in Hb. exists l'. split.
      * apply Hlo; auto. intros x Hx. apply Hin'; auto.
      * split; [auto|]. rewrite Hold1; auto; [|lia]. apply Hin' in Hb. tauto.
Qed.

End NodeAdd.

(** * Growing the node map *)

(** ** Fresh arrays, copies and rebased links *)

Lemma W_zeros c len j : W (TA.zeros c len) j = 0.
Proof.
  unfold W, TA.get, TA.zeros. cbn [elems].
  destruct (j <? 0); [reflexivity|].
  destruct (nth_error (repeat 0 (Z.to_nat len)) (Z.to_nat j)) as [x|] eqn:E; [|reflexivity].
  apply nth_error_In in E. apply repeat_spec in E. subst. reflexivity.
Qed.

Lemma length_zeros c len : 0 <= len -> TA.length (TA.zeros c len) = len.
Proof.
  intros H. unfold TA.length, TA.zeros. cbn [elems]. rewrite repeat_length. lia.
Qed.

Lemma W_nth d j : 0 <= j -> W d j = nth (Z.to_nat j) (elems d) 0.
Proof.
  intros Hj. unfold W, TA.get. destruct (Z.ltb_spec j 0); [lia|].
  destruct (nth_error (elems d) (Z.to_nat j)) as [x|] eqn:E.
  - symmetry. apply nth_error_nth. exact E.
  - apply nth_error_None in E. rewrite nth_overflow; auto.
Qed.

(** The word of a slice. *)
Lemma slice_length d b e :
  0 <= b <= e -> e <= TA.length d -> Z.of_nat (length (TA.slice d b e)) = e - b.
Proof.
  intros Hb He. unfold TA.slice.
  rewrite !Z.max_r, !Z.min_l by lia.
  rewrite length_firstn, length_skipn. unfold TA.length in *. lia.
Qed.

Lemma slice_nth d b e i :
  0 <= b <= e -> e <= TA.length d -> 0 <= i < e - b ->
  nth (Z.to_nat i) (TA.slice d b e) 0 = W d (b + i).
Proof.
  intros Hb He Hi. unfold TA.slice.
  rewrite !Z.max_r, !Z.min_l by lia.
  rewrite nth_firstn. destruct (Nat.ltb_spec (Z.to_nat i) (Z.to_nat (e - b))); [|lia].
  rewrite nth_skipn, W_nth by lia. f_equal. lia.
Qed.

Lemma kind_blit a off src : kind (TA.blit a off src) = kind a.
Proof.
  revert a off. induction src as [|v src IH]; intros a off; cbn [TA.blit]; auto.
  rewrite IH. apply TA_kind_set.
Qed.

Lemma length_blit a off src : TA.length (TA.blit a off src) = TA.length a.
Proof.
  revert a off. induction src as [|v src IH]; intros a off; cbn [TA.blit]; auto.
  rewrite IH. apply TA_length_set.
Qed.

Lemma W_blit a off src j :
  kind a = Uint32Array -> 0 <= off -> off + Z.of_nat (length src) <= TA.length a ->
  (forall v, In v src -> 0 <= v < 4294967296) ->
  W (TA.blit a off src) j =
    if (off <=? j) && (j <? off + Z.of_nat (length src))
    then nth (Z.to_nat (j - off)) src 0 else W a j.
Proof.
  revert a off. induction src as [|v src IH]; intros a off Hk Hoff Hlen Hv.
  - cbn [TA.blit length]. destruct (Z.leb_spec off j); destruct (Z.ltb_spec j (off + Z.of_nat 0));
      cbn [andb]; auto; lia.
  - cbn [TA.blit]. cbn [length] in *. rewrite Nat2Z.inj_succ in *.
    rewrite IH; rewrite ?TA_kind_set, ?TA_length_set; auto; try lia.
    2:{ intros x Hx. apply Hv. right; auto. }
    rewrite W_set32 by (auto; try lia; apply Hv; left; auto).
    destruct (Z.eq_dec j off) as [->|Hne].
    + rewrite Z.sub_diag. cbn [Z.to_nat nth]. rewrite Z.eqb_refl.
      destruct (Z.leb_spec (off + 1) off); [lia|]. cbn [andb].
      destruct (Z.leb_spec off off); [|lia]. destruct (Z.ltb_spec off (off + Z.succ (Z.of_nat (length src)))); [|lia].
      reflexivity.
    + destruct (Z.eqb_spec j off); [contradiction|].
      destruct (Z.leb_spec (off + 1) j); destruct (Z.leb_spec off j); try lia;
        destruct (Z.ltb_spec j (off + 1 + Z.of_nat (length src)));
        destruct (Z.ltb_spec j (off + Z.succ (Z.of_nat (length src)))); try lia;
        cbn [andb]; auto.
      replace (Z.to_nat (j - off)) with (S (Z.to_nat (j - (off + 1)))) by lia.
      reflexivity.
Qed.

(** [view.set(data.subarray(b, e))] on the view at [off]. *)
Lemma W_blit_slice a off d b e j :
  kind a = Uint32Array -> 0 <= off -> 0 <= b <= e -> e <= TA.length d ->
  off + (e - b) <= TA.length a -> (forall i, 0 <= W d i < 4294967296) ->
  W (TA.blit a off (TA.slice d b e)) j =
    if (off <=? j) && (j <? off + (e - b)) then W d (b + (j - off)) else W a j.
Proof.
  intros Hk Hoff Hb He Hfit Hw.
  pose proof (slice_length d b e Hb He) as Hlen.
  rewrite W_blit; auto; try lia.
  - rewrite Hlen.
    destruct (Z.leb_spec off j); destruct (Z.ltb_spec j (off + (e - b))); cbn [andb]; auto.
    rewrite <- (Z2Nat.id (j - off)) at 2 by lia.
    rewrite Z2Nat.id by lia. apply slice_nth; auto. lia.
  - intros v Hv. apply In_nth with (d := 0) in Hv as [i [Hi <-]].
    rewrite <- (Nat2Z.id i). rewrite slice_nth; auto; lia.
Qed.

Lemma kind_rebase turns a i step delta : kind (SharedTypeMap.rebase turns a i step delta) = kind a.
Proof.
  revert a i. induction turns as [|t IH]; intros a i; cbn [SharedTypeMap.rebase]; auto.
  rewrite IH. destruct (orNull (TA.get a i)); auto.
  unfold TA.add. destruct (TA.get a i); auto. apply TA_kind_set.
Qed.

Lemma length_rebase turns a i step delta :
  TA.length (SharedTypeMap.rebase turns a i step delta) = TA.length a.
Proof.
  revert a i. induction turns as [|t IH]; intros a i; cbn [SharedTypeMap.rebase]; auto.
  rewrite IH. destruct (orNull (TA.get a i)); auto.
  unfold TA.add. destruct (TA.get a i); auto. apply TA_length_set.
Qed.

(** The addresses [i, i + step, ...] that a rebase visits. *)
Definition onGrid (i step turns j : Z) : bool :=
  (i <=? j) && (j <? i + step * turns) && ((j - i) mod step =? 0).

Lemma W_rebase turns a i step delta j :
  kind a = Uint32Array -> 0 <= i -> 0 < step -> 0 <= delta ->
  i + step * Z.of_nat turns <= TA.length a + step - 1 ->
  (forall m, 0 <= m < Z.of_nat turns -> 0 <= W a (i + step * m) /\
                                         W a (i + step * m) + delta < 4294967296) ->
  W (SharedTypeMap.rebase turns a i step delta) j =
    if onGrid i step (Z.of_nat turns) j && negb (W a j =? 0) then W a j + delta else W a j.
Proof.
  revert a i. induction turns as [|t IH]; intros a i Hk Hi Hstep Hd Hfit Hw.
  - cbn [SharedTypeMap.rebase]. unfold onGrid.
    destruct (Z.leb_spec i j); destruct (Z.ltb_spec j (i + step * Z.of_nat 0)); cbn [andb]; auto; lia.
  - cbn [SharedTypeMap.rebase]. rewrite Nat2Z.inj_succ in *.
    set (a1 := match orNull (TA.get a i) with Some _ => TA.add a i delta | None => a end).
    assert (Hin : 0 <= i < TA.length a) by nia.
    assert (HW1 : forall x, W a1 x = if (x =? i) && negb (W a i =? 0) then W a i + delta else W a x).
    { intros x. unfold a1. rewrite orNull_get.
      destruct (Z.eqb_spec (W a i) 0) as [E0|E0]; cbn [negb].
      - rewrite andb_false_r. reflexivity.
      - rewrite TA_add_set by lia. rewrite andb_true_r.
        pose proof (Hw 0 ltac:(lia)) as H0. rewrite Z.mul_0_r, Z.add_0_r in H0.
        rewrite W_set32 by (auto; lia). reflexivity. }
    assert (Hk1 : kind a1 = Uint32Array).
    { unfold a1. destruct (orNull (TA.get a i)); auto. unfold TA.add.
      destruct (TA.get a i); auto. now rewrite TA_kind_set. }
    assert (Hl1 : TA.length a1 = TA.length a).
    { unfold a1. destruct (orNull (TA.get a i)); auto. unfold TA.add.
      destruct (TA.get a i); auto. now rewrite TA_length_set. }
    assert (Hfit1 : i + step + step * Z.of_nat t <= TA.length a1 + step - 1)
      by (rewrite Hl1; nia).
    assert (Hw1 : forall m, 0 <= m < Z.of_nat t ->
              0 <= W a1 (i + step + step * m) /\
              W a1 (i + step + step * m) + delta < 4294967296).
    { intros m Hm. rewrite HW1.
      destruct (Z.eqb_spec (i + step + step * m) i); [nia|]. cbn [andb].
      replace (i + step + step * m) with (i + step * (m + 1)) by lia.
      apply Hw. lia. }
    rewrite (IH a1 (i + step) Hk1 ltac:(lia) Hstep Hd Hfit1 Hw1).
    rewrite !HW1. unfold onGrid.
    destruct (Z.eq_dec j i) as [->|Hne].
    + rewrite Z.eqb_refl. rewrite Z.sub_diag, Z.mod_0_l by lia.
      destruct (Z.leb_spec (i + step) i); [lia|]. cbn [andb].
      destruct (Z.leb_spec i i); [|lia].
      destruct (Z.ltb_spec i (i + step * Z.succ (Z.of_nat t))); [|nia].
      cbn [andb Z.eqb]. destruct (negb (W a i =? 0)); reflexivity.
    + destruct (Z.eqb_spec j i); [contradiction|]. cbn [andb].
      assert (E : (i + step <=? j) && (j <? i + step + step * Z.of_nat t)
                  && ((j - (i + step)) mod step =? 0)
                  = (i <=? j) && (j <? i + step * Z.succ (Z.of_nat t))
                    && ((j - i) mod step =? 0)).
      { replace (j - (i + step)) with (j - i + (-1) * step) by lia.
        rewrite Z.mod_add by lia.
        destruct (Z.eqb_spec ((j - i) mod step) 0) as [Em|Em];
          [|rewrite !andb_false_r; reflexivity].
        rewrite !andb_true_r.
        assert (Hj : j < i \/ i + step <= j).
        { destruct (Z.lt_ge_cases j i); auto.
          destruct (Z.lt_ge_cases j (i + step)); auto.
          rewrite Z.mod_small in Em by lia. lia. }
        destruct (Z.leb_spec (i + step) j); destruct (Z.leb_spec i j); try lia;
          destruct (Z.ltb_spec j (i + step + step * Z.of_nat t));
          destruct (Z.ltb_spec j (i + step * Z.succ (Z.of_nat t))); try lia; try nia;
          reflexivity. }
      rewrite E. reflexivity.
Qed.

Lemma create_stores L size :
  0 <= size < 4294967296 -> 0 <= SharedTypeMap.getLength L size ->
  exists fresh,
    SharedTypeMap.create L size Uint32Array = Return fresh /\
    kind fresh = Uint32Array /\ TA.length fresh = SharedTypeMap.getLength L size /\
    forall j, W fresh j =
      if (j =? 0) && (0 <? SharedTypeMap.getLength L size) then size else 0.
Proof.
  intros Hs Hl. unfold SharedTypeMap.create, newTypedArray.
  destruct (Z.ltb_spec (SharedTypeMap.getLength L size) 0); [lia|].
  eexists. split; [reflexivity|]. unfold SharedTypeMap._CAPACITY.
  rewrite TA_kind_set, TA_length_set, length_zeros by lia.
  split; [reflexivity|]. split; [reflexivity|].
  intros j. rewrite W_set, W_zeros. rewrite length_zeros by lia.
  change (kind (TA.zeros Uint32Array (SharedTypeMap.getLength L size))) with Uint32Array.
  change (modulus Uint32Array) with 4294967296. rewrite Z.mod_small by lia.
  rewrite (Z.eqb_sym 0 j). change (0 <=? 0) with true. rewrite andb_true_r. reflexivity.
Qed.

(** ** The words of the grown map *)

Definition shift (delta w : Z) : Z := if w =? 0 then 0 else w + delta.

Definition resized (n : TypedArray) (size j : Z) : Z :=
  let c := cap n in
  let delta := size - c in
  if j =? 0 then size
  else if j <? 3 then W n j
  else if j <? 3 + c then shift delta (W n j)
  else if j <? 3 + size then 0
  else if j <? 3 + size + 12 * c
       then (if (j - 3 - size) mod 6 =? 0 then shift delta (W n (j - delta))
             else W n (j - delta))
  else 0.

Section NodeResize.

Variable n : TypedArray.
Variable size : Z.
Hypothesis Hk : kind n = Uint32Array.
Hypothesis Hc : 2 <= cap n.
Hypothesis Hsize : cap n <= size <= NMAX.
Hypothesis Hlen : TA.length n = 3 + 13 * cap n.
Hypothesis Hw : forall i, 0 <= W n i < 4294967296.
Hypothesis Hptr : forall j,
  (3 <= j < 3 + cap n \/ exists k, 0 <= k < 2 * cap n /\ j = naddr n k) ->
  W n j <= 3 + 13 * cap n.

Lemma set_stores fresh :
  kind fresh = Uint32Array -> TA.length fresh = 3 + 13 * size ->
  (forall j, W fresh j = if j =? 0 then size else 0) ->
  exists n',
    SharedTypeMap.set NodeTypeMap.layout fresh n = (n', Return tt) /\
    kind n' = Uint32Array /\ TA.length n' = 3 + 13 * size /\
    forall j, W n' j = resized n size j.
Proof.
  intros Hfk Hfl Hfw. unfold NMAX in Hsize.
  unfold SharedTypeMap.set, SharedTypeMap._CAPACITY.
  rewrite (TA_get_inb n 0) by (unfold inb; lia).
  change (SharedTypeMap.capacity fresh) with (W fresh 0). rewrite Hfw. change (0 =? 0) with true.
  cbv iota.
  change (W n 0) with (cap n).
  destruct (Z.geb_spec (size - cap n) 0); [|lia]. cbn [negb].
  cbn [HEADER_SIZE ITEM_SIZE NodeTypeMap.layout]. unfold SharedTypeMap._COUNT, SharedTypeMap._NEXT.
  (* the header *)
  unfold SharedTypeMap.viewSet at 1.
  pose proof (slice_length n 1 3 ltac:(lia) ltac:(lia)) as L1. rewrite L1, Hfl.
  destruct (Z.ltb_spec (3 + 13 * size - 1) (3 - 1)); [lia|].
  set (t1 := TA.blit fresh 1 (TA.slice n 1 3)).
  assert (K1 : kind t1 = Uint32Array) by (unfold t1; now rewrite kind_blit).
  assert (N1 : TA.length t1 = 3 + 13 * size) by (unfold t1; now rewrite length_blit).
  assert (W1 : forall j, W t1 j = if j =? 0 then size else if j <? 3 then W n j else 0).
  { intros j. unfold t1. rewrite W_blit_slice, Hfw by (auto; lia).
    replace (1 + (j - 1)) with j by lia.
    destruct (Z.ltb_spec j 0) as [Hj|Hj]; [rewrite (W_oob n j) by (unfold inb; lia)|];
      clear - Hj; ifs. }
  (* the hash table *)
  change (SharedTypeMap.capacity t1) with (W t1 0). rewrite W1. change (0 =? 0) with true.
  cbv iota.
  pose proof (slice_length t1 3 (3 + size) ltac:(lia) ltac:(lia)) as L2. rewrite L2.
  replace (3 + size - 3) with size by lia.
  unfold SharedTypeMap.viewSet at 1.
  pose proof (slice_length n 3 (3 + cap n) ltac:(lia) ltac:(lia)) as L3. rewrite L3.
  destruct (Z.ltb_spec size (3 + cap n - 3)); [lia|].
  set (t2 := TA.blit t1 3 (TA.slice n 3 (3 + cap n))).
  assert (K2 : kind t2 = Uint32Array) by (unfold t2; now rewrite kind_blit).
  assert (N2 : TA.length t2 = 3 + 13 * size) by (unfold t2; now rewrite length_blit).
  assert (W2 : forall j, W t2 j = if j =? 0 then size else if j <? 3 + cap n then W n j else 0).
  { intros j. unfold t2. rewrite W_blit_slice, W1 by (auto; lia).
    replace (3 + (j - 3)) with j by lia. clear - Hc. ifs. }
  (* Offset first links to account for the change in table capacity. *)
  set (t3 := SharedTypeMap.rebase (Z.to_nat size) t2 3 1 (size - cap n)).
  assert (K3 : kind t3 = Uint32Array) by (unfold t3; now rewrite kind_rebase).
  assert (N3 : TA.length t3 = 3 + 13 * size) by (unfold t3; now rewrite length_rebase).
  assert (W3 : forall j, W t3 j =
            if j =? 0 then size else if j <? 3 then W n j
            else if j <? 3 + cap n then shift (size - cap n) (W n j) else 0).
  { intros j. unfold t3. rewrite W_rebase; auto; try lia.
    - unfold onGrid. rewrite Z2Nat.id, Z.mod_1_r, !W2 by lia. unfold shift.
      pose proof (Hw j). clear - H Hc Hsize. ifs.
    - intros m Hm. rewrite W2. rewrite Z2Nat.id in Hm by lia.
      destruct (Z.eqb_spec (3 + 1 * m) 0); [lia|].
      destruct (Z.ltb_spec (3 + 1 * m) (3 + cap n)); [|lia].
      pose proof (Hw (3 + 1 * m)). pose proof (Hptr (3 + 1 * m) ltac:(left; lia)). lia. }
  (* the items *)
  change (SharedTypeMap.capacity t3) with (W t3 0). rewrite W3. change (0 =? 0) with true.
  cbv iota.
  pose proof (slice_length t3 (3 + size) (TA.length t3) ltac:(lia) ltac:(lia)) as L4.
  rewrite L4, N3.
  unfold SharedTypeMap.viewSet at 1.
  pose proof (slice_length n (3 + cap n) (TA.length n) ltac:(lia) ltac:(lia)) as L5.
  rewrite L5, Hlen.
  destruct (Z.ltb_spec (3 + 13 * size - (3 + size)) (3 + 13 * cap n - (3 + cap n))); [lia|].
  set (t4 := TA.blit t3 (3 + size) (TA.slice n (3 + cap n) (3 + 13 * cap n))).
  assert (K4 : kind t4 = Uint32Array) by (unfold t4; now rewrite kind_blit).
  assert (N4 : TA.length t4 = 3 + 13 * size) by (unfold t4; now rewrite length_blit).
  assert (W4 : forall j, W t4 j =
            if j =? 0 then size else if j <? 3 then W n j
            else if j <? 3 + cap n then shift (size - cap n) (W n j)
            else if j <? 3 + size then 0
            else if j <? 3 + size + 12 * cap n then W n (j - (size - cap n)) else 0).
  { intros j. unfold t4. rewrite W_blit_slice, W3 by (auto; lia).
    replace (3 + cap n + (j - (3 + size))) with (j - (size - cap n)) by lia.
    clear - Hc Hsize. ifs. }
  (* Offset next links to account for the change in table capacity. *)
  change (SharedTypeMap.capacity t4) with (W t4 0). rewrite W4. change (0 =? 0) with true.
  cbv iota.
  replace ((3 + 13 * size - (3 + size) + 6 - 1) / 6) with (2 * size)
    by (apply Z.div_unique with (r := 5); lia).
  eexists. split; [reflexivity|].
  rewrite kind_rebase, length_rebase. split; [exact K4|]. split; [exact N4|].
  assert (Hfit : 3 + size + 0 + 6 * Z.of_nat (Z.to_nat (2 * size)) <= TA.length t4 + 6 - 1)
    by (rewrite Z2Nat.id, N4 by lia; lia).
  assert (Hgrid : forall m, 0 <= m < Z.of_nat (Z.to_nat (2 * size)) ->
            0 <= W t4 (3 + size + 0 + 6 * m) /\
            W t4 (3 + size + 0 + 6 * m) + (size - cap n) < 4294967296).
  { intros m Hm. rewrite Z2Nat.id in Hm by lia. rewrite Z.add_0_r, W4.
    destruct (Z.eqb_spec (3 + size + 6 * m) 0); [lia|].
    destruct (Z.ltb_spec (3 + size + 6 * m) 3); [lia|].
    destruct (Z.ltb_spec (3 + size + 6 * m) (3 + cap n)); [lia|].
    destruct (Z.ltb_spec (3 + size + 6 * m) (3 + size)); [lia|].
    destruct (Z.ltb_spec (3 + size + 6 * m) (3 + size + 12 * cap n)); [|lia].
    replace (3 + size + 6 * m - (size - cap n)) with (naddr n m) by (unfold naddr; lia).
    pose proof (Hw (naddr n m)).
    pose proof (Hptr (naddr n m) ltac:(right; exists m; split; [lia|reflexivity])). lia. }
  intros j.
  rewrite (W_rebase _ t4 (3 + size + 0) 6 (size - cap n) j K4 ltac:(lia) ltac:(lia)
             ltac:(lia) Hfit Hgrid).
  unfold onGrid, resized. rewrite Z2Nat.id, Z.add_0_r by lia. rewrite !W4. cbv zeta.
  replace (j - (3 + size)) with (j - 3 - size) by lia.
  unfold shift.
  assert (Hz : 3 + size + 12 * cap n <= j -> j < 3 + size + 6 * (2 * size) ->
               W n (j - (size - cap n)) = 0).
  { intros Hz1 Hz2. apply W_oob. unfold inb. lia. }
  destruct (Z.ltb_spec j (3 + size + 12 * cap n)) as [Hj|Hj].
  - clear Hz. generalize (W n (j - (size - cap n))) (W n j). intros x y.
    clear - Hc Hsize Hj.
    destruct (Z.eqb_spec ((j - 3 - size) mod 6) 0); cbn [andb]; ifs.
  - destruct (Z.ltb_spec j (3 + size + 6 * (2 * size))) as [Hj2|Hj2].
    + clear - Hc Hsize Hj Hj2. ifs.
    + clear - Hc Hsize Hj Hj2. ifs.
Qed.

End NodeResize.

(** ** The grown map keeps the records *)

Lemma map_slotsOf base size k delta :
  map (fun a => a + delta) (slotsOf base size k) = slotsOf (base + delta) size k.
Proof.
  unfold slotsOf. rewrite map_map. apply map_ext. intros x. lia.
Qed.

Lemma chain_shift n n' delta a l :
  (forall x, In x l -> W n' (x + delta) = shift delta (W n x)) ->
  (forall x, In x l -> x + delta <> 0) ->
  chain n a l -> chain n' (shift delta a) (map (fun x => x + delta) l).
Proof.
  intros Hs Hnz H. induction H as [|a l Ha H IH].
  - unfold shift. cbn. constructor.
  - unfold shift at 1. destruct (Z.eqb_spec a 0); [contradiction|].
    cbn [map]. constructor.
    + apply Hnz. left; auto.
    + rewrite Hs by (left; auto). apply IH.
      * intros x Hx. apply Hs. right; auto.
      * intros x Hx. apply Hnz. right; auto.
Qed.

Lemma firstOfType_shift n n' delta ty l :
  (forall x, In x l -> W n' (x + delta + 1) = W n (x + 1)) ->
  firstOfType n' ty (map (fun x => x + delta) l) =
  option_map (fun x => x + delta) (firstOfType n ty l).
Proof.
  unfold firstOfType. induction l as [|x l IH]; intros H; cbn [map find]; [reflexivity|].
  rewrite (H x) by (left; auto). destruct (W n (x + 1) =? ty); [reflexivity|].
  apply IH. intros y Hy. apply H. right; auto.
Qed.

Section NodePointers.

Variable n : TypedArray.
Hypothesis OK : NodesOK n.

Lemma node_table_ptr h : 0 <= h < cap n ->
  W n (3 + h) = 0 \/ In (W n (3 + h)) (nslots n).
Proof.
  intros Hh. destruct (node_chain n OK h Hh) as [l [Hl [_ [Hsub _]]]].
  destruct (chain_head _ _ _ Hl) as [[_ E]|[l' [-> Hnz]]]; [auto|right].
  apply Hsub. left; auto.
Qed.

Lemma node_next_ptr a : In a (nslots n) -> W n a = 0 \/ In (W n a) (nslots n).
Proof.
  intros Ha. destruct (no_chains n OK) as [owner [Hch Hown]].
  destruct (Hch (owner a) (Hown a Ha)) as [l [Hl [_ Hin]]].
  assert (Hal : In a l) by (apply Hin; auto).
  apply in_split in Hal as [l1 [l2 ->]].
  apply chain_split in Hl. inversion Hl as [|? ? Hnz Hl2]; subst.
  destruct (chain_head _ _ _ Hl2) as [[_ E]|[l' [-> Hnz']]]; [auto|right].
  apply Hin. apply in_or_app. right. right. left. reflexivity.
Qed.

Lemma node_ptrs j :
  (3 <= j < 3 + cap n \/ exists k, 0 <= k < 2 * cap n /\ j = naddr n k) ->
  W n j <= 3 + 13 * cap n.
Proof.
  pose proof (no_cap n OK) as Hc. pose proof (no_len n OK) as Hlen.
  intros [Hj|[k [Hk ->]]].
  - replace j with (3 + (j - 3)) by lia.
    destruct (node_table_ptr (j - 3) ltac:(lia)) as [->|Hp]; [lia|].
    apply (nslots_bounds n OK) in Hp. lia.
  - destruct (Z.lt_ge_cases k (cnt n)) as [Hlt|Hge].
    + pose proof (no_words n OK 1) as Hc0. fold (cnt n) in Hc0.
      destruct (node_next_ptr (naddr n k)) as [->|Hp]; [apply in_nslots; exists k; split; [lia|auto]|lia|].
      apply (nslots_bounds n OK) in Hp. lia.
    + pose proof (no_zero n OK k 0 ltac:(lia) ltac:(lia)) as Hz. rewrite Z.add_0_r in Hz.
      rewrite Hz. lia.
Qed.

End NodePointers.

Section NodeResizeOK.

Variable n : TypedArray.
Hypothesis OK : NodesOK n.
Variable size : Z.
Hypothesis Hsize : cap n <= size <= NMAX.
Hypothesis Hfit : cnt n <= 2 * size.
Variable n' : TypedArray.
Hypothesis Hk' : kind n' = Uint32Array.
Hypothesis Hl' : TA.length n' = 3 + 13 * size.
Hypothesis HW : forall j, W n' j = resized n size j.

Let delta := size - cap n.

Lemma rs_hdr : cap n' = size /\ cnt n' = cnt n /\ nid n' = nid n.
Proof.
  unfold cap at 1, cnt at 1, nid at 1. rewrite !HW. unfold resized. repeat split.
Qed.

Lemma rs_table h : 0 <= h < size ->
  W n' (3 + h) = if h <? cap n then shift delta (W n (3 + h)) else 0.
Proof.
  intros Hh. pose proof (no_cap n OK) as Hc. rewrite HW. unfold resized. cbv zeta.
  fold delta. generalize (shift delta (W n (3 + h))). intros x. clear - Hh Hc. ifs.
Qed.

Lemma rs_slot k r : 0 <= k < 2 * size -> 0 <= r < 6 ->
  W n' (naddr n' k + r) =
    if k <? 2 * cap n
    then (if r =? 0 then shift delta (W n (naddr n k + r)) else W n (naddr n k + r))
    else 0.
Proof.
  intros Hk Hr. pose proof (no_cap n OK) as Hc. destruct rs_hdr as [E1 _].
  unfold naddr. rewrite E1, HW. unfold resized. cbv zeta. fold delta.
  replace (3 + size + 6 * k + r - delta) with (3 + cap n + 6 * k + r) by (unfold delta; lia).
  replace ((3 + size + 6 * k + r - 3 - size) mod 6) with r
    by (replace (3 + size + 6 * k + r - 3 - size) with (r + k * 6) by lia;
        rewrite Z.mod_add, Z.mod_small by lia; reflexivity).
  generalize (shift delta (W n (3 + cap n + 6 * k + r))) (W n (3 + cap n + 6 * k + r)).
  intros x y. clear - Hk Hr Hc Hsize. ifs.
Qed.

Lemma rs_nslots : nslots n' = map (fun a => a + delta) (nslots n).
Proof.
  destruct rs_hdr as [E1 [E2 _]]. unfold nslots. rewrite map_slotsOf, E1, E2.
  f_equal. unfold delta. lia.
Qed.

Lemma in_rs_nslots a : In a (nslots n') <-> In (a - delta) (nslots n).
Proof.
  rewrite rs_nslots, in_map_iff. split.
  - intros [x [<- Hx]]. replace (x + delta - delta) with x by lia. auto.
  - intros H. exists (a - delta). split; [lia|auto].
Qed.

Lemma rs_record a r : In a (nslots n) -> 0 <= r < 6 ->
  W n' (a + delta + r) = if r =? 0 then shift delta (W n (a + r)) else W n (a + r).
Proof.
  intros Ha Hr. apply in_nslots in Ha as [k [Hk ->]].
  pose proof (no_used n OK) as Hu. pose proof (no_cap n OK) as Hc.
  destruct rs_hdr as [E1 _].
  replace (naddr n k + delta) with (naddr n' k) by (unfold naddr, delta; rewrite E1; lia).
  rewrite rs_slot by lia.
  destruct (Z.ltb_spec k (2 * cap n)); [reflexivity|lia].
Qed.

Lemma rs_chain a l :
  (forall x, In x l -> In x (nslots n)) ->
  chain n a l -> chain n' (shift delta a) (map (fun x => x + delta) l).
Proof.
  intros Hsub. apply chain_shift.
  - intros x Hx. pose proof (rs_record x 0 (Hsub x Hx) ltac:(lia)) as E.
    rewrite !Z.add_0_r in E. exact E.
  - intros x Hx. apply Hsub in Hx. apply (nslots_bounds n OK) in Hx.
    pose proof (no_cap n OK). unfold delta. lia.
Qed.

Lemma rs_bucket v : 0 <= v < cap n ->
  exists l, chain n (W n (3 + v)) l /\ (forall x, In x l -> In x (nslots n)) /\
            chain n' (W n' (3 + v)) (map (fun x => x + delta) l).
Proof.
  intros Hv. destruct (node_chain n OK v Hv) as [l [Hl [_ [Hsub _]]]].
  exists l. split; [auto|]. split; [auto|].
  rewrite rs_table by lia. destruct (Z.ltb_spec v (cap n)); [|lia].
  apply rs_chain; auto.
Qed.

Lemma rs_primary v ty a : 0 <= v < cap n ->
  primary n' v ty (a + delta) <-> primary n v ty a.
Proof.
  intros Hv. destruct (rs_bucket v Hv) as [l [Hl [Hsub Hls]]].
  assert (E : firstOfType n' ty (map (fun x => x + delta) l) =
              option_map (fun x => x + delta) (firstOfType n ty l)).
  { apply firstOfType_shift. intros x Hx.
    rewrite rs_record by (auto; lia). reflexivity. }
  split; intros [l0 [Hl0 H0]].
  - rewrite (chain_fun _ _ _ _ Hl0 Hls), E in H0. exists l. split; auto.
    destruct (firstOfType n ty l) as [b|]; cbn in H0; [|discriminate].
    f_equal. injection H0. lia.
  - rewrite (chain_fun _ _ _ _ Hl0 Hl) in H0. exists (map (fun x => x + delta) l).
    split; auto. rewrite E, H0. reflexivity.
Qed.

Lemma rs_primary_inv v ty a' : 0 <= v < size ->
  primary n' v ty a' -> 0 <= v < cap n /\ primary n v ty (a' - delta).
Proof.
  intros Hv [l0 [Hl0 H0]].
  destruct (Z.lt_ge_cases v (cap n)) as [Hlt|Hge].
  - split; [lia|]. apply rs_primary; [lia|].
    replace (a' - delta + delta) with a' by lia. exists l0. auto.
  - exfalso. rewrite rs_table in Hl0 by lia.
    destruct (Z.ltb_spec v (cap n)); [lia|].
    apply chain_zero in Hl0. subst l0. discriminate.
Qed.

Lemma resize_ok : NodesOK n'.
Proof.
  pose proof (no_cap n OK) as Hc. pose proof (no_words n OK) as Hw.
  destruct rs_hdr as [E1 [E2 E3]]. unfold NMAX in *.
  constructor.
  - exact Hk'.
  - rewrite E1. unfold NMAX. lia.
  - rewrite Hl', E1. reflexivity.
  - intros i. rewrite HW. unfold resized, shift. cbv zeta.
    pose proof (Hw i). pose proof (Hw (i - (size - cap n))).
    assert (Hp1 : 3 <= i < 3 + cap n -> W n i <= 3 + 13 * cap n).
    { intros Hi. apply (node_ptrs n OK). left; auto. }
    assert (Hp2 : 3 + size <= i < 3 + size + 12 * cap n -> (i - 3 - size) mod 6 = 0 ->
                  W n (i - (size - cap n)) <= 3 + 13 * cap n).
    { intros Hi Hm. apply (node_ptrs n OK). right. exists ((i - 3 - size) / 6).
      pose proof (Z.div_mod (i - 3 - size) 6 ltac:(lia)).
      assert (0 <= (i - 3 - size) / 6) by (apply Z.div_pos; lia).
      unfold naddr. lia. }
    destruct (Z.eqb_spec ((i - 3 - size) mod 6) 0) as [Em|Em].
    + generalize dependent (W n (i - (size - cap n))). generalize dependent (W n i).
      intros x Hx Hp1 y Hy Hp2. clear - Hx Hp1 Hy Hp2 Hc Hsize Em.
      ifs; try (specialize (Hp1 ltac:(lia)); lia); try (specialize (Hp2 ltac:(lia) Em); lia).
    + generalize dependent (W n (i - (size - cap n))). generalize dependent (W n i).
      intros x Hx Hp1 y Hy Hp2. clear - Hx Hp1 Hy Hc Hsize.
      ifs; try (specialize (Hp1 ltac:(lia)); lia).
  - rewrite E1, E2. exact Hfit.
  - rewrite E1, E3. pose proof (no_ids n OK) as Hi. clear - Hi Hsize. lia.
  - intros k f Hk Hf. rewrite E1, E2 in Hk.
    assert (0 <= cnt n) by (unfold cnt; apply Hw).
    rewrite rs_slot by lia.
    destruct (Z.ltb_spec k (2 * cap n)); [|reflexivity].
    pose proof (no_zero n OK k f ltac:(lia) Hf) as Hz. rewrite Hz.
    unfold shift. destruct (f =? 0); reflexivity.
  - destruct (no_chains n OK) as [owner [Hch Hown]].
    exists (fun a => owner (a - delta)). split.
    + intros h Hh. rewrite E1 in Hh.
      destruct (Z.lt_ge_cases h (cap n)) as [Hlt|Hge].
      * destruct (Hch h ltac:(lia)) as [l [Hl [Hnd Hin]]].
        exists (map (fun x => x + delta) l). split; [|split].
        -- rewrite rs_table by lia. destruct (Z.ltb_spec h (cap n)); [|lia].
           apply rs_chain; auto. intros x Hx. apply Hin in Hx. tauto.
        -- apply Injective_map_NoDup; auto. intros x y. lia.
        -- intros a. rewrite in_rs_nslots, <- Hin, in_map_iff. split.
           ++ intros [x [<- Hx]]. replace (x + delta - delta) with x by lia. auto.
           ++ intros H. exists (a - delta). split; [lia|auto].
      * exists []. rewrite rs_table by lia. destruct (Z.ltb_spec h (cap n)); [lia|].
        split; [constructor|]. split; [constructor|].
        intros a. rewrite in_rs_nslots. split; [intros []|].
        intros [Ha Ho]. apply Hown in Ha. lia.
    + intros a Ha. apply in_rs_nslots in Ha. apply Hown in Ha. rewrite E1. lia.
Qed.

End NodeResizeOK.

(** * Fresh maps *)

Lemma chain_nil_only d l : chain d 0 l <-> l = [].
Proof. split; [apply chain_zero|intros ->; constructor]. Qed.

Lemma slotsOf_zero base size : slotsOf base size 0 = [].
Proof. reflexivity. Qed.

(** A node map without records. *)
Lemma empty_nodes_ok n c id :
  kind n = Uint32Array -> TA.length n = 3 + 13 * c ->
  (forall j, W n j = if j =? 0 then c else if j =? 2 then id else 0) ->
  2 <= c <= NMAX -> 0 <= id -> 10 * id <= 7 * c -> NodesOK n.
Proof.
  intros Hk Hl HW Hc Hid Hload. unfold NMAX in Hc.
  assert (E1 : cap n = c) by (unfold cap; rewrite HW; reflexivity).
  assert (E2 : cnt n = 0) by (unfold cnt; rewrite HW; reflexivity).
  assert (E3 : nid n = id) by (unfold nid; rewrite HW; reflexivity).
  constructor.
  - exact Hk.
  - rewrite E1. unfold NMAX. lia.
  - rewrite E1. exact Hl.
  - intros i. rewrite HW. ifs.
  - rewrite E1, E2. lia.
  - rewrite E1, E3. exact Hload.
  - intros k f Hk' Hf. unfold naddr. rewrite E1, HW. ifs.
  - exists (fun _ => 0). split.
    + intros h Hh. exists []. rewrite E1 in Hh. rewrite HW.
      destruct (Z.eqb_spec (3 + h) 0); [lia|]. destruct (Z.eqb_spec (3 + h) 2); [lia|].
      split; [constructor|]. split; [constructor|].
      intros a. unfold nslots. rewrite E2. cbn. tauto.
    + intros a. unfold nslots. rewrite E2. cbn. tauto.
Qed.

(** [new NodeTypeMap(c)]. *)
Lemma fresh_nodes c :
  2 <= c <= NMAX ->
  exists m, SharedTypeMap.create NodeTypeMap.layout c Uint32Array = Return m /\
    kind m = Uint32Array /\ TA.length m = 3 + 13 * c /\
    forall j, W m j = if j =? 0 then c else 0.
Proof.
  intros Hc. unfold NMAX in Hc.
  assert (Hg : SharedTypeMap.getLength NodeTypeMap.layout c = 3 + 13 * c).
  { unfold SharedTypeMap.getLength. cbn [HEADER_SIZE ITEM_SIZE NodeTypeMap.layout].
    unfold SharedTypeMap.BUCKET_SIZE. lia. }
  destruct (create_stores NodeTypeMap.layout c) as [m [Hm [Hk [Hl HW]]]]; try lia.
  rewrite Hg in Hl, HW. exists m. split; [exact Hm|]. split; [exact Hk|]. split; [exact Hl|].
  intros j. rewrite HW. destruct (Z.ltb_spec 0 (3 + 13 * c)); [|lia]. ifs.
Qed.

(** [nextId = id] on a fresh node map. *)
Lemma fresh_nodes_nextId m c id :
  kind m = Uint32Array -> TA.length m = 3 + 13 * c ->
  (forall j, W m j = if j =? 0 then c else 0) -> 2 <= c -> 0 <= id < 4294967296 ->
  kind (NodeTypeMap.set_nextId m id) = Uint32Array /\
  TA.length (NodeTypeMap.set_nextId m id) = 3 + 13 * c /\
  forall j, W (NodeTypeMap.set_nextId m id) j = if j =? 0 then c else if j =? 2 then id else 0.
Proof.
  intros Hk Hl HW Hc Hid. unfold NodeTypeMap.set_nextId, NodeTypeMap._NEXT_ID.
  rewrite TA_kind_set, TA_length_set. split; [auto|]. split; [auto|].
  intros j. Wset. rewrite HW. ifs.
Qed.

(** A fresh node map has no record. *)
Lemma fresh_no_primary n v ty a :
  (forall j, 3 <= j -> W n j = 0) -> 0 <= v -> ~ primary n v ty a.
Proof.
  intros HW Hv [l [Hl H]]. rewrite HW in Hl by lia. apply chain_zero in Hl. subst. discriminate.
Qed.

(** [new EdgeTypeMap(c)]. *)
Lemma fresh_edges c :
  2 <= c <= EMAX ->
  exists m, SharedTypeMap.create EdgeTypeMap.layout c Uint32Array = Return m /\
    EdgesOK m /\ EdgesLinked m /\ elive m = [] /\
    forall j, W m j = if j =? 0 then c else 0.
Proof.
  intros Hc. unfold EMAX in Hc.
  assert (Hg : SharedTypeMap.getLength EdgeTypeMap.layout c = 3 + 17 * c).
  { unfold SharedTypeMap.getLength. cbn [HEADER_SIZE ITEM_SIZE EdgeTypeMap.layout].
    unfold SharedTypeMap.BUCKET_SIZE. lia. }
  destruct (create_stores EdgeTypeMap.layout c) as [m [Hm [Hk [Hl HW0]]]]; try lia.
  rewrite Hg in Hl, HW0. exists m. split; [exact Hm|].
  assert (HW : forall j, W m j = if j =? 0 then c else 0).
  { intros j. rewrite HW0. destruct (Z.ltb_spec 0 (3 + 17 * c)); [|lia]. ifs. }
  assert (E1 : cap m = c) by (unfold cap; rewrite HW; reflexivity).
  assert (E2 : cnt m = 0) by (unfold cnt; rewrite HW; reflexivity).
  assert (E3 : del m = 0) by (unfold del; rewrite HW; reflexivity).
  assert (Hs : eslots m = []) by (unfold eslots; rewrite E2, E3; reflexivity).
  assert (Hlive : elive m = []) by (unfold elive; rewrite Hs; reflexivity).
  split; [|split; [|split; [exact Hlive|exact HW]]].
  - constructor.
    + exact Hk.
    + rewrite E1. unfold EMAX. lia.
    + rewrite Hl, E1. reflexivity.
    + intros i. rewrite HW. ifs.
    + rewrite E1, E2, E3. lia.
    + intros k f Hk' Hf _. unfold eaddr. rewrite E1, HW. ifs.
    + rewrite Hlive, E2. reflexivity.
    + intros h Hh. exists []. rewrite E1 in Hh. rewrite HW.
      destruct (Z.eqb_spec (3 + h) 0); [lia|].
      split; [constructor|]. split; [constructor|]. rewrite Hlive. cbn. tauto.
    + unfold liveEdges. rewrite Hlive. constructor.
  - constructor; rewrite Hlive; intros a [].
Qed.

(** * [resizeNodes] *)

(** The stores of [resizeNodes], for a node map whose links stay inside the
    array. *)
Lemma resizeNodes_stores s size :
  2 <= cap (_nodes s) -> cap (_nodes s) <= size <= NMAX ->
  TA.length (_nodes s) = 3 + 13 * cap (_nodes s) ->
  (forall i, 0 <= W (_nodes s) i < 4294967296) ->
  (forall j, (3 <= j < 3 + cap (_nodes s) \/
              exists k, 0 <= k < 2 * cap (_nodes s) /\ j = naddr (_nodes s) k) ->
             W (_nodes s) j <= 3 + 13 * cap (_nodes s)) ->
  exists n', AdjacencyList.resizeNodes size s =
               (mkAdjacencyList n' (_edges s) (_typedArray s), Return tt) /\
             kind n' = Uint32Array /\ TA.length n' = 3 + 13 * size /\
             forall j, W n' j = resized (_nodes s) size j.
Proof.
  intros Hc Hsize Hlen Hw Hptr.
  assert (Hs' : 2 <= size <= 178956970) by (unfold NMAX in *; lia).
  assert (Hg : SharedTypeMap.getLength NodeTypeMap.layout size = 3 + 13 * size).
  { unfold SharedTypeMap.getLength. cbn [HEADER_SIZE ITEM_SIZE NodeTypeMap.layout].
    unfold SharedTypeMap.BUCKET_SIZE. lia. }
  destruct (create_stores NodeTypeMap.layout size) as [m [Hm [Hk [Hl HW0]]]]; try lia.
  rewrite Hg in Hl, HW0.
  assert (HWm : forall j, W m j = if j =? 0 then size else 0).
  { intros j. rewrite HW0. destruct (Z.ltb_spec 0 (3 + 13 * size)); [|lia]. ifs. }
  destruct (set_stores (_nodes s) size Hc Hsize Hlen Hw Hptr m Hk Hl HWm)
    as [n' [Hset [Hk' [Hl' HW]]]].
  exists n'. split; [|auto].
  unfold AdjacencyList.resizeNodes, bindM, nodesOf, liftC, setNodes. rewrite Hm.
  rewrite Hset. reflexivity.
Qed.

Section ResizeNodes.

Variable s : AdjacencyList.
Hypothesis OK : NodesOK (_nodes s).
Variable size : Z.
Hypothesis Hsize : cap (_nodes s) <= size <= NMAX.

Let n := _nodes s.
Let delta := size - cap n.

(** The node map after [resizeNodes]: the records move up by the growth of
    the table and keep their fields. *)
Record NodesResized (n' : TypedArray) : Prop := {
  nr_ok : NodesOK n';
  nr_words : forall j, W n' j = resized n size j;
  nr_hdr : cap n' = size /\ cnt n' = cnt n /\ nid n' = nid n;
  nr_nslots : forall a, In a (nslots n') <-> In (a - delta) (nslots n);
  nr_record : forall a r, In a (nslots n) -> 1 <= r < 6 -> W n' (a + delta + r) = W n (a + r);
  nr_primary : forall v ty a, 0 <= v < cap n -> primary n' v ty (a + delta) <-> primary n v ty a;
  nr_primary_inv : forall v ty a', 0 <= v < size -> primary n' v ty a' ->
                   0 <= v < cap n /\ primary n v ty (a' - delta)
}.

Lemma resizeNodes_spec :
  exists n', AdjacencyList.resizeNodes size s =
               (mkAdjacencyList n' (_edges s) (_typedArray s), Return tt) /\
             NodesResized n'.
Proof.
  pose proof (no_cap n OK) as Hc. pose proof (no_used n OK) as Hu.
  assert (Hsz : cap n <= size <= NMAX) by exact Hsize.
  assert (Hfit : cnt n <= 2 * size) by lia.
  assert (Hc2 : 2 <= cap n) by lia.
  destruct (resizeNodes_stores s size Hc2 Hsz (no_len n OK) (no_words n OK) (node_ptrs n OK))
    as [n' [Hrun [Hk' [Hl' HW]]]].
  exists n'. split; [exact Hrun|].
  constructor.
  + eapply resize_ok; eauto.
  + exact HW.
  + eapply rs_hdr; eauto.
  + eapply in_rs_nslots; eauto.
  + intros a r Ha Hr. unfold delta.
    erewrite rs_record; eauto; [|lia].
    destruct (Z.eqb_spec r 0); [lia|reflexivity].
  + intros v ty a Hv. eapply rs_primary; eauto.
  + intros v ty a' Hv. eapply rs_primary_inv; eauto.
Qed.

End ResizeNodes.

(** * The scans of the edge map *)

(** The loop of [forEach] and of the iterator over a list of item addresses. *)
Fixpoint scanL (live : Z -> bool) (l : list Z) (count max : Z) : list Z :=
  match l with
  | [] => []
  | a :: l' =>
      if count <? max then
        if live a then a :: scanL live l' (count + 1) max else scanL live l' count max
      else []
  end.

Lemma scanL_filter live l count max :
  count + Z.of_nat (length (filter live l)) <= max -> scanL live l count max = filter live l.
Proof.
  revert count. induction l as [|a l IH]; intros count H; cbn [scanL filter]; auto.
  cbn [filter] in H. destruct (live a) eqn:E.
  - cbn [length] in H. rewrite Nat2Z.inj_succ in H.
    destruct (Z.ltb_spec count max); [|lia]. rewrite IH by lia. reflexivity.
  - destruct (Z.ltb_spec count max); [apply IH; auto|].
    destruct (filter live l); [reflexivity|]. cbn [length] in H. lia.
Qed.

Lemma scan_scanL L live slots this k count max len :
  0 < ITEM_SIZE L ->
  HEADER_SIZE L + cap this + ITEM_SIZE L * (k + Z.of_nat slots) <= len -> 0 <= k ->
  SharedTypeMap.scan L live slots this (HEADER_SIZE L + cap this + ITEM_SIZE L * k) count max len =
  scanL (live this)
    (map (fun i => HEADER_SIZE L + cap this + ITEM_SIZE L * (k + Z.of_nat i)) (seq 0 slots))
    count max.
Proof.
  intros Hs. revert k count. induction slots as [|slots IH]; intros k count Hlen Hk; [reflexivity|].
  cbn [SharedTypeMap.scan seq map scanL]. rewrite Z.add_0_r.
  destruct (Z.ltb_spec (HEADER_SIZE L + cap this + ITEM_SIZE L * k) len); [|nia].
  cbn [andb]. rewrite <- seq_shift, map_map.
  replace (HEADER_SIZE L + cap this + ITEM_SIZE L * k + ITEM_SIZE L)
    with (HEADER_SIZE L + cap this + ITEM_SIZE L * (k + 1)) by lia.
  assert (E : map (fun x => HEADER_SIZE L + cap this + ITEM_SIZE L * (k + Z.of_nat (S x))) (seq 0 slots)
            = map (fun i => HEADER_SIZE L + cap this + ITEM_SIZE L * (k + 1 + Z.of_nat i)) (seq 0 slots)).
  { apply map_ext. intros x. f_equal. f_equal. lia. }
  rewrite E, !IH by lia. reflexivity.
Qed.

Lemma filter_none {A} (p : A -> bool) l : (forall x, In x l -> p x = false) -> filter p l = [].
Proof.
  induction l as [|x l IH]; intros H; cbn [filter]; auto.
  rewrite (H x) by (left; auto). apply IH. intros y Hy. apply H. right; auto.
Qed.

Section EdgeScan.

Variable d : TypedArray.
Hypothesis OK : EdgesOK d.

Lemma all_slots_live : filter (liveb d) (slotsOf (3 + cap d) 8 (2 * cap d)) = elive d.
Proof.
  pose proof (eo_cap d OK) as Hc. pose proof (eo_used d OK) as Hu.
  pose proof (eo_words d OK) as Hw.
  assert (H0 : 0 <= cnt d + del d) by (pose proof (Hw 1); pose proof (Hw 2); unfold cnt, del; lia).
  unfold elive, eslots, slotsOf.
  replace (Z.to_nat (2 * cap d))
    with (Z.to_nat (cnt d + del d) + Z.to_nat (2 * cap d - (cnt d + del d)))%nat by lia.
  rewrite seq_app, map_app, filter_app.
  match goal with |- _ ++ ?r = _ => assert (E : r = []) end.
  { apply filter_none. intros a Ha. apply in_map_iff in Ha as [k [<- Hk]]. apply in_seq in Hk.
    unfold liveb. fold (eaddr d (Z.of_nat k)).
    rewrite (eo_zero d OK (Z.of_nat k) 1); [reflexivity|lia|lia|left; lia]. }
  rewrite E, app_nil_r. reflexivity.
Qed.

Lemma scan_elive live :
  (forall k, 0 <= k < 2 * cap d -> live d (eaddr d k) = liveb d (eaddr d k)) ->
  SharedTypeMap.scan EdgeTypeMap.layout live
    (Z.to_nat (SharedTypeMap.BUCKET_SIZE * SharedTypeMap.capacity d)) d
    (SharedTypeMap.addressableLimit EdgeTypeMap.layout d) 0 (SharedTypeMap.count d)
    (SharedTypeMap.length EdgeTypeMap.layout d) = elive d.
Proof.
  intros Hlive. pose proof (eo_cap d OK) as Hc.
  change (SharedTypeMap.capacity d) with (cap d). change (SharedTypeMap.count d) with (cnt d).
  unfold SharedTypeMap.addressableLimit, SharedTypeMap.length, SharedTypeMap.getLength,
    SharedTypeMap.BUCKET_SIZE.
  change (SharedTypeMap.capacity d) with (cap d).
  replace (HEADER_SIZE EdgeTypeMap.layout + cap d)
    with (HEADER_SIZE EdgeTypeMap.layout + cap d + ITEM_SIZE EdgeTypeMap.layout * 0) by lia.
  rewrite scan_scanL; cbn [HEADER_SIZE ITEM_SIZE EdgeTypeMap.layout]; try lia.
  assert (E : map (fun i => 3 + cap d + 8 * (0 + Z.of_nat i)) (seq 0 (Z.to_nat (2 * cap d)))
            = slotsOf (3 + cap d) 8 (2 * cap d)) by reflexivity.
  rewrite E.
  assert (F : filter (live d) (slotsOf (3 + cap d) 8 (2 * cap d)) = elive d).
  { rewrite <- all_slots_live. apply filter_ext_in'. intros a Ha.
    apply in_slotsOf in Ha as [k [Hk ->]]. apply Hlive. exact Hk. }
  rewrite scanL_filter; [exact F|].
  rewrite F, <- (eo_count d OK). lia.
Qed.

(** [forEach] visits the live records in buffer order. *)
Lemma forEach_elive : SharedTypeMap.forEach EdgeTypeMap.layout d = elive d.
Proof.
  unfold SharedTypeMap.forEach. apply scan_elive. intros k Hk. reflexivity.
Qed.

Lemma someWord_live k : 0 <= k < 2 * cap d ->
  SharedTypeMap.someWord EdgeTypeMap.layout d (eaddr d k) = liveb d (eaddr d k).
Proof.
  intros Hk. pose proof (eo_cap d OK) as Hc. pose proof (eo_len d OK) as Hlen.
  unfold SharedTypeMap.someWord. cbn [ITEM_SIZE EdgeTypeMap.layout].
  set (a := eaddr d k). assert (Ha : 3 + cap d <= a /\ a + 8 <= TA.length d)
    by (unfold a, eaddr; lia).
  assert (Hn : forall i, 0 <= i < 8 -> nth (Z.to_nat i) (TA.slice d a (a + 8)) 0 = W d (a + i)).
  { intros i Hi. apply slice_nth; lia. }
  assert (Hsl : Z.of_nat (length (TA.slice d a (a + 8))) = 8).
  { rewrite slice_length by lia. lia. }
  unfold liveb. destruct (Z.eqb_spec (W d (a + 1)) 0) as [Ez|Enz]; cbn [negb].
  - apply not_true_is_false. intros Hex. apply existsb_exists in Hex as [x [Hx Hnz]].
    apply In_nth with (d := 0) in Hx as [i [Hi <-]].
    rewrite <- (Nat2Z.id i), Hn in Hnz by lia.
    assert (Hz : W d (a + Z.of_nat i) = 0)
      by (apply (eo_zero d OK k (Z.of_nat i)); [lia|lia|right; exact Ez]).
    rewrite Hz in Hnz. discriminate.
  - apply existsb_exists. exists (W d (a + 1)). split.
    + rewrite <- (Hn 1) by lia. apply nth_In. lia.
    + destruct (Z.eqb_spec (W d (a + 1)) 0); [contradiction|reflexivity].
Qed.

(** The iterator yields the live records in buffer order. *)
Lemma iterator_elive : SharedTypeMap.iterator EdgeTypeMap.layout d = elive d.
Proof. unfold SharedTypeMap.iterator. apply scan_elive. exact someWord_live. Qed.

End EdgeScan.

Lemma getAllEdges_liveEdges s :
  EdgesOK (_edges s) -> AdjacencyList.getAllEdges s = liveEdges (_edges s).
Proof.
  intros OK. unfold AdjacencyList.getAllEdges, liveEdges. now rewrite iterator_elive.
Qed.

(** * The two maps together *)

(** A node record belongs to one key. *)
Lemma primary_key n v ty v' ty' a :
  NodesOK n -> 0 <= v < cap n -> 0 <= v' < cap n ->
  primary n v ty a -> primary n v' ty' a -> v = v' /\ ty = ty'.
Proof.
  intros OK Hv Hv' H H'.
  destruct (primary_record n OK v ty a Hv H) as [_ E].
  destruct (primary_record n OK v' ty' a Hv' H') as [_ E'].
  split; [|congruence].
  destruct (no_chains n OK) as [owner [Hch _]].
  destruct H as [l [Hl F]]. destruct H' as [l' [Hl' F']].
  destruct (Hch v Hv) as [l0 [Hl0 [_ Hin0]]]. destruct (Hch v' Hv') as [l1 [Hl1 [_ Hin1]]].
  rewrite (chain_fun _ _ _ _ Hl Hl0) in F. rewrite (chain_fun _ _ _ _ Hl' Hl1) in F'.
  apply find_some in F as [F _]. apply find_some in F' as [F' _].
  apply Hin0 in F. apply Hin1 in F'. destruct F, F'. congruence.
Qed.

(** ** The tail pointers of the node records

    The record that [addressOf] finds for a node and a type points to the
    last edge of its inbound list (field [F] = 4, next field [N] = 4, node
    field [K] = 3) and of its outbound list ([F] = 5, [N] = 6, [K] = 2):
    either null, or a live edge of that node and type without successor. *)
Definition tailOK (live : Z -> Prop) (u w : Z -> Z) (F N K v ty a : Z) : Prop :=
  u (a + F) = 0 \/
  (live (u (a + F)) /\ w (u (a + F) + N) = 0 /\
   w (u (a + F) + K) = v /\ w (u (a + F) + 1) = ty).

Section TailRemove.

Variables live live' : Z -> Prop.
Variable rec : Z -> Z -> Z -> Prop.
Variables u u' w w' : Z -> Z.
Variables e A F N P K : Z.

Hypothesis HN : forall a, live a -> w (a + N) <> 0 ->
  live (w (a + N)) /\ w (w (a + N) + P) = a /\ a < w (a + N) /\
  w (w (a + N) + K) = w (a + K) /\ w (w (a + N) + 1) = w (a + 1).
Hypothesis HP : forall a, live a -> w (a + P) <> 0 ->
  live (w (a + P)) /\ w (w (a + P) + N) = a.
Hypothesis He : live e.
Hypothesis Hlive' : forall a, live' a <-> live a /\ a <> e.
Hypothesis Hpos : forall a, live a -> a <> 0.
Hypothesis HwN : forall a, live a -> a <> e ->
  w' (a + N) = if a =? w (e + P) then w (e + N) else w (a + N).
Hypothesis HwK : forall a, live a -> a <> e -> w' (a + K) = w (a + K).
Hypothesis Hw1 : forall a, live a -> a <> e -> w' (a + 1) = w (a + 1).
Hypothesis Hfun : forall v ty a b, rec v ty a -> rec v ty b -> a = b.
Hypothesis HA : rec (w (e + K)) (w (e + 1)) A.
Hypothesis HT : forall v ty a, rec v ty a -> tailOK live u w F N K v ty a.
Hypothesis Hu' : forall v ty a, rec v ty a ->
  u' (a + F) = if (u (A + F) =? e) && (a =? A) then w (e + P) else u (a + F).

Lemma tail_remove v ty a : rec v ty a -> tailOK live' u' w' F N K v ty a.
Proof.
  intros Hr. unfold tailOK. rewrite (Hu' v ty a Hr).
  destruct (HT v ty a Hr) as [Hz|[L1 [L2 [L3 L4]]]].
  - (* the list was empty *)
    destruct (Z.eqb_spec (u (A + F)) e) as [E1|E1]; cbn [andb]; auto.
    destruct (Z.eqb_spec a A) as [->|E2]; auto.
    exfalso. apply (Hpos e He). congruence.
  - destruct (Z.eqb_spec (u (A + F)) e) as [E1|E1]; cbn [andb].
    + destruct (Z.eqb_spec a A) as [->|E2].
      * (* [e] was the last edge *)
        rewrite E1 in *.
        destruct (Z.eq_dec (w (e + P)) 0) as [Hp|Hp]; [auto|right].
        destruct (HP e He Hp) as [P1 P2].
        destruct (HN _ P1) as [_ [_ [P3 [P4 P5]]]]; [rewrite P2; auto|].
        rewrite P2 in *.
        assert (Hne : w (e + P) <> e) by lia.
        split; [apply Hlive'; auto|].
        rewrite HwN, HwK, Hw1 by auto. rewrite Z.eqb_refl.
        repeat split; congruence.
      * right. assert (Hne : u (a + F) <> e).
        { intros E. rewrite E in *. rewrite L3, L4 in HA. apply E2. eapply Hfun; eauto. }
        split; [apply Hlive'; auto|].
        rewrite HwN, HwK, Hw1 by auto.
        destruct (Z.eqb_spec (u (a + F)) (w (e + P))) as [E|E]; [|auto].
        exfalso. assert (Hp : w (e + P) <> 0) by (rewrite <- E; auto).
        destruct (HP e He Hp) as [_ P2]. rewrite <- E in P2. apply (Hpos e He). congruence.
    + right. assert (Hne : u (a + F) <> e).
      { intros E. rewrite E in *. rewrite L3, L4 in HA.
        assert (a = A) by (eapply Hfun; eauto). subst. auto. }
      split; [apply Hlive'; auto|].
      rewrite HwN, HwK, Hw1 by auto.
      destruct (Z.eqb_spec (u (a + F)) (w (e + P))) as [E|E]; [|auto].
      exfalso. assert (Hp : w (e + P) <> 0) by (rewrite <- E; auto).
      destruct (HP e He Hp) as [_ P2]. rewrite <- E in P2. apply (Hpos e He). congruence.
Qed.

End TailRemove.

Section TailAdd.

Variables live live' : Z -> Prop.
Variable rec : Z -> Z -> Z -> Prop.
Variables u u' w w' : Z -> Z.
Variables e R k ty F N K : Z.

Hypothesis Hlive' : forall a, live' a <-> live a \/ a = e.
Hypothesis Hpos : forall a, live a -> a <> 0.
Hypothesis Hfun : forall v ty a b, rec v ty a -> rec v ty b -> a = b.
Hypothesis Hkey : forall v ty v' ty' a, rec v ty a -> rec v' ty' a -> v = v' /\ ty = ty'.
Hypothesis HT : forall v ty a, rec v ty a -> tailOK live u w F N K v ty a.
Hypothesis HR : rec k ty R \/ ((forall v ty', ~ rec v ty' R) /\ u (R + F) = 0).
Hypothesis Hu' : forall v ty a, rec v ty a -> u' (a + F) = if a =? R then e else u (a + F).
Hypothesis HwN : forall a, live a -> w' (a + N) = if a =? u (R + F) then e else w (a + N).
Hypothesis HwK : forall a, live a -> w' (a + K) = w (a + K).
Hypothesis Hw1 : forall a, live a -> w' (a + 1) = w (a + 1).
Hypothesis Hnew : w' (e + N) = 0 /\ w' (e + K) = k /\ w' (e + 1) = ty.

(** The edge behind which the new one is linked. *)
Lemma tail_prev :
  u (R + F) = 0 \/
  (live (u (R + F)) /\ w (u (R + F) + N) = 0 /\
   w (u (R + F) + K) = k /\ w (u (R + F) + 1) = ty).
Proof. destruct HR as [H|[_ H]]; [apply (HT k ty R H)|auto]. Qed.

Lemma tail_add v ty' a : rec v ty' a -> tailOK live' u' w' F N K v ty' a.
Proof.
  intros Hr. unfold tailOK. rewrite (Hu' v ty' a Hr).
  destruct (Z.eqb_spec a R) as [->|Hne].
  - right. destruct HR as [H|[H _]]; [|exfalso; eapply H; eauto].
    destruct (Hkey _ _ _ _ _ Hr H) as [-> ->].
    split; [apply Hlive'; auto|]. tauto.
  - destruct (HT v ty' a Hr) as [Hz|[L1 [L2 [L3 L4]]]]; [auto|right].
    split; [apply Hlive'; auto|].
    rewrite HwN, HwK, Hw1 by auto.
    destruct (Z.eqb_spec (u (a + F)) (u (R + F))) as [E|E]; [|auto].
    exfalso. destruct HR as [H|[_ H]].
    + destruct (HT k ty R H) as [Hz|[M1 [M2 [M3 M4]]]].
      * apply (Hpos _ L1). congruence.
      * rewrite <- E in M3, M4. rewrite L3 in M3. rewrite L4 in M4. subst.
        apply Hne. eapply Hfun; eauto.
    + apply (Hpos _ L1). congruence.
Qed.

End TailAdd.

(** ** The invariant *)

Definition tails (n d : TypedArray) (v ty a : Z) : Prop :=
  tailOK (fun x => In x (elive d)) (W n) (W d) 4 4 3 v ty a /\
  tailOK (fun x => In x (elive d)) (W n) (W d) 5 6 2 v ty a.

(** What every list built by the constructor, [addNode], [addEdge] and
    [removeEdge] satisfies, as long as no call throws. *)
Record Inv (s : AdjacencyList) : Prop := {
  iv_kind : _typedArray s = Uint32Array;
  iv_nodes : NodesOK (_nodes s);
  iv_edges : EdgesOK (_edges s);
  iv_linked : EdgesLinked (_edges s);
  iv_ids : forall x, In x (elive (_edges s)) ->
    W (_edges s) (x + 2) < nid (_nodes s) /\ W (_edges s) (x + 3) < nid (_nodes s);
  iv_rec : forall x, In x (elive (_edges s)) ->
    (exists a, primary (_nodes s) (W (_edges s) (x + 3)) (W (_edges s) (x + 1)) a) /\
    (exists b, primary (_nodes s) (W (_edges s) (x + 2)) (W (_edges s) (x + 1)) b);
  iv_tails : forall v ty a, 0 <= v < cap (_nodes s) -> primary (_nodes s) v ty a ->
    tails (_nodes s) (_edges s) v ty a
}.

(** ** Removing an edge record *)

Record Removed (d : TypedArray) (e : Z) (d' : TypedArray) : Prop := {
  rm_ok : EdgesOK d';
  rm_linked : EdgesLinked d';
  rm_elive : elive d' = filter (fun a => negb (a =? e)) (elive d);
  rm_liveEdges : liveEdges d' =
    filter (fun x => negb (AdjacencyList.sameKey x (AdjacencyList.edgeAt d e))) (liveEdges d);
  rm_hdr : cap d' = cap d /\ cnt d' = cnt d - 1 /\ del d' = del d + 1;
  rm_eslots : eslots d' = eslots d;
  rm_self : forall r, 0 <= r < 8 -> W d' (e + r) = 0;
  rm_dead : forall a, In a (eslots d) -> W d (a + 1) = 0 -> W d' (a + 1) = 0;
  rm_field : forall a r, In a (elive d) -> a <> e -> 1 <= r < 4 -> W d' (a + r) = W d (a + r);
  rm_nextIn : forall a, In a (elive d) -> a <> e ->
    W d' (a + 4) = if a =? W d (e + 5) then W d (e + 4) else W d (a + 4);
  rm_nextOut : forall a, In a (elive d) -> a <> e ->
    W d' (a + 6) = if a =? W d (e + 7) then W d (e + 6) else W d (a + 6)
}.

Lemma map_filter_key {A B} (f : A -> B) (p : A -> bool) (q : B -> bool) l :
  (forall a, In a l -> p a = q (f a)) -> map f (filter p l) = filter q (map f l).
Proof.
  induction l as [|x l IH]; intros H; cbn [filter map]; auto.
  rewrite <- (H x) by (left; auto). destruct (p x); cbn [map]; rewrite IH; auto;
    intros a Ha; apply H; right; auto.
Qed.

Lemma edges_remove d e :
  EdgesOK d -> EdgesLinked d -> In e (elive d) ->
  exists d',
    (d1 <- SharedTypeMap.unlink EdgeTypeMap.layout d (bucketOf d e) e ;;
     Return (EdgeTypeMap.delete (EdgeTypeMap.unlinkOut (EdgeTypeMap.unlinkIn d1 e) e) e))
      = Return d' /\ Removed d e d'.
Proof.
  intros OK LK He.
  destruct (edges_remove_stores d OK LK e He)
    as [d' [l1 [l2 [Hrun [Hk' [Hl' [Hl [Hnd [Hin [HT HS]]]]]]]]]].
  exists d'. split; [exact Hrun|].
  constructor.
  - eapply edges_remove_ok; eauto.
  - eapply edges_remove_linked; eauto.
  - eapply rem_elive; eauto.
  - erewrite rem_liveEdges; eauto. unfold liveEdges. apply map_filter_key.
    intros a Ha. f_equal.
    destruct (Z.eqb_spec a e) as [->|Hne].
    + symmetry. now apply sameKey_spec.
    + symmetry. apply not_true_is_false. intros E. apply sameKey_spec in E.
      apply Hne. eapply edgeAt_inj; eauto. apply (eo_uniq d OK).
  - eapply rem_hdr; eauto.
  - eapply rem_eslots; eauto.
  - intros r Hr. eapply rem_self; eauto.
  - intros a Ha Hz.
    assert (E : liveb d' a = liveb d a && negb (a =? e)) by (eapply rem_liveb; eauto).
    unfold liveb in E. rewrite Hz in E. cbn in E.
    destruct (Z.eqb_spec (W d' (a + 1)) 0); [auto|discriminate].
  - intros a r Ha Hne Hr. eapply rem_field; eauto.
  - intros a Ha Hne. eapply rem_nextIn; eauto.
  - intros a Ha Hne. eapply rem_nextOut; eauto.
Qed.

(** ** [hasEdge] and [removeEdge] *)

Lemma hasEdge_spec s f t ty :
  EdgesOK (_edges s) ->
  exists b, AdjacencyList.hasEdge s f t (OneType ty) = Return b /\
            (b = true <-> In (mkEdge f t ty) (liveEdges (_edges s))).
Proof.
  intros OK. destruct (edge_addressOf (_edges s) OK f t ty) as [r [Hr Hm]].
  unfold AdjacencyList.hasEdge. rewrite Hr. cbn [bindC].
  eexists. split; [reflexivity|].
  destruct r as [a|]; cbn [AdjacencyList.isNull negb].
  - destruct Hm as [Ha E]. split; auto. intros _. apply in_liveEdges. eauto.
  - split; [discriminate|contradiction].
Qed.

Lemma removeEdge_absent s f t ty :
  EdgesOK (_edges s) -> ~ In (mkEdge f t ty) (liveEdges (_edges s)) ->
  AdjacencyList.removeEdge f t ty s = (s, Return false).
Proof.
  intros OK Hx. destruct (edge_addressOf (_edges s) OK f t ty) as [r [Hr Hm]].
  unfold AdjacencyList.removeEdge, bindM, edgesOf, liftC. rewrite Hr.
  destruct r as [a|]; [|reflexivity].
  exfalso. apply Hx. destruct Hm as [Ha E]. apply in_liveEdges. eauto.
Qed.

Lemma node_guard c a k b k' g g' :
  a = 3 + c + 6 * k -> b = 3 + c + 6 * k' -> 0 <= g < 6 -> 0 <= g' < 6 ->
  (a + g =? b + g') = (g =? g') && (a =? b).
Proof.
  intros -> -> Hg Hg'.
  destruct (Z.eqb_spec (3 + c + 6 * k + g) (3 + c + 6 * k' + g'));
    destruct (Z.eqb_spec g g'); destruct (Z.eqb_spec (3 + c + 6 * k) (3 + c + 6 * k'));
    cbn [andb]; auto; lia.
Qed.

(** Two stores into pointer fields of a node record leave the rest of the
    map alone. *)
Lemma stores_fieldsOnly n n' A c1 g1 x1 c2 g2 x2 :
  NodesOK n -> In A (nslots n) -> 2 <= g1 < 6 -> 2 <= g2 < 6 ->
  0 <= x1 < 4294967296 -> 0 <= x2 < 4294967296 ->
  kind n' = kind n -> TA.length n' = TA.length n ->
  (forall j, W n' j = if c1 && (j =? A + g1) then x1
                      else if c2 && (j =? A + g2) then x2 else W n j) ->
  fieldsOnly n n'.
Proof.
  intros OK HA Hg1 Hg2 Hx1 Hx2 Hk Hl HW. split; [auto|]. split; [auto|]. split.
  - intros i. rewrite HW. pose proof (no_words n OK i).
    destruct (c1 && (i =? A + g1)); [auto|]. destruct (c2 && (i =? A + g2)); auto.
  - intros j Hj. rewrite HW.
    destruct (Z.eqb_spec j (A + g1)) as [E|_]; [exfalso; exact (Hj A g1 HA Hg1 E)|].
    destruct (Z.eqb_spec j (A + g2)) as [E|_]; [exfalso; exact (Hj A g2 HA Hg2 E)|].
    rewrite !andb_false_r. reflexivity.
Qed.

Lemma live_addr d e : EdgesOK d -> In e (elive d) -> 0 < e < 4294967296.
Proof.
  intros OK He. apply (elive_bounds d OK) in He.
  pose proof (eo_cap d OK) as Hc. pose proof (eo_len d OK). unfold EMAX in Hc. lia.
Qed.

Lemma prevIn_oaddr d e : EdgeTypeMap.prevIn d e = oaddr (W d (e + 5)).
Proof. unfold EdgeTypeMap.prevIn. now rewrite orNull_get. Qed.
Lemma nextIn_oaddr d e : EdgeTypeMap.nextIn d e = oaddr (W d (e + 4)).
Proof. unfold EdgeTypeMap.nextIn. now rewrite orNull_get. Qed.
Lemma prevOut_oaddr d e : EdgeTypeMap.prevOut d e = oaddr (W d (e + 7)).
Proof. unfold EdgeTypeMap.prevOut. now rewrite orNull_get. Qed.
Lemma nextOut_oaddr d e : EdgeTypeMap.nextOut d e = oaddr (W d (e + 6)).
Proof. unfold EdgeTypeMap.nextOut. now rewrite orNull_get. Qed.

(** The outcome of a [removeEdge] that finds its edge at [e]. *)
Record EdgeRemoved (s : AdjacencyList) (x : Edge) (s' : AdjacencyList) (e : Z) : Prop := {
  er_inv : Inv s';
  er_at : In e (elive (_edges s)) /\ AdjacencyList.edgeAt (_edges s) e = x;
  er_edges : Removed (_edges s) e (_edges s');
  er_nodes : cap (_nodes s') = cap (_nodes s) /\ cnt (_nodes s') = cnt (_nodes s) /\
             nid (_nodes s') = nid (_nodes s);
  er_kept : kept (_nodes s) (_nodes s')
}.

Lemma removeEdge_run n d ta f t ty h e A B d' :
  EdgeTypeMap.hash d f t ty = Some h ->
  EdgeTypeMap.addressOf d (Some h) f t ty = Return (Some e) ->
  NodeTypeMap.addressOf n t ty = Return (Some A) ->
  NodeTypeMap.addressOf n f ty = Return (Some B) ->
  (d1 <- SharedTypeMap.unlink EdgeTypeMap.layout d h e ;;
   Return (EdgeTypeMap.delete (EdgeTypeMap.unlinkOut (EdgeTypeMap.unlinkIn d1 e) e) e))
    = Return d' ->
  AdjacencyList.removeEdge f t ty (mkAdjacencyList n d ta) =
  (mkAdjacencyList
     (NodeTypeMap.unlinkOut
        (NodeTypeMap.unlinkIn n A e (EdgeTypeMap.prevIn d e) (EdgeTypeMap.nextIn d e))
        B e (EdgeTypeMap.prevOut d e) (EdgeTypeMap.nextOut d e))
     d' ta, Return true).
Proof.
  intros Hh Hr HA HB Hrun.
  unfold AdjacencyList.removeEdge, bindM, edgesOf, nodesOf, liftC, setNodes, setEdges, ret.
  cbn [_nodes _edges _typedArray]. rewrite Hh, Hr. cbn [_nodes _edges _typedArray].
  rewrite HA, HB. cbn [bindC AdjacencyList.nullthrows].
  unfold bindC in Hrun.
  destruct (SharedTypeMap.unlink EdgeTypeMap.layout d h e) as [d1| |]; try discriminate.
  injection Hrun as <-. reflexivity.
Qed.

Lemma removeEdge_present s f t ty :
  Inv s -> In (mkEdge f t ty) (liveEdges (_edges s)) ->
  exists s' e, AdjacencyList.removeEdge f t ty s = (s', Return true) /\
               EdgeRemoved s (mkEdge f t ty) s' e.
Proof.
  intros I Hx. destruct s as [n d ta]. cbn [_nodes _edges _typedArray] in *.
  pose proof (iv_nodes _ I) as NOK. pose proof (iv_edges _ I) as OK.
  pose proof (iv_linked _ I) as LK. cbn [_nodes _edges] in NOK, OK, LK.
  destruct (edge_addressOf d OK f t ty) as [r [Hr Hm]].
  destruct r as [e|]; [|contradiction]. destruct Hm as [He Ee].
  pose proof (Ee) as Ew. rewrite edgeAt_W in Ew. injection Ew as Ef Et Ety.
  pose proof (no_cap n NOK) as Hnc. pose proof (no_ids n NOK) as Hni.
  pose proof (eo_words d OK) as Hw.
  destruct (iv_ids _ I e He) as [Hif Hit]. cbn [_nodes _edges] in Hif, Hit.
  rewrite Ef in Hif. rewrite Et in Hit.
  assert (Hf : 0 <= f < cap n) by (pose proof (Hw (e + 2)); lia).
  assert (Ht : 0 <= t < cap n) by (pose proof (Hw (e + 3)); lia).
  destruct (iv_rec _ I e He) as [[A HA] [B HB]]. cbn [_nodes _edges] in HA, HB.
  rewrite Et, Ety in HA. rewrite Ef, Ety in HB.
  destruct (primary_record n NOK t ty A Ht HA) as [HAs _].
  destruct (primary_record n NOK f ty B Hf HB) as [HBs _].
  pose proof (live_addr d e OK He) as Hea.
  (* the node map *)
  set (n1 := NodeTypeMap.unlinkIn n A e (oaddr (W d (e + 5))) (oaddr (W d (e + 4)))).
  destruct (unlinkIn_node_stores n NOK A HAs e Hea (W d (e + 5)) (W d (e + 4)) (Hw _) (Hw _))
    as [K1 [L1 W1]]. fold n1 in K1, L1, W1.
  assert (F1 : fieldsOnly n n1).
  { eapply stores_fieldsOnly with (A := A) (g1 := 2) (g2 := 4); eauto; try lia; apply Hw. }
  pose proof (fields_ok n n1 NOK F1) as NOK1.
  assert (HBs1 : In B (nslots n1)) by (rewrite (fields_nslots n n1 NOK F1); auto).
  set (n2 := NodeTypeMap.unlinkOut n1 B e (oaddr (W d (e + 7))) (oaddr (W d (e + 6)))).
  destruct (unlinkOut_node_stores n1 NOK1 B HBs1 e Hea (W d (e + 7)) (W d (e + 6)) (Hw _) (Hw _))
    as [K2 [L2 W2]]. fold n2 in K2, L2, W2.
  assert (F2 : fieldsOnly n1 n2).
  { eapply stores_fieldsOnly with (A := B) (g1 := 3) (g2 := 5); eauto; try lia; apply Hw. }
  pose proof (fields_ok n1 n2 NOK1 F2) as NOK2.
  destruct (fields_hdr n n1 NOK F1) as [C1 [C2 C3]].
  destruct (fields_hdr n1 n2 NOK1 F2) as [D1 [D2 D3]].
  (* the edge map *)
  destruct (edges_remove d e OK LK He) as [d' [Hrun R]].
  assert (Eh : bucketOf d e = rawhash (mkEdge f t ty) mod cap d).
  { unfold bucketOf. now rewrite Ee. }
  exists (mkAdjacencyList n2 d' ta), e. split.
  { rewrite (removeEdge_run n d ta f t ty (bucketOf d e) e A B d');
      [|rewrite Eh; apply (hash_some d OK)|rewrite Eh, <- (hash_some d OK); exact Hr
       |apply (addressOf_primary n NOK t ty A Ht); exact HA
       |apply (addressOf_primary n NOK f ty B Hf); exact HB|exact Hrun].
    rewrite prevIn_oaddr, nextIn_oaddr, prevOut_oaddr, nextOut_oaddr. reflexivity. }
  (* the pointer fields of the records after both stores *)
  assert (Hs : forall a, In a (nslots n) -> exists k, a = 3 + cap n + 6 * k).
  { intros a Ha. apply in_nslots in Ha as [k [_ ->]]. exists k. reflexivity. }
  destruct (Hs A HAs) as [kA EA]. destruct (Hs B HBs) as [kB EB].
  assert (U4 : forall a, In a (nslots n) ->
            W n2 (a + 4) = if (W n (A + 4) =? e) && (a =? A) then W d (e + 5) else W n (a + 4)).
  { intros a Ha. destruct (Hs a Ha) as [k Ea]. rewrite W2.
    rewrite !(node_guard (cap n) a k B kB) by (auto; lia).
    cbn [Z.eqb Pos.eqb andb]. rewrite !andb_false_r. rewrite W1.
    rewrite !(node_guard (cap n) a k A kA) by (auto; lia).
    cbn [Z.eqb Pos.eqb andb]. rewrite !andb_false_r. reflexivity. }
  assert (U5 : forall a, In a (nslots n) ->
            W n2 (a + 5) = if (W n (B + 5) =? e) && (a =? B) then W d (e + 7) else W n (a + 5)).
  { intros a Ha. destruct (Hs a Ha) as [k Ea]. rewrite W2.
    rewrite !(node_guard (cap n) a k B kB) by (auto; lia).
    cbn [Z.eqb Pos.eqb andb]. rewrite !andb_false_r. rewrite !W1.
    rewrite !(node_guard (cap n) a k A kA), !(node_guard (cap n) B kB A kA) by (auto; lia).
    cbn [Z.eqb Pos.eqb andb]. rewrite !andb_false_r. reflexivity. }
  assert (Hprim : forall v ty' a, 0 <= v < cap n -> primary n2 v ty' a <-> primary n v ty' a).
  { intros v ty' a Hv. rewrite (fields_primary n1 n2 NOK1 F2) by lia.
    apply (fields_primary n n1 NOK F1). exact Hv. }
  assert (Hlive : forall a, In a (elive d') <-> In a (elive d) /\ a <> e).
  { intros a. rewrite (rm_elive _ _ _ R), filter_In.
    destruct (Z.eqb_spec a e); cbn [negb]; intuition congruence. }
  assert (Hpos : forall a, In a (elive d) -> a <> 0).
  { intros a Ha. pose proof (live_addr d a OK Ha). lia. }
  pose proof (fun a H1 H2 => rm_field _ _ _ R a 1 H1 H2 ltac:(lia)) as R1.
  pose proof (fun a H1 H2 => rm_field _ _ _ R a 2 H1 H2 ltac:(lia)) as R2.
  pose proof (fun a H1 H2 => rm_field _ _ _ R a 3 H1 H2 ltac:(lia)) as R3.
  constructor; cbn [_nodes _edges _typedArray].
  - constructor; cbn [_nodes _edges _typedArray].
    + exact (iv_kind _ I).
    + exact NOK2.
    + exact (rm_ok _ _ _ R).
    + exact (rm_linked _ _ _ R).
    + intros x Hx'. apply Hlive in Hx' as [Hx' Hne].
      rewrite R2, R3 by auto. rewrite D3, C3. exact (iv_ids _ I x Hx').
    + intros x Hx'. apply Hlive in Hx' as [Hx' Hne].
      rewrite R1, R2, R3 by auto.
      destruct (iv_ids _ I x Hx') as [I1 I2]. cbn [_nodes _edges] in I1, I2.
      destruct (iv_rec _ I x Hx') as [[a Ha] [b Hb]]. cbn [_nodes _edges] in Ha, Hb.
      split; [exists a|exists b]; apply Hprim; auto.
      * pose proof (Hw (x + 3)). lia.
      * pose proof (Hw (x + 2)). lia.
    + intros v ty' a Hv Hp. rewrite D1, C1 in Hv.
      set (rec := fun v ty a => 0 <= v < cap n /\ primary n v ty a).
      assert (Hrec : rec v ty' a) by (split; [auto|apply Hprim; auto]).
      assert (Hfun : forall v ty a b, rec v ty a -> rec v ty b -> a = b).
      { intros v0 ty0 a0 b0 [_ H1] [_ H2]. eapply primary_fun; eauto. }
      assert (Hrs : forall v ty a, rec v ty a -> In a (nslots n)).
      { intros v0 ty0 a0 [H0 H1]. eapply primary_record; eauto. }
      split.
      * apply (tail_remove (fun x => In x (elive d)) _ rec (W n) (W n2) (W d) (W d') e A 4 4 5 3
                 (el_in d LK) (el_in' d LK) He Hlive Hpos
                 (rm_nextIn _ _ _ R) R3 R1 Hfun); auto.
        -- rewrite Et, Ety. split; auto.
        -- intros v0 ty0 a0 [H0 H1]. apply (iv_tails _ I v0 ty0 a0 H0 H1).
        -- intros v0 ty0 a0 H0. apply U4. eapply Hrs; eauto.
      * apply (tail_remove (fun x => In x (elive d)) _ rec (W n) (W n2) (W d) (W d') e B 5 6 7 2
                 (el_out d LK) (el_out' d LK) He Hlive Hpos
                 (rm_nextOut _ _ _ R) R2 R1 Hfun); auto.
        -- rewrite Ef, Ety. split; auto.
        -- intros v0 ty0 a0 [H0 H1]. apply (iv_tails _ I v0 ty0 a0 H0 H1).
        -- intros v0 ty0 a0 H0. apply U5. eapply Hrs; eauto.
  - auto.
  - exact R.
  - rewrite D1, D2, D3. auto.
  - apply kept_same; [congruence|]. intros v ty' a Hv Hp. apply Hprim; auto.
Qed.

(** * [addEdge]: the node records *)

(** ** The stages of [addEdge]

    [addEdge] looks the edge up, makes room in the edge map, looks up the
    records of the two nodes (after making room in the node map), adds the
    records that are missing, adds the edge record and links it. *)

(** The look-up of the two node records. *)
Definition findNodes (from to type : Z) : M (option Z * option Z) :=
  nodes <~ nodesOf ;;
  toNode <~ liftC (NodeTypeMap.addressOf nodes to type) ;;
  fromNode <~ liftC (NodeTypeMap.addressOf nodes from type) ;;
  if AdjacencyList.isNull toNode || AdjacencyList.isNull fromNode then
    if AdjacencyList.atleast_LOAD_FACTOR (NodeTypeMap.load nodes) then
      size <~ liftC (AdjacencyList.increaseNodeCapacity (NodeTypeMap.capacity nodes)) ;;
      AdjacencyList.resizeNodes size ;;;
      nodes <~ nodesOf ;;
      toNode <~ liftC (NodeTypeMap.addressOf nodes to type) ;;
      fromNode <~ liftC (NodeTypeMap.addressOf nodes from type) ;;
      ret (toNode, fromNode)
    else ret (toNode, fromNode)
  else ret (toNode, fromNode).

(** The records that are missing. *)
Definition addNodes (from to type : Z) (found : option Z * option Z) : M (Z * Z) :=
  toNode <~ match fst found with
            | None => onNodes (fun nodes => NodeTypeMap.add nodes to type)
            | Some a => ret a
            end ;;
  fromNode <~ match snd found with
              | None => onNodes (fun nodes => NodeTypeMap.add nodes from type)
              | Some a => ret a
              end ;;
  ret (toNode, fromNode).

(** The edge record and its links. *)
Definition linkEdge (hash : option Z) (from to type : Z) (rs : Z * Z) : M bool :=
  let toNode := fst rs in
  let fromNode := snd rs in
  edge <~ onEdges (fun edges => EdgeTypeMap.add edges hash from to type) ;;
  prevIn <~ onNodes (fun nodes => Return (NodeTypeMap.linkIn nodes toNode edge)) ;;
  match prevIn with
  | Some prevIn => onEdges (fun edges => Return (EdgeTypeMap.linkIn edges prevIn edge, tt))
  | None => ret tt
  end ;;;
  prevOut <~ onNodes (fun nodes => Return (NodeTypeMap.linkOut nodes fromNode edge)) ;;
  match prevOut with
  | Some prevOut => onEdges (fun edges => Return (EdgeTypeMap.linkOut edges prevOut edge, tt))
  | None => ret tt
  end ;;;
  ret true.

(** The room that [addEdge] makes in the edge map, and the bucket of the
    new edge. *)
Definition makeRoom (resizeEdges : Z -> M bool) (from to type : Z) : M (option Z) :=
  edges <~ edgesOf ;;
  let hash := EdgeTypeMap.hash edges from to type in
  let capacity := EdgeTypeMap.capacity edges in
  let count := EdgeTypeMap.count edges + 1 in
  let deletes := EdgeTypeMap.deletes edges in
  let total := count + deletes in
  if AdjacencyList.above_LOAD_FACTOR (EdgeTypeMap.getLoad edges total) then
    (if AdjacencyList.above_UNLOAD_FACTOR (EdgeTypeMap.getLoad edges deletes) then
       size <~ liftC (AdjacencyList.getNextEdgeCapacity capacity count
                        (EdgeTypeMap.getLoad edges count)) ;;
       resizeEdges size
     else
       size <~ liftC (AdjacencyList.getNextEdgeCapacity capacity total
                        (EdgeTypeMap.getLoad edges total)) ;;
       resizeEdges size) ;;;
    edges <~ edgesOf ;;
    ret (EdgeTypeMap.hash edges from to type)
  else ret hash.

Lemma bindM_assoc {A B C} (c : M A) (k : A -> M B) (k' : B -> M C) s :
  bindM (bindM c k) k' s = bindM c (fun x => bindM (k x) k') s.
Proof. unfold bindM. destruct (c s) as [s' [a| |]]; reflexivity. Qed.

Lemma bindM_ext {A B} (c : M A) (k k' : A -> M B) s :
  (forall x s', k x s' = k' x s') -> bindM c k s = bindM c k' s.
Proof. intros H. unfold bindM. destruct (c s) as [s' [a| |]]; auto. Qed.

(** [addEdge] as the sequence of its stages. *)
Lemma addEdgeWith_stages R f t ty s :
  AdjacencyList.addEdgeWith R f t ty s =
  if negb (ty >? 0) then (s, Throw UnsupportedEdgeType) else
  match EdgeTypeMap.addressOf (_edges s) (EdgeTypeMap.hash (_edges s) f t ty) f t ty with
  | Return (Some _) => (s, Return false)
  | Return None =>
      (hash <~ makeRoom R f t ty ;;
       found <~ findNodes f t ty ;;
       rs <~ addNodes f t ty found ;;
       linkEdge hash f t ty rs) s
  | Throw e => (s, Throw e)
  | Diverge => (s, Diverge)
  end.
Proof.
  unfold AdjacencyList.addEdgeWith. destruct (negb (ty >? 0)); [reflexivity|].
  unfold bindM at 1. unfold edgesOf at 1. unfold bindM at 1. unfold liftC at 1.
  destruct (EdgeTypeMap.addressOf (_edges s) (EdgeTypeMap.hash (_edges s) f t ty) f t ty)
    as [[a|]| |]; try reflexivity.
  cbn [AdjacencyList.isNull negb].
  symmetry. unfold makeRoom. rewrite bindM_assoc.
  unfold bindM at 1. unfold edgesOf at 1. cbv zeta.
  apply bindM_ext. intros hash s1.
  unfold findNodes. rewrite bindM_assoc. apply bindM_ext. intros nodes s2.
  rewrite bindM_assoc. apply bindM_ext. intros toNode s3.
  rewrite bindM_assoc. apply bindM_ext. intros fromNode s4.
  apply bindM_ext. intros found s5.
  unfold addNodes. rewrite bindM_assoc. apply bindM_ext. intros toNode' s6.
  rewrite bindM_assoc. apply bindM_ext. intros fromNode' s7.
  reflexivity.
Qed.

(** ** Loads and capacities *)

Lemma Math_round_double c : Math_round (inject_Z c * AdjacencyList.MIN_GROW_FACTOR) = 2 * c.
Proof.
  unfold Math_round, AdjacencyList.MIN_GROW_FACTOR, Qfloor, Qplus, Qmult, inject_Z.
  cbn [Qnum Qden]. change (Z.pos (1 * 1 * 2)) with 2. change (Z.pos 2) with 2.
  change (Z.pos (1 * 1)) with 1.
  replace (c * 2 * 2 + 1 * 1) with (1 + (2 * c) * 2) by lia.
  rewrite Z.div_add by lia. reflexivity.
Qed.

Lemma increaseNodeCapacity_spec c :
  1 <= c ->
  AdjacencyList.increaseNodeCapacity c =
  if 2 * c <=? NMAX then Return (2 * c) else Throw NodeCapacityOverflow.
Proof.
  intros Hc. unfold AdjacencyList.increaseNodeCapacity. rewrite Math_round_double.
  change NodeTypeMap.MAX_CAPACITY with NMAX.
  destruct (2 * c <=? NMAX); cbn [negb]; [|reflexivity].
  unfold NodeTypeMap.MIN_CAPACITY. rewrite Z.max_r by lia. reflexivity.
Qed.

Lemma node_load n :
  2 <= cap n ->
  NodeTypeMap.load n =
  if nid n * (cap n * 2) <? cnt n * cap n then Frac (cnt n) (cap n * 2) else Frac (nid n) (cap n).
Proof.
  intros Hc. unfold NodeTypeMap.load, NodeTypeMap.getLoad, SharedTypeMap.getLoad, js_div.
  change (NodeTypeMap.nextId n) with (nid n). change (NodeTypeMap.capacity n) with (cap n).
  change (SharedTypeMap.capacity n) with (cap n). change (NodeTypeMap.count n) with (cnt n).
  unfold SharedTypeMap.BUCKET_SIZE.
  destruct (Z.eqb_spec (cap n) 0); [lia|]. destruct (Z.eqb_spec (cap n * 2) 0); [lia|].
  reflexivity.
Qed.

Lemma node_load_low n :
  2 <= cap n -> 0 <= nid n -> 0 <= cnt n ->
  AdjacencyList.atleast_LOAD_FACTOR (NodeTypeMap.load n) = false ->
  10 * nid n < 7 * cap n /\ 10 * cnt n < 14 * cap n.
Proof.
  intros Hc Hn Hk. rewrite node_load by auto. unfold AdjacencyList.atleast_LOAD_FACTOR.
  generalize dependent (cap n). generalize dependent (nid n). generalize dependent (cnt n).
  intros k Hk i Hi c Hc.
  destruct (Z.ltb_spec (i * (c * 2)) (k * c)); unfold load_ge;
    match goal with |- (?a <=? ?b) = false -> _ => destruct (Z.leb_spec a b) end;
    try discriminate; intros _; nia.
Qed.

Lemma node_load_above n :
  2 <= cap n -> 0 <= nid n -> 0 <= cnt n ->
  AdjacencyList.above_LOAD_FACTOR (NodeTypeMap.load n) = false ->
  10 * nid n <= 7 * cap n /\ 10 * cnt n <= 14 * cap n.
Proof.
  intros Hc Hn Hk. rewrite node_load by auto. unfold AdjacencyList.above_LOAD_FACTOR.
  generalize dependent (cap n). generalize dependent (nid n). generalize dependent (cnt n).
  intros k Hk i Hi c Hc.
  destruct (Z.ltb_spec (i * (c * 2)) (k * c)); unfold load_gt;
    match goal with |- (?a <? ?b) = false -> _ => destruct (Z.ltb_spec a b) end;
    try discriminate; intros _; nia.
Qed.

(** ** A change of the node map that keeps the records *)

Lemma live_ids s x :
  Inv s -> In x (elive (_edges s)) ->
  0 <= W (_edges s) (x + 2) < cap (_nodes s) /\ 0 <= W (_edges s) (x + 3) < cap (_nodes s).
Proof.
  intros I Hx. destruct (iv_ids s I x Hx) as [H1 H2].
  pose proof (no_ids _ (iv_nodes s I)) as Hi. pose proof (no_cap _ (iv_nodes s I)) as Hc.
  pose proof (eo_words _ (iv_edges s I) (x + 2)). pose proof (eo_words _ (iv_edges s I) (x + 3)).
  lia.
Qed.

Lemma inv_nodes s n' delta :
  Inv s -> NodesOK n' -> nid (_nodes s) <= nid n' ->
  (forall v ty a, 0 <= v < cap (_nodes s) -> primary (_nodes s) v ty a ->
     primary n' v ty (a + delta)) ->
  (forall v ty a', 0 <= v < cap n' -> primary n' v ty a' ->
     (W n' (a' + 4) = 0 /\ W n' (a' + 5) = 0) \/
     (0 <= v < cap (_nodes s) /\ primary (_nodes s) v ty (a' - delta) /\
      W n' (a' + 4) = W (_nodes s) (a' - delta + 4) /\
      W n' (a' + 5) = W (_nodes s) (a' - delta + 5))) ->
  Inv (mkAdjacencyList n' (_edges s) (_typedArray s)).
Proof.
  intros I OK' Hid Hkeep Hback.
  constructor; cbn [_nodes _edges _typedArray].
  - exact (iv_kind s I).
  - exact OK'.
  - exact (iv_edges s I).
  - exact (iv_linked s I).
  - intros x Hx. pose proof (iv_ids s I x Hx). lia.
  - intros x Hx. destruct (live_ids s x I Hx) as [H2 H3].
    destruct (iv_rec s I x Hx) as [[a Ha] [b Hb]].
    split; [exists (a + delta)|exists (b + delta)]; apply Hkeep; auto.
  - intros v ty a' Hv Hp.
    destruct (Hback v ty a' Hv Hp) as [[Z4 Z5]|[Hv' [Hp' [E4 E5]]]].
    + split; left; auto.
    + destruct (iv_tails s I v ty (a' - delta) Hv' Hp') as [T4 T5].
      unfold tails, tailOK in *. rewrite E4, E5. auto.
Qed.

(** ** The look-up of the node records *)

Definition recordOf (n : TypedArray) (v ty : Z) (r : option Z) : Prop :=
  match r with
  | Some a => primary n v ty a
  | None => forall a, ~ primary n v ty a
  end.

Lemma addressOf_recordOf n v ty :
  NodesOK n -> 0 <= v < cap n ->
  exists r, NodeTypeMap.addressOf n v ty = Return r /\ recordOf n v ty r.
Proof.
  intros OK Hv. destruct (addressOf_spec n OK v ty Hv) as [l [Hl [Hsub E]]].
  exists (firstOfType n ty l). split; [exact E|].
  destruct (firstOfType n ty l) as [a|] eqn:F; cbn [recordOf].
  - apply (addressOf_primary n OK v ty a Hv). congruence.
  - apply (addressOf_none n OK v ty Hv). congruence.
Qed.

Record Found (s s0 : AdjacencyList) (f t ty : Z) (rt rf : option Z) : Prop := {
  fd_inv : Inv s0;
  fd_edges : _edges s0 = _edges s;
  fd_hdr : cnt (_nodes s0) = cnt (_nodes s) /\ nid (_nodes s0) = nid (_nodes s);
  fd_to : recordOf (_nodes s0) t ty rt;
  fd_from : recordOf (_nodes s0) f ty rf;
  fd_same : (rt = None <-> forall a, ~ primary (_nodes s) t ty a) /\
            (rf = None <-> forall a, ~ primary (_nodes s) f ty a);
  fd_room : rt = None \/ rf = None -> cnt (_nodes s0) + 2 <= 2 * cap (_nodes s0);
  fd_kept : kept (_nodes s) (_nodes s0)
}.

Lemma recordOf_none n v ty r :
  recordOf n v ty r -> (r = None <-> forall a, ~ primary n v ty a).
Proof.
  destruct r as [a|]; cbn [recordOf]; intros H.
  - split; [discriminate|]. intros H'. exfalso. apply (H' a H).
  - tauto.
Qed.

Lemma findNodes_run_found n d ta f t ty rt rf :
  NodeTypeMap.addressOf n t ty = Return rt -> NodeTypeMap.addressOf n f ty = Return rf ->
  AdjacencyList.isNull rt || AdjacencyList.isNull rf = false \/
  AdjacencyList.atleast_LOAD_FACTOR (NodeTypeMap.load n) = false ->
  findNodes f t ty (mkAdjacencyList n d ta) = (mkAdjacencyList n d ta, Return (rt, rf)).
Proof.
  intros Ht Hf H. unfold findNodes, bindM, nodesOf, liftC, ret. cbn [_nodes].
  rewrite Ht, Hf. destruct H as [-> | H]; [reflexivity|].
  rewrite H. destruct (_ || _); reflexivity.
Qed.

Lemma findNodes_run_throw n d ta f t ty rt rf :
  NodeTypeMap.addressOf n t ty = Return rt -> NodeTypeMap.addressOf n f ty = Return rf ->
  AdjacencyList.isNull rt || AdjacencyList.isNull rf = true ->
  AdjacencyList.atleast_LOAD_FACTOR (NodeTypeMap.load n) = true ->
  AdjacencyList.increaseNodeCapacity (cap n) = Throw NodeCapacityOverflow ->
  findNodes f t ty (mkAdjacencyList n d ta) = (mkAdjacencyList n d ta, Throw NodeCapacityOverflow).
Proof.
  intros Ht Hf H1 H2 H3. unfold findNodes, bindM, nodesOf, liftC, ret. cbn [_nodes].
  rewrite Ht, Hf, H1, H2. change (NodeTypeMap.capacity n) with (cap n). rewrite H3. reflexivity.
Qed.

Lemma findNodes_run_resize n d ta f t ty rt rf size n' rt' rf' :
  NodeTypeMap.addressOf n t ty = Return rt -> NodeTypeMap.addressOf n f ty = Return rf ->
  AdjacencyList.isNull rt || AdjacencyList.isNull rf = true ->
  AdjacencyList.atleast_LOAD_FACTOR (NodeTypeMap.load n) = true ->
  AdjacencyList.increaseNodeCapacity (cap n) = Return size ->
  AdjacencyList.resizeNodes size (mkAdjacencyList n d ta) = (mkAdjacencyList n' d ta, Return tt) ->
  NodeTypeMap.addressOf n' t ty = Return rt' -> NodeTypeMap.addressOf n' f ty = Return rf' ->
  findNodes f t ty (mkAdjacencyList n d ta) = (mkAdjacencyList n' d ta, Return (rt', rf')).
Proof.
  intros Ht Hf H1 H2 H3 H4 Ht' Hf'. unfold findNodes, bindM, nodesOf, liftC, ret. cbn [_nodes].
  rewrite Ht, Hf, H1, H2. change (NodeTypeMap.capacity n) with (cap n). rewrite H3, H4.
  cbn [_nodes]. rewrite Ht', Hf'. reflexivity.
Qed.

Lemma findNodes_spec s f t ty :
  Inv s -> 0 <= t < nid (_nodes s) -> 0 <= f < nid (_nodes s) ->
  (exists s0 rt rf, findNodes f t ty s = (s0, Return (rt, rf)) /\ Found s s0 f t ty rt rf) \/
  findNodes f t ty s = (s, Throw NodeCapacityOverflow).
Proof.
  intros I Ht Hf. destruct s as [n d ta]. cbn [_nodes _edges _typedArray] in *.
  pose proof (iv_nodes _ I) as OK. cbn [_nodes] in OK.
  pose proof (no_cap n OK) as Hc. pose proof (no_ids n OK) as Hi.
  pose proof (no_words n OK) as Hw. pose proof (no_used n OK) as Hu.
  assert (Htc : 0 <= t < cap n) by lia. assert (Hfc : 0 <= f < cap n) by lia.
  destruct (addressOf_recordOf n t ty OK Htc) as [rt [Et Rt]].
  destruct (addressOf_recordOf n f ty OK Hfc) as [rf [Ef Rf]].
  destruct (AdjacencyList.isNull rt || AdjacencyList.isNull rf) eqn:Enull.
  2:{ left. exists (mkAdjacencyList n d ta), rt, rf. split.
      - apply findNodes_run_found; auto.
      - constructor; cbn [_nodes _edges]; auto.
        + split; apply recordOf_none; auto.
        + intros [->| ->]; cbn in Enull; try discriminate.
          destruct rt; discriminate.
        + apply kept_refl. }
  destruct (AdjacencyList.atleast_LOAD_FACTOR (NodeTypeMap.load n)) eqn:Eload.
  2:{ left. exists (mkAdjacencyList n d ta), rt, rf. split.
      - apply findNodes_run_found; auto.
      - constructor; cbn [_nodes _edges]; auto.
        + split; apply recordOf_none; auto.
        + intros _.
          assert (L : 10 * nid n < 7 * cap n /\ 10 * cnt n < 14 * cap n)
            by (apply node_load_low; auto; try apply Hw; lia).
          clear - L Hc. lia.
        + apply kept_refl. }
  pose proof (increaseNodeCapacity_spec (cap n) ltac:(lia)) as Einc.
  destruct (Z.leb_spec (2 * cap n) NMAX) as [Hmax|Hmax].
  2:{ right. eapply findNodes_run_throw; eauto. }
  left.
  destruct (resizeNodes_spec (mkAdjacencyList n d ta) OK (2 * cap n)) as [n' [Ers R]].
  { cbn [_nodes]. lia. }
  cbn [_nodes _edges _typedArray] in Ers, R.
  pose proof (nr_ok _ _ _ R) as OK'. destruct (nr_hdr _ _ _ R) as [C1 [C2 C3]].
  cbn [_nodes] in C1, C2, C3.
  assert (Htc' : 0 <= t < cap n') by lia. assert (Hfc' : 0 <= f < cap n') by lia.
  destruct (addressOf_recordOf n' t ty OK' Htc') as [rt' [Et' Rt']].
  destruct (addressOf_recordOf n' f ty OK' Hfc') as [rf' [Ef' Rf']].
  exists (mkAdjacencyList n' d ta), rt', rf'. split.
  { eapply findNodes_run_resize; eauto. }
  set (delta := 2 * cap n - cap n) in *.
  assert (Hnone : forall v, 0 <= v < cap n ->
            (forall a, ~ primary n' v ty a) <-> (forall a, ~ primary n v ty a)).
  { intros v Hv. split; intros H a Ha.
    - apply (H (a + delta)). apply (nr_primary _ _ _ R); auto.
    - apply (H (a - delta)). apply (nr_primary_inv _ _ _ R v ty a); auto. lia. }
  constructor; cbn [_nodes _edges].
  - apply (inv_nodes (mkAdjacencyList n d ta) n' delta I OK'); cbn [_nodes _edges].
    + rewrite C3. apply Z.le_refl.
    + intros v ty' a Hv Hp. apply (nr_primary _ _ _ R); auto.
    + intros v ty' a' Hv Hp. right.
      destruct (nr_primary_inv _ _ _ R v ty' a' ltac:(lia) Hp) as [Hv' Hp'].
      split; [auto|]. split; [auto|].
      destruct (primary_record n OK v ty' _ Hv' Hp') as [Hs _].
      pose proof (nr_record _ _ _ R (a' - delta) 4 Hs ltac:(lia)) as E4.
      pose proof (nr_record _ _ _ R (a' - delta) 5 Hs ltac:(lia)) as E5.
      cbn [_nodes] in E4, E5. change (2 * cap n - cap n) with delta in E4, E5.
      replace (a' - delta + delta) with a' in E4, E5 by lia. auto.
  - reflexivity.
  - auto.
  - exact Rt'.
  - exact Rf'.
  - split.
    + rewrite (recordOf_none _ _ _ _ Rt'). apply Hnone; auto.
    + rewrite (recordOf_none _ _ _ _ Rf'). apply Hnone; auto.
  - intros _. rewrite C1, C2. clear - Hu Hc. lia.
  - split; [rewrite C1; clear - Hc; lia|]. intros v ty' a Hv Hp.
    rewrite C1. apply (nr_primary _ _ _ R); auto.
Qed.

(** ** The records that are missing *)

Lemma addRecord_spec n d ta v ty :
  Inv (mkAdjacencyList n d ta) -> 0 <= v < nid n -> cnt n < 2 * cap n ->
  0 <= ty < 4294967296 ->
  exists n',
    onNodes (fun nodes => NodeTypeMap.add nodes v ty) (mkAdjacencyList n d ta) =
      (mkAdjacencyList n' d ta, Return (naddr n (cnt n))) /\
    NodeAdded n v ty n' /\ Inv (mkAdjacencyList n' d ta).
Proof.
  intros I Hv Hroom Hty. pose proof (iv_nodes _ I) as OK. cbn [_nodes] in OK.
  destruct (nodes_add n OK v ty Hv Hroom Hty) as [n' [Eadd NA]].
  exists n'. split; [|split; [exact NA|]].
  - unfold onNodes, bindM, nodesOf, liftC, setNodes, ret. cbn [_nodes _edges _typedArray].
    rewrite Eadd. reflexivity.
  - destruct (na_hdr _ _ _ _ NA) as [C1 [C2 C3]].
    apply (inv_nodes (mkAdjacencyList n d ta) n' 0 I (na_ok _ _ _ _ NA)); cbn [_nodes _edges].
    + rewrite C3. apply Z.le_refl.
    + intros v' ty' a Hv' Hp. rewrite Z.add_0_r. apply (na_keep _ _ _ _ NA); auto.
    + intros v' ty' b Hv' Hp. rewrite C1 in Hv'. rewrite Z.sub_0_r.
      destruct (na_back _ _ _ _ NA v' ty' b Hv' Hp) as [Hold|[-> _]].
      * right. destruct (primary_record n OK v' ty' b Hv' Hold) as [Hs _].
        split; [auto|]. split; [auto|].
        split; apply (na_old _ _ _ _ NA); auto; lia.
      * left. destruct (na_new _ _ _ _ NA) as [_ Hz]. split; apply Hz; lia.
Qed.

Definition newRec (r : option Z) : Z := match r with Some _ => 0 | None => 1 end.

Record NodesAdded (s0 s2 : AdjacencyList) (f t ty : Z) (rt rf : option Z) (A B : Z) : Prop := {
  an_inv : Inv s2;
  an_edges : _edges s2 = _edges s0;
  an_hdr : cap (_nodes s2) = cap (_nodes s0) /\ nid (_nodes s2) = nid (_nodes s0) /\
           cnt (_nodes s2) = cnt (_nodes s0) + newRec rt + newRec rf;
  an_to : primary (_nodes s2) t ty A;
  an_from : In B (nslots (_nodes s2)) /\
            (primary (_nodes s2) f ty B \/
             (f = t /\
              (forall v ty', 0 <= v < cap (_nodes s2) -> ~ primary (_nodes s2) v ty' B) /\
              W (_nodes s2) (B + 5) = 0));
  an_keyed : keyed (_nodes s2) t ty A /\ keyed (_nodes s2) f ty B;
  an_new_to : rt = None -> A = naddr (_nodes s0) (cnt (_nodes s0)) /\
              forall g, 2 <= g < 6 -> W (_nodes s2) (A + g) = 0;
  an_new_from : rf = None -> B = naddr (_nodes s0) (cnt (_nodes s0) + newRec rt) /\
                forall g, 2 <= g < 6 -> W (_nodes s2) (B + g) = 0;
  an_kept : kept (_nodes s0) (_nodes s2)
}.

Lemma addNodes_run_tt a b s : addNodes 0 0 0 (Some a, Some b) s = (s, Return (a, b)).
Proof. reflexivity. Qed.

Lemma addNodes_spec s0 f t ty rt rf :
  Inv s0 -> 0 <= t < nid (_nodes s0) -> 0 <= f < nid (_nodes s0) -> 0 < ty < 4294967296 ->
  recordOf (_nodes s0) t ty rt -> recordOf (_nodes s0) f ty rf ->
  (rt = None \/ rf = None -> cnt (_nodes s0) + 2 <= 2 * cap (_nodes s0)) ->
  exists s2 A B, addNodes f t ty (rt, rf) s0 = (s2, Return (A, B)) /\
                 NodesAdded s0 s2 f t ty rt rf A B.
Proof.
  intros I Ht Hf Hty Rt Rf Hroom. destruct s0 as [n d ta]. cbn [_nodes _edges _typedArray] in *.
  pose proof (iv_nodes _ I) as OK. cbn [_nodes] in OK.
  pose proof (no_cap n OK) as Hc. pose proof (no_ids n OK) as Hi.
  assert (Htc : 0 <= t < cap n) by lia. assert (Hfc : 0 <= f < cap n) by lia.
  assert (Hty' : 0 <= ty < 4294967296) by lia.
  destruct rt as [a|]; destruct rf as [b|]; cbn [recordOf] in Rt, Rf.
  - (* both records exist *)
    exists (mkAdjacencyList n d ta), a, b. split; [reflexivity|].
    constructor; cbn [_nodes _edges newRec]; auto; try discriminate.
    + repeat split; lia.
    + split; [|left; auto]. eapply primary_record; eauto.
    + split; apply primary_keyed; auto.
    + apply kept_refl.
  - (* the record of [from] is missing *)
    assert (Hr : cnt n + 2 <= 2 * cap n) by (apply Hroom; auto).
    destruct (addRecord_spec n d ta f ty I Hf ltac:(lia) Hty') as [n1 [E1 [NA I1]]].
    destruct (na_hdr _ _ _ _ NA) as [C1 [C2 C3]].
    assert (Hnew : primary n1 f ty (naddr n (cnt n))) by (apply (na_first _ _ _ _ NA); auto).
    exists (mkAdjacencyList n1 d ta), a, (naddr n (cnt n)). split.
    { unfold addNodes, bindM, ret. cbn [fst snd]. rewrite E1. reflexivity. }
    constructor; cbn [_nodes _edges newRec]; auto; try discriminate.
    + repeat split; lia.
    + apply (na_keep _ _ _ _ NA); auto.
    + split; [|left; auto]. rewrite (na_nslots _ _ _ _ NA). apply in_or_app. right. left. reflexivity.
    + split; [|apply (na_keyed _ _ _ _ NA)].
      apply (na_keyed_keep _ _ _ _ NA); auto. apply primary_keyed; auto.
    + intros _. rewrite Z.add_0_r. split; [reflexivity|]. apply (na_new _ _ _ _ NA).
    + apply kept_same; [exact C1|]. apply (na_keep _ _ _ _ NA).
  - (* the record of [to] is missing *)
    assert (Hr : cnt n + 2 <= 2 * cap n) by (apply Hroom; auto).
    destruct (addRecord_spec n d ta t ty I Ht ltac:(lia) Hty') as [n1 [E1 [NA I1]]].
    destruct (na_hdr _ _ _ _ NA) as [C1 [C2 C3]].
    assert (Hnew : primary n1 t ty (naddr n (cnt n))) by (apply (na_first _ _ _ _ NA); auto).
    assert (Hb : primary n1 f ty b) by (apply (na_keep _ _ _ _ NA); auto).
    exists (mkAdjacencyList n1 d ta), (naddr n (cnt n)), b. split.
    { unfold addNodes, bindM, ret. cbn [fst snd]. rewrite E1. reflexivity. }
    constructor; cbn [_nodes _edges newRec]; auto; try discriminate.
    + repeat split; lia.
    + split; [|left; auto].
      eapply (primary_record n1 (na_ok _ _ _ _ NA)); eauto. lia.
    + split; [apply (na_keyed _ _ _ _ NA)|]. apply primary_keyed; auto.
    + intros _. split; [reflexivity|]. apply (na_new _ _ _ _ NA).
    + apply kept_same; [exact C1|]. apply (na_keep _ _ _ _ NA).
  - (* both records are missing *)
    assert (Hr : cnt n + 2 <= 2 * cap n) by (apply Hroom; auto).
    destruct (addRecord_spec n d ta t ty I Ht ltac:(lia) Hty') as [n1 [E1 [NA I1]]].
    destruct (na_hdr _ _ _ _ NA) as [C1 [C2 C3]].
    pose proof (na_ok _ _ _ _ NA) as OK1.
    set (A := naddr n (cnt n)) in *.
    assert (HA : primary n1 t ty A) by (apply (na_first _ _ _ _ NA); auto).
    destruct (addRecord_spec n1 d ta f ty I1 ltac:(lia) ltac:(lia) Hty') as [n2 [E2 [NB I2]]].
    destruct (na_hdr _ _ _ _ NB) as [D1 [D2 D3]].
    pose proof (na_ok _ _ _ _ NB) as OK2.
    set (B := naddr n1 (cnt n1)) in *.
    assert (EB : B = naddr n (cnt n + 1)) by (unfold B, naddr; rewrite C1, C2; reflexivity).
    assert (HA1 : In A (nslots n1)).
    { rewrite (na_nslots _ _ _ _ NA). apply in_or_app. right. left. reflexivity. }
    assert (HB1 : ~ In B (nslots n1)).
    { intros H. apply in_nslots in H as [k [Hk E]]. unfold B, naddr in E. lia. }
    assert (HA2 : primary n2 t ty A) by (apply (na_keep _ _ _ _ NB); auto; lia).
    exists (mkAdjacencyList n2 d ta), A, B. split.
    { unfold addNodes, bindM, ret. cbn [fst snd]. rewrite E1, E2. reflexivity. }
    constructor; cbn [_nodes _edges newRec]; auto; try discriminate.
    + repeat split; lia.
    + split.
      { rewrite (na_nslots _ _ _ _ NB). apply in_or_app. right. left. reflexivity. }
      destruct (Z.eq_dec f t) as [->|Hne].
      * right. split; [reflexivity|]. split; [|apply (na_new _ _ _ _ NB); lia].
        intros v ty' Hv Hp. rewrite D1 in Hv.
        destruct (na_back _ _ _ _ NB v ty' B Hv Hp) as [Hold|[_ [-> ->]]].
        -- apply HB1. eapply (primary_record n1 OK1); eauto.
        -- apply HB1. rewrite <- (primary_fun n2 _ _ _ _ HA2 Hp). exact HA1.
      * left. apply (na_first _ _ _ _ NB). intros b Hb.
        destruct (na_back _ _ _ _ NA f ty b Hfc Hb) as [Hold|[_ [E _]]]; [|auto].
        apply (Rf b Hold).
    + split; [|apply (na_keyed _ _ _ _ NB)].
      apply (na_keyed_keep _ _ _ _ NB); [lia|]. apply (na_keyed _ _ _ _ NA).
    + intros _. split; [reflexivity|]. intros g Hg.
      rewrite (na_old _ _ _ _ NB A g HA1) by lia. apply (na_new _ _ _ _ NA). exact Hg.
    + intros _. split; [exact EB|]. apply (na_new _ _ _ _ NB).
    + apply (kept_trans n n1 n2).
      * apply kept_same; [exact C1|]. apply (na_keep _ _ _ _ NA).
      * apply kept_same; [exact D1|]. apply (na_keep _ _ _ _ NB).
Qed.

(** * [addEdge]: the edge record and its links *)

Lemma fieldsOnly_trans n n1 n2 :
  NodesOK n -> fieldsOnly n n1 -> fieldsOnly n1 n2 -> fieldsOnly n n2.
Proof.
  intros OK F1 F2. pose proof (fields_nslots n n1 OK F1) as Hs.
  destruct F1 as [K1 [L1 [_ H1]]]. destruct F2 as [K2 [L2 [W2 H2]]].
  split; [congruence|]. split; [congruence|]. split; [exact W2|].
  intros j Hj. rewrite H2, H1; auto. rewrite Hs. exact Hj.
Qed.

Lemma linkEdge_run n d ta hash f t ty A B d1 e :
  EdgeTypeMap.add d hash f t ty = Return (d1, e) ->
  linkEdge hash f t ty (A, B) (mkAdjacencyList n d ta) =
  (mkAdjacencyList
     (fst (NodeTypeMap.linkOut (fst (NodeTypeMap.linkIn n A e)) B e))
     (match snd (NodeTypeMap.linkOut (fst (NodeTypeMap.linkIn n A e)) B e) with
      | Some q =>
          EdgeTypeMap.linkOut
            (match snd (NodeTypeMap.linkIn n A e) with
             | Some p => EdgeTypeMap.linkIn d1 p e
             | None => d1
             end) q e
      | None =>
          match snd (NodeTypeMap.linkIn n A e) with
          | Some p => EdgeTypeMap.linkIn d1 p e
          | None => d1
          end
      end) ta, Return true).
Proof.
  intros Eadd. unfold linkEdge, onEdges, onNodes, bindM, edgesOf, nodesOf, liftC, setNodes,
    setEdges, ret. cbn [_nodes _edges _typedArray fst snd]. rewrite Eadd.
  cbn [_nodes _edges _typedArray fst snd].
  destruct (snd (NodeTypeMap.linkIn n A e)); cbn [_nodes _edges _typedArray fst snd];
    destruct (snd (NodeTypeMap.linkOut (fst (NodeTypeMap.linkIn n A e)) B e)); reflexivity.
Qed.

Record EdgeLinked (s2 s' : AdjacencyList) (f t ty A B : Z) : Prop := {
  lk_inv : Inv s';
  lk_kind : _typedArray s' = _typedArray s2;
  lk_edges : Added (_edges s2) f t ty (W (_nodes s2) (A + 4)) (W (_nodes s2) (B + 5)) (_edges s');
  lk_fields : fieldsOnly (_nodes s2) (_nodes s');
  lk_in : forall a, In a (nslots (_nodes s2)) ->
    W (_nodes s') (a + 4) =
      (if a =? A then eaddr (_edges s2) (cnt (_edges s2) + del (_edges s2))
       else W (_nodes s2) (a + 4)) /\
    W (_nodes s') (a + 2) =
      (if (W (_nodes s2) (A + 2) =? 0) && (a =? A)
       then eaddr (_edges s2) (cnt (_edges s2) + del (_edges s2))
       else W (_nodes s2) (a + 2));
  lk_out : forall a, In a (nslots (_nodes s2)) ->
    W (_nodes s') (a + 5) =
      (if a =? B then eaddr (_edges s2) (cnt (_edges s2) + del (_edges s2))
       else W (_nodes s2) (a + 5)) /\
    W (_nodes s') (a + 3) =
      (if (W (_nodes s2) (B + 3) =? 0) && (a =? B)
       then eaddr (_edges s2) (cnt (_edges s2) + del (_edges s2))
       else W (_nodes s2) (a + 3))
}.

Lemma linkEdge_spec s2 f t ty A B :
  Inv s2 -> 0 <= t < nid (_nodes s2) -> 0 <= f < nid (_nodes s2) -> 0 < ty < 4294967296 ->
  ~ In (mkEdge f t ty) (liveEdges (_edges s2)) ->
  cnt (_edges s2) + del (_edges s2) < 2 * cap (_edges s2) ->
  primary (_nodes s2) t ty A ->
  In B (nslots (_nodes s2)) ->
  (primary (_nodes s2) f ty B \/
   (f = t /\ (forall v ty', 0 <= v < cap (_nodes s2) -> ~ primary (_nodes s2) v ty' B) /\
    W (_nodes s2) (B + 5) = 0)) ->
  exists s', linkEdge (EdgeTypeMap.hash (_edges s2) f t ty) f t ty (A, B) s2 = (s', Return true) /\
             EdgeLinked s2 s' f t ty A B.
Proof.
  intros I Ht Hf Hty Hnew Hroom HA HBs HB. destruct s2 as [n d ta].
  cbn [_nodes _edges _typedArray] in *.
  pose proof (iv_nodes _ I) as NOK. pose proof (iv_edges _ I) as OK.
  pose proof (iv_linked _ I) as LK. cbn [_nodes _edges] in NOK, OK, LK.
  pose proof (no_cap n NOK) as Hnc. pose proof (no_ids n NOK) as Hni.
  pose proof (no_words n NOK) as Hnw.
  pose proof (eo_cap d OK) as Hc. pose proof (eo_len d OK) as Hlen.
  pose proof (eo_words d OK) as Hw. pose proof (eo_used d OK) as Hu.
  assert (Htc : 0 <= t < cap n) by lia. assert (Hfc : 0 <= f < cap n) by lia.
  destruct (primary_record n NOK t ty A Htc HA) as [HAs _].
  set (e := eaddr d (cnt d + del d)).
  assert (Hcd : 0 <= cnt d + del d) by (pose proof (Hw 1); pose proof (Hw 2); unfold cnt, del; lia).
  assert (He : 0 < e < 4294967296).
  { unfold e, eaddr. unfold EMAX in Hc. clear - Hc Hroom Hcd. lia. }
  assert (Hf32 : 0 <= f < 4294967296) by (unfold NMAX in Hnc; lia).
  assert (Ht32 : 0 <= t < 4294967296) by (unfold NMAX in Hnc; lia).
  set (pz := W n (A + 4)). set (qz := W n (B + 5)).
  assert (Hpz : pz = 0 \/
     (In pz (elive d) /\ W d (pz + 4) = 0 /\ W d (pz + 3) = t /\ W d (pz + 1) = ty)).
  { destruct (iv_tails _ I t ty A Htc HA) as [T _]. exact T. }
  assert (Hqz : qz = 0 \/
     (In qz (elive d) /\ W d (qz + 6) = 0 /\ W d (qz + 2) = f /\ W d (qz + 1) = ty)).
  { destruct HB as [HB|[_ [_ HB]]]; [|left; exact HB].
    destruct (iv_tails _ I f ty B Hfc HB) as [_ T]. exact T. }
  destruct (edges_link d OK LK f t ty Hroom Hf32 Ht32 Hty Hnew pz qz Hpz Hqz)
    as [d1 [Eadd AD]]. fold e in Eadd, AD.
  (* the node map *)
  destruct (linkIn_stores n NOK A HAs e He) as [S1 [K1 [L1 W1]]].
  set (n3 := fst (NodeTypeMap.linkIn n A e)) in *.
  assert (F1 : fieldsOnly n n3).
  { apply (stores_fieldsOnly n n3 A true 4 e (W n (A + 2) =? 0) 2 e); auto; lia. }
  pose proof (fields_ok n n3 NOK F1) as NOK3.
  assert (HBs3 : In B (nslots n3)) by (rewrite (fields_nslots n n3 NOK F1); auto).
  destruct (linkOut_stores n3 NOK3 B HBs3 e He) as [S2 [K2 [L2 W2]]].
  set (n4 := fst (NodeTypeMap.linkOut n3 B e)) in *.
  assert (F2 : fieldsOnly n3 n4).
  { apply (stores_fieldsOnly n3 n4 B true 5 e (W n3 (B + 3) =? 0) 3 e); auto; lia. }
  pose proof (fields_ok n3 n4 NOK3 F2) as NOK4.
  pose proof (fieldsOnly_trans n n3 n4 NOK F1 F2) as F.
  destruct (fields_hdr n n4 NOK F) as [C1 [C2 C3]].
  assert (Hs : forall a, In a (nslots n) -> exists k, a = 3 + cap n + 6 * k).
  { intros a Ha. apply in_nslots in Ha as [k [_ ->]]. exists k. reflexivity. }
  destruct (Hs A HAs) as [kA EA]. destruct (Hs B HBs) as [kB EB].
  assert (E35 : W n3 (B + 5) = qz /\ W n3 (B + 3) = W n (B + 3)).
  { rewrite !W1. rewrite !(node_guard (cap n) B kB A kA) by (auto; lia).
    cbn [Z.eqb Pos.eqb andb]. rewrite !andb_false_r. auto. }
  destruct E35 as [E5 E3].
  assert (U4 : forall a, In a (nslots n) ->
            W n4 (a + 4) = (if a =? A then e else W n (a + 4)) /\
            W n4 (a + 2) = (if (W n (A + 2) =? 0) && (a =? A) then e else W n (a + 2))).
  { intros a Ha. destruct (Hs a Ha) as [k Ea]. rewrite !W2.
    rewrite !(node_guard (cap n) a k B kB) by (auto; lia).
    cbn [Z.eqb Pos.eqb andb]. rewrite !andb_false_r. rewrite !W1.
    rewrite !(node_guard (cap n) a k A kA) by (auto; lia).
    cbn [Z.eqb Pos.eqb andb]. rewrite !andb_false_r. auto. }
  assert (U5 : forall a, In a (nslots n) ->
            W n4 (a + 5) = (if a =? B then e else W n (a + 5)) /\
            W n4 (a + 3) = (if (W n (B + 3) =? 0) && (a =? B) then e else W n (a + 3))).
  { intros a Ha. destruct (Hs a Ha) as [k Ea]. rewrite !W2. rewrite E3.
    rewrite !(node_guard (cap n) a k B kB) by (auto; lia).
    cbn [Z.eqb Pos.eqb andb]. rewrite !andb_false_r. rewrite !W1.
    rewrite !(node_guard (cap n) a k A kA) by (auto; lia).
    cbn [Z.eqb Pos.eqb andb]. rewrite !andb_false_r. auto. }
  set (d3 := linkOutOpt (linkInOpt d1 pz e) qz e) in *.
  exists (mkAdjacencyList n4 d3 ta). split.
  { rewrite (linkEdge_run n d ta _ f t ty A B d1 e Eadd).
    fold n3. rewrite S1. fold n4. rewrite S2, E5. reflexivity. }
  assert (Hprim : forall v ty' a, 0 <= v < cap n -> primary n4 v ty' a <-> primary n v ty' a).
  { intros v ty' a Hv. apply (fields_primary n n4 NOK F). exact Hv. }
  assert (Hlive : forall a, In a (elive d3) <-> In a (elive d) \/ a = e).
  { intros a. rewrite (ad_elive _ _ _ _ _ _ _ AD), in_app_iff. cbn [In]. fold e.
    intuition congruence. }
  assert (Hpos : forall a, In a (elive d) -> a <> 0).
  { intros a Ha. pose proof (live_addr d a OK Ha). lia. }
  assert (Hsl : forall a, In a (elive d) -> In a (eslots d)).
  { intros a Ha. unfold elive in Ha. apply filter_In in Ha. tauto. }
  pose proof (fun a H => ad_old _ _ _ _ _ _ _ AD a 1 (Hsl a H) ltac:(lia)) as R1.
  pose proof (fun a H => ad_old _ _ _ _ _ _ _ AD a 2 (Hsl a H) ltac:(lia)) as R2.
  pose proof (fun a H => ad_old _ _ _ _ _ _ _ AD a 3 (Hsl a H) ltac:(lia)) as R3.
  destruct (ad_new _ _ _ _ _ _ _ AD) as [N1 [N2 [N3 [N4 N6]]]].
  constructor; cbn [_nodes _edges _typedArray].
  - constructor; cbn [_nodes _edges _typedArray].
    + exact (iv_kind _ I).
    + exact NOK4.
    + exact (ad_ok _ _ _ _ _ _ _ AD).
    + exact (ad_linked _ _ _ _ _ _ _ AD).
    + intros x Hx. rewrite C3. apply Hlive in Hx as [Hx| ->].
      * rewrite R2, R3 by auto. exact (iv_ids _ I x Hx).
      * fold e in N2, N3. rewrite N2, N3. lia.
    + intros x Hx. apply Hlive in Hx as [Hx| ->].
      * rewrite R1, R2, R3 by auto.
        destruct (live_ids _ x I Hx) as [I1 I2]. cbn [_nodes _edges] in I1, I2.
        destruct (iv_rec _ I x Hx) as [[a Ha] [b Hb]]. cbn [_nodes _edges] in Ha, Hb.
        split; [exists a|exists b]; apply Hprim; auto.
      * fold e in N1, N2, N3. rewrite N1, N2, N3. split.
        -- exists A. apply Hprim; auto.
        -- destruct HB as [HB|[-> _]]; [exists B|exists A]; apply Hprim; auto.
    + intros v ty' a Hv Hp. rewrite C1 in Hv.
      set (rec := fun v ty a => 0 <= v < cap n /\ primary n v ty a).
      assert (Hrec : rec v ty' a) by (split; [auto|apply Hprim; auto]).
      assert (Hfun : forall v ty a b, rec v ty a -> rec v ty b -> a = b).
      { intros v0 ty0 a0 b0 [_ H1] [_ H2]. eapply primary_fun; eauto. }
      assert (Hkey : forall v ty v' ty' a, rec v ty a -> rec v' ty' a -> v = v' /\ ty = ty').
      { intros v0 ty0 v1 ty1 a0 [H0 H1] [H2 H3].
        exact (primary_key n v0 ty0 v1 ty1 a0 NOK H0 H2 H1 H3). }
      assert (Hrs : forall v ty a, rec v ty a -> In a (nslots n)).
      { intros v0 ty0 a0 [H0 H1]. eapply primary_record; eauto. }
      assert (HT : forall v ty a, rec v ty a -> tails n d v ty a).
      { intros v0 ty0 a0 [H0 H1]. apply (iv_tails _ I v0 ty0 a0 H0 H1). }
      split.
      * apply (tail_add (fun x => In x (elive d)) _ rec (W n) (W n4) (W d) (W d3) e A t ty 4 4 3
                 Hlive Hpos Hfun Hkey); auto.
        -- intros v0 ty0 a0 H0. apply (HT v0 ty0 a0 H0).
        -- left. split; auto.
        -- intros v0 ty0 a0 H0. apply U4. eapply Hrs; eauto.
        -- exact (ad_nextIn _ _ _ _ _ _ _ AD).
      * apply (tail_add (fun x => In x (elive d)) _ rec (W n) (W n4) (W d) (W d3) e B f ty 5 6 2
                 Hlive Hpos Hfun Hkey); auto.
        -- intros v0 ty0 a0 H0. apply (HT v0 ty0 a0 H0).
        -- destruct HB as [HB|[_ [HB1 HB2]]]; [left; split; auto|right].
           split; [|exact HB2]. intros v0 ty0 [H0 H1]. apply (HB1 v0 ty0 H0 H1).
        -- intros v0 ty0 a0 H0. apply U5. eapply Hrs; eauto.
        -- exact (ad_nextOut _ _ _ _ _ _ _ AD).
  - reflexivity.
  - exact AD.
  - exact F.
  - exact U4.
  - exact U5.
Qed.

(** * [addEdge] *)

Lemma bindM_return {A B} (c : M A) (k : A -> M B) s s' a :
  c s = (s', Return a) -> bindM c k s = k a s'.
Proof. intros H. unfold bindM. rewrite H. reflexivity. Qed.

Lemma bindM_throw {A B} (c : M A) (k : A -> M B) s s' e :
  c s = (s', Throw e) -> bindM c k s = (s', Throw e).
Proof. intros H. unfold bindM. rewrite H. reflexivity. Qed.

(** ** After the room is made *)

Definition addTail (hash : option Z) (f t ty : Z) : M bool :=
  found <~ findNodes f t ty ;;
  rs <~ addNodes f t ty found ;;
  linkEdge hash f t ty rs.

(** The stages of a call that adds the edge. *)
Definition Stages (s s' : AdjacencyList) (f t ty : Z) : Prop :=
  exists s0 s2 rt rf A B,
    Found s s0 f t ty rt rf /\ NodesAdded s0 s2 f t ty rt rf A B /\
    EdgeLinked s2 s' f t ty A B.

Lemma addTail_spec s f t ty :
  Inv s -> 0 <= t < nid (_nodes s) -> 0 <= f < nid (_nodes s) -> 0 < ty < 4294967296 ->
  ~ In (mkEdge f t ty) (liveEdges (_edges s)) ->
  cnt (_edges s) + del (_edges s) < 2 * cap (_edges s) ->
  (exists s', addTail (EdgeTypeMap.hash (_edges s) f t ty) f t ty s = (s', Return true) /\
              Stages s s' f t ty) \/
  addTail (EdgeTypeMap.hash (_edges s) f t ty) f t ty s = (s, Throw NodeCapacityOverflow).
Proof.
  intros I Ht Hf Hty Hnew Hroom. unfold addTail.
  destruct (findNodes_spec s f t ty I Ht Hf) as [[s0 [rt [rf [E0 FD]]]]|E0].
  2:{ right. apply (bindM_throw _ _ _ _ _ E0). }
  left. rewrite (bindM_return _ _ _ _ _ E0).
  destruct (fd_hdr _ _ _ _ _ _ _ FD) as [C1 C2].
  pose proof (fd_edges _ _ _ _ _ _ _ FD) as Ed.
  destruct (addNodes_spec s0 f t ty rt rf (fd_inv _ _ _ _ _ _ _ FD)) as [s2 [A [B [E2 NA]]]];
    try (rewrite C2; assumption); auto.
  - exact (fd_to _ _ _ _ _ _ _ FD).
  - exact (fd_from _ _ _ _ _ _ _ FD).
  - exact (fd_room _ _ _ _ _ _ _ FD).
  - rewrite (bindM_return _ _ _ _ _ E2).
    destruct (an_hdr _ _ _ _ _ _ _ _ _ NA) as [D1 [D2 D3]].
    pose proof (an_edges _ _ _ _ _ _ _ _ _ NA) as Ed2.
    destruct (an_from _ _ _ _ _ _ _ _ _ NA) as [HBs HB].
    destruct (linkEdge_spec s2 f t ty A B (an_inv _ _ _ _ _ _ _ _ _ NA)) as [s' [E3 LK]];
      try (rewrite D2, C2; assumption); try (rewrite Ed2, Ed; assumption); auto.
    + exact (an_to _ _ _ _ _ _ _ _ _ NA).
    + rewrite Ed2, Ed in E3. exists s'. split; [exact E3|].
      exists s0, s2, rt, rf, A, B. auto.
Qed.

(** What a call that adds the edge without resizing the edge map does. *)
Record EdgeAdded (s s' : AdjacencyList) (f t ty : Z) : Prop := {
  ea_inv : Inv s';
  ea_live : liveEdges (_edges s') = liveEdges (_edges s) ++ [mkEdge f t ty];
  ea_nid : nid (_nodes s') = nid (_nodes s);
  ea_hdr : cap (_edges s') = cap (_edges s) /\ cnt (_edges s') = cnt (_edges s) + 1 /\
           del (_edges s') = del (_edges s);
  ea_old : forall a r, In a (eslots (_edges s)) -> 1 <= r < 4 ->
           W (_edges s') (a + r) = W (_edges s) (a + r);
  ea_new : W (_edges s') (eaddr (_edges s) (cnt (_edges s) + del (_edges s)) + 1) = ty
}.

Lemma stages_added s s' f t ty : Inv s -> Stages s s' f t ty -> EdgeAdded s s' f t ty.
Proof.
  intros I [s0 [s2 [rt [rf [A [B [FD [NA LK]]]]]]]].
  pose proof (fd_edges _ _ _ _ _ _ _ FD) as E0.
  pose proof (an_edges _ _ _ _ _ _ _ _ _ NA) as E2.
  destruct (fd_hdr _ _ _ _ _ _ _ FD) as [_ C2].
  destruct (an_hdr _ _ _ _ _ _ _ _ _ NA) as [_ [D2 _]].
  pose proof (lk_edges _ _ _ _ _ _ _ LK) as AD. rewrite E2, E0 in AD.
  pose proof (lk_fields _ _ _ _ _ _ _ LK) as F.
  destruct (fields_hdr _ _ (iv_nodes _ (an_inv _ _ _ _ _ _ _ _ _ NA)) F) as [_ [_ F3]].
  constructor.
  - exact (lk_inv _ _ _ _ _ _ _ LK).
  - exact (ad_liveEdges _ _ _ _ _ _ _ AD).
  - congruence.
  - exact (ad_hdr _ _ _ _ _ _ _ AD).
  - exact (ad_old _ _ _ _ _ _ _ AD).
  - destruct (ad_new _ _ _ _ _ _ _ AD) as [N1 _]. exact N1.
Qed.

(** ** The load of the edge map *)

Lemma edge_load_above d x :
  2 <= cap d ->
  AdjacencyList.above_LOAD_FACTOR (EdgeTypeMap.getLoad d x) = (14 * cap d <? 10 * x).
Proof.
  intros Hc. unfold AdjacencyList.above_LOAD_FACTOR, EdgeTypeMap.getLoad, SharedTypeMap.getLoad,
    js_div, SharedTypeMap.BUCKET_SIZE. change (SharedTypeMap.capacity d) with (cap d).
  destruct (Z.eqb_spec (cap d * 2) 0); [lia|]. unfold load_gt.
  destruct (Z.ltb_spec (7 * (cap d * 2)) (x * 10)); destruct (Z.ltb_spec (14 * cap d) (10 * x));
    auto; lia.
Qed.

Lemma edge_unload_above d x :
  2 <= cap d ->
  AdjacencyList.above_UNLOAD_FACTOR (EdgeTypeMap.getLoad d x) = (6 * cap d <? 10 * x).
Proof.
  intros Hc. unfold AdjacencyList.above_UNLOAD_FACTOR, EdgeTypeMap.getLoad, SharedTypeMap.getLoad,
    js_div, SharedTypeMap.BUCKET_SIZE. change (SharedTypeMap.capacity d) with (cap d).
  destruct (Z.eqb_spec (cap d * 2) 0); [lia|]. unfold load_gt.
  destruct (Z.ltb_spec (3 * (cap d * 2)) (x * 10)); destruct (Z.ltb_spec (6 * cap d) (10 * x));
    auto; lia.
Qed.

Lemma makeRoom_none R f t ty s :
  2 <= cap (_edges s) ->
  10 * (cnt (_edges s) + 1 + del (_edges s)) <= 14 * cap (_edges s) ->
  makeRoom R f t ty s = (s, Return (EdgeTypeMap.hash (_edges s) f t ty)).
Proof.
  intros Hc Hload. unfold makeRoom. unfold bindM at 1. unfold edgesOf at 1. cbv zeta.
  rewrite edge_load_above by auto.
  change (EdgeTypeMap.count (_edges s)) with (cnt (_edges s)).
  change (EdgeTypeMap.deletes (_edges s)) with (del (_edges s)).
  destruct (Z.ltb_spec (14 * cap (_edges s)) (10 * (cnt (_edges s) + 1 + del (_edges s))));
    [lia|reflexivity].
Qed.

Lemma addressOf_absent d f t ty :
  EdgesOK d -> ~ In (mkEdge f t ty) (liveEdges d) ->
  EdgeTypeMap.addressOf d (EdgeTypeMap.hash d f t ty) f t ty = Return None.
Proof.
  intros OK Hnew. destruct (edge_addressOf d OK f t ty) as [r [Hr Hm]]. rewrite Hr.
  destruct r as [a|]; [|reflexivity]. exfalso. apply Hnew. destruct Hm as [Ha E].
  apply in_liveEdges. eauto.
Qed.

Lemma addressOf_present d f t ty :
  EdgesOK d -> In (mkEdge f t ty) (liveEdges d) ->
  exists a, EdgeTypeMap.addressOf d (EdgeTypeMap.hash d f t ty) f t ty = Return (Some a).
Proof.
  intros OK Hin. destruct (edge_addressOf d OK f t ty) as [r [Hr Hm]]. rewrite Hr.
  destruct r as [a|]; [eauto|contradiction].
Qed.

(** ** A call that finds the edge *)

Lemma addEdgeWith_present R s f t ty :
  EdgesOK (_edges s) -> 0 < ty -> In (mkEdge f t ty) (liveEdges (_edges s)) ->
  AdjacencyList.addEdgeWith R f t ty s = (s, Return false).
Proof.
  intros OK Hty Hin. rewrite addEdgeWith_stages.
  destruct (Z.gtb_spec ty 0); [|lia]. cbn [negb].
  destruct (addressOf_present _ f t ty OK Hin) as [a ->]. reflexivity.
Qed.

(** ** A call that does not resize the edge map *)

Lemma addEdgeWith_noresize R s f t ty :
  Inv s -> 0 <= t < nid (_nodes s) -> 0 <= f < nid (_nodes s) -> 0 < ty < 4294967296 ->
  ~ In (mkEdge f t ty) (liveEdges (_edges s)) ->
  10 * (cnt (_edges s) + 1 + del (_edges s)) <= 14 * cap (_edges s) ->
  (exists s', AdjacencyList.addEdgeWith R f t ty s = (s', Return true) /\ Stages s s' f t ty) \/
  AdjacencyList.addEdgeWith R f t ty s = (s, Throw NodeCapacityOverflow).
Proof.
  intros I Ht Hf Hty Hnew Hload. pose proof (iv_edges s I) as OK.
  pose proof (eo_cap _ OK) as Hc. pose proof (eo_words _ OK) as Hw.
  rewrite addEdgeWith_stages.
  destruct (Z.gtb_spec ty 0); [|lia]. cbn [negb].
  rewrite (addressOf_absent _ f t ty OK Hnew).
  rewrite (bindM_return _ _ _ _ _ (makeRoom_none R f t ty s ltac:(lia) Hload)).
  apply addTail_spec; auto.
  pose proof (Hw 1). pose proof (Hw 2). unfold cnt, del in *. lia.
Qed.

(** ** Replaying edges into a list *)

Definition validEdge (s : AdjacencyList) (x : Edge) : Prop :=
  0 <= to x < nid (_nodes s) /\ 0 <= from x < nid (_nodes s) /\ 0 < type x < 4294967296.

Lemma addAll_spec A L : forall s,
  (L <> [] -> exists R, A = AdjacencyList.addEdgeWith R) ->
  Inv s -> (forall x, In x L -> validEdge s x) ->
  NoDup (liveEdges (_edges s) ++ L) ->
  10 * (cnt (_edges s) + del (_edges s) + Z.of_nat (length L)) <= 14 * cap (_edges s) ->
  (exists s', AdjacencyList.addAll A L s = (s', Return tt) /\
      Inv s' /\ liveEdges (_edges s') = liveEdges (_edges s) ++ L /\
      nid (_nodes s') = nid (_nodes s) /\ cap (_edges s') = cap (_edges s) /\
      del (_edges s') = del (_edges s)) \/
  (exists s', AdjacencyList.addAll A L s = (s', Throw NodeCapacityOverflow)).
Proof.
  induction L as [|x L IH]; intros s HA I Hv Hnd Hload.
  - left. exists s. rewrite app_nil_r.
    split; [reflexivity|]. split; [exact I|]. split; [reflexivity|]. auto.
  - destruct HA as [R ->]; [discriminate|].
    cbn [length] in Hload. rewrite Nat2Z.inj_succ in Hload.
    destruct (Hv x (or_introl eq_refl)) as [V1 [V2 V3]].
    assert (Hnew : ~ In x (liveEdges (_edges s))).
    { intros H. apply NoDup_remove_2 in Hnd. apply Hnd. apply in_or_app. auto. }
    destruct x as [f t ty]. cbn [from to type] in V1, V2, V3.
    cbn [AdjacencyList.addAll from to type].
    destruct (addEdgeWith_noresize R s f t ty I V1 V2 V3 Hnew ltac:(lia)) as [[s1 [E1 ST]]|E1].
    2:{ right. exists s. apply (bindM_throw _ _ _ _ _ E1). }
    rewrite (bindM_return _ _ _ _ _ E1).
    pose proof (stages_added s s1 f t ty I ST) as EA.
    destruct (ea_hdr _ _ _ _ _ EA) as [C1 [C2 C3]].
    pose proof (ea_live _ _ _ _ _ EA) as El. pose proof (ea_nid _ _ _ _ _ EA) as En.
    destruct (IH s1 ltac:(eauto) (ea_inv _ _ _ _ _ EA)) as [[s' [E' [I' [L' [N' [K' D']]]]]]|[s' E']].
    + intros y Hy. destruct (Hv y (or_intror Hy)) as [Y1 [Y2 Y3]].
      unfold validEdge. rewrite En. auto.
    + rewrite El, <- app_assoc. exact Hnd.
    + rewrite C1, C2, C3. lia.
    + left. exists s'. split; [exact E'|]. split; [exact I'|].
      split; [rewrite L', El, <- app_assoc; reflexivity|].
      split; [congruence|]. split; congruence.
    + right. exists s'. exact E'.
Qed.

(** ** Fresh lists *)

Lemma empty_inv n d :
  NodesOK n -> (forall j, 3 <= j -> W n j = 0) ->
  EdgesOK d -> EdgesLinked d -> elive d = [] ->
  Inv (mkAdjacencyList n d Uint32Array).
Proof.
  intros NOK Hz OK LK Hl. constructor; cbn [_nodes _edges _typedArray]; auto.
  - rewrite Hl. intros x [].
  - rewrite Hl. intros x [].
  - intros v ty a Hv Hp. exfalso. apply (fresh_no_primary n v ty a Hz ltac:(lia) Hp).
Qed.

Lemma create_spec nc ec :
  2 <= nc <= NMAX -> 2 <= ec <= EMAX ->
  exists mn me,
    AdjacencyList.create (AdjacencyListOptions (Some nc) (Some ec) (Some Uint32Array)) =
      Return (mkAdjacencyList mn me Uint32Array) /\
    (kind mn = Uint32Array /\ TA.length mn = 3 + 13 * nc /\
     forall j, W mn j = if j =? 0 then nc else 0) /\
    (EdgesOK me /\ EdgesLinked me /\ elive me = [] /\
     forall j, W me j = if j =? 0 then ec else 0).
Proof.
  intros Hn He.
  destruct (fresh_nodes nc Hn) as [mn [En Fn]]. destruct (fresh_edges ec He) as [me [Ee Fe]].
  exists mn, me. split; [|auto].
  unfold AdjacencyList.create. change NodeTypeMap.MAX_CAPACITY with NMAX.
  change EdgeTypeMap.MAX_CAPACITY with EMAX.
  destruct (Z.leb_spec nc NMAX); [|lia]. destruct (Z.leb_spec ec EMAX); [|lia].
  cbn [negb]. rewrite En, Ee. reflexivity.
Qed.

(** ** [resizeEdges] *)

Lemma resizeEdgesWith_run A s size copy copy' :
  AdjacencyList.create (AdjacencyListOptions (Some (NodeTypeMap.capacity (_nodes s)))
                          (Some size) (Some (_typedArray s))) = Return copy ->
  AdjacencyList.addAll A
    (map (AdjacencyList.edgeAt (_edges s)) (SharedTypeMap.forEach EdgeTypeMap.layout (_edges s)))
    (mkAdjacencyList (NodeTypeMap.set_nextId (_nodes copy) (NodeTypeMap.nextId (_nodes s)))
       (_edges copy) (_typedArray copy)) = (copy', Return tt) ->
  EdgeTypeMap.count (_edges s) = EdgeTypeMap.count (_edges copy') ->
  AdjacencyList.resizeEdgesWith A size s =
  (mkAdjacencyList (_nodes copy') (_edges copy') (_typedArray s), Return true).
Proof.
  intros E1 E2 E3. unfold AdjacencyList.resizeEdgesWith. rewrite E1, E2, E3.
  rewrite Z.eqb_refl. reflexivity.
Qed.

Lemma resizeEdgesWith_throw A s size copy copy' e :
  AdjacencyList.create (AdjacencyListOptions (Some (NodeTypeMap.capacity (_nodes s)))
                          (Some size) (Some (_typedArray s))) = Return copy ->
  AdjacencyList.addAll A
    (map (AdjacencyList.edgeAt (_edges s)) (SharedTypeMap.forEach EdgeTypeMap.layout (_edges s)))
    (mkAdjacencyList (NodeTypeMap.set_nextId (_nodes copy) (NodeTypeMap.nextId (_nodes s)))
       (_edges copy) (_typedArray copy)) = (copy', Throw e) ->
  AdjacencyList.resizeEdgesWith A size s = (s, Throw e).
Proof.
  intros E1 E2. unfold AdjacencyList.resizeEdgesWith. rewrite E1, E2. reflexivity.
Qed.

(** The list after [resizeEdges]: the same live edges, in the same order, in
    a fresh edge map without deleted records. *)
Record Resized (s s' : AdjacencyList) (size : Z) : Prop := {
  rz_inv : Inv s';
  rz_live : liveEdges (_edges s') = liveEdges (_edges s);
  rz_nid : nid (_nodes s') = nid (_nodes s);
  rz_hdr : cap (_edges s') = size /\ cnt (_edges s') = cnt (_edges s) /\ del (_edges s') = 0
}.

Lemma live_valid s x :
  Inv s -> In x (liveEdges (_edges s)) -> validEdge s x.
Proof.
  intros I Hx. apply in_liveEdges in Hx as [a [Ha <-]]. rewrite edgeAt_W.
  unfold validEdge. cbn [from to type].
  destruct (iv_ids s I a Ha) as [H1 H2]. pose proof (eo_words _ (iv_edges s I)) as Hw.
  apply in_elive in Ha as [_ Hnz].
  pose proof (Hw (a + 1)). pose proof (Hw (a + 2)). pose proof (Hw (a + 3)). lia.
Qed.

Lemma resizeEdgesWith_spec A s size :
  (liveEdges (_edges s) <> [] -> exists R, A = AdjacencyList.addEdgeWith R) ->
  Inv s -> 2 <= size <= EMAX -> 10 * cnt (_edges s) <= 14 * size ->
  (exists s', AdjacencyList.resizeEdgesWith A size s = (s', Return true) /\
              Resized s s' size) \/
  AdjacencyList.resizeEdgesWith A size s = (s, Throw NodeCapacityOverflow).
Proof.
  intros HA.
  intros I Hsize Hload. destruct s as [n d ta]. cbn [_edges] in Hload.
  pose proof (iv_kind _ I) as Hta. cbn [_typedArray] in Hta. subst ta.
  pose proof (iv_nodes _ I) as NOK. pose proof (iv_edges _ I) as OK. cbn [_nodes _edges] in NOK, OK.
  pose proof (no_cap n NOK) as Hnc. pose proof (no_ids n NOK) as Hni.
  pose proof (no_words n NOK 2) as Hn2. fold (nid n) in Hn2.
  destruct (create_spec (cap n) size Hnc Hsize) as [mn [me [Ec [[Kn [Ln Wn]] [EOK [ELK [Elive We]]]]]]].
  destruct (fresh_nodes_nextId mn (cap n) (nid n) Kn Ln Wn ltac:(lia) Hn2) as [Kn' [Ln' Wn']].
  set (n0 := NodeTypeMap.set_nextId mn (nid n)) in *.
  assert (NOK0 : NodesOK n0).
  { apply (empty_nodes_ok n0 (cap n) (nid n)); auto; lia. }
  assert (I0 : Inv (mkAdjacencyList n0 me Uint32Array)).
  { apply empty_inv; auto. intros j Hj. rewrite Wn'. ifs. }
  assert (Hcnt0 : cnt me = 0 /\ del me = 0 /\ cap me = size).
  { unfold cnt, del, cap. rewrite !We. auto. }
  destruct Hcnt0 as [Z1 [Z2 Z3]].
  assert (Hnid0 : nid n0 = nid n) by (unfold nid; rewrite Wn'; reflexivity).
  assert (Hl0 : liveEdges me = []) by (unfold liveEdges; rewrite Elive; reflexivity).
  destruct (addAll_spec A (liveEdges d) (mkAdjacencyList n0 me Uint32Array) HA I0)
    as [[s' [E' [I' [L' [N' [K' D']]]]]]|[s' E']]; cbn [_nodes _edges].
  - intros x Hx. pose proof (live_valid _ x I Hx) as V. unfold validEdge in *.
    cbn [_nodes] in *. rewrite Hnid0. exact V.
  - rewrite Hl0. cbn [app]. apply (eo_uniq d OK).
  - rewrite Z1, Z2, Z3. unfold liveEdges. rewrite length_map, <- (eo_count d OK). lia.
  - left. exists (mkAdjacencyList (_nodes s') (_edges s') Uint32Array).
    cbn [_nodes _edges] in L', N', K', D'. rewrite Hl0 in L'. cbn [app] in L'.
    assert (Ecnt : cnt d = cnt (_edges s')).
    { rewrite (eo_count d OK), (eo_count _ (iv_edges _ I')).
      assert (El : length (elive d) = length (elive (_edges s'))).
      { rewrite <- (length_map (AdjacencyList.edgeAt d)),
          <- (length_map (AdjacencyList.edgeAt (_edges s'))).
        fold (liveEdges d). fold (liveEdges (_edges s')). now rewrite L'. }
      now rewrite El. }
    split.
    + apply (resizeEdgesWith_run A
               (mkAdjacencyList n d Uint32Array) size (mkAdjacencyList mn me Uint32Array) s');
        cbn [_nodes _edges _typedArray]; auto.
      rewrite (forEach_elive d OK). exact E'.
    + assert (Es : mkAdjacencyList (_nodes s') (_edges s') Uint32Array = s').
      { destruct s' as [a b c]. pose proof (iv_kind _ I') as Hk. cbn in Hk. subst c. reflexivity. }
      rewrite Es. constructor; cbn [_nodes _edges].
      * exact I'.
      * exact L'.
      * congruence.
      * split; [congruence|]. split; congruence.
  - right. apply (resizeEdgesWith_throw A
               (mkAdjacencyList n d Uint32Array) size (mkAdjacencyList mn me Uint32Array) s');
      cbn [_nodes _edges _typedArray]; auto.
    rewrite (forEach_elive d OK). exact E'.
Qed.

(** ** The next capacity of the edge map *)

Lemma Math_round_ge z q : (inject_Z z <= q)%Q -> z <= Math_round q.
Proof.
  intros H. unfold Math_round. rewrite <- (Qfloor_Z z). apply Qfloor_resp_le. lra.
Qed.

Lemma growFactor_ge pct :
  (2 <= AdjacencyList.interpolate AdjacencyList.MAX_GROW_FACTOR AdjacencyList.MIN_GROW_FACTOR pct)%Q.
Proof.
  unfold AdjacencyList.interpolate, AdjacencyList.MAX_GROW_FACTOR, AdjacencyList.MIN_GROW_FACTOR.
  pose proof (Q.le_min_l 1 (Qmax 0 pct)) as H.
  generalize dependent (Qmin 1 (Qmax 0 pct)). intros m H. lra.
Qed.

Lemma Math_round_grow c g : 0 <= c -> (2 <= g)%Q -> 2 * c <= Math_round (inject_Z c * g).
Proof.
  intros Hc Hg. apply Math_round_ge. rewrite inject_Z_mult.
  assert (H : (0 <= inject_Z c)%Q) by (unfold Qle, inject_Z; cbn [Qnum Qden]; lia).
  generalize dependent (inject_Z c). intros q Hq. change (inject_Z 2) with 2%Q. nra.
Qed.

Lemma Math_round_half c :
  Math_round (inject_Z c * AdjacencyList.SHRINK_FACTOR) = (c + 1) / 2.
Proof.
  unfold Math_round, AdjacencyList.SHRINK_FACTOR, Qfloor, Qplus, Qmult, inject_Z.
  cbn [Qnum Qden]. change (Z.pos (1 * 2 * 2)) with (2 * 2). change (Z.pos (1 * 2)) with 2.
  change (Z.pos 2) with 2.
  replace (c * 1 * 2 + 1 * 2) with ((c + 1) * 2) by lia.
  rewrite Z.div_mul_cancel_r by lia. reflexivity.
Qed.

Lemma getNextEdgeCapacity_spec d x :
  2 <= cap d <= EMAX ->
  AdjacencyList.getNextEdgeCapacity (cap d) x (EdgeTypeMap.getLoad d x) = Throw EdgeCapacityOverflow \/
  exists size,
    AdjacencyList.getNextEdgeCapacity (cap d) x (EdgeTypeMap.getLoad d x) = Return size /\
    2 <= size <= EMAX /\
    (14 * cap d < 10 * x -> 2 * cap d <= size) /\
    (10 * x < 6 * cap d -> cap d <= 2 * size) /\
    (6 * cap d <= 10 * x <= 14 * cap d -> size = cap d).
Proof.
  intros Hc. unfold AdjacencyList.getNextEdgeCapacity. rewrite edge_load_above by lia.
  change EdgeTypeMap.MAX_CAPACITY with EMAX. unfold EdgeTypeMap.MIN_CAPACITY.
  destruct (Z.ltb_spec (14 * cap d) (10 * x)) as [Hg|Hg].
  - (* grow *)
    match goal with |- context [Math_round ?q] => pose proof (Math_round_grow (cap d)
        (AdjacencyList.interpolate AdjacencyList.MAX_GROW_FACTOR AdjacencyList.MIN_GROW_FACTOR
           (inject_Z (cap d) / inject_Z EdgeTypeMap.PEAK_CAPACITY)) ltac:(lia)
        (growFactor_ge _)) as Hr; generalize dependent (Math_round q) end.
    intros g Hr. destruct (Z.leb_spec g EMAX); cbn [negb]; [right|left; reflexivity].
    exists (Z.max 2 g). split; [reflexivity|]. rewrite Z.max_r by lia.
    split; [lia|]. split; [auto|]. split; intros; lia.
  - assert (Eb : AdjacencyList.below_UNLOAD_FACTOR (EdgeTypeMap.getLoad d x) = (10 * x <? 6 * cap d)).
    { unfold AdjacencyList.below_UNLOAD_FACTOR, EdgeTypeMap.getLoad, SharedTypeMap.getLoad,
        js_div, SharedTypeMap.BUCKET_SIZE. change (SharedTypeMap.capacity d) with (cap d).
      destruct (Z.eqb_spec (cap d * 2) 0); [lia|]. unfold load_lt.
      destruct (Z.ltb_spec (x * 10) (3 * (cap d * 2))); destruct (Z.ltb_spec (10 * x) (6 * cap d));
        auto; lia. }
    rewrite Eb. destruct (Z.ltb_spec (10 * x) (6 * cap d)) as [Hs|Hs].
    + (* shrink *)
      rewrite Math_round_half.
      assert (Hh : 2 * ((cap d + 1) / 2) <= cap d + 1 < 2 * ((cap d + 1) / 2) + 2).
      { pose proof (Z.div_mod (cap d + 1) 2 ltac:(lia)).
        pose proof (Z.mod_pos_bound (cap d + 1) 2 ltac:(lia)). lia. }
      generalize dependent ((cap d + 1) / 2). intros h Hh.
      destruct (Z.leb_spec h EMAX); [|lia]. cbn [negb]. right.
      exists (Z.max 2 h). split; [reflexivity|]. split; [lia|]. split; intros; lia.
    + destruct (Z.leb_spec (cap d) EMAX); [|lia]. cbn [negb]. right.
      exists (Z.max 2 (cap d)). split; [reflexivity|]. rewrite Z.max_r by lia.
      split; [lia|]. split; intros; lia.
Qed.

(** ** A call that resizes the edge map *)

Lemma makeRoom_unfold R f t ty s :
  2 <= cap (_edges s) ->
  makeRoom R f t ty s =
  if 14 * cap (_edges s) <? 10 * (cnt (_edges s) + 1 + del (_edges s)) then
    let x := if 6 * cap (_edges s) <? 10 * del (_edges s)
             then cnt (_edges s) + 1 else cnt (_edges s) + 1 + del (_edges s) in
    bindM (size <~ liftC (AdjacencyList.getNextEdgeCapacity (cap (_edges s)) x
                            (EdgeTypeMap.getLoad (_edges s) x)) ;;
           R size)
          (fun _ => edges <~ edgesOf ;; ret (EdgeTypeMap.hash edges f t ty)) s
  else (s, Return (EdgeTypeMap.hash (_edges s) f t ty)).
Proof.
  intros Hc. unfold makeRoom. unfold bindM at 1. unfold edgesOf at 1. cbv zeta.
  rewrite edge_load_above, edge_unload_above by lia.
  change (EdgeTypeMap.count (_edges s)) with (cnt (_edges s)).
  change (EdgeTypeMap.deletes (_edges s)) with (del (_edges s)).
  change (EdgeTypeMap.capacity (_edges s)) with (cap (_edges s)).
  destruct (14 * cap (_edges s) <? 10 * (cnt (_edges s) + 1 + del (_edges s))); [|reflexivity].
  destruct (6 * cap (_edges s) <? 10 * del (_edges s)); reflexivity.
Qed.

Lemma makeRoom_resize A f t ty s :
  (liveEdges (_edges s) <> [] -> exists R, A = AdjacencyList.addEdgeWith R) ->
  Inv s -> 14 * cap (_edges s) < 10 * (cnt (_edges s) + 1 + del (_edges s)) ->
  (exists s' size,
     makeRoom (AdjacencyList.resizeEdgesWith A) f t ty s =
       (s', Return (EdgeTypeMap.hash (_edges s') f t ty)) /\
     Resized s s' size /\ cnt (_edges s') + del (_edges s') < 2 * cap (_edges s')) \/
  (exists e, makeRoom (AdjacencyList.resizeEdgesWith A) f t ty s = (s, Throw e) /\
             (e = NodeCapacityOverflow \/ e = EdgeCapacityOverflow)).
Proof.
  intros HA I Hload. pose proof (iv_edges s I) as OK.
  pose proof (eo_cap _ OK) as Hc. pose proof (eo_words _ OK) as Hw.
  pose proof (eo_used _ OK) as Hu.
  assert (H1 : 0 <= cnt (_edges s)) by apply Hw. assert (H2 : 0 <= del (_edges s)) by apply Hw.
  rewrite makeRoom_unfold by lia.
  destruct (Z.ltb_spec (14 * cap (_edges s)) (10 * (cnt (_edges s) + 1 + del (_edges s))));
    [|lia].
  cbv zeta.
  assert (Hx : exists x, (if 6 * cap (_edges s) <? 10 * del (_edges s)
                          then cnt (_edges s) + 1 else cnt (_edges s) + 1 + del (_edges s)) = x /\
                         (14 * cap (_edges s) < 10 * x \/ x = cnt (_edges s) + 1)).
  { destruct (6 * cap (_edges s) <? 10 * del (_edges s)); eexists; split; eauto. }
  destruct Hx as [x [-> Hx]].
  destruct (getNextEdgeCapacity_spec (_edges s) x Hc) as [Eg|[size [Eg [Hs [G1 [G2 G3]]]]]].
  - right. exists EdgeCapacityOverflow. split; [|auto].
    rewrite bindM_assoc. apply bindM_throw. unfold liftC. rewrite Eg. reflexivity.
  - assert (Hfit : 10 * cnt (_edges s) <= 14 * size).
    { clear - Hx G1 G2 G3 Hu Hc Hs H1 H2.
      destruct (Z.lt_ge_cases (14 * cap (_edges s)) (10 * x)); [specialize (G1 ltac:(lia)); lia|].
      destruct (Z.lt_ge_cases (10 * x) (6 * cap (_edges s))); [specialize (G2 ltac:(lia)); lia|].
      specialize (G3 ltac:(lia)). lia. }
    destruct (resizeEdgesWith_spec A s size HA I Hs Hfit) as [[s' [Er RZ]]|Er].
    + left. exists s', size. destruct (rz_hdr _ _ _ RZ) as [R1 [R2 R3]].
      split; [|split; [exact RZ|rewrite R1, R2, R3; clear - Hfit Hs H1; lia]].
      rewrite bindM_assoc.
      rewrite (bindM_return _ _ s s size) by (unfold liftC; rewrite Eg; reflexivity).
      rewrite (bindM_return _ _ _ _ _ Er). reflexivity.
    + right. exists NodeCapacityOverflow. split; [|auto].
      rewrite bindM_assoc.
      rewrite (bindM_return _ _ s s size) by (unfold liftC; rewrite Eg; reflexivity).
      apply (bindM_throw _ _ _ _ _ Er).
Qed.

(** ** [addEdge] *)

Lemma addEdge_unfold f t ty s :
  AdjacencyList.addEdge f t ty s =
  AdjacencyList.addEdgeWith
    (AdjacencyList.resizeEdgesWith (AdjacencyList.addEdgeN (Z.to_nat (cnt (_edges s))))) f t ty s.
Proof. reflexivity. Qed.

Lemma replay_ok s :
  EdgesOK (_edges s) -> liveEdges (_edges s) <> [] ->
  exists R, AdjacencyList.addEdgeN (Z.to_nat (cnt (_edges s))) = AdjacencyList.addEdgeWith R.
Proof.
  intros OK Hne. rewrite (eo_count _ OK), Nat2Z.id.
  unfold liveEdges in Hne. destruct (elive (_edges s)) as [|a l]; [contradiction|].
  cbn [length AdjacencyList.addEdgeN]. eauto.
Qed.

Lemma addEdge_present s f t ty :
  EdgesOK (_edges s) -> 0 < ty -> In (mkEdge f t ty) (liveEdges (_edges s)) ->
  AdjacencyList.addEdge f t ty s = (s, Return false).
Proof. intros OK Hty Hin. rewrite addEdge_unfold. now apply addEdgeWith_present. Qed.

(** The outcome of a call with a new edge between two nodes of the list. *)
Lemma addEdge_absent s f t ty :
  Inv s -> 0 <= t < nid (_nodes s) -> 0 <= f < nid (_nodes s) -> 0 < ty < 4294967296 ->
  ~ In (mkEdge f t ty) (liveEdges (_edges s)) ->
  (exists s', AdjacencyList.addEdge f t ty s = (s', Return true) /\ Inv s' /\
              liveEdges (_edges s') = liveEdges (_edges s) ++ [mkEdge f t ty] /\
              nid (_nodes s') = nid (_nodes s)) \/
  (exists s' e, AdjacencyList.addEdge f t ty s = (s', Throw e) /\
                (e = NodeCapacityOverflow \/ e = EdgeCapacityOverflow)).
Proof.
  intros I Ht Hf Hty Hnew. pose proof (iv_edges s I) as OK.
  rewrite addEdge_unfold.
  set (A := AdjacencyList.addEdgeN (Z.to_nat (cnt (_edges s)))).
  destruct (Z.le_gt_cases (10 * (cnt (_edges s) + 1 + del (_edges s))) (14 * cap (_edges s)))
    as [Hload|Hload].
  - destruct (addEdgeWith_noresize (AdjacencyList.resizeEdgesWith A) s f t ty I Ht Hf Hty Hnew Hload)
      as [[s' [E ST]]|E].
    + left. exists s'. pose proof (stages_added s s' f t ty I ST) as EA.
      split; [exact E|]. split; [exact (ea_inv _ _ _ _ _ EA)|].
      split; [exact (ea_live _ _ _ _ _ EA)|exact (ea_nid _ _ _ _ _ EA)].
    + right. exists s, NodeCapacityOverflow. auto.
  - rewrite addEdgeWith_stages.
    destruct (Z.gtb_spec ty 0); [|lia]. cbn [negb].
    rewrite (addressOf_absent _ f t ty OK Hnew).
    destruct (makeRoom_resize A f t ty s (replay_ok s OK) I ltac:(lia))
      as [[s1 [size [E1 [RZ Hroom]]]]|[e [E1 He]]].
    2:{ right. exists s, e. split; [|exact He]. apply (bindM_throw _ _ _ _ _ E1). }
    rewrite (bindM_return _ _ _ _ _ E1).
    pose proof (rz_live _ _ _ RZ) as El. pose proof (rz_nid _ _ _ RZ) as En.
    destruct (addTail_spec s1 f t ty (rz_inv _ _ _ RZ)) as [[s' [E ST]]|E];
      try (rewrite En; assumption); try (rewrite El; assumption); auto.
    + left. exists s'. pose proof (stages_added s1 s' f t ty (rz_inv _ _ _ RZ) ST) as EA.
      split; [exact E|]. split; [exact (ea_inv _ _ _ _ _ EA)|].
      split; [rewrite (ea_live _ _ _ _ _ EA), El; reflexivity|].
      rewrite (ea_nid _ _ _ _ _ EA). exact En.
    + right. exists s1, NodeCapacityOverflow. auto.
Qed.

(** * [addNode] *)

(** ** A store into [nextId] *)

Section NodeHeader.

Variables n n1 : TypedArray.
Hypothesis OK : NodesOK n.
Variable x : Z.
Hypothesis Hx : 0 <= x < 4294967296.
Hypothesis Hk : kind n1 = kind n.
Hypothesis Hl : TA.length n1 = TA.length n.
Hypothesis HW : forall j, W n1 j = if j =? 2 then x else W n j.

Lemma hd_hdr : cap n1 = cap n /\ cnt n1 = cnt n /\ nid n1 = x.
Proof. unfold cap, cnt, nid. rewrite !HW. auto. Qed.

Lemma hd_slot a : In a (nslots n) -> forall g, 0 <= g < 6 -> W n1 (a + g) = W n (a + g).
Proof.
  intros Ha g Hg. rewrite HW. apply (nslots_bounds n OK) in Ha. pose proof (no_cap n OK).
  destruct (Z.eqb_spec (a + g) 2); [lia|reflexivity].
Qed.

Lemma hd_table h : 0 <= h -> W n1 (3 + h) = W n (3 + h).
Proof. intros Hh. rewrite HW. destruct (Z.eqb_spec (3 + h) 2); [lia|reflexivity]. Qed.

Lemma hd_nslots : nslots n1 = nslots n.
Proof. destruct hd_hdr as [E1 [E2 _]]. unfold nslots. now rewrite E1, E2. Qed.

Lemma hd_chain a l : (forall y, In y l -> In y (nslots n)) -> chain n a l -> chain n1 a l.
Proof.
  intros Hsub. apply chain_frame. intros y Hy.
  rewrite <- (Z.add_0_r y). apply hd_slot; auto. lia.
Qed.

Lemma hd_primary v ty a : 0 <= v < cap n -> primary n1 v ty a <-> primary n v ty a.
Proof.
  intros Hv. destruct (node_chain n OK v Hv) as [l [Hl' [_ [Hsub _]]]].
  assert (Hl1 : chain n1 (W n1 (3 + v)) l).
  { rewrite hd_table by lia. apply hd_chain; auto. }
  assert (E : firstOfType n1 ty l = firstOfType n ty l).
  { apply firstOfType_frame. intros y Hy. apply hd_slot; auto. lia. }
  split; intros [l0 [Hl0 H0]].
  - rewrite (chain_fun _ _ _ _ Hl0 Hl1) in H0. exists l. split; auto. congruence.
  - rewrite (chain_fun _ _ _ _ Hl0 Hl') in H0. exists l. split; auto. congruence.
Qed.

Lemma hd_ok : 10 * x <= 7 * cap n -> NodesOK n1.
Proof.
  intros Hload. destruct hd_hdr as [E1 [E2 E3]]. pose proof (no_cap n OK) as Hc.
  constructor.
  - rewrite Hk. apply (no_kind n OK).
  - now rewrite E1.
  - rewrite Hl, E1. apply (no_len n OK).
  - intros i. rewrite HW. pose proof (no_words n OK i). destruct (i =? 2); auto.
  - rewrite E1, E2. apply (no_used n OK).
  - rewrite E1, E3. exact Hload.
  - intros k f Hk' Hf. rewrite E1, E2 in Hk'. unfold naddr. rewrite E1, HW.
    assert (Hc1 : 0 <= cnt n) by apply (no_words n OK).
    destruct (Z.eqb_spec (3 + cap n + 6 * k + f) 2); [lia|].
    apply (no_zero n OK k f Hk' Hf).
  - destruct (no_chains n OK) as [owner [Hch Hown]]. exists owner. rewrite hd_nslots. split; [|now rewrite E1].
    apply (Chains_ext n n1 (fun a => In a (nslots n)) _ owner owner Hch E1).
    + intros h Hh. apply hd_table. lia.
    + intros a Ha. rewrite <- (Z.add_0_r a). apply hd_slot; auto. lia.
    + tauto.
    + auto.
Qed.

End NodeHeader.

Lemma resized_header n n1 size x j :
  0 <= cap n <= size -> (forall j, W n1 j = if j =? 2 then x else W n j) ->
  resized n1 size j = if j =? 2 then x else resized n size j.
Proof.
  intros Hc HW. unfold resized.
  replace (cap n1) with (cap n) by (unfold cap; rewrite HW; reflexivity).
  cbv zeta. rewrite !HW.
  destruct (Z.eqb_spec j 2) as [->|Hj2].
  - destruct (Z.eqb_spec 2 0); [lia|]. destruct (Z.ltb_spec 2 3); [reflexivity|lia].
  - destruct (Z.eqb_spec j 0); [reflexivity|]. destruct (Z.ltb_spec j 3); [reflexivity|].
    destruct (Z.ltb_spec j (3 + cap n)); [reflexivity|].
    destruct (Z.ltb_spec j (3 + size)); [reflexivity|].
    destruct (Z.eqb_spec (j - (size - cap n)) 2); [lia|reflexivity].
Qed.

(** ** The call *)

Lemma addNode_run_plain n d ta :
  AdjacencyList.above_LOAD_FACTOR (NodeTypeMap.load (TA.add n 2 1)) = false ->
  AdjacencyList.addNode (mkAdjacencyList n d ta) =
  (mkAdjacencyList (TA.add n 2 1) d ta, Return (NodeTypeMap.nextId n)).
Proof.
  intros H. unfold AdjacencyList.addNode, onNodes, bindM, nodesOf, liftC, setNodes, ret.
  cbn [_nodes _edges _typedArray NodeTypeMap.getId fst snd].
  unfold NodeTypeMap._NEXT_ID. rewrite H. reflexivity.
Qed.

Lemma addNode_run_throw n d ta e :
  AdjacencyList.above_LOAD_FACTOR (NodeTypeMap.load (TA.add n 2 1)) = true ->
  AdjacencyList.increaseNodeCapacity (cap (TA.add n 2 1)) = Throw e ->
  AdjacencyList.addNode (mkAdjacencyList n d ta) =
  (mkAdjacencyList (TA.add n 2 1) d ta, Throw e).
Proof.
  intros H1 H2. unfold AdjacencyList.addNode, onNodes, bindM, nodesOf, liftC, setNodes, ret.
  cbn [_nodes _edges _typedArray NodeTypeMap.getId fst snd].
  unfold NodeTypeMap._NEXT_ID. rewrite H1.
  change (NodeTypeMap.capacity (TA.add n 2 1)) with (cap (TA.add n 2 1)). rewrite H2. reflexivity.
Qed.

Lemma addNode_run_resize n d ta size n' :
  AdjacencyList.above_LOAD_FACTOR (NodeTypeMap.load (TA.add n 2 1)) = true ->
  AdjacencyList.increaseNodeCapacity (cap (TA.add n 2 1)) = Return size ->
  AdjacencyList.resizeNodes size (mkAdjacencyList (TA.add n 2 1) d ta) =
    (mkAdjacencyList n' d ta, Return tt) ->
  AdjacencyList.addNode (mkAdjacencyList n d ta) =
  (mkAdjacencyList n' d ta, Return (NodeTypeMap.nextId n)).
Proof.
  intros H1 H2 H3. unfold AdjacencyList.addNode, onNodes, bindM, nodesOf, liftC, setNodes, ret.
  cbn [_nodes _edges _typedArray NodeTypeMap.getId fst snd].
  unfold NodeTypeMap._NEXT_ID. rewrite H1.
  change (NodeTypeMap.capacity (TA.add n 2 1)) with (cap (TA.add n 2 1)). rewrite H2, H3.
  reflexivity.
Qed.

(** The outcome of [addNode]: the next id, or a capacity overflow. *)
Lemma addNode_spec s :
  Inv s ->
  (exists s', AdjacencyList.addNode s = (s', Return (nid (_nodes s))) /\ Inv s' /\
              nid (_nodes s') = nid (_nodes s) + 1 /\ _edges s' = _edges s /\
              cnt (_nodes s') = cnt (_nodes s) /\ kept (_nodes s) (_nodes s')) \/
  (exists s', AdjacencyList.addNode s = (s', Throw NodeCapacityOverflow)).
Proof.
  intros I. destruct s as [n d ta]. cbn [_nodes _edges _typedArray] in *.
  pose proof (iv_nodes _ I) as OK. cbn [_nodes] in OK.
  pose proof (no_cap n OK) as Hc. pose proof (no_ids n OK) as Hi.
  pose proof (no_words n OK) as Hw. pose proof (no_len n OK) as Hlen.
  pose proof (no_kind n OK) as Hk. pose proof (no_used n OK) as Hu.
  assert (Hn0 : 0 <= nid n) by apply Hw. assert (Hc0 : 0 <= cnt n) by apply Hw.
  unfold NMAX in Hc.
  set (n1 := TA.add n 2 1).
  assert (E1 : n1 = TA.set n 2 (nid n + 1)) by (apply TA_add_set; lia).
  assert (K1 : kind n1 = kind n) by (rewrite E1; apply TA_kind_set).
  assert (L1 : TA.length n1 = TA.length n) by (rewrite E1; apply TA_length_set).
  assert (W1 : forall j, W n1 j = if j =? 2 then nid n + 1 else W n j).
  { intros j. rewrite E1. Wset. reflexivity. }
  assert (Hx : 0 <= nid n + 1 < 4294967296) by lia.
  destruct (hd_hdr n n1 (nid n + 1) W1) as [C1 [C2 C3]].
  destruct (AdjacencyList.above_LOAD_FACTOR (NodeTypeMap.load n1)) eqn:Eload.
  - (* the node map grows *)
    pose proof (increaseNodeCapacity_spec (cap n1) ltac:(lia)) as Einc.
    destruct (Z.leb_spec (2 * cap n1) NMAX) as [Hmax|Hmax].
    2:{ right. eexists. apply addNode_run_throw; eauto. }
    left. rewrite C1 in Hmax.
    assert (Hsz : cap n <= 2 * cap n <= NMAX) by lia.
    destruct (resizeNodes_spec (mkAdjacencyList n d ta) OK (2 * cap n) Hsz) as [n' [_ R]].
    cbn [_nodes] in R.
    assert (P1 : 2 <= cap n1) by (rewrite C1; lia).
    assert (P2 : cap n1 <= 2 * cap n <= NMAX) by (rewrite C1; lia).
    assert (P3 : TA.length n1 = 3 + 13 * cap n1) by (rewrite C1, L1; exact Hlen).
    assert (P4 : forall i, 0 <= W n1 i < 4294967296).
    { intros i. rewrite W1. destruct (i =? 2); auto. }
    assert (P5 : forall j, (3 <= j < 3 + cap n1 \/ exists k, 0 <= k < 2 * cap n1 /\ j = naddr n1 k) ->
                 W n1 j <= 3 + 13 * cap n1).
    { intros j Hj. rewrite W1. rewrite C1 in *.
      assert (Hj2 : j <> 2) by (destruct Hj as [?|[k [? ->]]]; unfold naddr; rewrite ?C1; lia).
      destruct (Z.eqb_spec j 2); [contradiction|]. apply (node_ptrs n OK).
      destruct Hj as [?|[k [? ->]]]; [left; lia|right]. exists k. unfold naddr. rewrite C1. auto. }
    destruct (resizeNodes_stores (mkAdjacencyList n1 d ta) (2 * cap n) P1 P2 P3 P4 P5)
      as [n1' [Er [K' [L' W']]]].
    cbn [_nodes _edges _typedArray] in Er, W'.
    pose proof (nr_ok _ _ _ R) as OK'. destruct (nr_hdr _ _ _ R) as [D1 [D2 D3]].
    cbn [_nodes] in D1, D2, D3.
    assert (W1' : forall j, W n1' j = if j =? 2 then nid n + 1 else W n' j).
    { intros j. rewrite W', (nr_words _ _ _ R). cbn [_nodes]. apply resized_header; auto. lia. }
    assert (K1' : kind n1' = kind n') by (rewrite (no_kind n' OK'); exact K').
    assert (L1' : TA.length n1' = TA.length n') by (rewrite (no_len n' OK'), D1; exact L').
    destruct (hd_hdr n' n1' (nid n + 1) W1') as [F1 [F2 F3]].
    assert (OK1' : NodesOK n1').
    { apply (hd_ok n' n1' OK' (nid n + 1) Hx K1' L1' W1'). rewrite D1. lia. }
    exists (mkAdjacencyList n1' d ta). split.
    { rewrite C1 in Einc at 2.
      exact (addNode_run_resize n d ta (2 * cap n) n1' Eload Einc Er). }
    cbn [_nodes _edges].
    assert (Hkept : kept n n1').
    { split; [rewrite F1, D1; lia|]. intros v ty a Hv Hp. rewrite F1, D1.
      apply (hd_primary n' n1' OK' (nid n + 1) W1'); [lia|].
      apply (nr_primary _ _ _ R); auto. }
    split; [|split; [exact F3|split; [reflexivity|split; [congruence|exact Hkept]]]].
    set (delta := 2 * cap n - cap n).
    apply (inv_nodes (mkAdjacencyList n d ta) n1' delta I OK1'); cbn [_nodes _edges].
    + rewrite F3. lia.
    + intros v ty a Hv Hp. apply (hd_primary n' n1' OK' (nid n + 1) W1'); [lia|].
      apply (nr_primary _ _ _ R); auto.
    + intros v ty a' Hv Hp. right. rewrite F1, D1 in Hv.
      apply (hd_primary n' n1' OK' (nid n + 1) W1') in Hp; [|lia].
      destruct (nr_primary_inv _ _ _ R v ty a' Hv Hp) as [Hv' Hp']. cbn [_nodes] in Hv', Hp'.
      split; [auto|]. split; [auto|].
      destruct (primary_record n OK v ty _ Hv' Hp') as [Hs _].
      pose proof (nr_record _ _ _ R (a' - delta) 4 Hs ltac:(lia)) as E4.
      pose proof (nr_record _ _ _ R (a' - delta) 5 Hs ltac:(lia)) as E5.
      cbn [_nodes] in E4, E5. change (2 * cap n - cap n) with delta in E4, E5.
      replace (a' - delta + delta) with a' in E4, E5 by lia.
      destruct (primary_record n' OK' v ty a' ltac:(lia) Hp) as [Hs' _].
      rewrite (hd_slot n' n1' OK' (nid n + 1) W1' a' Hs' 4), (hd_slot n' n1' OK' (nid n + 1) W1' a' Hs' 5)
        by lia.
      auto.
  - (* the node map is large enough *)
    left. destruct (node_load_above n1) as [A1 A2]; auto; rewrite ?C1, ?C2, ?C3; try lia.
    rewrite C1, C3 in A1.
    assert (OK1 : NodesOK n1) by (apply (hd_ok n n1 OK (nid n + 1) Hx K1 L1 W1); exact A1).
    exists (mkAdjacencyList n1 d ta). split; [apply addNode_run_plain; exact Eload|].
    cbn [_nodes _edges].
    assert (Hkept : kept n n1).
    { apply kept_same; [exact C1|]. intros v ty a Hv Hp.
      apply (hd_primary n n1 OK (nid n + 1) W1); auto. }
    split; [|split; [exact C3|split; [reflexivity|split; [exact C2|exact Hkept]]]].
    apply (inv_nodes (mkAdjacencyList n d ta) n1 0 I OK1); cbn [_nodes _edges].
    + rewrite C3. lia.
    + intros v ty a Hv Hp. rewrite Z.add_0_r. apply (hd_primary n n1 OK (nid n + 1) W1); auto.
    + intros v ty a' Hv Hp. right. rewrite C1 in Hv. rewrite Z.sub_0_r.
      apply (hd_primary n n1 OK (nid n + 1) W1) in Hp; [|lia].
      split; [auto|]. split; [auto|].
      destruct (primary_record n OK v ty a' Hv Hp) as [Hs _].
      split; apply (hd_slot n n1 OK (nid n + 1) W1 a' Hs); lia.
Qed.

(** * Histories of calls *)

(** A call of one of the three methods that change the list. *)
Inductive Op :=
| AddNode
| AddEdge (from to type : Z)
| RemoveEdge (from to type : Z).

(** The list after one more call. *)
Definition call (c : Completion AdjacencyList) (o : Op) : Completion AdjacencyList :=
  match o with
  | AddNode => after c AdjacencyList.addNode
  | AddEdge f t ty => after c (AdjacencyList.addEdge f t ty)
  | RemoveEdge f t ty => after c (AdjacencyList.removeEdge f t ty)
  end.

(** The list after the calls [ops], in order, on the list [c]. *)
Definition run (ops : list Op) (c : Completion AdjacencyList) : Completion AdjacencyList :=
  fold_left call ops c.

(** An [addEdge] call of a history is well-formed when its two nodes are ids
    that [addNode] has returned ([k] of them so far) and its type is a
    positive number that fits a 32-bit word. *)
Definition validOp (k : Z) (o : Op) : bool :=
  match o with
  | AddEdge f t ty =>
      (0 <=? f) && (f <? k) && (0 <=? t) && (t <? k) && (0 <? ty) && (ty <? 4294967296)
  | _ => true
  end.

Definition nodesAfter (k : Z) (o : Op) : Z :=
  match o with AddNode => k + 1 | _ => k end.

Fixpoint validOps (k : Z) (ops : list Op) : bool :=
  match ops with
  | [] => true
  | o :: ops => validOp k o && validOps (nodesAfter k o) ops
  end.

(** The number of [addNode] calls of a history. *)
Definition numNodes (ops : list Op) : Z := fold_left nodesAfter ops 0.

(** The options of a list with 32-bit words: no serialized arrays, capacities
    (when given) between [MIN_CAPACITY] and [MAX_CAPACITY], and the
    [typedArray] left out or [Uint32Array]. *)
Definition inRange (lo hi : Z) (c : option Z) : bool :=
  match c with
  | None => true
  | Some c => (lo <=? c) && (c <=? hi)
  end.

Definition wordOptions (opts : Options) : bool :=
  match opts with
  | AdjacencyListOptions nodeCapacity edgeCapacity typedArray =>
      inRange NodeTypeMap.MIN_CAPACITY NodeTypeMap.MAX_CAPACITY nodeCapacity &&
      inRange EdgeTypeMap.MIN_CAPACITY EdgeTypeMap.MAX_CAPACITY edgeCapacity &&
      match typedArray with
      | None | Some Uint32Array => true
      | _ => false
      end
  | SerializedAdjacencyList _ _ _ => false
  end.

(** [s] is the list that [new AdjacencyList(opts)] has become after the
    calls [ops], none of which has thrown. *)
Definition History (opts : Options) (ops : list Op) (s : AdjacencyList) : Prop :=
  wordOptions opts = true /\ validOps 0 ops = true /\
  run ops (AdjacencyList.create opts) = Return s.

(** The triple [x] was added by an [addEdge] call of [ops] that returned
    [true], and no later call of [ops] is [removeEdge] of [x]. *)
Definition liveIn (c : Completion AdjacencyList) (ops : list Op) (x : Edge) : Prop :=
  exists pre post,
    ops = pre ++ AddEdge (from x) (to x) (type x) :: post /\
    resultOf (run pre c) (AdjacencyList.addEdge (from x) (to x) (type x)) = Return true /\
    ~ In (RemoveEdge (from x) (to x) (type x)) post.

(** The triples of the [addEdge] calls of a history, in order. *)
Fixpoint addedTriples (ops : list Op) : list Edge :=
  match ops with
  | [] => []
  | AddEdge f t ty :: ops => mkEdge f t ty :: addedTriples ops
  | _ :: ops => addedTriples ops
  end.

Definition returnsTrue (c : Completion bool) : bool :=
  match c with Return b => b | _ => false end.

(** The number of [removeEdge] calls of [ops], run on [c], that returned
    [true]. *)
Fixpoint removals (c : Completion AdjacencyList) (ops : list Op) : Z :=
  match ops with
  | [] => 0
  | o :: ops =>
      match o with
      | RemoveEdge f t ty =>
          if returnsTrue (resultOf c (AdjacencyList.removeEdge f t ty)) then 1 else 0
      | _ => 0
      end + removals (call c o) ops
  end.

(** The list that a history leaves, for histories that return. *)
Definition listOf (opts : Options) (ops : list Op) : AdjacencyList :=
  match run ops (AdjacencyList.create opts) with
  | Return s => s
  | _ => mkAdjacencyList (TA.zeros Uint32Array 0) (TA.zeros Uint32Array 0) Uint32Array
  end.

(** ** Runs *)

Lemma run_app a b c : run (a ++ b) c = run b (run a c).
Proof. apply fold_left_app. Qed.

Lemma run_snoc a o c : run (a ++ [o]) c = call (run a c) o.
Proof. now rewrite run_app. Qed.

Lemma call_throw o e : call (Throw e) o = Throw e.
Proof. destruct o; reflexivity. Qed.

Lemma call_diverge o : call Diverge o = Diverge.
Proof. destruct o; reflexivity. Qed.

Lemma run_throw ops e : run ops (Throw e) = Throw e.
Proof. induction ops as [|o ops IH]; cbn; [reflexivity|]. now rewrite call_throw. Qed.

Lemma run_diverge ops : run ops Diverge = Diverge.
Proof. induction ops as [|o ops IH]; cbn; [reflexivity|]. now rewrite call_diverge. Qed.

(** A run that returns has returned at every step. *)
Lemma run_prefix pre post c s :
  run (pre ++ post) c = Return s -> exists s', run pre c = Return s'.
Proof.
  rewrite run_app. destruct (run pre c) as [s'| e |]; [eauto| |].
  - rewrite run_throw. discriminate.
  - rewrite run_diverge. discriminate.
Qed.

Lemma after_return {A} s (m : M A) s' (a : A) :
  m s = (s', Return a) -> after (Return s) m = Return s' /\ resultOf (Return s) m = Return a.
Proof. intros E. unfold after, resultOf. cbn. rewrite E. auto. Qed.

Lemma after_throw {A} s (m : M A) s' e :
  m s = (s', Throw e) -> after (Return s) m = Throw e.
Proof. intros E. unfold after. cbn. now rewrite E. Qed.

Lemma validOps_app k a b :
  validOps k (a ++ b) = validOps k a && validOps (fold_left nodesAfter a k) b.
Proof.
  revert k. induction a as [|o a IH]; intros k; cbn; [reflexivity|].
  now rewrite IH, andb_assoc.
Qed.

Lemma numNodes_snoc ops o : numNodes (ops ++ [o]) = nodesAfter (numNodes ops) o.
Proof. unfold numNodes. now rewrite fold_left_app. Qed.

Lemma numNodes_nonneg ops : 0 <= numNodes ops.
Proof.
  induction ops as [|o ops IH] using rev_ind; [cbn; lia|].
  rewrite numNodes_snoc. destruct o; cbn; lia.
Qed.

Lemma validOp_edge k f t ty :
  validOp k (AddEdge f t ty) = true -> 0 <= f < k /\ 0 <= t < k /\ 0 < ty < 4294967296.
Proof.
  cbn. rewrite !andb_true_iff, !Z.leb_le, !Z.ltb_lt. lia.
Qed.

Lemma cnt_live d : EdgesOK d -> cnt d = Z.of_nat (length (liveEdges d)).
Proof. intros OK. unfold liveEdges. rewrite length_map. apply (eo_count d OK). Qed.

Lemma edge_eta x : mkEdge (from x) (to x) (type x) = x.
Proof. now destruct x. Qed.

Lemma Edge_eq_dec (a b : Edge) : {a = b} + {a <> b}.
Proof. decide equality; apply Z.eq_dec. Qed.

(** ** What one call does *)

(** The three calls on a list that satisfies the invariant. *)
Definition stepped (s : AdjacencyList) (o : Op) (s' : AdjacencyList) : Prop :=
  match o with
  | AddNode =>
      resultOf (Return s) AdjacencyList.addNode = Return (nid (_nodes s)) /\
      _edges s' = _edges s /\ cnt (_nodes s') = cnt (_nodes s) /\
      kept (_nodes s) (_nodes s')
  | AddEdge f t ty =>
      (In (mkEdge f t ty) (liveEdges (_edges s)) /\ s' = s /\
       resultOf (Return s) (AdjacencyList.addEdge f t ty) = Return false) \/
      (~ In (mkEdge f t ty) (liveEdges (_edges s)) /\
       liveEdges (_edges s') = liveEdges (_edges s) ++ [mkEdge f t ty] /\
       resultOf (Return s) (AdjacencyList.addEdge f t ty) = Return true)
  | RemoveEdge f t ty =>
      (In (mkEdge f t ty) (liveEdges (_edges s)) /\
       (exists e, EdgeRemoved s (mkEdge f t ty) s' e) /\
       resultOf (Return s) (AdjacencyList.removeEdge f t ty) = Return true) \/
      (~ In (mkEdge f t ty) (liveEdges (_edges s)) /\ s' = s /\
       resultOf (Return s) (AdjacencyList.removeEdge f t ty) = Return false)
  end.

Lemma call_spec s o s' :
  Inv s -> validOp (nid (_nodes s)) o = true -> call (Return s) o = Return s' ->
  Inv s' /\ nid (_nodes s') = nodesAfter (nid (_nodes s)) o /\ stepped s o s'.
Proof.
  intros I Hv Hc. pose proof (iv_edges s I) as OK. destruct o as [|f t ty|f t ty]; cbn [call] in Hc.
  - destruct (addNode_spec s I) as [[s1 [E [I1 [N1 [E1 [C1 K1]]]]]]|[s1 E]].
    + destruct (after_return _ _ _ _ E) as [Ea Er]. rewrite Ea in Hc.
      injection Hc as <-. cbn [nodesAfter stepped]. auto 10.
    + rewrite (after_throw _ _ _ _ E) in Hc. discriminate.
  - apply validOp_edge in Hv as [Hf [Ht Hty]].
    destruct (in_dec Edge_eq_dec (mkEdge f t ty) (liveEdges (_edges s)))
      as [Hin|Hout].
    + pose proof (addEdge_present s f t ty OK ltac:(lia) Hin) as E.
      destruct (after_return _ _ _ _ E) as [Ea Er]. rewrite Ea in Hc. injection Hc as <-.
      cbn [nodesAfter stepped]. auto 10.
    + destruct (addEdge_absent s f t ty I Ht Hf Hty Hout)
        as [[s1 [E [I1 [L1 N1]]]]|[s1 [e [E _]]]].
      * destruct (after_return _ _ _ _ E) as [Ea Er]. rewrite Ea in Hc. injection Hc as <-.
        cbn [nodesAfter stepped]. auto 10.
      * rewrite (after_throw _ _ _ _ E) in Hc. discriminate.
  - destruct (in_dec Edge_eq_dec (mkEdge f t ty) (liveEdges (_edges s)))
      as [Hin|Hout].
    + destruct (removeEdge_present s f t ty I Hin) as [s1 [e [E R]]].
      destruct (after_return _ _ _ _ E) as [Ea Er]. rewrite Ea in Hc. injection Hc as <-.
      cbn [nodesAfter stepped]. split; [apply (er_inv _ _ _ _ R)|].
      split; [apply (er_nodes _ _ _ _ R)|]. left. eauto.
    + pose proof (removeEdge_absent s f t ty OK Hout) as E.
      destruct (after_return _ _ _ _ E) as [Ea Er]. rewrite Ea in Hc. injection Hc as <-.
      cbn [nodesAfter stepped]. auto 10.
Qed.

(** ** The new list *)

Lemma create_defaults nc ec ta :
  match ta with None | Some Uint32Array => true | _ => false end = true ->
  AdjacencyList.create (AdjacencyListOptions nc ec ta) =
  AdjacencyList.create
    (AdjacencyListOptions
       (Some (match nc with Some c => c | None => NodeTypeMap.MIN_CAPACITY end))
       (Some (match ec with Some c => c | None => EdgeTypeMap.MIN_CAPACITY end))
       (Some Uint32Array)).
Proof.
  intros Hta. destruct ta as [[| |]|]; try discriminate; reflexivity.
Qed.

Lemma inRange_default lo hi c :
  lo <= hi -> inRange lo hi c = true ->
  lo <= match c with Some c => c | None => lo end <= hi.
Proof.
  intros Hlh. destruct c as [c|]; cbn; [|lia].
  rewrite andb_true_iff, !Z.leb_le. lia.
Qed.

Lemma create_inv opts :
  wordOptions opts = true ->
  exists s, AdjacencyList.create opts = Return s /\ Inv s /\
            nid (_nodes s) = 0 /\ cnt (_nodes s) = 0 /\ liveEdges (_edges s) = [].
Proof.
  destruct opts as [nc ec ta|]; [|discriminate]. cbn [wordOptions].
  rewrite !andb_true_iff. intros [[Hn He] Hta].
  rewrite (create_defaults nc ec ta Hta).
  apply inRange_default in Hn; [|vm_compute; discriminate].
  apply inRange_default in He; [|vm_compute; discriminate].
  change NodeTypeMap.MAX_CAPACITY with NMAX in Hn. change EdgeTypeMap.MAX_CAPACITY with EMAX in He.
  change NodeTypeMap.MIN_CAPACITY with 2 in *. change EdgeTypeMap.MIN_CAPACITY with 2 in *.
  destruct (create_spec _ _ Hn He) as [mn [me [Ec [[Kn [Ln Wn]] [EOK [ELK [Elive We]]]]]]].
  rewrite Ec. eexists. split; [reflexivity|]. cbn [_nodes _edges].
  assert (Wn' : forall j, W mn j = if j =? 0 then
                  match nc with Some c => c | None => 2 end
                else if j =? 2 then 0 else 0).
  { intros j. rewrite Wn. destruct (j =? 0); [reflexivity|]. destruct (j =? 2); reflexivity. }
  split; [|split; [|split]].
  - apply empty_inv; auto.
    + apply (empty_nodes_ok mn _ 0 Kn Ln Wn' Hn); lia.
    + intros j Hj. rewrite Wn. destruct (Z.eqb_spec j 0); [lia|reflexivity].
  - unfold nid. rewrite Wn. reflexivity.
  - unfold cnt. rewrite Wn. reflexivity.
  - unfold liveEdges. rewrite Elive. reflexivity.
Qed.

(** ** Every list of a history satisfies the invariant *)

Lemma snoc_split {A} (ops : list A) o pre a post :
  ops ++ [o] = pre ++ a :: post ->
  (post = [] /\ pre = ops /\ a = o) \/
  (exists post', post = post' ++ [o] /\ ops = pre ++ a :: post').
Proof.
  intros E. destruct post as [|b post] using rev_ind.
  - left. apply app_inj_tail in E. destruct E as [E1 E2]. auto.
  - right. clear IHpost. exists post.
    change (pre ++ a :: post ++ [b]) with (pre ++ (a :: post) ++ [b]) in E.
    rewrite app_assoc in E. apply app_inj_tail in E. destruct E as [E1 E2].
    subst b. split; auto.
Qed.

Lemma liveIn_snoc c ops o x :
  liveIn c (ops ++ [o]) x <->
  (liveIn c ops x /\ o <> RemoveEdge (from x) (to x) (type x)) \/
  (o = AddEdge (from x) (to x) (type x) /\
   resultOf (run ops c) (AdjacencyList.addEdge (from x) (to x) (type x)) = Return true).
Proof.
  unfold liveIn. split.
  - intros [pre [post [E [R N]]]]. apply snoc_split in E.
    destruct E as [[-> [-> <-]]|[post' [-> ->]]].
    + right. auto.
    + left. split.
      * exists pre, post'. split; [reflexivity|]. split; [exact R|].
        intros H. apply N. apply in_or_app. auto.
      * intros ->. apply N. apply in_or_app. right. left. reflexivity.
  - intros [[[pre [post [-> [R N]]]] Ho]|[-> R]].
    + exists pre, (post ++ [o]). split; [now rewrite <- app_assoc|]. split; [exact R|].
      intros H. apply in_app_or in H. destruct H as [H|[H|[]]]; [auto|].
      apply Ho. auto.
    + exists ops, []. split; [reflexivity|]. split; [exact R|]. intros [].
Qed.

Lemma resultOf_return {A} c s (m : M A) : c = Return s -> resultOf c m = resultOf (Return s) m.
Proof. now intros ->. Qed.

(** The list at the end of a history satisfies the invariant, its [nextId]
    is the number of [addNode] calls, and its live edges are the triples
    that the history has added and not removed since. *)
Lemma history_inv opts ops : forall s,
  History opts ops s ->
  Inv s /\ nid (_nodes s) = numNodes ops /\
  forall x, In x (liveEdges (_edges s)) <-> liveIn (AdjacencyList.create opts) ops x.
Proof.
  induction ops as [|o ops IH] using rev_ind; intros s [Ho [Hv Hr]].
  - destruct (create_inv opts Ho) as [s0 [E [I [N [_ L]]]]].
    cbn in Hr. rewrite E in Hr. injection Hr as <-.
    split; [exact I|]. split; [exact N|]. intros x. rewrite L. split; [intros []|].
    intros [pre [post [E' _]]]. destruct pre; discriminate.
  - rewrite validOps_app in Hv. apply andb_prop in Hv. destruct Hv as [Hv Hvo].
    cbn [validOps] in Hvo. rewrite andb_true_r in Hvo. fold (numNodes ops) in Hvo.
    destruct (run_prefix _ _ _ _ Hr) as [s1 Hr1].
    destruct (IH s1 (conj Ho (conj Hv Hr1))) as [I1 [N1 L1]].
    rewrite run_snoc, Hr1 in Hr. rewrite <- N1 in Hvo.
    destruct (call_spec s1 o s I1 Hvo Hr) as [I [N St]].
    split; [exact I|]. split; [rewrite numNodes_snoc, <- N1; exact N|].
    intros x. rewrite liveIn_snoc, <- L1, (resultOf_return _ _ _ Hr1).
    destruct o as [|f t ty|f t ty]; cbn [stepped] in St.
    + destruct St as [_ [E _]]. rewrite E. split; [intros H; left; split; [auto|discriminate]|].
      intros [[H _]|[H _]]; [auto|discriminate].
    + destruct St as [[Hin [-> R]]|[Hout [L' R]]].
      * split; [intros H; left; split; [auto|discriminate]|].
        intros [[H _]|[H R']]; [auto|]. injection H as -> -> ->. congruence.
      * rewrite L', in_app_iff. split.
        -- intros [H|[H|[]]]; [left; split; [auto|discriminate]|].
           right. subst x. cbn [from to type]. auto.
        -- intros [[H _]|[H _]]; [auto|]. right. left. injection H as -> -> ->.
           apply edge_eta.
    + destruct St as [[Hin [[e R] _]]|[Hout [-> _]]].
      * pose proof (rm_liveEdges _ _ _ (er_edges _ _ _ _ R)) as L'.
        destruct (er_at _ _ _ _ R) as [_ Ex]. rewrite Ex in L'. rewrite L', filter_In.
        rewrite negb_true_iff. split.
        -- intros [H K]. left. split; [auto|]. intros E'. injection E' as -> -> ->.
           rewrite edge_eta in K.
           assert (K' : AdjacencyList.sameKey x x = true) by now apply sameKey_spec.
           congruence.
        -- intros [[H K]|[H _]]; [|discriminate]. split; [auto|].
           destruct (AdjacencyList.sameKey x (mkEdge f t ty)) eqn:E'; [|reflexivity].
           apply sameKey_spec in E'. subst x. exfalso. apply K. reflexivity.
      * split.
        -- intros H. left. split; [auto|]. intros E'. injection E' as -> -> ->.
           rewrite edge_eta in Hout. auto.
        -- intros [[H _]|[H _]]; [auto|discriminate].
Qed.

(** The last call of a history. *)
Lemma history_snoc opts ops o s :
  History opts (ops ++ [o]) s ->
  exists s1, History opts ops s1 /\ Inv s1 /\ Inv s /\ stepped s1 o s.
Proof.
  intros [Ho [Hv Hr]].
  rewrite validOps_app in Hv. apply andb_prop in Hv. destruct Hv as [Hv Hvo].
  cbn [validOps] in Hvo. rewrite andb_true_r in Hvo. fold (numNodes ops) in Hvo.
  destruct (run_prefix _ _ _ _ Hr) as [s1 Hr1]. exists s1.
  assert (H1 : History opts ops s1) by (split; auto).
  destruct (history_inv opts ops s1 H1) as [I1 [N1 _]].
  rewrite run_snoc, Hr1 in Hr. rewrite <- N1 in Hvo.
  destruct (call_spec s1 o s I1 Hvo Hr) as [I [_ St]]. auto.
Qed.

Lemma history_prefix opts pre post s :
  History opts (pre ++ post) s -> exists s', History opts pre s'.
Proof.
  intros [Ho [Hv Hr]]. destruct (run_prefix _ _ _ _ Hr) as [s' Hr'].
  exists s'. rewrite validOps_app in Hv. apply andb_prop in Hv. destruct Hv as [Hv _].
  split; auto.
Qed.

Lemma removals_snoc ops : forall c o,
  removals c (ops ++ [o]) =
  removals c ops +
  match o with
  | RemoveEdge f t ty =>
      if returnsTrue (resultOf (run ops c) (AdjacencyList.removeEdge f t ty)) then 1 else 0
  | _ => 0
  end.
Proof.
  induction ops as [|a ops IH]; intros c o.
  - cbn [app removals run fold_left]. lia.
  - cbn [app removals]. rewrite IH. cbn [run fold_left]. fold (run ops (call c a)). lia.
Qed.

Lemma addedTriples_app a b : addedTriples (a ++ b) = addedTriples a ++ addedTriples b.
Proof.
  induction a as [|o a IH]; [reflexivity|]. destruct o; cbn [app addedTriples]; rewrite IH; auto.
Qed.

Lemma liveIn_added c ops x : liveIn c ops x -> In x (addedTriples ops).
Proof.
  intros [pre [post [-> _]]]. rewrite addedTriples_app. apply in_or_app. right.
  cbn [addedTriples]. left. apply edge_eta.
Qed.

(** When no triple is added twice, the count of the edge map is the number
    of [addEdge] calls minus the number of [removeEdge] calls that returned
    [true]. *)
Lemma history_count opts ops : forall s,
  History opts ops s -> NoDup (addedTriples ops) ->
  cnt (_edges s) =
  Z.of_nat (length (addedTriples ops)) - removals (AdjacencyList.create opts) ops.
Proof.
  induction ops as [|o ops IH] using rev_ind; intros s H Hnd.
  - destruct H as [Ho [_ Hr]]. destruct (create_inv opts Ho) as [s0 [E [I [_ [_ L]]]]].
    cbn in Hr. rewrite E in Hr. injection Hr as <-.
    rewrite (cnt_live _ (iv_edges _ I)), L. reflexivity.
  - destruct (history_snoc opts ops o s H) as [s1 [H1 [I1 [I St]]]].
    rewrite addedTriples_app in Hnd. pose proof (NoDup_app_remove_r _ _ Hnd) as Hnd1.
    specialize (IH s1 H1 Hnd1).
    destruct (history_inv opts ops s1 H1) as [_ [_ L1]].
    destruct H1 as [_ [_ Hr1]].
    rewrite removals_snoc, addedTriples_app, length_app.
    destruct o as [|f t ty|f t ty]; cbn [stepped] in St; cbn [addedTriples length].
    + destruct St as [_ [E _]]. rewrite E, IH. lia.
    + destruct St as [[Hin _]|[Hout [L' _]]].
      * exfalso. apply L1 in Hin. apply liveIn_added in Hin.
        apply NoDup_remove_2 in Hnd. apply Hnd. rewrite app_nil_r. exact Hin.
      * rewrite (cnt_live _ (iv_edges _ I)), L', length_app.
        rewrite (cnt_live _ (iv_edges _ I1)) in IH. cbn [length]. lia.
    + rewrite (resultOf_return _ _ _ Hr1).
      destruct St as [[Hin [[e R] Rt]]|[Hout [-> Rf]]].
      * rewrite Rt. cbn [returnsTrue].
        destruct (rm_hdr _ _ _ (er_edges _ _ _ _ R)) as [_ [C _]]. rewrite C, IH.
        cbn [length]. lia.
      * rewrite Rf. cbn [returnsTrue]. rewrite IH. cbn [length]. lia.
Qed.

(** * Calls that do not rebuild the edge map *)






(** ** A self-loop on a node without a record of the type *)


(** ** Deleted records *)









(** ** The two records of a self-loop *)






(** ** Node records under calls that do not resize the edge map *)






(** * The claims on scenarios *)

Lemma lastOf_returns n this prev e : SharedTypeMap.lastOf n this prev <> Throw e.
Proof.
  revert prev. induction n as [|n IH]; intros prev; simpl;
    destruct (SharedTypeMap.next this prev); try discriminate. apply IH.
Qed.

Lemma link_returns L this hash item type e :
  SharedTypeMap.link L this hash item type <> Throw e.
Proof.
  unfold SharedTypeMap.link. cbv zeta.
  destruct (SharedTypeMap.head _ _ _); [|discriminate].
  pose proof (lastOf_returns (SharedTypeMap.fuel (TA.set this (item + SharedTypeMap._TYPE) type))
                (TA.set this (item + SharedTypeMap._TYPE) type) z e) as H.
  destruct (SharedTypeMap.lastOf _ _ _); simpl; congruence.
Qed.

(** On one array of capacity at least 2 the hash of a triple is a number
    [hash] with [0 <= hash < capacity], and [EdgeTypeMap.add] called with it
    on that array does not throw "Invalid edge hash". *)
Theorem hash_within_capacity (this : TypedArray) (from to type : Z) :
  0 <= from -> 0 <= to -> 0 < type -> 2 <= EdgeTypeMap.capacity this ->
  exists hash,
    EdgeTypeMap.hash this from to type = Some hash /\
    0 <= hash < EdgeTypeMap.capacity this /\
    EdgeTypeMap.add this (EdgeTypeMap.hash this from to type) from to type
      <> Throw InvalidEdgeHash.
Proof.
  intros _ _ _ Hcap.
  destruct (EdgeTypeMap.hash this from to type) as [h|] eqn:Hh.
  - pose proof (hash_bucket this from to type h Hh ltac:(lia)) as Hr.
    exists h. split; [reflexivity|]. split; [exact Hr|].
    unfold EdgeTypeMap.add.
    destruct (Z.geb_spec h 0); [|lia].
    destruct (Z.ltb_spec h (EdgeTypeMap.capacity this)); [|lia].
    cbn [andb negb].
    pose proof (link_returns EdgeTypeMap.layout this h (EdgeTypeMap.getNextAddress this)
                  type InvalidEdgeHash) as Hl.
    destruct (SharedTypeMap.link _ _ _ _ _); simpl; congruence.
  - exfalso. revert Hh. unfold EdgeTypeMap.hash. cbv zeta.
    destruct (Z.eqb_spec (EdgeTypeMap.capacity this) 0); [lia|discriminate].
Qed.

Definition tinyEdges : TypedArray := mkTypedArray Uint32Array (2 :: repeat 0 36).

Lemma hash_within_capacity_witness :
  exists hash,
    EdgeTypeMap.hash tinyEdges 0 1 1 = Some hash /\
    0 <= hash < EdgeTypeMap.capacity tinyEdges /\
    EdgeTypeMap.add tinyEdges (EdgeTypeMap.hash tinyEdges 0 1 1) 0 1 1
      <> Throw InvalidEdgeHash.
Proof.
  apply (hash_within_capacity tinyEdges 0 1 1); [lia | lia | lia | vm_compute; discriminate].
Defined.

(** C5: on a list built with the default options, after two [addNode] and
    the edges (a, b, 1), (a, b, 2), (a, b, 3), the serialized edges are
    longer in bytes than before the three edges, and the serialized nodes
    take 220 bytes with 32-bit words, 110 with 16-bit words and 55 with
    8-bit words. *)
Theorem resize_triggers :
  (exists initial final,
     resultOf (fresh None) resizeTriggers = Return (initial, final, 220) /\ initial < final) /\
  (exists initial final,
     resultOf (fresh (Some Uint32Array)) resizeTriggers = Return (initial, final, 220) /\
     initial < final) /\
  (exists initial final,
     resultOf (fresh (Some Uint16Array)) resizeTriggers = Return (initial, final, 110) /\
     initial < final) /\
  (exists initial final,
     resultOf (fresh (Some Uint8Array)) resizeTriggers = Return (initial, final, 55) /\
     initial < final).
Proof.
  split; [|split; [|split]].
  - exists 148, 1100. split; [vm_compute; reflexivity | lia].
  - exists 148, 1100. split; [vm_compute; reflexivity | lia].
  - exists 74, 550. split; [vm_compute; reflexivity | lia].
  - exists 37, 275. split; [vm_compute; reflexivity | lia].
Qed.

(** C6 as stated fails: with (a, b, c, d) = (0, 1, 2, 3) the query with
    [AllEdgeTypes] returns [b; d; c], not [b; c; d]. *)
Lemma wildcard_order_counterexample :
  connectedFrom (wildcard 0 1 2 3) 0 AllEdgeTypes = Return [1; 3; 2] /\
  connectedFrom (wildcard 0 1 2 3) 0 AllEdgeTypes <> Return [1; 2; 3].
Proof. split; [vm_compute; reflexivity | vm_compute; discriminate]. Qed.

Lemma wildcard_checked :
  forallb (fun a => forallb (fun b => forallb (fun c => forallb (fun d =>
    wildcardOK a b c d) ids4) ids4) ids4) ids4 = true.
Proof. vm_compute. reflexivity. Qed.

Lemma returnsList_spec c l : returnsList c l = true -> c = Return l.
Proof.
  destruct c; simpl; try discriminate. unfold eqList.
  destruct (list_eq_dec Z.eq_dec a l); [congruence|discriminate].
Qed.

Lemma in_ids4 a : 0 <= a < 4 -> In a ids4.
Proof. intros H. unfold ids4. simpl. lia. Qed.

Lemma distinct4_NoDup a b c d : NoDup [a; b; c; d] -> distinct4 a b c d = true.
Proof.
  intros Hnd. unfold distinct4.
  inversion Hnd as [|? ? N1 Hnd1]; subst. inversion Hnd1 as [|? ? N2 Hnd2]; subst.
  inversion Hnd2 as [|? ? N3 Hnd3]; subst. clear Hnd Hnd1 Hnd2 Hnd3.
  cbn [In] in N1, N2, N3.
  destruct (Z.eqb_spec a b); [exfalso; apply N1; left; congruence|].
  destruct (Z.eqb_spec a c); [exfalso; apply N1; right; left; congruence|].
  destruct (Z.eqb_spec a d); [exfalso; apply N1; right; right; left; congruence|].
  destruct (Z.eqb_spec b c); [exfalso; apply N2; left; congruence|].
  destruct (Z.eqb_spec b d); [exfalso; apply N2; right; left; congruence|].
  destruct (Z.eqb_spec c d); [exfalso; apply N3; left; congruence|].
  reflexivity.
Qed.

Lemma wildcardOK_spec a b c d :
  wildcardOK a b c d = true -> distinct4 a b c d = true ->
  connectedFrom (wildcard a b c d) a 1 = Return [b; d] /\
  connectedFrom (wildcard a b c d) a 2 = Return [c] /\
  connectedFrom (wildcard a b c d) a AllEdgeTypes = Return [b; d; c].
Proof.
  unfold wildcardOK. cbv zeta.
  generalize (connectedFrom (wildcard a b c d) a 1) (connectedFrom (wildcard a b c d) a 2)
    (connectedFrom (wildcard a b c d) a AllEdgeTypes).
  intros x y z H Hd. rewrite Hd in H. cbn [implb] in H.
  apply andb_prop in H. destruct H as [H H3].
  apply andb_prop in H. destruct H as [H1 H2].
  split; [|split]; apply returnsList_spec; assumption.
Qed.

(** C6 amended: on a fresh list with the four nodes 0..3, for a, b, c, d
    the four ids in any order, after the edges (a, b, 1), (a, c, 2),
    (a, d, 1) the nodes connected from [a] are [b; d] for type 1, [c] for
    type 2 and [b; d; c] for [AllEdgeTypes]: the targets come grouped by
    edge type, the types in the order of their first edge. *)
Theorem wildcard_queries (a b c d : Z) :
  0 <= a < 4 -> 0 <= b < 4 -> 0 <= c < 4 -> 0 <= d < 4 ->
  NoDup [a; b; c; d] ->
  connectedFrom (wildcard a b c d) a 1 = Return [b; d] /\
  connectedFrom (wildcard a b c d) a 2 = Return [c] /\
  connectedFrom (wildcard a b c d) a AllEdgeTypes = Return [b; d; c].
Proof.
  intros Ha Hb Hc Hd Hnd.
  apply wildcardOK_spec; [|apply distinct4_NoDup; exact Hnd].
  pose proof wildcard_checked as H.
  rewrite forallb_forall in H. specialize (H a (in_ids4 a Ha)).
  rewrite forallb_forall in H. specialize (H b (in_ids4 b Hb)).
  rewrite forallb_forall in H. specialize (H c (in_ids4 c Hc)).
  rewrite forallb_forall in H. exact (H d (in_ids4 d Hd)).
Qed.

Lemma wildcard_queries_witness :
  connectedFrom (wildcard 2 0 3 1) 2 1 = Return [0; 1] /\
  connectedFrom (wildcard 2 0 3 1) 2 2 = Return [3] /\
  connectedFrom (wildcard 2 0 3 1) 2 AllEdgeTypes = Return [0; 1; 3].
Proof.
  apply (wildcard_queries 2 0 3 1); try lia.
  repeat constructor; simpl; lia.
Defined.

(** C7 fails on the code: the constructor accepts a node capacity of 256 for
    a list with 8-bit words (its test is [capacity <= MAX_CAPACITY], whatever
    the width of the words), the capacity word of the list holds 0, and
    [deserialize] throws "Data appears corrupt." on the snapshot of the list
    where the claim has it return a copy.  With 16-bit or 32-bit words the
    same list holds its capacity, and [deserialize] returns a list with its
    arrays. *)
Theorem roundtrip_data_corrupt :
  (exists G,
     AdjacencyList.create (AdjacencyListOptions (Some 256) None (Some Uint8Array)) = Return G /\
     NodeTypeMap.capacity (_nodes G) = 0 /\
     AdjacencyList.deserialize (AdjacencyList.serialize G) = Throw DataCorrupt) /\
  (exists G G',
     AdjacencyList.create (AdjacencyListOptions (Some 256) None (Some Uint16Array)) = Return G /\
     NodeTypeMap.capacity (_nodes G) = 256 /\
     AdjacencyList.deserialize (AdjacencyList.serialize G) = Return G' /\
     _nodes G' = _nodes G /\ _edges G' = _edges G) /\
  (exists G G',
     AdjacencyList.create (AdjacencyListOptions (Some 256) None (Some Uint32Array)) = Return G /\
     NodeTypeMap.capacity (_nodes G) = 256 /\
     AdjacencyList.deserialize (AdjacencyList.serialize G) = Return G' /\
     _nodes G' = _nodes G /\ _edges G' = _edges G).
Proof.
  split; [|split].
  - eexists. split; [vm_compute; reflexivity|]. split; vm_compute; reflexivity.
  - eexists. eexists. split; [vm_compute; reflexivity|]. split; [vm_compute; reflexivity|].
    split; [vm_compute; reflexivity|]. split; reflexivity.
  - eexists. eexists. split; [vm_compute; reflexivity|]. split; [vm_compute; reflexivity|].
    split; [vm_compute; reflexivity|]. split; reflexivity.
Qed.

Lemma connected_arrays first field step (G' G : AdjacencyList) type fuel node nodes :
  _nodes G' = _nodes G -> _edges G' = _edges G ->
  AdjacencyList.connected first field step G' type fuel node nodes
  = AdjacencyList.connected first field step G type fuel node nodes.
Proof.
  intros Hn He. revert node nodes.
  induction fuel as [|fuel IH]; intros node nodes; destruct node as [n|]; simpl; try reflexivity.
  unfold AdjacencyList.matches. rewrite Hn, He.
  destruct (if match type with
               | OneType t => (t =? AllEdgeTypes) || (t =? NodeTypeMap.typeOf (_nodes G) n)
               | TypeArray ts => existsb (Z.eqb (NodeTypeMap.typeOf (_nodes G) n)) ts
               end
            then _ else _); simpl; try reflexivity.
  apply IH.
Qed.

Lemma sameReads_arrays (G' G : AdjacencyList) :
  _nodes G' = _nodes G -> _edges G' = _edges G -> sameReads G' G.
Proof.
  intros Hn He. unfold sameReads.
  split; [|split; [|split; [|split; [|split]]]].
  - intros f t ty. unfold AdjacencyList.hasEdge. rewrite He. reflexivity.
  - unfold AdjacencyList.getAllEdges. rewrite He. reflexivity.
  - intros t ty. unfold AdjacencyList.getNodeIdsConnectedTo.
    rewrite (connected_arrays _ _ _ G' G) by assumption. rewrite Hn. reflexivity.
  - intros f ty. unfold AdjacencyList.getNodeIdsConnectedFrom.
    rewrite (connected_arrays _ _ _ G' G) by assumption. rewrite Hn. reflexivity.
  - intros t. unfold AdjacencyList.hasInboundEdges. rewrite Hn. reflexivity.
  - unfold AdjacencyList.stats, AdjacencyList.getAllEdges. rewrite Hn, He. reflexivity.
Qed.

(** For a list whose two arrays have the length that their capacity words
    call for, [deserialize(G.serialize())] returns a list with the arrays of
    [G]; every read operation returns on it what it returns on [G], and its
    snapshot is the snapshot of [G].  (The copy is built without a
    [typedArray] option, so its [_typedArray] is [Uint32Array] whatever the
    one of [G] is.) *)
Theorem snapshot_roundtrip (G : AdjacencyList) :
  wellSized NodeTypeMap.layout (_nodes G) ->
  wellSized EdgeTypeMap.layout (_edges G) ->
  exists G',
    AdjacencyList.deserialize (AdjacencyList.serialize G) = Return G' /\
    _nodes G' = _nodes G /\ _edges G' = _edges G /\ _typedArray G' = Uint32Array /\
    sameReads G' G /\
    AdjacencyList.serialize G' = AdjacencyList.serialize G.
Proof.
  unfold wellSized. intros Hn He.
  exists (mkAdjacencyList (_nodes G) (_edges G) Uint32Array).
  split.
  - unfold AdjacencyList.deserialize, AdjacencyList.serialize, AdjacencyList.create.
    unfold SharedTypeMap.ofData. rewrite Hn, He, !Z.eqb_refl. reflexivity.
  - split; [reflexivity|]. split; [reflexivity|]. split; [reflexivity|].
    split; [apply sameReads_arrays; reflexivity | reflexivity].
Qed.

Definition sampleList : AdjacencyList :=
  match after (after (fresh (Some Uint16Array)) AdjacencyList.addNode)
          (AdjacencyList.addEdge 0 0 1) with
  | Return g => g
  | _ => mkAdjacencyList (TA.zeros Uint32Array 0) (TA.zeros Uint32Array 0) Uint32Array
  end.

Lemma snapshot_roundtrip_witness :
  exists G',
    AdjacencyList.deserialize (AdjacencyList.serialize sampleList) = Return G' /\
    _nodes G' = _nodes sampleList /\ _edges G' = _edges sampleList /\
    _typedArray G' = Uint32Array /\
    sameReads G' sampleList /\
    AdjacencyList.serialize G' = AdjacencyList.serialize sampleList.
Proof.
  apply (snapshot_roundtrip sampleList); vm_compute; reflexivity.
Defined.

(** C4 fails on the code: a list with 32-bit words, an edge capacity of 512,
    no edge and 716 deleted records, reopened from its snapshot with
    [typedArray: Uint8Array], has an edge capacity of 512 and a hash of
    (0, 1, 1) within it, and [addEdge(0, 1, 1)] throws "Invalid edge hash":
    the call compacts the edges into a copy of capacity 256 with 8-bit words,
    which the constructor accepts, the capacity word of the copy holds 0 and
    the hash computed anew is [NaN].  Reopened with [Uint16Array] or
    [Uint32Array], whose words hold 256, the same call returns [true]. *)
Theorem addEdge_invalid_hash :
  exists G0,
    deleted716 = Return G0 /\
    (exists G,
       reopen Uint8Array (Return G0) = Return G /\
       EdgeTypeMap.capacity (_edges G) = 512 /\
       EdgeTypeMap.count (_edges G) = 0 /\ EdgeTypeMap.deletes (_edges G) = 716 /\
       (exists hash, EdgeTypeMap.hash (_edges G) 0 1 1 = Some hash /\ 0 <= hash < 512) /\
       snd (AdjacencyList.addEdge 0 1 1 G) = Throw InvalidEdgeHash) /\
    resultOf (reopen Uint16Array (Return G0)) (AdjacencyList.addEdge 0 1 1) = Return true /\
    resultOf (reopen Uint32Array (Return G0)) (AdjacencyList.addEdge 0 1 1) = Return true.
Proof.
  eexists. split; [vm_compute; reflexivity|]. split; [|split].
  - eexists. split; [vm_compute; reflexivity|].
    split; [vm_compute; reflexivity|]. split; [vm_compute; reflexivity|].
    split; [vm_compute; reflexivity|].
    split; [eexists; split; [vm_compute; reflexivity|lia]|].
    vm_compute. reflexivity.
  - vm_compute. reflexivity.
  - vm_compute. reflexivity.
Qed.

(** * The claims on histories *)

(** A type that does not fit a 32-bit word: it is stored as 1. *)
Definition wideType : Z := 4294967297.

Lemma live_positive s x :
  Inv s -> In x (liveEdges (_edges s)) -> 0 < type x < 4294967296.
Proof.
  intros I Hx. pose proof (iv_edges s I) as OK.
  apply in_liveEdges in Hx. destruct Hx as [a [Ha <-]]. rewrite edgeAt_W. cbn [type].
  apply in_elive in Ha. destruct Ha as [_ Hn].
  pose proof (eo_words _ OK (a + 1)). lia.
Qed.

(** C1 as stated fails: after [addNode()], the call
    [addEdge(0, 0, 4294967297)] returns [true], no call removes the triple,
    and [hasEdge(0, 0, 4294967297)] returns [false]. *)
Lemma hasEdge_wide_type_counterexample :
  liveIn (fresh None) [AddNode; AddEdge 0 0 wideType] (mkEdge 0 0 wideType) /\
  exists s,
    run [AddNode; AddEdge 0 0 wideType] (fresh None) = Return s /\
    AdjacencyList.hasEdge s 0 0 (OneType wideType) = Return false.
Proof.
  split.
  - exists [AddNode], []. split; [reflexivity|]. split; [vm_compute; reflexivity|]. intros [].
  - eexists. split; vm_compute; reflexivity.
Qed.

(** C1 amended: on a list with 32-bit words, after any calls of [addNode],
    [addEdge] and [removeEdge] that have all returned, where every
    [addEdge] was given nodes that [addNode] had returned and a type [ty]
    with [0 < ty < 2^32]: for all [(from, to, type)], [hasEdge] returns, and
    it returns [true] exactly when an [addEdge(from, to, type)] call has
    returned [true] and no later call was [removeEdge(from, to, type)]. *)
Theorem hasEdge_live (opts : Options) (ops : list Op) (s : AdjacencyList) (from to type : Z) :
  History opts ops s ->
  exists b,
    AdjacencyList.hasEdge s from to (OneType type) = Return b /\
    (b = true <-> liveIn (AdjacencyList.create opts) ops (mkEdge from to type)).
Proof.
  intros H. destruct (history_inv opts ops s H) as [I [_ L]].
  destruct (hasEdge_spec s from to type (iv_edges s I)) as [b [E Hb]].
  exists b. split; [exact E|]. rewrite Hb. apply L.
Qed.

Definition sampleOps : list Op :=
  [AddNode; AddNode; AddEdge 0 1 1; AddEdge 0 1 2; RemoveEdge 0 1 1; AddEdge 1 1 3;
   AddNode; AddEdge 2 0 1; AddEdge 0 1 2; RemoveEdge 2 2 2].

Lemma hasEdge_live_witness :
  exists b,
    AdjacencyList.hasEdge (listOf (AdjacencyListOptions None None None) sampleOps) 0 1
      (OneType 2) = Return b /\
    (b = true <->
     liveIn (AdjacencyList.create (AdjacencyListOptions None None None)) sampleOps
       (mkEdge 0 1 2)).
Proof.
  apply (hasEdge_live (AdjacencyListOptions None None None) sampleOps
           (listOf (AdjacencyListOptions None None None) sampleOps) 0 1 2).
  split; [reflexivity|]. split; vm_compute; reflexivity.
Defined.

(** C2 as stated fails: after [addNode()], [addEdge(0, 0, 4294967297)] and
    [addEdge(0, 0, 1)], two calls with different triples and no
    [removeEdge], the count of the edge map is 1. *)
Lemma count_wide_type_counterexample :
  NoDup (addedTriples [AddNode; AddEdge 0 0 wideType; AddEdge 0 0 1]) /\
  removals (fresh None) [AddNode; AddEdge 0 0 wideType; AddEdge 0 0 1] = 0 /\
  exists s,
    run [AddNode; AddEdge 0 0 wideType; AddEdge 0 0 1] (fresh None) = Return s /\
    EdgeTypeMap.count (_edges s) = 1 /\
    EdgeTypeMap.count (_edges s) <>
    Z.of_nat (length (addedTriples [AddNode; AddEdge 0 0 wideType; AddEdge 0 0 1])) -
    removals (fresh None) [AddNode; AddEdge 0 0 wideType; AddEdge 0 0 1].
Proof.
  split; [|split; [vm_compute; reflexivity|]].
  - cbn [addedTriples]. constructor; [|constructor; [intros []|constructor]].
    intros [H|[]]. discriminate.
  - eexists. split; [vm_compute; reflexivity|]. split; vm_compute; [reflexivity|discriminate].
Qed.

(** C2 amended: on a list with 32-bit words, for calls of [addNode],
    [addEdge] and [removeEdge] that all return, where every [addEdge] is
    given nodes that [addNode] has returned and a type [ty] with
    [0 < ty < 2^32], and no triple is added twice: after every step the
    count of the edge map is the number of [addEdge] calls so far minus the
    number of [removeEdge] calls so far that have returned [true], and
    [nextId] of the node map is the number of [addNode] calls so far. *)
Theorem counts_track (opts : Options) (ops pre post : list Op) (s : AdjacencyList) :
  History opts ops s -> NoDup (addedTriples ops) -> ops = pre ++ post ->
  exists s',
    run pre (AdjacencyList.create opts) = Return s' /\
    EdgeTypeMap.count (_edges s') =
      Z.of_nat (length (addedTriples pre)) - removals (AdjacencyList.create opts) pre /\
    NodeTypeMap.nextId (_nodes s') = numNodes pre.
Proof.
  intros H Hnd ->. destruct (history_prefix opts pre post s H) as [s' H'].
  rewrite addedTriples_app in Hnd. apply NoDup_app_remove_r in Hnd.
  exists s'. split; [apply H'|]. split.
  - apply (history_count opts pre s' H' Hnd).
  - apply (history_inv opts pre s' H').
Qed.

Definition distinctOps : list Op :=
  [AddNode; AddNode; AddEdge 0 1 1; AddEdge 0 1 2; RemoveEdge 0 1 1; AddEdge 1 1 3;
   AddNode; AddEdge 2 0 1; RemoveEdge 2 2 2].

Lemma counts_track_witness :
  exists s',
    run (firstn 6 distinctOps) (AdjacencyList.create (AdjacencyListOptions None None None))
      = Return s' /\
    EdgeTypeMap.count (_edges s') =
      Z.of_nat (length (addedTriples (firstn 6 distinctOps))) -
      removals (AdjacencyList.create (AdjacencyListOptions None None None))
        (firstn 6 distinctOps) /\
    NodeTypeMap.nextId (_nodes s') = numNodes (firstn 6 distinctOps).
Proof.
  apply (counts_track (AdjacencyListOptions None None None) distinctOps
           (firstn 6 distinctOps) (skipn 6 distinctOps)
           (listOf (AdjacencyListOptions None None None) distinctOps)).
  - split; [reflexivity|]. split; vm_compute; reflexivity.
  - cbn [distinctOps addedTriples].
    repeat (constructor; [cbn [In]; intros H; repeat destruct H as [H|H]; discriminate || exact H|]).
    constructor.
  - reflexivity.
Defined.

(** C3 as stated fails: after [addNode()], [addEdge(0, 0, 1)] and
    [addEdge(0, 0, 4294967297)], [getAllEdges()] yields the triple (0, 0, 1)
    twice. *)
Lemma getAllEdges_wide_type_counterexample :
  exists s,
    run [AddNode; AddEdge 0 0 1; AddEdge 0 0 wideType] (fresh None) = Return s /\
    AdjacencyList.getAllEdges s = [mkEdge 0 0 1; mkEdge 0 0 1] /\
    ~ NoDup (AdjacencyList.getAllEdges s).
Proof.
  eexists. split; [vm_compute; reflexivity|]. split; [vm_compute; reflexivity|].
  intros H. vm_compute in H. inversion H as [|x l N _]. apply N. left. reflexivity.
Qed.

(** C3 amended: on a list with 32-bit words, after any calls of [addNode],
    [addEdge] and [removeEdge] that have all returned, where every
    [addEdge] was given nodes that [addNode] had returned and a type [ty]
    with [0 < ty < 2^32]: [getAllEdges()] yields no triple twice, it yields
    exactly the triples that an [addEdge] call that returned [true] has
    added and no later [removeEdge] call has removed, and none of them is a
    deleted record (their types are positive).  On a new list [addNode()]
    returns 0, and after [addEdge(0, 0, 1)] and [addEdge(0, 0, 2)],
    [getAllEdges()] yields (0, 0, 1) and (0, 0, 2) in that order. *)
Theorem getAllEdges_live (opts : Options) (ops : list Op) (s : AdjacencyList) :
  History opts ops s ->
  NoDup (AdjacencyList.getAllEdges s) /\
  (forall x, In x (AdjacencyList.getAllEdges s) <->
             liveIn (AdjacencyList.create opts) ops x) /\
  (forall x, In x (AdjacencyList.getAllEdges s) -> 0 < type x) /\
  resultOf (fresh None) AdjacencyList.addNode = Return 0 /\
  exists s',
    run [AddNode; AddEdge 0 0 1; AddEdge 0 0 2] (fresh None) = Return s' /\
    AdjacencyList.getAllEdges s' = [mkEdge 0 0 1; mkEdge 0 0 2].
Proof.
  intros H. destruct (history_inv opts ops s H) as [I [_ L]].
  rewrite (getAllEdges_liveEdges s (iv_edges s I)).
  split; [apply (eo_uniq _ (iv_edges s I))|]. split; [exact L|].
  split; [intros x Hx; apply (live_positive s x I Hx)|].
  split; [vm_compute; reflexivity|].
  eexists. split; vm_compute; reflexivity.
Qed.

Lemma getAllEdges_live_witness :
  NoDup (AdjacencyList.getAllEdges (listOf (AdjacencyListOptions None None None) sampleOps)) /\
  (forall x,
     In x (AdjacencyList.getAllEdges (listOf (AdjacencyListOptions None None None) sampleOps))
     <-> liveIn (AdjacencyList.create (AdjacencyListOptions None None None)) sampleOps x) /\
  (forall x,
     In x (AdjacencyList.getAllEdges (listOf (AdjacencyListOptions None None None) sampleOps))
     -> 0 < type x) /\
  resultOf (fresh None) AdjacencyList.addNode = Return 0 /\
  exists s',
    run [AddNode; AddEdge 0 0 1; AddEdge 0 0 2] (fresh None) = Return s' /\
    AdjacencyList.getAllEdges s' = [mkEdge 0 0 1; mkEdge 0 0 2].
Proof.
  apply (getAllEdges_live (AdjacencyListOptions None None None) sampleOps
           (listOf (AdjacencyListOptions None None None) sampleOps)).
  split; [reflexivity|]. split; vm_compute; reflexivity.
Defined.










(** * More on the calls, on lists with 32-bit words *)

(** The edges of a list after one more call, by the triples alone. *)
Definition applyOp (l : list Edge) (o : Op) : list Edge :=
  match o with
  | AddNode => l
  | AddEdge f t ty =>
      if existsb (AdjacencyList.sameKey (mkEdge f t ty)) l then l else l ++ [mkEdge f t ty]
  | RemoveEdge f t ty => filter (fun x => negb (AdjacencyList.sameKey x (mkEdge f t ty))) l
  end.

Definition edgesAfter (ops : list Op) : list Edge := fold_left applyOp ops [].

(** A history for the examples: three nodes, edges added, added again and
    removed, with a resize of both maps on the way. *)
Definition exampleOps : list Op :=
  [AddNode; AddNode; AddEdge 0 1 1; AddEdge 0 1 2; RemoveEdge 0 1 1; AddEdge 1 1 3;
   AddNode; AddEdge 2 0 1; AddEdge 0 1 2; RemoveEdge 2 2 2].

Definition exampleList : AdjacencyList := listOf (AdjacencyListOptions None None None) exampleOps.

Lemma filter_all {A} (p : A -> bool) l : (forall x, In x l -> p x = true) -> filter p l = l.
Proof.
  induction l as [|a l IH]; intros H; cbn [filter]; [reflexivity|].
  rewrite (H a) by (left; reflexivity). rewrite IH; [reflexivity|].
  intros x Hx. apply H. right. exact Hx.
Qed.

Lemma existsb_sameKey x l : existsb (AdjacencyList.sameKey x) l = true <-> In x l.
Proof.
  rewrite existsb_exists. split.
  - intros [y [Hy E]]. apply sameKey_spec in E. now subst y.
  - intros H. exists x. split; [exact H|]. now apply sameKey_spec.
Qed.

Lemma filter_absent x l :
  ~ In x l -> filter (fun y => negb (AdjacencyList.sameKey y x)) l = l.
Proof.
  intros H. apply filter_all. intros y Hy.
  destruct (AdjacencyList.sameKey y x) eqn:E; [|reflexivity].
  apply sameKey_spec in E. subst y. contradiction.
Qed.

Lemma stepped_applyOp s o s' :
  Inv s -> Inv s' -> stepped s o s' ->
  liveEdges (_edges s') = applyOp (liveEdges (_edges s)) o.
Proof.
  intros I I' St. destruct o as [|f t ty|f t ty]; cbn [stepped applyOp] in *.
  - destruct St as [_ [E _]]. now rewrite E.
  - destruct St as [[Hin [-> _]]|[Hout [L _]]].
    + apply existsb_sameKey in Hin. now rewrite Hin.
    + destruct (existsb _ _) eqn:E; [|exact L].
      apply existsb_sameKey in E. contradiction.
  - destruct St as [[Hin [[e R] _]]|[Hout [-> _]]].
    + rewrite (rm_liveEdges _ _ _ (er_edges _ _ _ _ R)).
      destruct (er_at _ _ _ _ R) as [_ ->]. reflexivity.
    + now rewrite filter_absent.
Qed.

(** [getAllEdges] yields the edges in the order in which they were added:
    each new edge comes last, a removed edge leaves the others in place. *)
Theorem getAllEdges_order (opts : Options) (ops : list Op) (s : AdjacencyList) :
  History opts ops s -> AdjacencyList.getAllEdges s = edgesAfter ops.
Proof.
  revert s. induction ops as [|o ops IH] using rev_ind; intros s H.
  - destruct H as [Ho [_ Hr]]. destruct (create_inv opts Ho) as [s0 [E [I [_ [_ L]]]]].
    cbn in Hr. rewrite E in Hr. injection Hr as <-.
    rewrite (getAllEdges_liveEdges _ (iv_edges _ I)). exact L.
  - destruct (history_snoc opts ops o s H) as [s1 [H1 [I1 [I St]]]].
    specialize (IH s1 H1).
    rewrite (getAllEdges_liveEdges _ (iv_edges _ I1)) in IH.
    rewrite (getAllEdges_liveEdges _ (iv_edges _ I)).
    unfold edgesAfter. rewrite fold_left_app. cbn [fold_left].
    fold (edgesAfter ops). rewrite <- IH. apply stepped_applyOp; auto.
Qed.

Lemma getAllEdges_order_witness :
  AdjacencyList.getAllEdges exampleList = edgesAfter exampleOps.
Proof.
  apply (getAllEdges_order (AdjacencyListOptions None None None) exampleOps exampleList).
  split; [reflexivity|]. split; vm_compute; reflexivity.
Defined.

(** [addEdge] between two nodes of the list, with a type that fits a word,
    returns [false] for an edge of the list and leaves the list as it is,
    returns [true] for a new edge, which [getAllEdges] then yields last, or
    throws one of the two capacity overflows; it throws nothing else. *)
Theorem addEdge_outcomes (opts : Options) (ops : list Op) (s : AdjacencyList)
    (from to type : Z) :
  History opts ops s ->
  0 <= from < NodeTypeMap.nextId (_nodes s) -> 0 <= to < NodeTypeMap.nextId (_nodes s) ->
  0 < type < 4294967296 ->
  (In (mkEdge from to type) (AdjacencyList.getAllEdges s) /\
   AdjacencyList.addEdge from to type s = (s, Return false)) \/
  (~ In (mkEdge from to type) (AdjacencyList.getAllEdges s) /\
   exists s',
     AdjacencyList.addEdge from to type s = (s', Return true) /\
     AdjacencyList.getAllEdges s' = AdjacencyList.getAllEdges s ++ [mkEdge from to type] /\
     NodeTypeMap.nextId (_nodes s') = NodeTypeMap.nextId (_nodes s)) \/
  (exists s' e,
     AdjacencyList.addEdge from to type s = (s', Throw e) /\
     (e = NodeCapacityOverflow \/ e = EdgeCapacityOverflow)).
Proof.
  intros H Hf Ht Hty. destruct (history_inv opts ops s H) as [I _].
  pose proof (iv_edges s I) as OK. rewrite (getAllEdges_liveEdges s OK).
  destruct (in_dec Edge_eq_dec (mkEdge from to type) (liveEdges (_edges s))) as [Hin|Hout].
  - left. split; [exact Hin|]. apply addEdge_present; auto. lia.
  - right. destruct (addEdge_absent s from to type I Ht Hf Hty Hout)
      as [[s' [E [I' [L N]]]]|E]; [left|right; exact E].
    split; [exact Hout|]. exists s'. split; [exact E|].
    rewrite (getAllEdges_liveEdges s' (iv_edges s' I')). auto.
Qed.

Lemma addEdge_outcomes_witness :
  (In (mkEdge 2 1 7) (AdjacencyList.getAllEdges exampleList) /\
   AdjacencyList.addEdge 2 1 7 exampleList = (exampleList, Return false)) \/
  (~ In (mkEdge 2 1 7) (AdjacencyList.getAllEdges exampleList) /\
   exists s',
     AdjacencyList.addEdge 2 1 7 exampleList = (s', Return true) /\
     AdjacencyList.getAllEdges s' = AdjacencyList.getAllEdges exampleList ++ [mkEdge 2 1 7] /\
     NodeTypeMap.nextId (_nodes s') = NodeTypeMap.nextId (_nodes exampleList)) \/
  (exists s' e,
     AdjacencyList.addEdge 2 1 7 exampleList = (s', Throw e) /\
     (e = NodeCapacityOverflow \/ e = EdgeCapacityOverflow)).
Proof.
  apply (addEdge_outcomes (AdjacencyListOptions None None None) exampleOps exampleList 2 1 7).
  - split; [reflexivity|]. split; vm_compute; reflexivity.
  - vm_compute. split; [discriminate|reflexivity].
  - vm_compute. split; [discriminate|reflexivity].
  - lia.
Defined.

(** [removeEdge] returns: [true] for an edge of the list, which
    [getAllEdges] then no longer yields, and [false] for any other triple,
    with the list left as it is. *)
Theorem removeEdge_outcomes (opts : Options) (ops : list Op) (s : AdjacencyList)
    (from to type : Z) :
  History opts ops s ->
  (In (mkEdge from to type) (AdjacencyList.getAllEdges s) /\
   exists s',
     AdjacencyList.removeEdge from to type s = (s', Return true) /\
     AdjacencyList.getAllEdges s' =
       filter (fun x => negb (AdjacencyList.sameKey x (mkEdge from to type)))
         (AdjacencyList.getAllEdges s) /\
     AdjacencyList.hasEdge s' from to (OneType type) = Return false /\
     NodeTypeMap.nextId (_nodes s') = NodeTypeMap.nextId (_nodes s)) \/
  (~ In (mkEdge from to type) (AdjacencyList.getAllEdges s) /\
   AdjacencyList.removeEdge from to type s = (s, Return false)).
Proof.
  intros H. destruct (history_inv opts ops s H) as [I _].
  pose proof (iv_edges s I) as OK. rewrite (getAllEdges_liveEdges s OK).
  destruct (in_dec Edge_eq_dec (mkEdge from to type) (liveEdges (_edges s))) as [Hin|Hout].
  - left. split; [exact Hin|].
    destruct (removeEdge_present s from to type I Hin) as [s' [e [E R]]].
    exists s'. split; [exact E|]. pose proof (er_inv _ _ _ _ R) as I'.
    pose proof (rm_liveEdges _ _ _ (er_edges _ _ _ _ R)) as L.
    destruct (er_at _ _ _ _ R) as [_ Ex]. rewrite Ex in L.
    rewrite (getAllEdges_liveEdges s' (iv_edges s' I')). split; [exact L|]. split.
    + destruct (hasEdge_spec s' from to type (iv_edges s' I')) as [b [Eb Hb]].
      rewrite Eb. destruct b; [|reflexivity]. exfalso.
      assert (Hx : In (mkEdge from to type) (liveEdges (_edges s'))) by (apply Hb; reflexivity).
      rewrite L in Hx. apply filter_In in Hx. destruct Hx as [_ Hx].
      assert (K : AdjacencyList.sameKey (mkEdge from to type) (mkEdge from to type) = true)
        by now apply sameKey_spec.
      rewrite K in Hx. discriminate.
    + apply (er_nodes _ _ _ _ R).
  - right. split; [exact Hout|]. apply removeEdge_absent; auto.
Qed.

Lemma removeEdge_outcomes_witness :
  (In (mkEdge 0 1 2) (AdjacencyList.getAllEdges exampleList) /\
   exists s',
     AdjacencyList.removeEdge 0 1 2 exampleList = (s', Return true) /\
     AdjacencyList.getAllEdges s' =
       filter (fun x => negb (AdjacencyList.sameKey x (mkEdge 0 1 2)))
         (AdjacencyList.getAllEdges exampleList) /\
     AdjacencyList.hasEdge s' 0 1 (OneType 2) = Return false /\
     NodeTypeMap.nextId (_nodes s') = NodeTypeMap.nextId (_nodes exampleList)) \/
  (~ In (mkEdge 0 1 2) (AdjacencyList.getAllEdges exampleList) /\
   AdjacencyList.removeEdge 0 1 2 exampleList = (exampleList, Return false)).
Proof.
  apply (removeEdge_outcomes (AdjacencyListOptions None None None) exampleOps exampleList 0 1 2).
  split; [reflexivity|]. split; vm_compute; reflexivity.
Defined.

(** [addNode] returns the number of earlier [addNode] calls as the new id
    and leaves the edges as they are, or throws "Node capacity overflow!". *)
Theorem addNode_outcomes (opts : Options) (ops : list Op) (s : AdjacencyList) :
  History opts ops s ->
  (exists s',
     AdjacencyList.addNode s = (s', Return (numNodes ops)) /\
     NodeTypeMap.nextId (_nodes s') = numNodes ops + 1 /\
     _edges s' = _edges s /\
     NodeTypeMap.count (_nodes s') = NodeTypeMap.count (_nodes s)) \/
  (exists s', AdjacencyList.addNode s = (s', Throw NodeCapacityOverflow)).
Proof.
  intros H. destruct (history_inv opts ops s H) as [I [N _]].
  destruct (addNode_spec s I) as [[s' [E [_ [N' [E' [C' _]]]]]]|E]; [left|right; exact E].
  exists s'. rewrite <- N. split; [exact E|]. split; [exact N'|]. split; [exact E'|exact C'].
Qed.

Lemma addNode_outcomes_witness :
  (exists s',
     AdjacencyList.addNode exampleList = (s', Return (numNodes exampleOps)) /\
     NodeTypeMap.nextId (_nodes s') = numNodes exampleOps + 1 /\
     _edges s' = _edges exampleList /\
     NodeTypeMap.count (_nodes s') = NodeTypeMap.count (_nodes exampleList)) \/
  (exists s', AdjacencyList.addNode exampleList = (s', Throw NodeCapacityOverflow)).
Proof.
  apply (addNode_outcomes (AdjacencyListOptions None None None) exampleOps exampleList).
  split; [reflexivity|]. split; vm_compute; reflexivity.
Defined.

(** [resizeEdges(size)], for a size between [MIN_CAPACITY] and
    [MAX_CAPACITY] that holds the edges of the list below the load factor,
    returns [true] and leaves a list with the same edges in the same order,
    an edge map of capacity [size] and no deleted record, or throws "Node
    capacity overflow!". *)
Theorem resizeEdges_keeps_edges (opts : Options) (ops : list Op) (s : AdjacencyList)
    (size : Z) :
  History opts ops s ->
  EdgeTypeMap.MIN_CAPACITY <= size <= EdgeTypeMap.MAX_CAPACITY ->
  10 * EdgeTypeMap.count (_edges s) <= 14 * size ->
  (exists s',
     AdjacencyList.resizeEdges size s = (s', Return true) /\
     AdjacencyList.getAllEdges s' = AdjacencyList.getAllEdges s /\
     EdgeTypeMap.capacity (_edges s') = size /\
     EdgeTypeMap.count (_edges s') = EdgeTypeMap.count (_edges s) /\
     EdgeTypeMap.deletes (_edges s') = 0 /\
     NodeTypeMap.nextId (_nodes s') = NodeTypeMap.nextId (_nodes s)) \/
  AdjacencyList.resizeEdges size s = (s, Throw NodeCapacityOverflow).
Proof.
  intros H Hsize Hload. destruct (history_inv opts ops s H) as [I _].
  pose proof (iv_edges s I) as OK.
  change EdgeTypeMap.MIN_CAPACITY with 2 in Hsize.
  change EdgeTypeMap.MAX_CAPACITY with EMAX in Hsize.
  unfold AdjacencyList.resizeEdges.
  change (EdgeTypeMap.count (_edges s)) with (cnt (_edges s)) in *.
  destruct (resizeEdgesWith_spec
              (AdjacencyList.addEdgeN (Z.to_nat (cnt (_edges s)))) s size
              (replay_ok s OK) I Hsize Hload) as [[s' [E RZ]]|E]; [left|right; exact E].
  exists s'. split; [exact E|].
  rewrite (getAllEdges_liveEdges s OK).
  rewrite (getAllEdges_liveEdges s' (iv_edges s' (rz_inv _ _ _ RZ))).
  split; [apply (rz_live _ _ _ RZ)|].
  destruct (rz_hdr _ _ _ RZ) as [C1 [C2 C3]].
  split; [exact C1|]. split; [exact C2|]. split; [exact C3|]. apply (rz_nid _ _ _ RZ).
Qed.

Lemma resizeEdges_keeps_edges_witness :
  (exists s',
     AdjacencyList.resizeEdges 5 exampleList = (s', Return true) /\
     AdjacencyList.getAllEdges s' = AdjacencyList.getAllEdges exampleList /\
     EdgeTypeMap.capacity (_edges s') = 5 /\
     EdgeTypeMap.count (_edges s') = EdgeTypeMap.count (_edges exampleList) /\
     EdgeTypeMap.deletes (_edges s') = 0 /\
     NodeTypeMap.nextId (_nodes s') = NodeTypeMap.nextId (_nodes exampleList)) \/
  AdjacencyList.resizeEdges 5 exampleList = (exampleList, Throw NodeCapacityOverflow).
Proof.
  apply (resizeEdges_keeps_edges (AdjacencyListOptions None None None) exampleOps exampleList 5).
  - split; [reflexivity|]. split; vm_compute; reflexivity.
  - vm_compute. split; discriminate.
  - vm_compute. discriminate.
Defined.

(** On the lists of histories, [deserialize(G.serialize())] returns a list
    with the arrays of [G]: every read operation returns on it what it
    returns on [G], and its snapshot is the snapshot of [G]. *)
Theorem history_roundtrip (opts : Options) (ops : list Op) (G : AdjacencyList) :
  History opts ops G ->
  exists G',
    AdjacencyList.deserialize (AdjacencyList.serialize G) = Return G' /\
    _nodes G' = _nodes G /\ _edges G' = _edges G /\
    sameReads G' G /\
    AdjacencyList.serialize G' = AdjacencyList.serialize G.
Proof.
  intros H. destruct (history_inv opts ops G H) as [I _].
  pose proof (iv_nodes G I) as NOK. pose proof (iv_edges G I) as OK.
  assert (Hn : SharedTypeMap.length NodeTypeMap.layout (_nodes G) = TA.length (_nodes G)).
  { rewrite (no_len _ NOK). unfold SharedTypeMap.length, SharedTypeMap.getLength.
    cbn [HEADER_SIZE ITEM_SIZE NodeTypeMap.layout]. unfold SharedTypeMap.BUCKET_SIZE.
    change (SharedTypeMap.capacity (_nodes G)) with (cap (_nodes G)). lia. }
  assert (He : SharedTypeMap.length EdgeTypeMap.layout (_edges G) = TA.length (_edges G)).
  { rewrite (eo_len _ OK). unfold SharedTypeMap.length, SharedTypeMap.getLength.
    cbn [HEADER_SIZE ITEM_SIZE EdgeTypeMap.layout]. unfold SharedTypeMap.BUCKET_SIZE.
    change (SharedTypeMap.capacity (_edges G)) with (cap (_edges G)). lia. }
  exists (mkAdjacencyList (_nodes G) (_edges G) Uint32Array). split.
  - unfold AdjacencyList.deserialize, AdjacencyList.serialize, AdjacencyList.create.
    unfold SharedTypeMap.ofData. rewrite Hn, He, !Z.eqb_refl. reflexivity.
  - split; [reflexivity|]. split; [reflexivity|].
    split; [apply sameReads_arrays; reflexivity | reflexivity].
Qed.

Lemma history_roundtrip_witness :
  exists G',
    AdjacencyList.deserialize (AdjacencyList.serialize exampleList) = Return G' /\
    _nodes G' = _nodes exampleList /\ _edges G' = _edges exampleList /\
    sameReads G' exampleList /\
    AdjacencyList.serialize G' = AdjacencyList.serialize exampleList.
Proof.
  apply (history_roundtrip (AdjacencyListOptions None None None) exampleOps exampleList).
  split; [reflexivity|]. split; vm_compute; reflexivity.
Defined.

(** [hasEdge] with an array of types returns [true] exactly when the list
    has the edge with one of the types. *)
Theorem hasEdge_any_type (opts : Options) (ops : list Op) (s : AdjacencyList)
    (from to : Z) (types : list Z) :
  History opts ops s ->
  exists b,
    AdjacencyList.hasEdge s from to (TypeArray types) = Return b /\
    (b = true <->
     exists type, In type types /\ In (mkEdge from to type) (AdjacencyList.getAllEdges s)).
Proof.
  intros H. destruct (history_inv opts ops s H) as [I _]. pose proof (iv_edges s I) as OK.
  rewrite (getAllEdges_liveEdges s OK). cbn [AdjacencyList.hasEdge].
  induction types as [|ty types IH]; cbn [AdjacencyList.some].
  - exists false. split; [reflexivity|]. split; [discriminate|]. intros [ty [[] _]].
  - destruct (hasEdge_spec s from to ty OK) as [b [Eb Hb]].
    cbn [AdjacencyList.hasEdge] in Eb. rewrite Eb. cbn [bindC].
    destruct b.
    + exists true. split; [reflexivity|]. split; [|reflexivity].
      intros _. exists ty. split; [left; reflexivity|]. apply Hb. reflexivity.
    + destruct IH as [b [E Hb']]. exists b. split; [exact E|]. rewrite Hb'. split.
      * intros [ty' [Hin Hl]]. exists ty'. split; [right; exact Hin|exact Hl].
      * intros [ty' [[->|Hin] Hl]]; [|exists ty'; auto].
        apply Hb in Hl. discriminate.
Qed.

Lemma hasEdge_any_type_witness :
  exists b,
    AdjacencyList.hasEdge exampleList 0 1 (TypeArray [5; 2]) = Return b /\
    (b = true <->
     exists type, In type [5; 2] /\ In (mkEdge 0 1 type) (AdjacencyList.getAllEdges exampleList)).
Proof.
  apply (hasEdge_any_type (AdjacencyListOptions None None None) exampleOps exampleList 0 1 [5; 2]).
  split; [reflexivity|]. split; vm_compute; reflexivity.
Defined.

(** * The capacities *)

(** [increaseNodeCapacity] doubles the capacity, and throws when the double
    is above [MAX_CAPACITY]. *)
Theorem increaseNodeCapacity_doubles (nodeCapacity : Z) :
  1 <= nodeCapacity ->
  AdjacencyList.increaseNodeCapacity nodeCapacity =
  if 2 * nodeCapacity <=? NodeTypeMap.MAX_CAPACITY then Return (2 * nodeCapacity)
  else Throw NodeCapacityOverflow.
Proof. intros H. apply increaseNodeCapacity_spec. exact H. Qed.

Lemma increaseNodeCapacity_doubles_witness :
  AdjacencyList.increaseNodeCapacity 2 =
  if 2 * 2 <=? NodeTypeMap.MAX_CAPACITY then Return (2 * 2) else Throw NodeCapacityOverflow.
Proof. apply (increaseNodeCapacity_doubles 2). lia. Defined.

(** [getNextEdgeCapacity], on the load of [count] edges in a map of capacity
    between [MIN_CAPACITY] and [MAX_CAPACITY], throws "Edge capacity
    overflow!" or returns a capacity in the same range: at least twice the
    old one above the load factor, at least half of it below the unload
    factor, and the old one in between. *)
Theorem getNextEdgeCapacity_bounds (this : TypedArray) (count : Z) :
  EdgeTypeMap.MIN_CAPACITY <= EdgeTypeMap.capacity this <= EdgeTypeMap.MAX_CAPACITY ->
  AdjacencyList.getNextEdgeCapacity (EdgeTypeMap.capacity this) count
    (EdgeTypeMap.getLoad this count) = Throw EdgeCapacityOverflow \/
  exists size,
    AdjacencyList.getNextEdgeCapacity (EdgeTypeMap.capacity this) count
      (EdgeTypeMap.getLoad this count) = Return size /\
    EdgeTypeMap.MIN_CAPACITY <= size <= EdgeTypeMap.MAX_CAPACITY /\
    (14 * EdgeTypeMap.capacity this < 10 * count -> 2 * EdgeTypeMap.capacity this <= size) /\
    (10 * count < 6 * EdgeTypeMap.capacity this -> EdgeTypeMap.capacity this <= 2 * size) /\
    (6 * EdgeTypeMap.capacity this <= 10 * count <= 14 * EdgeTypeMap.capacity this ->
     size = EdgeTypeMap.capacity this).
Proof. intros H. apply (getNextEdgeCapacity_spec this count). exact H. Qed.

Lemma getNextEdgeCapacity_bounds_witness :
  AdjacencyList.getNextEdgeCapacity (EdgeTypeMap.capacity tinyEdges) 3
    (EdgeTypeMap.getLoad tinyEdges 3) = Throw EdgeCapacityOverflow \/
  exists size,
    AdjacencyList.getNextEdgeCapacity (EdgeTypeMap.capacity tinyEdges) 3
      (EdgeTypeMap.getLoad tinyEdges 3) = Return size /\
    EdgeTypeMap.MIN_CAPACITY <= size <= EdgeTypeMap.MAX_CAPACITY /\
    (14 * EdgeTypeMap.capacity tinyEdges < 10 * 3 -> 2 * EdgeTypeMap.capacity tinyEdges <= size) /\
    (10 * 3 < 6 * EdgeTypeMap.capacity tinyEdges -> EdgeTypeMap.capacity tinyEdges <= 2 * size) /\
    (6 * EdgeTypeMap.capacity tinyEdges <= 10 * 3 <= 14 * EdgeTypeMap.capacity tinyEdges ->
     size = EdgeTypeMap.capacity tinyEdges).
Proof.
  apply (getNextEdgeCapacity_bounds tinyEdges 3). vm_compute. split; discriminate.
Defined.

(** * The hash and the buckets *)

(** [hash32shift] returns no negative number: the last step xors a 32-bit
    integer with its own arithmetic shift, which clears the sign. *)
Theorem hash32shift_nonnegative (key : Z) : 0 <= hash32shift key.
Proof. apply hash32shift_nonneg. Qed.

(** [SharedTypeMap.link] throws nothing. *)
Theorem link_never_throws (L : Layout) (this : TypedArray) (hash item type : Z) (e : Error) :
  SharedTypeMap.link L this hash item type <> Throw e.
Proof. apply link_returns. Qed.
